(** * DataFrameMLVisitors: a shallow embedding and its specification

    The visitors of [include/DataFrame/DataFrameMLVisitors.h] are embedded as
    functions over lists.  A C++ [double] is modelled by the type [double]
    below: either [NaN] or a finite value carried as a real number, so
    rounding and overflow are idealised away while the [NaN] tests and the
    [NaN] padding of the source stay visible.  [size_type] is a 64-bit
    unsigned integer, modelled in [Z] with its wrap-around written out; where
    a count or an index is a natural number, the products that can pass 2^64
    are taken modulo 2^64.  What a visitor reads and writes is followed in
    two models of memory: [Heap], cells at addresses, for the pointers kept
    by a view, and [Store], containers with positions, for the ranges a
    visitor is handed and the result it owns. *)

From Stdlib Require Import Reals Lra Lia List ZArith Bool Arith FinFun Permutation.
From ExtLib Require Import Structures.Monad Structures.MonadState
  Data.Monads.StateMonad.
Import ListNotations.

Set Implicit Arguments.

(* ====================================================================== *)
(** * Part I: definitions *)
(* ====================================================================== *)

(** ** Numeric model *)

Inductive double : Type :=
| NaN : double
| Fin : R -> double.

Declare Scope dbl_scope.
Delimit Scope dbl_scope with dbl.
Bind Scope dbl_scope with double.

(** Modelled from the spec: [is_nan__], a helper declared outside the
    sources at hand: the test that tells NaN from valid values. *)
Definition is_nan__ (x : double) : bool :=
  match x with NaN => true | Fin _ => false end.

Definition dlift2 (f : R -> R -> R) (x y : double) : double :=
  match x, y with
  | Fin a, Fin b => Fin (f a b)
  | _, _ => NaN
  end.

Definition dadd : double -> double -> double := dlift2 Rplus.
Definition dsub : double -> double -> double := dlift2 Rminus.
Definition dmul : double -> double -> double := dlift2 Rmult.

Definition dneg (x : double) : double :=
  match x with Fin a => Fin (- a) | NaN => NaN end.

(** Division: [0/0] is [NaN] as in IEEE 754.  A non-zero value over zero is
    an infinity in IEEE 754; finite values only are carried here, and the
    statements below keep every divisor away from zero. *)
Definition ddiv (x y : double) : double :=
  match x, y with
  | Fin a, Fin b => if Req_dec_T b 0 then NaN else Fin (a / b)
  | _, _ => NaN
  end.

(** [std::sqrt]: [NaN] on a negative argument. *)
Definition dsqrt (x : double) : double :=
  match x with
  | Fin a => if Rlt_dec a 0 then NaN else Fin (sqrt a)
  | NaN => NaN
  end.

(** [std::log]: [NaN] on a negative argument; the logarithm of zero is an
    infinity and is not carried (see [ddiv]). *)
Definition dlog (x : double) : double :=
  match x with
  | Fin a => if Rlt_dec 0 a then Fin (ln a) else NaN
  | NaN => NaN
  end.

(** Comparisons with [NaN] are false. *)
Definition dlt (x y : double) : bool :=
  match x, y with
  | Fin a, Fin b => if Rlt_dec a b then true else false
  | _, _ => false
  end.

Definition dgt (x y : double) : bool := dlt y x.

Notation "x + y" := (dadd x y) : dbl_scope.
Notation "x - y" := (dsub x y) : dbl_scope.
Notation "x * y" := (dmul x y) : dbl_scope.
Notation "x / y" := (ddiv x y) : dbl_scope.
Notation "- x" := (dneg x) : dbl_scope.

(** [size_type] arithmetic. *)
Definition size_bits : Z := 64.
Definition size_wrap (z : Z) : Z := z mod 2 ^ size_bits.

(** [a * b] on two [size_type] values held as natural numbers: the product
    modulo 2^64. *)
Definition size_mul (a b : nat) : nat :=
  Z.to_nat (size_wrap (Z.of_nat a * Z.of_nat b)).

(** [value_type(n)] for a [size_type] n. *)
Definition of_size (z : Z) : double := Fin (IZR z).

(** [std::numeric_limits<double>::max()]. *)
Definition DBL_MAX : R := (2 - / 2 ^ 52) * 2 ^ 1023.

(** The sum of a list of real numbers, for the statements. *)
Definition total (l : list R) : R := fold_right Rplus 0%R l.

(* ---------------------------------------------------------------------- *)
(** ** StatsVisitor (from DataFrameStatsVisitors.h) *)

Module StatsVisitor.

(** Modelled from the spec: [StatsVisitor], the generic statistics visitor
    supplying running mean and variance, is declared in
    DataFrameStatsVisitors.h, which is not part of the sources at hand.  It is
    a one-pass accumulator of the count, the mean and the sum of squared
    deviations; the variance is the sample variance (denominator [n - 1]),
    the only reading under which [s_xy / ((n-1) * var_x)] is a slope. *)
Record t : Type := mk {
  n_ : Z;
  m1_ : double;
  m2_ : double;
  skip_nan_ : bool
}.

Definition pre (s : t) : t :=
  {| n_ := 0; m1_ := Fin 0; m2_ := Fin 0; skip_nan_ := skip_nan_ s |}.

Definition visit (s : t) (val : double) : t :=
  if skip_nan_ s && is_nan__ val then s
  else
    let n1 := n_ s in
    let n := size_wrap (n1 + 1) in
    let delta := (val - m1_ s)%dbl in
    let delta_n := (delta / of_size n)%dbl in
    {| n_ := n;
       m1_ := (m1_ s + delta_n)%dbl;
       m2_ := (m2_ s + delta * delta_n * of_size n1)%dbl;
       skip_nan_ := skip_nan_ s |}.

Definition get_mean (s : t) : double := m1_ s.

Definition get_variance (s : t) : double :=
  (m2_ s / (of_size (n_ s) - Fin 1))%dbl.

Definition get_std (s : t) : double := dsqrt (get_variance s).

End StatsVisitor.

(* ---------------------------------------------------------------------- *)
(** ** SLRegressionVisitor: one pass simple linear regression *)

Module SLRegressionVisitor.

Record t : Type := mk {
  n_ : Z;
  s_xy_ : double;
  x_stats_ : StatsVisitor.t;
  y_stats_ : StatsVisitor.t;
  skip_nan_ : bool
}.

(** The constructor: [SLRegressionVisitor(bool skipnan = true)]. *)
Definition make (skipnan : bool) : t :=
  {| n_ := 0; s_xy_ := Fin 0;
     x_stats_ := StatsVisitor.mk 0 (Fin 0) (Fin 0) skipnan;
     y_stats_ := StatsVisitor.mk 0 (Fin 0) (Fin 0) skipnan;
     skip_nan_ := skipnan |}.

Definition pre (v : t) : t :=
  {| n_ := 0; s_xy_ := Fin 0;
     x_stats_ := StatsVisitor.pre (x_stats_ v);
     y_stats_ := StatsVisitor.pre (y_stats_ v);
     skip_nan_ := skip_nan_ v |}.

(** [operator() (idx, x, y)]; the index value is not looked at. *)
Definition visit (v : t) (x y : double) : t :=
  if skip_nan_ v && (is_nan__ x || is_nan__ y) then v
  else
    {| n_ := size_wrap (n_ v + 1);
       s_xy_ := (s_xy_ v +
                 (StatsVisitor.get_mean (x_stats_ v) - x) *
                 (StatsVisitor.get_mean (y_stats_ v) - y) *
                 of_size (n_ v) / of_size (size_wrap (n_ v + 1)))%dbl;
       x_stats_ := StatsVisitor.visit (x_stats_ v) x;
       y_stats_ := StatsVisitor.visit (y_stats_ v) y;
       skip_nan_ := skip_nan_ v |}.

(** Modelled from the spec: [PASS_DATA_ONE_BY_ONE_2], a macro of
    DataFrameStatsVisitors.h, which is not part of the sources at hand: the
    range form of [operator()], a single pass over the paired samples that
    hands them to the element form one pair at a time. *)
Fixpoint visit_range (v : t) (xs ys : list double) : t :=
  match xs, ys with
  | x :: xs', y :: ys' => visit_range (visit v x y) xs' ys'
  | _, _ => v
  end.

Definition post (v : t) : t := v.

Definition get_slope (v : t) : double :=
  let s_xx :=
    (StatsVisitor.get_variance (x_stats_ v) * of_size (size_wrap (n_ v - 1)))%dbl in
  (s_xy_ v / s_xx)%dbl.

Definition get_intercept (v : t) : double :=
  (StatsVisitor.get_mean (y_stats_ v)
   - get_slope v * StatsVisitor.get_mean (x_stats_ v))%dbl.

Definition get_corr (v : t) : double :=
  let t := (StatsVisitor.get_std (x_stats_ v) * StatsVisitor.get_std (y_stats_ v))%dbl in
  (s_xy_ v / (of_size (size_wrap (n_ v - 1)) * t))%dbl.

(** A full [pre] / apply / [post] cycle. *)
Definition run (skipnan : bool) (xs ys : list double) : t :=
  post (visit_range (pre (make skipnan)) xs ys).

(** The columns of the documented scenario. *)
Definition slr_xs : list double := [Fin 1; Fin 2; Fin 3; Fin 4].
Definition slr_ys : list double := [Fin 2; Fin 4; Fin 6; Fin 8].

(** [get_count]. *)
Definition get_count (v : t) : Z := n_ v.

(** The pairs the element form does not pass over when [skip_nan_] is set:
    those neither of whose values is NaN. *)
Definition complete (p : double * double) : bool :=
  negb (is_nan__ (fst p) || is_nan__ (snd p)).

Definition complete_pairs (xs ys : list double) : list (double * double) :=
  filter complete (combine xs ys).

(** *** Least squares, as the textbooks have it *)

Definition mean_of (l : list R) : R := (total l / INR (length l))%R.

(** The sum of the products of the deviations of x and y from their means. *)
Definition co_deviation (xs ys : list R) : R :=
  total (map (fun p => ((fst p - mean_of xs) * (snd p - mean_of ys))%R)
           (combine xs ys)).

(** Three points that lie on no line. *)
Definition rising_xs : list R := [1%R; 2%R; 4%R].
Definition rising_ys : list R := [3%R; 1%R; 2%R].

End SLRegressionVisitor.

(* ---------------------------------------------------------------------- *)
(** ** Vectors *)

(** [v[i] = x] on a [std::vector] or [std::array]; indexing is unchecked in
    the source, and an index past the end leaves the list as it is here. *)
Fixpoint vset (A : Type) (l : list A) (i : nat) (x : A) : list A :=
  match l, i with
  | [], _ => []
  | _ :: t, O => x :: t
  | h :: t, S j => h :: vset t j x
  end.

(** [*(column_begin + i)] and [v[i]] on doubles. *)
Definition at_ (l : list double) (i : nat) : double := nth i l NaN.

(** [std::max(a, b)] is [(a < b) ? b : a], [std::min(a, b)] is
    [(b < a) ? b : a]. *)
Definition dmax (a b : double) : double := if dlt a b then b else a.
Definition dmin (a b : double) : double := if dlt b a then b else a.

(* ---------------------------------------------------------------------- *)
(** ** KMeansVisitor *)

Module KMeansVisitor.

(** A cluster holds addresses: [PMean i] is [&result_[i]], inside the
    visitor, and [PCol a] is the address [a] of an element of the column. *)
Inductive ptr : Type :=
| PMean : nat -> ptr
| PCol : nat -> ptr.

Record t : Type := mk {
  K : nat;
  iter_num_ : nat;
  cc_ : bool;
  dfunc_ : double -> double -> double;
  result_ : list double;
  clusters_ : list (list ptr)
}.

(** The default distance function of the constructor. *)
Definition default_dfunc (x y : double) : double := ((x - y) * (x - y))%dbl.

Definition make (k num_of_iter : nat) (calc_clusters : bool)
  (f : double -> double -> double) : t :=
  {| K := k; iter_num_ := num_of_iter; cc_ := calc_clusters; dfunc_ := f;
     result_ := repeat (Fin 0) k; clusters_ := repeat [] k |}.

(** The convergence threshold [0.0000001]. *)
Definition epsilon : double := Fin (1 / 10000000).

Section Algorithm.

Variable dfunc : double -> double -> double.

(** Pick centroids as random points from the column: [draws] lists the
    values [rd_gen(gen)] returns, one per centroid; a NaN draw leaves the
    centroid as it was. *)
Fixpoint seed (column : list double) (means : list double) (draws : list nat)
  : list double :=
  match means, draws with
  | k_mean :: means', d :: draws' =>
      let value := at_ column d in
      (if is_nan__ value then k_mean else value) :: seed column means' draws'
  | _, _ => means
  end.

(** The loop over [cluster] that finds the nearest centroid of [value];
    [means] is the part of [result_] from index [cluster] on. *)
Fixpoint nearest_from (value : double) (means : list double) (cluster : nat)
  (best_distance : double) (best_cluster : nat) : nat :=
  match means with
  | [] => best_cluster
  | m :: means' =>
      let distance := dfunc value m in
      if dlt distance best_distance
      then nearest_from value means' (S cluster) distance cluster
      else nearest_from value means' (S cluster) best_distance best_cluster
  end.

Definition nearest (means : list double) (value : double) : nat :=
  nearest_from value means 0 (Fin DBL_MAX) 0.

(** The loop over [point]: sums and counts per cluster.  The vector
    [assignments] is written at [point] and read back at once; the value
    read is [best_cluster]. *)
Fixpoint assign (means : list double) (column : list double)
  (new_means counts : list double) : list double * list double :=
  match column with
  | [] => (new_means, counts)
  | value :: column' =>
      if is_nan__ value then assign means column' new_means counts
      else
        let cluster := nearest means value in
        assign means column'
          (vset new_means cluster (at_ new_means cluster + value)%dbl)
          (vset counts cluster (at_ counts cluster + Fin 1)%dbl)
  end.

(** The loop that divides sums by counts; [means], [new_means] and [counts]
    are the parts of the arrays from the current cluster on.  Returns the
    new centroids and the flag [done]. *)
Fixpoint update (means new_means counts : list double) (done : bool)
  : list double * bool :=
  match means, new_means, counts with
  | result :: means', sum :: new_means', c :: counts' =>
      let count := dmax (Fin 1) c in
      let value := (sum / count)%dbl in
      if dgt (dfunc value result) epsilon
      then let '(rest, d) := update means' new_means' counts' false in
           (value :: rest, d)
      else let '(rest, d) := update means' new_means' counts' done in
           (result :: rest, d)
  | _, _, _ => (means, done)
  end.

(** One pass of the main loop. *)
Definition iteration (column : list double) (means : list double)
  : list double * bool :=
  let k := length means in
  let '(new_means, counts) :=
    assign means column (repeat (Fin 0) k) (repeat (Fin 0) k) in
  update means new_means counts true.

(** The main loop, [iters] passes left. *)
Fixpoint main_loop (iters : nat) (column : list double) (means : list double)
  : list double :=
  match iters with
  | O => means
  | S iters' =>
      let '(means', done) := iteration column means in
      if done then means' else main_loop iters' column means'
  end.

Definition calc_k_means_ (iter_num : nat) (means : list double)
  (draws : list nat) (column : list double) : list double :=
  main_loop iter_num column (seed column means draws).

(** [calc_clusters_]: every cluster starts with the address of its centroid;
    every non-NaN element goes to the cluster of its nearest centroid.
    [min_idx] has no initial value in the source; it is 0 here. *)
Fixpoint min_idx_from (value : double) (means : list double) (i : nat)
  (min_dist : double) (min_idx : nat) : nat :=
  match means with
  | [] => min_idx
  | m :: means' =>
      let dist := dfunc value m in
      if dlt dist min_dist
      then min_idx_from value means' (S i) dist i
      else min_idx_from value means' (S i) min_dist min_idx
  end.

(** The loop over [j]; [value_addr] is the address [&value] of the head of
    [column]. *)
Fixpoint partition_from (means : list double) (column : list double)
  (value_addr : nat) (clusters : list (list ptr)) : list (list ptr) :=
  match column with
  | [] => clusters
  | value :: column' =>
      if is_nan__ value then partition_from means column' (S value_addr) clusters
      else
        let min_idx := min_idx_from value means 0 (Fin DBL_MAX) 0 in
        partition_from means column' (S value_addr)
          (vset clusters min_idx (nth min_idx clusters [] ++ [PCol value_addr]))
  end.

Definition calc_clusters_ (means : list double) (column_begin : nat)
  (column : list double) : list (list ptr) :=
  partition_from means column column_begin
    (map (fun i => [PMean i]) (seq 0 (length means))).

(** What [update] leaves in a slot. *)
Definition update_slot (result sum c : double) : double :=
  if dgt (dfunc (sum / dmax (Fin 1) c)%dbl result) epsilon
  then (sum / dmax (Fin 1) c)%dbl else result.

Definition slot_moves (result sum c : double) : bool :=
  dgt (dfunc (sum / dmax (Fin 1) c)%dbl result) epsilon.

(** *** The update rule in the words of the specification *)

(** The non-NaN points assigned to centroid [c]: those whose nearest
    centroid, under the distance function, is [c]. *)
Definition spec_assigned (means column : list double) (c : nat) : list double :=
  filter (fun value => negb (is_nan__ value) && Nat.eqb (nearest means value) c)
         column.

(** Their sum divided by [max(1, count)]. *)
Definition spec_candidate (means column : list double) (c : nat) : double :=
  let pts := spec_assigned means column c in
  (fold_left dadd pts (Fin 0) / dmax (Fin 1) (Fin (INR (length pts))))%dbl.

(** A centroid moves when its candidate lies more than [epsilon] from it. *)
Definition spec_moves (means column : list double) (c : nat) : bool :=
  dgt (dfunc (spec_candidate means column c) (at_ means c)) epsilon.

(** [k] passes of the main loop, none of them cut short. *)
Definition passes (k : nat) (column means : list double) : list double :=
  Nat.iter k (fun m => fst (iteration column m)) means.

End Algorithm.

(** The arithmetic mean of the non-NaN values of a column. *)
Definition non_nan (column : list double) : list double :=
  filter (fun value => negb (is_nan__ value)) column.

Definition spec_mean (column : list double) : double :=
  (fold_left dadd (non_nan column) (Fin 0)
   / Fin (INR (length (non_nan column))))%dbl.

(** A column whose mean lies within the threshold of its first element. *)
Definition close_column : list double := [Fin 0; Fin (2 / 10000)].

(** A column with a NaN in it. *)
Definition sample_column : list double := [Fin 1; NaN; Fin 3].

(** [operator()], on the values of the column that starts at address
    [column_begin]. *)
Definition call (v : t) (draws : list nat) (column_begin : nat)
  (column : list double) : t :=
  let means := calc_k_means_ (dfunc_ v) (iter_num_ v) (result_ v) draws column in
  {| K := K v; iter_num_ := iter_num_ v; cc_ := cc_ v; dfunc_ := dfunc_ v;
     result_ := means;
     clusters_ := if cc_ v then calc_clusters_ (dfunc_ v) means column_begin column
                  else clusters_ v |}.

Definition pre (v : t) : t :=
  {| K := K v; iter_num_ := iter_num_ v; cc_ := cc_ v; dfunc_ := dfunc_ v;
     result_ := result_ v; clusters_ := map (fun _ => []) (clusters_ v) |}.

End KMeansVisitor.

(* ---------------------------------------------------------------------- *)
(** ** AffinityPropVisitor *)

Module AffinityPropVisitor.

(** [result_] holds addresses of elements of the column.  Loop counters and
    vector indices are natural numbers: for a column of fewer than 2^32
    elements none of the index computations below wraps. *)
Record t : Type := mk {
  iter_num_ : nat;
  dfunc_ : double -> double -> double;
  dfactor_ : double;
  result_ : list nat
}.

Definition default_dfunc (x y : double) : double := ((x - y) * (x - y))%dbl.

Definition make (num_of_iter : nat) (f : double -> double -> double)
  (damping_factor : double) : t :=
  {| iter_num_ := num_of_iter; dfunc_ := f; dfactor_ := damping_factor;
     result_ := [] |}.

(** The subscript [(i * csize) + j - ((i * (i + 1)) >> 1)] into the packed
    upper triangle. *)
Definition simil_index (csize i j : nat) : nat :=
  i * csize + j - Nat.shiftr (i * (i + 1)) 1.

(** [if (a ^ b)]: the two indices differ. *)
Definition differ (a b : nat) : bool := negb (Nat.eqb (Nat.lxor a b) 0).

Section Algorithm.

Variable dfunc : double -> double -> double.
Variable dfactor : double.

(** The loop over [j] of [get_similarity_], for one [i]. *)
Definition similarity_row (column : list double) (csize i : nat)
  (st : list double * double) : list double * double :=
  fold_left
    (fun (st : list double * double) (j : nat) =>
       let dist := dneg (dfunc (at_ column i) (at_ column j)) in
       (vset (fst st) (simil_index csize i j) dist,
        if dlt dist (snd st) then dist else snd st))
    (seq (i + 1) (csize - (i + 1))) st.

(** For an empty column [csize - 1] wraps around and the outer loop of the
    source makes 2^64 - 1 turns, in none of which the inner loop has a turn
    to make: nothing is stored, as here. *)
Definition get_similarity_ (column : list double) (csize : nat) : list double :=
  let st :=
    fold_left (fun st i => similarity_row column csize i st)
      (seq 0 (csize - 1))
      (repeat (Fin 0) (Nat.div (csize * (csize + 1)) 2), Fin DBL_MAX) in
  fold_left (fun simil i => vset simil (simil_index csize i i) (snd st))
    (seq 0 csize) (fst st).

(** The loop over [jj] of the responsibility update. *)
Definition max_diff_loop (simil avail : list double) (csize i j : nat) : double :=
  fold_left
    (fun (max_diff : double) (jj : nat) =>
       if differ jj j then
         let value :=
           (at_ simil (simil_index csize i jj) + at_ avail (jj * csize + i))%dbl in
         if dgt value max_diff then value else max_diff
       else max_diff)
    (seq 0 csize) (Fin (- DBL_MAX)).

(** The value stored into [respon[j * csize + i]]. *)
Definition respon_entry (simil avail : list double) (csize i j : nat)
  (old : double) : double :=
  ((Fin 1 - dfactor)
   * (at_ simil (simil_index csize i j) - max_diff_loop simil avail csize i j)
   + dfactor * old)%dbl.

Definition update_respon (simil : list double) (csize : nat)
  (avail respon : list double) : list double :=
  fold_left
    (fun respon i =>
       fold_left
         (fun respon j =>
            vset respon (j * csize + i)
              (respon_entry simil avail csize i j (at_ respon (j * csize + i))))
         (seq 0 csize) respon)
    (seq 0 csize) respon.

(** [sum += std::max(0.0, respon[s1 + ii])] over a range of [ii]. *)
Definition sum_pos (respon : list double) (s1 : nat) (iis : list nat)
  (sum : double) : double :=
  fold_left (fun sum ii => (sum + dmax (Fin 0) (at_ respon (s1 + ii)))%dbl) iis sum.

(** Availability, diagonals first. *)
Definition update_avail_diag (csize : nat) (respon avail : list double)
  : list double :=
  fold_left
    (fun avail i =>
       let s1 := i * csize in
       let sum :=
         fold_left
           (fun sum ii =>
              if differ ii i
              then (sum + dmax (Fin 0) (at_ respon (s1 + ii)))%dbl else sum)
           (seq 0 csize) (Fin 0) in
       vset avail (s1 + i)
         ((Fin 1 - dfactor) * sum + dfactor * at_ avail (s1 + i))%dbl)
    (seq 0 csize) avail.

Definition update_avail_off (csize : nat) (respon avail : list double)
  : list double :=
  fold_left
    (fun avail i =>
       fold_left
         (fun avail j =>
            if differ i j then
              let s1 := j * csize in
              let max_i_j := Nat.max i j in
              let min_i_j := Nat.min i j in
              let sum := sum_pos respon s1 (seq 0 min_i_j) (Fin 0) in
              let sum :=
                sum_pos respon s1
                  (seq (min_i_j + 1) (max_i_j - (min_i_j + 1))) sum in
              let sum :=
                sum_pos respon s1
                  (seq (max_i_j + 1) (csize - (max_i_j + 1))) sum in
              vset avail (s1 + i)
                ((Fin 1 - dfactor) * dmin (Fin 0) (at_ respon (s1 + j) + sum)
                 + dfactor * at_ avail (s1 + i))%dbl
            else avail)
         (seq 0 csize) avail)
    (seq 0 csize) avail.

(** One pass of the loop over [m]; the state is [(avail, respon)]. *)
Definition pass (simil : list double) (csize : nat)
  (st : list double * list double) : list double * list double :=
  let respon := update_respon simil csize (fst st) (snd st) in
  let avail := update_avail_diag csize respon (fst st) in
  (update_avail_off csize respon avail, respon).

(** [resize(n, 0.0)]: new slots hold 0, slots beyond [n] are dropped. *)
Definition resize (l : list double) (n : nat) : list double :=
  firstn n l ++ repeat (Fin 0) (n - length l).

Definition get_avail_and_respon (iter_num : nat) (simil : list double)
  (csize : nat) (avail respon : list double) : list double * list double :=
  Nat.iter iter_num (pass simil csize)
    (resize avail (csize * csize), resize respon (csize * csize)).

(** The test [respon[i * col_s + i] + avail[i * col_s + i] > 0.0]. *)
Definition is_exemplar (col_s : nat) (avail respon : list double) (i : nat) : bool :=
  dgt (at_ respon (i * col_s + i) + at_ avail (i * col_s + i))%dbl (Fin 0).

(** The loop of [operator()] that collects the exemplars: it pushes the
    address [&*(column_begin + i)]. *)
Definition collect (column_begin col_s : nat) (avail respon : list double)
  (result : list nat) : list nat :=
  fold_left
    (fun result i =>
       if is_exemplar col_s avail respon i
       then result ++ [column_begin + i] else result)
    (seq 0 col_s) result.

(** [get_clusters], given the values [centers] the pointers of [result_]
    point at.  [min_idx] has no initial value in the source; it is 0 here. *)
Fixpoint center_from (j_val : double) (centers : list double) (i : nat)
  (min_dist : double) (min_idx : nat) : nat :=
  match centers with
  | [] => min_idx
  | c :: centers' =>
      let dist := dfunc j_val c in
      if dlt dist min_dist
      then center_from j_val centers' (S i) dist i
      else center_from j_val centers' (S i) min_dist min_idx
  end.

Fixpoint cluster_from (centers : list double) (column : list double)
  (j_addr : nat) (clusters : list (list nat)) : list (list nat) :=
  match column with
  | [] => clusters
  | j_val :: column' =>
      let min_idx := center_from j_val centers 0 (Fin DBL_MAX) 0 in
      cluster_from centers column' (S j_addr)
        (vset clusters min_idx (nth min_idx clusters [] ++ [j_addr]))
  end.

Definition get_clusters (centers : list double) (column_begin : nat)
  (column : list double) : list (list nat) :=
  let centers_size := length centers in
  if Nat.ltb 0 centers_size
  then cluster_from centers column column_begin (repeat [] centers_size)
  else [].

End Algorithm.

(** The availabilities and responsibilities [operator()] ends with. *)
Definition final_state (v : t) (column : list double)
  : list double * list double :=
  let col_s := length column in
  let simil := get_similarity_ (dfunc_ v) column col_s in
  get_avail_and_respon (dfactor_ v) (iter_num_ v) simil col_s [] [].

(** [operator()], on the values of the column that starts at address
    [column_begin]. *)
Definition call (v : t) (column_begin : nat) (column : list double) : t :=
  let col_s := length column in
  let st := final_state v column in
  {| iter_num_ := iter_num_ v; dfunc_ := dfunc_ v; dfactor_ := dfactor_ v;
     result_ := collect column_begin col_s (fst st) (snd st) (result_ v) |}.

(** Modelled from the spec: [DEFINE_PRE_POST], a macro of
    DataFrameStatsVisitors.h, which is not part of the sources at hand:
    [pre] resets the state, here the result. *)
Definition pre (v : t) : t :=
  {| iter_num_ := iter_num_ v; dfunc_ := dfunc_ v; dfactor_ := dfactor_ v;
     result_ := [] |}.

(** *** The responsibility update in the words of the specification *)

(** The similarity of two points of the column, whatever their order:
    the negated distance off the diagonal. *)
Definition spec_similarity (dfunc : double -> double -> double)
  (column : list double) (i k : nat) : double :=
  dneg (dfunc (at_ column (Nat.min i k)) (at_ column (Nat.max i k))).

(** The self-preference: the least similarity of two distinct points,
    the pairs taken in the order of the source. *)
Definition spec_preference (dfunc : double -> double -> double)
  (column : list double) (csize : nat) : double :=
  fold_left
    (fun (m : double) (p : nat * nat) =>
       if Nat.ltb (fst p) (snd p)
       then dmin m (spec_similarity dfunc column (fst p) (snd p)) else m)
    (list_prod (seq 0 csize) (seq 0 csize)) (Fin DBL_MAX).

(** s(i,k): the similarity of the pair off the diagonal, the
    self-preference on it. *)
Definition spec_s (dfunc : double -> double -> double)
  (column : list double) (csize i k : nat) : double :=
  if Nat.eqb i k then spec_preference dfunc column csize
  else spec_similarity dfunc column i k.

(** r(i,k) = (1 - damping) (s(i,k) - max over k' <> k of (s(i,k') + a(k',i)))
    + damping r_prev(i,k), with a(k',i) the availability slot
    [avail[k' * csize + i]]. *)
Definition spec_respon (dfunc : double -> double -> double) (dfactor : double)
  (column avail : list double) (csize i k : nat) (r_prev : double) : double :=
  let others := filter (fun k' => negb (Nat.eqb k' k)) (seq 0 csize) in
  let best :=
    fold_left dmax
      (map (fun k' => (spec_s dfunc column csize i k'
                       + at_ avail (k' * csize + i))%dbl) others)
      (Fin (- DBL_MAX)) in
  ((Fin 1 - dfactor) * (spec_s dfunc column csize i k - best)
   + dfactor * r_prev)%dbl.

(** Three points on a line, at 0, 1 and 3. *)
Definition three_points : list double := [Fin 0; Fin 1; Fin 3].

End AffinityPropVisitor.

(* ---------------------------------------------------------------------- *)
(** ** FastFourierTransVisitor *)

Module FastFourierTransVisitor.

(** [cplx_t]: a complex number as its real and imaginary parts. *)
Definition cplx_t : Type := (R * R)%type.

Definition C0 : cplx_t := (0%R, 0%R).
Definition Cadd (a b : cplx_t) : cplx_t := (fst a + fst b, snd a + snd b)%R.
Definition Csub (a b : cplx_t) : cplx_t := (fst a - fst b, snd a - snd b)%R.
Definition Cmul (a b : cplx_t) : cplx_t :=
  (fst a * fst b - snd a * snd b, fst a * snd b + snd a * fst b)%R.
(** [std::conj]. *)
Definition conj (a : cplx_t) : cplx_t := (fst a, - snd a)%R.
(** [v / r] for a real [r]. *)
Definition Cdiv_real (v : cplx_t) (r : R) : cplx_t := (fst v / r, snd v / r)%R.
(** [std::polar(rho, theta)]. *)
Definition polar (rho theta : R) : cplx_t := (rho * cos theta, rho * sin theta)%R.

(** [column[i]]. *)
Definition cat (column : list cplx_t) (i : nat) : cplx_t := nth i column C0.

(** [std::swap(column[i], column[j])]. *)
Definition swap (column : list cplx_t) (i j : nat) : list cplx_t :=
  vset (vset column i (cat column j)) j (cat column i).

Fixpoint reverse_bits_loop (width val result : nat) : nat :=
  match width with
  | O => result
  | S width' =>
      reverse_bits_loop width' (Nat.shiftr val 1)
        (Nat.lor (Nat.shiftl result 1) (Nat.land val 1))
  end.

Definition reverse_bits_ (val width : nat) : nat := reverse_bits_loop width val 0.

(** [for (i = col_s; i > 1; i >>= 1) levels += 1]; [col_s] turns of the
    loop are more than it can make. *)
Fixpoint levels_loop (fuel i levels : nat) : nat :=
  match fuel with
  | O => levels
  | S fuel' =>
      if Nat.ltb 1 i then levels_loop fuel' (Nat.shiftr i 1) (levels + 1)
      else levels
  end.

Definition levels_of (col_s : nat) : nat := levels_loop col_s col_s 0.

(** The trigonometric table of [fft_radix2_]. *)
Definition radix2_table (col_s : nat) (reverse : bool) : list cplx_t :=
  let two_pi := ((if reverse then 2 else - 2) * PI)%R in
  map (fun i => polar 1 (two_pi * INR i / INR col_s)) (seq 0 (col_s / 2)).

(** Bit-reversed addressing permutation. *)
Definition bit_reverse_permute (levels : nat) (column : list cplx_t) : list cplx_t :=
  fold_left
    (fun column i =>
       let rb := reverse_bits_ i levels in
       if Nat.ltb i rb then swap column i rb else column)
    (seq 0 (length column)) column.

(** The body of the innermost loop, at position [j] with table index [k]. *)
Definition butterfly (exp_table : list cplx_t) (half_size : nat)
  (column : list cplx_t) (jk : nat * nat) : list cplx_t :=
  let j := fst jk in
  let k := snd jk in
  let temp := Cmul (cat column (j + half_size)) (cat exp_table k) in
  let column := vset column (j + half_size) (Csub (cat column j) temp) in
  vset column j (Cadd (cat column j) temp).

(** The pairs [(j, k)] the two inner loops go through for a block size [s]:
    [i = 0, s, 2s, ...] below [col_s], and for each [i] the [half_size]
    positions [j = i, i + 1, ...] with [k = 0, table_step, ...]. *)
Definition butterfly_schedule (col_s s : nat) : list (nat * nat) :=
  let half_size := s / 2 in
  let table_step := col_s / s in
  flat_map
    (fun b => map (fun t => (b * s + t, t * table_step)) (seq 0 half_size))
    (seq 0 ((col_s + s - 1) / s)).

Definition stage (exp_table : list cplx_t) (col_s s : nat)
  (column : list cplx_t) : list cplx_t :=
  fold_left (butterfly exp_table (s / 2)) (butterfly_schedule col_s s) column.

(** [for (s = 2; s <= col_s; s *= 2)]; [s *= 2] wraps at 2^64, which it
    reaches only for a column of 2^63 elements: there [s] becomes 0, the
    source divides by it, and the turns made here stand for nothing. *)
Fixpoint stages (fuel : nat) (exp_table : list cplx_t) (col_s s : nat)
  (column : list cplx_t) : list cplx_t :=
  match fuel with
  | O => column
  | S fuel' =>
      if Nat.leb s col_s
      then stages fuel' exp_table col_s (size_mul s 2)
             (stage exp_table col_s s column)
      else column
  end.

Definition fft_radix2_ (column : list cplx_t) (reverse : bool) : list cplx_t :=
  let col_s := length column in
  let levels := levels_of col_s in
  let exp_table := radix2_table col_s reverse in
  let column := bit_reverse_permute levels column in
  stages col_s exp_table col_s 2 column.

(** The butterflies [fft_radix2_] performs on [col_s] elements, in order:
    each with the [half_size] of its stage. *)
Fixpoint radix2_schedule (fuel col_s s : nat) : list (nat * (nat * nat)) :=
  match fuel with
  | O => []
  | S fuel' =>
      if Nat.leb s col_s
      then map (pair (s / 2)) (butterfly_schedule col_s s)
           ++ radix2_schedule fuel' col_s (size_mul s 2)
      else []
  end.

(** The trigonometric table of [fft_bluestein_]; [col_s * 2] and [i * i]
    are products of [size_type] values and wrap at 2^64, the second one as
    soon as [i] reaches 2^32. *)
Definition bluestein_table (col_s : nat) (reverse : bool) : list cplx_t :=
  let col_s_2 := size_mul col_s 2 in
  let pi := (if reverse then PI else - PI)%R in
  map (fun i => polar 1 (pi * INR ((size_mul i i) mod col_s_2) / INR col_s))
      (seq 0 col_s).

(** [while (m / 2 <= col_s) m *= 2]; [m *= 2] wraps at 2^64, which it
    reaches only for col_s >= 2^62: there [m] becomes 0 and the loop of the
    source does not end. *)
Fixpoint conv_length_loop (fuel col_s m : nat) : nat :=
  match fuel with
  | O => m
  | S fuel' =>
      if Nat.leb (m / 2) col_s
      then conv_length_loop fuel' col_s (size_mul m 2) else m
  end.

Definition conv_length (col_s : nat) : nat := conv_length_loop (col_s + 2) col_s 1.

(** [std::transform(a, b, out, std::multiplies)] over two ranges. *)
Fixpoint pointwise_mul (xs ys : list cplx_t) : list cplx_t :=
  match xs, ys with
  | x :: xs', y :: ys' => Cmul x y :: pointwise_mul xs' ys'
  | _, _ => []
  end.

Section Recursion.

(** [transform_], as seen from [convolve_] and [fft_bluestein_]. *)
Variable transform_ : list cplx_t -> bool -> list cplx_t.

Definition convolve_ (xvec yvec : list cplx_t) : list cplx_t :=
  let xvec := transform_ xvec false in
  let yvec := transform_ yvec false in
  let xvec := pointwise_mul xvec yvec in
  let xvec := transform_ xvec true in
  let col_s := INR (length xvec) in
  map (fun v => Cdiv_real v col_s) xvec.

Definition fft_bluestein_ (column : list cplx_t) (reverse : bool) : list cplx_t :=
  let col_s := length column in
  let exp_table := bluestein_table col_s reverse in
  let m := conv_length col_s in
  let xvec :=
    map (fun i => Cmul (cat column i) (cat exp_table i)) (seq 0 col_s)
    ++ repeat C0 (m - col_s) in
  let yvec := vset (repeat C0 m) 0 (cat exp_table 0) in
  let yvec :=
    fold_left
      (fun yvec i =>
         let c := conj (cat exp_table i) in
         vset (vset yvec (m - i) c) i c)
      (seq 1 (col_s - 1)) yvec in
  let conv := convolve_ xvec yvec in
  pointwise_mul exp_table conv.

End Recursion.

(** [col_s & (col_s - 1)) == 0], on 64-bit unsigned integers. *)
Definition is_power_of_2 (col_s : nat) : bool :=
  Z.eqb (Z.land (Z.of_nat col_s) (size_wrap (Z.of_nat col_s - 1))) 0.

(** [transform_] calls [fft_bluestein_], which calls [convolve_], which
    calls [transform_] again; [depth] bounds the nesting. *)
Fixpoint transform_depth (depth : nat) (column : list cplx_t) (reverse : bool)
  : list cplx_t :=
  match depth with
  | O => column
  | S depth' =>
      let col_s := length column in
      if Nat.eqb col_s 0 then column
      else if is_power_of_2 col_s then fft_radix2_ column reverse
      else fft_bluestein_ (transform_depth depth') column reverse
  end.

(** A convolution length is a power of two: the nesting never exceeds two. *)
Definition transform_ (column : list cplx_t) (reverse : bool) : list cplx_t :=
  transform_depth 2 column reverse.

Definition itransform_ (column : list cplx_t) : list cplx_t :=
  let column := map conj column in
  let col_s := length column in
  let column :=
    if is_power_of_2 col_s then fft_radix2_ column false
    else fft_bluestein_ transform_ column false in
  let column := map conj column in
  map (fun v => Cdiv_real v (INR col_s)) column.

Record t : Type := mk {
  inverse_ : bool;
  result_ : list cplx_t
}.

(** [operator()] on a column of complex values. *)
Definition call (v : t) (column : list cplx_t) : t :=
  let result := map (fun c : cplx_t => c) column in
  {| inverse_ := inverse_ v;
     result_ := if inverse_ v then itransform_ result else transform_ result false |}.

(** [operator()] on a column of real values. *)
Definition call_real (v : t) (column : list R) : t :=
  let result := map (fun x : R => (x, 0%R)) column in
  {| inverse_ := inverse_ v;
     result_ := if inverse_ v then itransform_ result else transform_ result false |}.

(** *** The discrete Fourier transform *)

(** The sum of [f 0 ... f (n - 1)]. *)
Fixpoint Csum (f : nat -> cplx_t) (n : nat) : cplx_t :=
  match n with
  | O => C0
  | S n' => Cadd (Csum f n') (f n')
  end.

(** X_k = sum over j of x_j e^(sign 2 pi i j k / n), the sign negative for
    the forward transform. *)
Definition dft (reverse : bool) (x : list cplx_t) : list cplx_t :=
  let n := length x in
  let two_pi := ((if reverse then 2 else - 2) * PI)%R in
  map (fun k =>
         Csum (fun j => Cmul (cat x j)
                          (polar 1 (two_pi * INR (j * k) / INR n))) n)
      (seq 0 n).

(** *** Notions the proofs are stated with *)

Definition Cone : cplx_t := (1%R, 0%R).

(** The root of unity e^(2 pi i e / n). *)
Definition root (n : nat) (e : Z) : cplx_t := polar 1 (2 * PI * IZR e / INR n)%R.

(** The sign of the exponent: negative forward, positive in reverse. *)
Definition sign_of (reverse : bool) : Z := if reverse then 1%Z else (-1)%Z.

(** The transform of a sequence given as a function, at frequency [k]. *)
Definition dft_at (sgn : Z) (n : nat) (x : nat -> cplx_t) (k : nat) : cplx_t :=
  Csum (fun j => Cmul (x j) (root n (sgn * Z.of_nat (j * k)))) n.

(** The transform of length [s] of the subsequence
    x(r), x(r + d), x(r + 2d), ... *)
Definition sub_dft (sgn : Z) (x : nat -> cplx_t) (s d r t : nat) : cplx_t :=
  Csum (fun u => Cmul (x (r + u * d)%nat) (root s (sgn * Z.of_nat (u * t)))) s.

(** After the stages of block size up to 2^l, block [b] of the column holds
    the transform of the subsequence of stride 2^m that starts at the
    bit-reversal of [b]. *)
Definition stage_inv (sgn : Z) (x : nat -> cplx_t) (l m : nat)
  (column : list cplx_t) : Prop :=
  forall b t, (b < 2 ^ m)%nat -> (t < 2 ^ l)%nat ->
    cat column (b * 2 ^ l + t)
    = sub_dft sgn x (2 ^ l) (2 ^ m) (reverse_bits_ b m) t.

(** The index that pairs with [j] in the cyclic convolution at [k]. *)
Definition cyc (m k j : nat) : nat := ((k + m - j) mod m)%nat.

(** The chirp e^(sign pi i e^2 / n). *)
Definition chirp (reverse : bool) (n : nat) (e : Z) : cplx_t :=
  root (2 * n) (sign_of reverse * (e * e)).

(** A column of three values, a length that is not a power of two. *)
Definition ramp : list cplx_t := [(1%R, 0%R); (2%R, 0%R); (3%R, 0%R)].

(** The first index whose square does not fit [size_type], 2^32, and the
    least length of a column that has an element there. *)
Definition overflow_index : nat := Z.to_nat (2 ^ 32).
Definition overflow_length : nat := S overflow_index.

(** A column of [n] values: 1 at position 1, 0 everywhere else. *)
Definition impulse (n : nat) : list cplx_t :=
  map (fun j => if Nat.eqb j 1 then Cone else C0) (seq 0 n).

(** *** The getters *)

(** [std::norm]: the squared magnitude. *)
Definition norm (c : cplx_t) : R := (fst c * fst c + snd c * snd c)%R.

(** [std::arg]: [atan2] of the imaginary and the real part, quadrant by
    quadrant; the sign of a zero is not carried. *)
Definition arg (c : cplx_t) : R :=
  let x := fst c in
  let y := snd c in
  if Rlt_dec 0 x then atan (y / x)
  else if Rlt_dec x 0
       then (if Rle_dec 0 y then atan (y / x) + PI else atan (y / x) - PI)%R
       else if Rlt_dec 0 y then (PI / 2)%R
            else if Rlt_dec y 0 then (- (PI / 2))%R else 0%R.

(** The visitor with the two vectors its getters fill in. *)
Record visitor : Type := mk_visitor {
  core : t;
  magnitude_ : list R;
  angle_ : list R
}.

(** The constructor: [FastFourierTransVisitor(bool inverse = false)]. *)
Definition make (inverse : bool) : visitor := mk_visitor (mk inverse []) [] [].

Definition pre (v : visitor) : visitor :=
  mk_visitor (mk (inverse_ (core v)) []) [] [].

(** [operator()] swaps the new result in and leaves [magnitude_] and
    [angle_] as they are. *)
Definition call_v (v : visitor) (column : list cplx_t) : visitor :=
  mk_visitor (call (core v) column) (magnitude_ v) (angle_ v).

Definition get_result (v : visitor) : list cplx_t := result_ (core v).

(** [vector::empty]. *)
Definition empty (A : Type) (l : list A) : bool :=
  match l with [] => true | _ :: _ => false end.

(** [get_magnitude]: filled in from [result_] when empty, then returned;
    the getter gives the vector and the visitor it leaves. *)
Definition get_magnitude (v : visitor) : list R * visitor :=
  if empty (magnitude_ v)
  then
    let m :=
      fold_left (fun m citer => m ++ [sqrt (norm citer)])
        (result_ (core v)) (magnitude_ v) in
    (m, mk_visitor (core v) m (angle_ v))
  else (magnitude_ v, v).

Definition get_angle (v : visitor) : list R * visitor :=
  if empty (angle_ v)
  then
    let a :=
      fold_left (fun a citer => a ++ [arg citer]) (result_ (core v)) (angle_ v) in
    (a, mk_visitor (core v) (magnitude_ v) a)
  else (angle_ v, v).

(** A column of real values. *)
Definition real_ramp : list R := [1%R; 2%R; 3%R].

(** The combination [c * x + y] of two columns, element by element. *)
Definition axpy (c : cplx_t) (x y : list cplx_t) : list cplx_t :=
  map (fun p => Cadd (Cmul c (fst p)) (snd p)) (combine x y).

End FastFourierTransVisitor.

(* ---------------------------------------------------------------------- *)
(** ** SimpleRollAdopter over SumVisitor (from DataFrameStatsVisitors.h) *)

Module SimpleRollAdopter.

(** Modelled from the spec: [SumVisitor], declared in
    DataFrameStatsVisitors.h, which is not part of the sources at hand: the
    sum of the values it is given.  Whether it passes over NaN values is
    settled by its constructor's default; [skipnan] stands for it. *)
Definition sum (skipnan : bool) (xs : list double) : double :=
  fold_left
    (fun s x => if skipnan && is_nan__ x then s else (s + x)%dbl) xs (Fin 0).

(** Modelled from the spec: [SimpleRollAdopter<SumVisitor<T, I>, T, I, A>],
    declared in DataFrameStatsVisitors.h, which is not part of the sources at
    hand: the windowed sums of a column.  The result is as long as the
    column; position [i] holds the sum of the [roll_count] values that end
    at [i], and NaN where fewer than [roll_count] values are there. *)
Definition roll_sum (skipnan : bool) (roll_count : nat) (column : list double)
  : list double :=
  map (fun i =>
         if Nat.ltb (i + 1) roll_count then NaN
         else sum skipnan (firstn roll_count (skipn (i + 1 - roll_count) column)))
      (seq 0 (length column)).

End SimpleRollAdopter.

(* ---------------------------------------------------------------------- *)
(** ** EntropyVisitor *)

Module EntropyVisitor.

Record t : Type := mk {
  roll_count_ : nat;
  log_base_ : double;
  result_ : list double
}.

(** The constructor: [EntropyVisitor(roll_count, log_base = 2)]. *)
Definition make (roll_count : nat) (log_base : double) : t :=
  {| roll_count_ := roll_count; log_base_ := log_base; result_ := [] |}.

(** The loop that turns each windowed sum into the contribution
    [-val * log(val) / log(log_base_)] of its element. *)
Definition contributions (log_base : double) (column result : list double)
  : list double :=
  fold_left
    (fun result i =>
       let val := (at_ column i / at_ result i)%dbl in
       vset result i (- val * dlog val / dlog log_base)%dbl)
    (seq 0 (length column)) result.

(** [operator()]; [skipnan] is the default of [SumVisitor]'s constructor. *)
Definition call (skipnan : bool) (v : t) (column : list double) : t :=
  if Nat.eqb (roll_count_ v) 0 then v
  else
    let w := roll_count_ v in
    let result := SimpleRollAdopter.roll_sum skipnan w column in
    let result := contributions (log_base_ v) column result in
    let sums := SimpleRollAdopter.roll_sum skipnan w (skipn (w - 1) result) in
    let result :=
      fold_left (fun result i => vset result i NaN) (seq 0 (w - 1)) result in
    let result :=
      fold_left (fun result i => vset result (i + w - 1) (at_ sums i))
        (seq 0 (length sums)) result in
    {| roll_count_ := roll_count_ v; log_base_ := log_base_ v; result_ := result |}.

(** Three equal values. *)
Definition ones : list double := [Fin 1; Fin 1; Fin 1].

End EntropyVisitor.

(* ---------------------------------------------------------------------- *)
(** ** ImpurityVisitor *)

Module ImpurityVisitor.

(** Modelled from the spec: [impurity_type], an enumeration declared
    outside the sources at hand; its two values are the ones [operator()]
    tells apart. *)
Inductive impurity_type : Type :=
| gini_index : impurity_type
| info_entropy : impurity_type.

(** [std::log2]. *)
Definition dlog2 (x : double) : double := (dlog x / Fin (ln 2))%dbl.

(** [x == 0] on doubles. *)
Definition is_zero (x : double) : bool :=
  match x with
  | Fin a => if Req_dec_T a 0 then true else false
  | NaN => false
  end.

Section WithKey.

(** The element type, its [std::equal_to] and a value for reads the source
    does not check. *)
Variable T : Type.
Variable T_eqb : T -> T -> bool.
Variable T_default : T.

(** [map_t]: the frequency table, in insertion order. *)
Definition map_t : Type := list (T * double).

Record t : Type := mk {
  roll_count_ : nat;
  imt_ : impurity_type;
  result_ : list double
}.

(** [table.insert(std::pair(key, 0))]: no effect when the key is there. *)
Fixpoint insert (table : map_t) (key : T) : map_t :=
  match table with
  | [] => [(key, Fin 0)]
  | (k, c) :: table' =>
      if T_eqb k key then table else (k, c) :: insert table' key
  end.

(** [it->second += delta] on the entry of [key]. *)
Fixpoint adjust (table : map_t) (key : T) (delta : double) : map_t :=
  match table with
  | [] => []
  | (k, c) :: table' =>
      if T_eqb k key then (k, (c + delta)%dbl) :: table'
      else (k, c) :: adjust table' key delta
  end.

(** [table.erase(it)] when the count of [key] has come to 0. *)
Fixpoint erase_if_zero (table : map_t) (key : T) : map_t :=
  match table with
  | [] => []
  | (k, c) :: table' =>
      if T_eqb k key then (if is_zero c then table' else table)
      else (k, c) :: erase_if_zero table' key
  end.

Definition enter (table : map_t) (key : T) : map_t :=
  adjust (insert table key) key (Fin 1).

Definition leave (table : map_t) (key : T) : map_t :=
  erase_if_zero (adjust table key (- Fin 1)%dbl) key.

(** The impurity of the window the table stands for. *)
Definition measure (imt : impurity_type) (roll_count : nat) (table : map_t)
  : double :=
  match imt with
  | gini_index =>
      let sum :=
        fold_left
          (fun sum (e : T * double) =>
             let prob := (snd e / Fin (INR roll_count))%dbl in
             (sum + prob * prob)%dbl)
          table (Fin 0) in
      (Fin 1 - sum)%dbl
  | info_entropy =>
      let sum :=
        fold_left
          (fun sum (e : T * double) =>
             let prob := (snd e / Fin (INR roll_count))%dbl in
             (sum + prob * dlog2 prob)%dbl)
          table (Fin 0) in
      (- sum)%dbl
  end.

(** The main loop, from [i] on; it makes fewer than [col_s] turns. *)
Fixpoint roll (fuel : nat) (imt : impurity_type) (roll_count : nat)
  (column : list T) (i : nat) (table : map_t) (result : list double)
  : list double :=
  match fuel with
  | O => result
  | S fuel' =>
      if Nat.ltb i (length column) then
        let result := result ++ [measure imt roll_count table] in
        let roll_end := i + roll_count in
        if Nat.ltb (length column) roll_end then result
        else
          let table := leave table (nth (i - 1) column T_default) in
          let table := enter table (nth (roll_end - 1) column T_default) in
          roll fuel' imt roll_count column (i + 1) table result
      else result
  end.

(** [operator()]. *)
Definition call (v : t) (column : list T) : t :=
  let col_s := length column in
  if Nat.eqb (roll_count_ v) 0 || Nat.ltb col_s (roll_count_ v) then v
  else
    let table :=
      fold_left (fun table i => enter table (nth i column T_default))
        (seq 0 (roll_count_ v)) [] in
    {| roll_count_ := roll_count_ v; imt_ := imt_ v;
       result_ := roll col_s (imt_ v) (roll_count_ v) column 1 table [] |}.

(** *** The windows of a column *)

(** The [roll_count] elements from position [k] on. *)
Definition window (column : list T) (k roll_count : nat) : list T :=
  firstn roll_count (skipn k column).

(** The frequency table of a list, built from nothing. *)
Definition tally (l : list T) : map_t := fold_left enter l [].

(** How often [key] occurs in a list. *)
Definition occurrences (key : T) (l : list T) : nat :=
  length (filter (T_eqb key) l).

(** [table.find(key)]. *)
Fixpoint find (table : map_t) (key : T) : option double :=
  match table with
  | [] => None
  | (k, c) :: table' => if T_eqb k key then Some c else find table' key
  end.

(** The entry a table of the list [l] holds for [key]: none when [key] does
    not occur, its number of occurrences otherwise. *)
Definition count_of (key : T) (l : list T) : option double :=
  if Nat.eqb (occurrences key l) 0 then None
  else Some (Fin (INR (occurrences key l))).

(** A table that holds the counts of [l], one entry per key. *)
Definition tallied (table : map_t) (l : list T) : Prop :=
  NoDup (map fst table) /\ forall key, find table key = count_of key l.

End WithKey.

(** A column of three labels. *)
Definition labels : list Z := [1%Z; 2%Z; 3%Z].

End ImpurityVisitor.

(* ---------------------------------------------------------------------- *)
(** ** Element-wise functions of <cmath> *)

Definition dlift1 (f : R -> R) (x : double) : double :=
  match x with Fin a => Fin (f a) | NaN => NaN end.

Definition dexp : double -> double := dlift1 exp.
Definition dtanh : double -> double := dlift1 tanh.
Definition datan : double -> double := dlift1 atan.
Definition dsinh : double -> double := dlift1 sinh.
Definition dcosh : double -> double := dlift1 cosh.
Definition dfabs : double -> double := dlift1 Rabs.

(** [x <= y] and [x >= y]; false when either side is NaN. *)
Definition dle (x y : double) : bool :=
  match x, y with
  | Fin a, Fin b => if Rle_dec a b then true else false
  | _, _ => false
  end.

Definition dge (x y : double) : bool := dle y x.

(* ---------------------------------------------------------------------- *)
(** ** SigmoidVisitor *)

Module SigmoidVisitor.

(** Modelled from the spec: [sigmoid_type], an enumeration declared
    outside the sources at hand; its values are the ones [operator()] tells
    apart. *)
Inductive sigmoid_type : Type :=
| logistic | algebraic | hyperbolic_tan | arc_tan | error_function
| gudermannian | smoothstep.

Record t : Type := mk {
  result_ : list double;
  sigmoid_type_ : sigmoid_type
}.

Section WithErf.

(** [std::erf], which the standard library of real numbers does not have. *)
Variable erf : R -> R.

Definition apply (st : sigmoid_type) (x : double) : double :=
  match st with
  | logistic => (Fin 1 / (Fin 1 + dexp (- x)))%dbl
  | algebraic => (Fin 1 / dsqrt (Fin 1 + x * x))%dbl
  | hyperbolic_tan => dtanh x
  | arc_tan => datan x
  | error_function => dlift1 erf x
  | gudermannian => datan (dsinh x)
  | smoothstep =>
      if dle x (Fin 0) then Fin 0
      else if dge x (Fin 1) then Fin 1
      else (x * x * (Fin 3 - Fin 2 * x))%dbl
  end.

(** [operator()]: one [push_back] per element. *)
Definition call (v : t) (column : list double) : t :=
  {| result_ := result_ v ++ map (apply (sigmoid_type_ v)) column;
     sigmoid_type_ := sigmoid_type_ v |}.

End WithErf.

Definition pre (v : t) : t :=
  {| result_ := []; sigmoid_type_ := sigmoid_type_ v |}.

End SigmoidVisitor.

(* ---------------------------------------------------------------------- *)
(** ** RectifyVisitor *)

Module RectifyVisitor.

(** Modelled from the spec: [rectify_type], an enumeration declared
    outside the sources at hand; its values are the ones [operator()] tells
    apart. *)
Inductive rectify_type : Type :=
| ReLU | param_ReLU | GeLU | SiLU | softplus | elu | mish | metallic_mean.

Record t : Type := mk {
  result_ : list double;
  param_ : double;
  rtype_ : rectify_type
}.

Definition softp_ (v p : double) : double :=
  (dlog (Fin 1 + dexp (p * v)) / p)%dbl.

Definition standard_normal_dist_ (v : double) : double :=
  (dexp (- (v * v) / Fin 2) / dsqrt (Fin 2 * Fin PI))%dbl.

Section WithErf.

Variable erf : R -> R.

Definition apply (v : t) (x : double) : double :=
  match rtype_ v with
  | ReLU => dmax (Fin 0) x
  | param_ReLU => dmax (x * param_ v)%dbl x
  | GeLU => (x * standard_normal_dist_ x)%dbl
  | SiLU => (x * SigmoidVisitor.apply erf SigmoidVisitor.logistic x)%dbl
  | softplus => softp_ x (param_ v)
  | elu => if dgt x (Fin 0) then x else (param_ v * (dexp x - Fin 1))%dbl
  | mish => (x * dtanh (softp_ x (param_ v)))%dbl
  | metallic_mean => ((x + dsqrt (x * x + Fin 4)) / Fin 2)%dbl
  end.

(** [operator()]. *)
Definition call (v : t) (column : list double) : t :=
  {| result_ := result_ v ++ map (apply v) column;
     param_ := param_ v; rtype_ := rtype_ v |}.

(** The SiLU branch step by step: a [SigmoidVisitor] of type [logistic] is
    built and run over the column ([pre], [operator()], [post]); then
    element [i] of the column times element [i] of its result is pushed, for
    every [i] below [col_s]. *)
Definition silu_branch (v : t) (column : list double) : t :=
  let sigm :=
    SigmoidVisitor.call erf
      (SigmoidVisitor.pre (SigmoidVisitor.mk [] SigmoidVisitor.logistic)) column in
  {| result_ :=
       fold_left
         (fun result i =>
            result ++ [(at_ column i * at_ (SigmoidVisitor.result_ sigm) i)%dbl])
         (seq 0 (length column)) (result_ v);
     param_ := param_ v; rtype_ := rtype_ v |}.

End WithErf.

End RectifyVisitor.

(* ---------------------------------------------------------------------- *)
(** ** PolicyLearningLossVisitor *)

Module PolicyLearningLossVisitor.

Record t : Type := mk { result_ : list double }.

(** Negative log likelihood, pair by pair. *)
Fixpoint losses (action_prob reward : list double) : list double :=
  match action_prob, reward with
  | ap :: action_prob', r :: reward' =>
      (- dlog ap * r)%dbl :: losses action_prob' reward'
  | _, _ => []
  end.

Definition call (v : t) (action_prob reward : list double) : t :=
  {| result_ := result_ v ++ losses action_prob reward |}.

End PolicyLearningLossVisitor.

(* ---------------------------------------------------------------------- *)
(** ** LossFunctionVisitor *)

Module LossFunctionVisitor.

(** Modelled from the spec: [loss_function_type], an enumeration declared
    outside the sources at hand; its values are the ones [operator()] tells
    apart. *)
Inductive loss_function_type : Type :=
| kullback_leibler | mean_abs_error | mean_sqr_error | mean_sqr_log_error
| cross_entropy | binary_cross_entropy | categorical_hinge
| cosine_similarity | log_cosh.

Record t : Type := mk {
  result_ : double;
  lft_ : loss_function_type
}.

(** [std::transform_reduce(a, a_end, m, T(0), std::plus, f)]. *)
Fixpoint transform_reduce (f : double -> double -> double)
  (actual model : list double) (acc : double) : double :=
  match actual, model with
  | a :: actual', m :: model' => transform_reduce f actual' model' (acc + f a m)%dbl
  | _, _ => acc
  end.

(** Modelled from the spec: [DotProdVisitor], declared in
    DataFrameStatsVisitors.h, which is not part of the sources at hand: the
    dot product of two columns. *)
Definition dot_prod (xs ys : list double) : double :=
  transform_reduce dmul xs ys (Fin 0).

Definition loss (lft : loss_function_type) (actual model : list double) : double :=
  let col_s := Fin (INR (length actual)) in
  match lft with
  | kullback_leibler =>
      transform_reduce (fun a m => (a * dlog (a / m))%dbl) actual model (Fin 0)
  | mean_abs_error =>
      (transform_reduce (fun a m => dfabs (a - m)) actual model (Fin 0) / col_s)%dbl
  | mean_sqr_error =>
      (transform_reduce (fun a m => ((a - m) * (a - m))%dbl) actual model (Fin 0)
       / col_s)%dbl
  | mean_sqr_log_error =>
      (transform_reduce
         (fun a m =>
            let val := (dlog (Fin 1 + a) - dlog (Fin 1 + m))%dbl in
            (val * val)%dbl) actual model (Fin 0) / col_s)%dbl
  | cross_entropy =>
      (- (transform_reduce (fun a m => (a * dlog m)%dbl) actual model (Fin 0)
          / col_s))%dbl
  | binary_cross_entropy =>
      (transform_reduce
         (fun a m => (- (a * dlog m) + (Fin 1 - a) * dlog (Fin 1 - m))%dbl)
         actual model (Fin 0) / col_s)%dbl
  | categorical_hinge =>
      let neg := transform_reduce (fun a m => ((Fin 1 - a) * m)%dbl)
                   actual model (Fin 0) in
      let pos := transform_reduce (fun a m => (a * m)%dbl) actual model (Fin 0) in
      dmax (neg - pos + Fin 1)%dbl (Fin 0)
  | cosine_similarity =>
      let dot := dot_prod actual model in
      let a_mag := dsqrt (dot_prod actual actual) in
      let m_mag := dsqrt (dot_prod model model) in
      (dot / (a_mag * m_mag))%dbl
  | log_cosh =>
      (transform_reduce (fun a m => dlog (dcosh (m - a))) actual model (Fin 0)
       / col_s)%dbl
  end.

Definition call (v : t) (actual model : list double) : t :=
  {| result_ := loss (lft_ v) actual model; lft_ := lft_ v |}.

(** The sum, over the pairs of two columns of real numbers, of a function
    of the pair. *)
Definition pair_sum (g : R -> R -> R) (actual model : list R) : R :=
  total (map (fun p => g (fst p) (snd p)) (combine actual model)).

End LossFunctionVisitor.

(* ---------------------------------------------------------------------- *)
(** ** The caller's memory

    A visitor is handed iterators into columns the caller owns.  The memory
    below holds those columns: data cells and index labels, by address.  An
    iterator is an address, [*(column_begin + i)] is a load, and the
    [operator()] of a visitor is a computation in the state monad over the
    memory.  The pointers a [VectorPtrView] holds are addresses into it. *)

Module Heap.

Import MonadNotation.
Local Open Scope monad_scope.

Definition addr : Type := nat.

Record heap (T : Type) : Type := mk {
  cells : addr -> T;
  labels : addr -> Z
}.

Section Access.

Variable T : Type.

Definition load (p : addr) : state (heap T) T :=
  h <- get ;; ret (cells h p).

Definition load_label (p : addr) : state (heap T) Z :=
  h <- get ;; ret (labels h p).

(** [*p = x]; no visitor does this, a caller holding a view may. *)
Definition store (p : addr) (x : T) : state (heap T) unit :=
  h <- get ;;
  put {| cells := fun q => if Nat.eqb q p then x else cells h q;
         labels := labels h |}.

(** The values of [n] cells from [p] on. *)
Fixpoint load_range (p : addr) (n : nat) : state (heap T) (list T) :=
  match n with
  | O => ret []
  | S n' => x <- load p ;; xs <- load_range (S p) n' ;; ret (x :: xs)
  end.

(** [view[k]] on a [VectorPtrView]: the pointee of its k-th pointer. *)
Definition view_get (view : list addr) (k : nat) : state (heap T) T :=
  load (nth k view 0%nat).

(** A computation that leaves the memory as it found it. *)
Definition read_only (A : Type) (c : state (heap T) A) : Prop :=
  forall h, snd (runState c h) = h.

End Access.

Arguments load {T} p.
Arguments load_label {T} p.
Arguments store {T} p x.
Arguments load_range {T} p n.
Arguments view_get {T} view k.
Arguments read_only {T A} c.

(** Modelled from the spec: [GET_COL_SIZE], a macro of
    DataFrameStatsVisitors.h, which is not part of the sources at hand:
    [col_s] is the length of the range, [std::distance(column_begin,
    column_end)]. *)
Definition distance (range_begin range_end : addr) : nat := range_end - range_begin.

(** [operator()] of AffinityPropVisitor on the cells of the caller. *)
Definition affinity_call (v : AffinityPropVisitor.t)
  (idx_begin idx_end column_begin column_end : addr)
  : state (heap double) AffinityPropVisitor.t :=
  column <- load_range column_begin (distance column_begin column_end) ;;
  ret (AffinityPropVisitor.call v column_begin column).

End Heap.

(* ---------------------------------------------------------------------- *)
(** ** The containers the visitors read and write *)

(** A column of the caller, an index sequence and the result vector or array
    of a visitor are containers, each known by its identity; an iterator, a
    pointer or a reference to an element is a container with a position.
    The state holds the contents of every container whose elements have the
    type [T] of the column, so a range handed to [operator()] may be a range
    of the caller's or one inside the visitor itself: [get_result] of
    KMeansVisitor returns a reference to the array [result_] that is not
    const.  Vectors local to a call are values; scalar members and members
    of another element type are returned. *)

Module Store.

Import MonadNotation.
Local Open Scope monad_scope.

Definition cid : Type := nat.
Definition iter : Type := (cid * nat)%type.

Record store (T : Type) : Type := mk {
  elems : cid -> list T;
  labels : cid -> list Z
}.

(** [it + i]. *)
Definition advance (it : iter) (i : nat) : iter := (fst it, snd it + i)%nat.

(** Modelled from the spec: [GET_COL_SIZE], a macro of
    DataFrameStatsVisitors.h, which is not part of the sources at hand:
    [col_s] is the length of the range, [std::distance(column_begin,
    column_end)], both iterators being of one container. *)
Definition distance (range_begin range_end : iter) : nat :=
  snd range_end - snd range_begin.

Section Access.

Variable T : Type.

(** What a read past the end of a container gives; the source has no
    defined behaviour there. *)
Variable dflt : T.

(** [*it], read. *)
Definition deref (it : iter) : state (store T) T :=
  s <- get ;; ret (nth (snd it) (elems s (fst it)) dflt).

Definition deref_label (it : iter) : state (store T) Z :=
  s <- get ;; ret (nth (snd it) (labels s (fst it)) 0%Z).

(** [*it = x], through a reference, a pointer or an iterator that is not
    const. *)
Definition assign_elem (it : iter) (x : T) : state (store T) unit :=
  s <- get ;;
  put {| elems := fun c => if Nat.eqb c (fst it)
                           then vset (elems s c) (snd it) x else elems s c;
         labels := labels s |}.

(** [c.push_back(x)]. *)
Definition push_back (c : cid) (x : T) : state (store T) unit :=
  s <- get ;;
  put {| elems := fun d => if Nat.eqb d c then elems s d ++ [x] else elems s d;
         labels := labels s |}.

(** [c.swap(l)] with a local vector [l] that goes out of scope next: the
    container holds the contents of [l] from then on. *)
Definition swap_in (c : cid) (l : list T) : state (store T) unit :=
  s <- get ;;
  put {| elems := fun d => if Nat.eqb d c then l else elems s d;
         labels := labels s |}.

(** The values of the [n] elements from [it] on, read one by one. *)
Fixpoint read_range (it : iter) (n : nat) : state (store T) (list T) :=
  match n with
  | O => ret []
  | S n' => x <- deref it ;; xs <- read_range (advance it 1) n' ;; ret (x :: xs)
  end.

(** The values the pointers of a view point at. *)
Fixpoint read_all (ps : list iter) : state (store T) (list T) :=
  match ps with
  | [] => ret []
  | p :: ps' => x <- deref p ;; xs <- read_all ps' ;; ret (x :: xs)
  end.

(** [std::for_each(b, e, f)] and the loops [for (citer = b; citer < e;
    ++citer)], [n] elements left. *)
Fixpoint for_each (f : T -> state (store T) unit) (it : iter) (n : nat)
  : state (store T) unit :=
  match n with
  | O => ret tt
  | S n' => x <- deref it ;; _ <- f x ;; for_each f (advance it 1) n'
  end.

(** What a range holds in a state. *)
Definition values (s : store T) (range_begin range_end : iter) : list T :=
  map (fun i => nth (snd range_begin + i) (elems s (fst range_begin)) dflt)
      (seq 0 (distance range_begin range_end)).

(** A computation that changes no index sequence and no container but
    [self]. *)
Definition writes_only (A : Type) (self : cid) (c : state (store T) A) : Prop :=
  forall s,
    labels (snd (runState c s)) = labels s /\
    forall d, d <> self -> elems (snd (runState c s)) d = elems s d.

(** A computation that changes nothing at all. *)
Definition read_only (A : Type) (c : state (store T) A) : Prop :=
  forall s, snd (runState c s) = s.

End Access.

Arguments deref {T} dflt it.
Arguments deref_label {T} it.
Arguments assign_elem {T} it x.
Arguments push_back {T} c x.
Arguments swap_in {T} c l.
Arguments read_range {T} dflt it n.
Arguments read_all {T} dflt ps.
Arguments for_each {T} dflt f it n.
Arguments values {T} dflt s range_begin range_end.
Arguments writes_only {T A} self c.
Arguments read_only {T A} c.

(** *** SLRegressionVisitor *)

(** The range form of [operator()] (see [SLRegressionVisitor.visit_range]):
    the element form is called on [*idx], [*x] and [*y] in turn; the sums
    are scalar members of the visitor. *)
Fixpoint slr_loop (n : nat) (idx x y : iter) (v : SLRegressionVisitor.t)
  : state (store double) SLRegressionVisitor.t :=
  match n with
  | O => ret v
  | S n' =>
      _ <- deref_label idx ;;
      a <- deref NaN x ;;
      b <- deref NaN y ;;
      slr_loop n' (advance idx 1) (advance x 1) (advance y 1)
        (SLRegressionVisitor.visit v a b)
  end.

Definition slr_call (v : SLRegressionVisitor.t)
  (idx_begin idx_end x_begin x_end y_begin y_end : iter)
  : state (store double) SLRegressionVisitor.t :=
  slr_loop (Nat.min (distance x_begin x_end) (distance y_begin y_end))
    idx_begin x_begin y_begin v.

(** *** KMeansVisitor *)

Section KMeans.

Variable dfunc : double -> double -> double.

(** The array [result_] of the visitor. *)
Variable self : cid.

(** The loop [for (auto &k_mean : result_)]: [k_mean] is [result_[k]],
    [left] elements of the array are still to come. *)
Fixpoint seed (column_begin : iter) (k left : nat) (draws : list nat)
  : state (store double) unit :=
  match left, draws with
  | S left', d :: draws' =>
      value <- deref NaN (advance column_begin d) ;;
      _ <- (if is_nan__ value then ret tt else assign_elem (self, k) value) ;;
      seed column_begin (S k) left' draws'
  | _, _ => ret tt
  end.

(** The loop that divides sums by counts: [result] is a reference to
    [result_[cluster]], and [result = value] writes the array. *)
Fixpoint update (cluster : nat) (new_means counts : list double) (done : bool)
  : state (store double) bool :=
  match new_means, counts with
  | sum :: new_means', c :: counts' =>
      let count := dmax (Fin 1) c in
      let value := (sum / count)%dbl in
      result <- deref NaN (self, cluster) ;;
      if dgt (dfunc value result) KMeansVisitor.epsilon
      then _ <- assign_elem (self, cluster) value ;;
           update (S cluster) new_means' counts' false
      else update (S cluster) new_means' counts' done
  | _, _ => ret done
  end.

(** One pass of the main loop.  The loop over [point] reads the column and
    [result_] and writes the local arrays [new_means] and [counts] only
    (see [KMeansVisitor.assign]). *)
Definition iteration (K : nat) (column_begin : iter) (col_s : nat)
  : state (store double) bool :=
  means <- read_range NaN (self, 0%nat) K ;;
  column <- read_range NaN column_begin col_s ;;
  let '(new_means, counts) :=
    KMeansVisitor.assign dfunc means column
      (repeat (Fin 0) K) (repeat (Fin 0) K) in
  update 0 new_means counts true.

Fixpoint main_loop (iters K : nat) (column_begin : iter) (col_s : nat)
  : state (store double) unit :=
  match iters with
  | O => ret tt
  | S iters' =>
      done <- iteration K column_begin col_s ;;
      if (done : bool) then ret tt else main_loop iters' K column_begin col_s
  end.

Definition calc_k_means_ (K iter_num : nat) (draws : list nat)
  (column_begin : iter) (col_s : nat) : state (store double) unit :=
  _ <- seed column_begin 0 K draws ;;
  main_loop iter_num K column_begin col_s.

(** [calc_clusters_] reads [result_] and the column; the pointers go to the
    local [clusters], which [clusters_] takes by [swap].  [PCol a] is the
    element at position [a] of the container of the column. *)
Definition calc_clusters_ (K : nat) (column_begin : iter) (col_s : nat)
  : state (store double) (list (list KMeansVisitor.ptr)) :=
  means <- read_range NaN (self, 0%nat) K ;;
  column <- read_range NaN column_begin col_s ;;
  ret (KMeansVisitor.calc_clusters_ dfunc means (snd column_begin) column).

(** [operator()]; returns [clusters_]. *)
Definition kmeans_call (K iter_num : nat) (cc : bool)
  (clusters : list (list KMeansVisitor.ptr)) (draws : list nat)
  (idx_begin idx_end column_begin column_end : iter)
  : state (store double) (list (list KMeansVisitor.ptr)) :=
  let col_s := distance column_begin column_end in
  _ <- calc_k_means_ K iter_num draws column_begin col_s ;;
  if cc then calc_clusters_ K column_begin col_s else ret clusters.

End KMeans.

(** *** AffinityPropVisitor *)

(** [operator()]: the similarities, availabilities and responsibilities are
    local vectors, and [result_] takes pointers to elements of the column,
    held as their positions in its container. *)
Definition affinity_call (v : AffinityPropVisitor.t)
  (idx_begin idx_end column_begin column_end : iter)
  : state (store double) AffinityPropVisitor.t :=
  column <- read_range NaN column_begin (distance column_begin column_end) ;;
  ret (AffinityPropVisitor.call v (snd column_begin) column).

(** [get_clusters]: [result_[i]] reads through the pointers [view] that
    [operator()] stored; the clusters are a local vector, returned. *)
Definition affinity_get_clusters (dfunc : double -> double -> double)
  (view : list iter) (idx_begin idx_end column_begin column_end : iter)
  : state (store double) (list (list nat)) :=
  centers <- read_all NaN view ;;
  column <- read_range NaN column_begin (distance column_begin column_end) ;;
  ret (AffinityPropVisitor.get_clusters dfunc centers (snd column_begin) column).

(** *** FastFourierTransVisitor *)

(** [operator()] copies the column into the local [result], transforms it
    there, and [result_], the container [self], takes it by [swap]. *)
Definition fft_call (self : cid) (v : FastFourierTransVisitor.t)
  (idx_begin idx_end column_begin column_end : iter)
  : state (store FastFourierTransVisitor.cplx_t) unit :=
  column <- read_range FastFourierTransVisitor.C0 column_begin
              (distance column_begin column_end) ;;
  swap_in self
    (FastFourierTransVisitor.result_ (FastFourierTransVisitor.call v column)).

(** On a column of real numbers the result has another element type than
    the column; it is returned. *)
Definition fft_call_real (v : FastFourierTransVisitor.t)
  (idx_begin idx_end column_begin column_end : iter)
  : state (store R) FastFourierTransVisitor.t :=
  column <- read_range 0%R column_begin (distance column_begin column_end) ;;
  ret (FastFourierTransVisitor.call_real v column).

(** *** EntropyVisitor *)

(** [operator()] returns at once when [roll_count_] is 0; otherwise it works
    on the local [result] and the results of local visitors, and [result_],
    the container [self], takes [result] by [swap]. *)
Definition entropy_call (self : cid) (skipnan : bool) (v : EntropyVisitor.t)
  (idx_begin idx_end column_begin column_end : iter)
  : state (store double) unit :=
  if Nat.eqb (EntropyVisitor.roll_count_ v) 0 then ret tt
  else
    column <- read_range NaN column_begin (distance column_begin column_end) ;;
    swap_in self (EntropyVisitor.result_ (EntropyVisitor.call skipnan v column)).

(** *** ImpurityVisitor *)

(** The column holds values of a type [T]; the result is a vector of
    [double], filled as a local vector and taken by [swap]; it is
    returned. *)
Definition impurity_call (T : Type) (T_eqb : T -> T -> bool) (T_default : T)
  (v : ImpurityVisitor.t) (idx_begin idx_end column_begin column_end : iter)
  : state (store T) ImpurityVisitor.t :=
  column <- read_range T_default column_begin
              (distance column_begin column_end) ;;
  ret (ImpurityVisitor.call T_eqb T_default v column).

(** *** SigmoidVisitor *)

(** [operator()]: [reserve], then one of the seven loops, each of which
    reads [*citer] and pushes a value on [result_], the container [self]. *)
Definition sigmoid_call (erf : R -> R) (self : cid)
  (st : SigmoidVisitor.sigmoid_type)
  (idx_begin idx_end column_begin column_end : iter)
  : state (store double) unit :=
  for_each NaN (fun x => push_back self (SigmoidVisitor.apply erf st x))
    column_begin (distance column_begin column_end).

(** *** RectifyVisitor *)

(** The loop of the SiLU branch: [sigm] is the result of the local
    SigmoidVisitor, [i] the loop counter, [n] the passes left. *)
Fixpoint silu_loop (self : cid) (sigm : list double) (column_begin : iter)
  (i n : nat) : state (store double) unit :=
  match n with
  | O => ret tt
  | S n' =>
      x <- deref NaN (advance column_begin i) ;;
      _ <- push_back self (x * at_ sigm i)%dbl ;;
      silu_loop self sigm column_begin (S i) n'
  end.

(** [operator()]: [reserve], then [std::for_each] with a lambda that pushes
    on [result_], the container [self]; the SiLU branch runs a local
    SigmoidVisitor over the column first. *)
Definition rectify_call (erf : R -> R) (self : cid) (v : RectifyVisitor.t)
  (idx_begin idx_end column_begin column_end : iter)
  : state (store double) unit :=
  let col_s := distance column_begin column_end in
  match RectifyVisitor.rtype_ v with
  | RectifyVisitor.SiLU =>
      column <- read_range NaN column_begin col_s ;;
      let sigm :=
        SigmoidVisitor.result_
          (SigmoidVisitor.call erf
             (SigmoidVisitor.pre
                (SigmoidVisitor.mk [] SigmoidVisitor.logistic)) column) in
      silu_loop self sigm column_begin 0 col_s
  | _ =>
      for_each NaN (fun x => push_back self (RectifyVisitor.apply erf v x))
        column_begin col_s
  end.

(** *** PolicyLearningLossVisitor *)

(** [std::transform] over the two ranges with a [std::back_inserter] on
    [result_], the container [self]. *)
Fixpoint policy_loop (self : cid) (action_prob reward : iter) (n : nat)
  : state (store double) unit :=
  match n with
  | O => ret tt
  | S n' =>
      ap <- deref NaN action_prob ;;
      r <- deref NaN reward ;;
      _ <- push_back self (- dlog ap * r)%dbl ;;
      policy_loop self (advance action_prob 1) (advance reward 1) n'
  end.

Definition policy_loss_call (self : cid)
  (idx_begin idx_end action_prob_begin action_prob_end
   reward_begin reward_end : iter)
  : state (store double) unit :=
  policy_loop self action_prob_begin reward_begin
    (distance action_prob_begin action_prob_end).

(** *** LossFunctionVisitor *)

(** [operator()] reduces the two ranges to a scalar, the member [result_]. *)
Definition loss_call (v : LossFunctionVisitor.t)
  (idx_begin idx_end actual_begin actual_end model_begin model_end : iter)
  : state (store double) LossFunctionVisitor.t :=
  let col_s := distance actual_begin actual_end in
  actual <- read_range NaN actual_begin col_s ;;
  model <- read_range NaN model_begin col_s ;;
  ret (LossFunctionVisitor.call v actual model).

(** *** A visitor fed its own result *)

(** Two containers: 0 is the array [result_] of a KMeansVisitor with K = 2,
    as the constructor leaves it, 1 a column of the caller. *)
Definition two_containers : store double :=
  {| elems := fun c => match c with
                       | O => [Fin 0; Fin 0]
                       | S O => [Fin 1; Fin 3]
                       | _ => []
                       end;
     labels := fun _ => [] |}.

(** [v(idx, idx, col.begin(), col.end())] on the column of the caller, the
    draws being 0 and 1. *)
Definition first_call : state (store double) (list (list KMeansVisitor.ptr)) :=
  kmeans_call KMeansVisitor.default_dfunc 0 2 1 false [[]; []] [0; 1]%nat
    (2, 0)%nat (2, 0)%nat (1, 0)%nat (1, 2)%nat.

(** [v(idx, idx, v.get_result().begin(), v.get_result().end())]: the same
    visitor on its own centroids, both draws being 0. *)
Definition second_call : state (store double) (list (list KMeansVisitor.ptr)) :=
  kmeans_call KMeansVisitor.default_dfunc 0 2 1 false [[]; []] [0; 0]%nat
    (2, 0)%nat (2, 0)%nat (0, 0)%nat (0, 2)%nat.

End Store.

(* ====================================================================== *)
(** * Part II: theorems *)
(* ====================================================================== *)

Open Scope R_scope.

(** ** Arithmetic of the numeric model *)

Lemma ddiv_fin (a b : R) : b <> 0 -> ddiv (Fin a) (Fin b) = Fin (a / b).
Proof.
  intros Hb. unfold ddiv. destruct (Req_dec_T b 0) as [E | _]; [contradiction | reflexivity].
Qed.

Lemma dsqrt_fin (a : R) : 0 <= a -> dsqrt (Fin a) = Fin (sqrt a).
Proof.
  intros Ha. unfold dsqrt. destruct (Rlt_dec a 0) as [L | _]; [lra | reflexivity].
Qed.

Lemma dlog_fin (a : R) : 0 < a -> dlog (Fin a) = Fin (ln a).
Proof.
  intros Ha. unfold dlog. destruct (Rlt_dec 0 a) as [_ | N]; [reflexivity | contradiction].
Qed.

Lemma Fin_eq (a b : R) : a = b -> Fin a = Fin b.
Proof. intros ->; reflexivity. Qed.

Lemma size_wrap_small (z : Z) : (0 <= z < 2 ^ 64)%Z -> size_wrap z = z.
Proof. intros H. unfold size_wrap, size_bits. apply Z.mod_small; exact H. Qed.

Lemma size_mul_small (a b : nat) :
  (Z.of_nat a * Z.of_nat b < 2 ^ 64)%Z -> size_mul a b = (a * b)%nat.
Proof.
  intros H. unfold size_mul. rewrite size_wrap_small by lia.
  rewrite <- Nat2Z.inj_mul. apply Nat2Z.id.
Qed.

(** A power of two as an integer. *)
Lemma pow2_of_nat (k : nat) : Z.of_nat (2 ^ k) = (2 ^ Z.of_nat k)%Z.
Proof. rewrite Nat2Z.inj_pow. reflexivity. Qed.

Lemma pow2_lt_size (k : nat) : (k < 64)%nat -> (Z.of_nat (2 ^ k) < 2 ^ 64)%Z.
Proof.
  intros H. rewrite pow2_of_nat. apply Z.pow_lt_mono_r; lia.
Qed.

(** ** SLRegressionVisitor *)

Lemma stats_visit_fin (n : Z) (m1 m2 x : R) (b : bool) :
  (0 <= n < 2 ^ 64 - 1)%Z ->
  StatsVisitor.visit (StatsVisitor.mk n (Fin m1) (Fin m2) b) (Fin x) =
  StatsVisitor.mk (n + 1)
    (Fin (m1 + (x - m1) / IZR (n + 1)))
    (Fin (m2 + (x - m1) * ((x - m1) / IZR (n + 1)) * IZR n)) b.
Proof.
  intros Hn. unfold StatsVisitor.visit. cbn [StatsVisitor.skip_nan_ is_nan__ StatsVisitor.n_
    StatsVisitor.m1_ StatsVisitor.m2_].
  rewrite andb_false_r, size_wrap_small by lia.
  unfold of_size. cbn [dsub dlift2].
  rewrite ddiv_fin by (apply not_0_IZR; lia). reflexivity.
Qed.

Lemma slr_visit_fin (n : Z) (sxy x y mx vx my vy : R) (b : bool) :
  (0 <= n < 2 ^ 64 - 1)%Z ->
  SLRegressionVisitor.visit
    (SLRegressionVisitor.mk n (Fin sxy)
       (StatsVisitor.mk n (Fin mx) (Fin vx) b)
       (StatsVisitor.mk n (Fin my) (Fin vy) b) b) (Fin x) (Fin y) =
  SLRegressionVisitor.mk (n + 1)
    (Fin (sxy + (mx - x) * (my - y) * IZR n / IZR (n + 1)))
    (StatsVisitor.mk (n + 1)
       (Fin (mx + (x - mx) / IZR (n + 1)))
       (Fin (vx + (x - mx) * ((x - mx) / IZR (n + 1)) * IZR n)) b)
    (StatsVisitor.mk (n + 1)
       (Fin (my + (y - my) / IZR (n + 1)))
       (Fin (vy + (y - my) * ((y - my) / IZR (n + 1)) * IZR n)) b) b.
Proof.
  intros Hn. unfold SLRegressionVisitor.visit.
  cbn [SLRegressionVisitor.skip_nan_ is_nan__ SLRegressionVisitor.n_
       SLRegressionVisitor.s_xy_ SLRegressionVisitor.x_stats_
       SLRegressionVisitor.y_stats_ StatsVisitor.get_mean StatsVisitor.m1_ orb].
  rewrite andb_false_r, !stats_visit_fin, size_wrap_small by lia.
  unfold of_size. cbn [dsub dmul dlift2].
  rewrite ddiv_fin by (apply not_0_IZR; lia). reflexivity.
Qed.

Lemma slr_run_state (b : bool) :
  SLRegressionVisitor.run b SLRegressionVisitor.slr_xs SLRegressionVisitor.slr_ys =
  SLRegressionVisitor.mk 4 (Fin 10)
    (StatsVisitor.mk 4 (Fin (5 / 2)) (Fin 5) b)
    (StatsVisitor.mk 4 (Fin 5) (Fin 20) b) b.
Proof.
  unfold SLRegressionVisitor.run, SLRegressionVisitor.post, SLRegressionVisitor.pre,
    SLRegressionVisitor.make, StatsVisitor.pre,
    SLRegressionVisitor.slr_xs, SLRegressionVisitor.slr_ys.
  cbn [SLRegressionVisitor.visit_range SLRegressionVisitor.x_stats_
       SLRegressionVisitor.y_stats_ SLRegressionVisitor.skip_nan_ StatsVisitor.skip_nan_].
  rewrite !slr_visit_fin by lia.
  cbn [Z.add Pos.add Pos.succ].
  f_equal; [ | f_equal | f_equal ]; apply Fin_eq; field.
Qed.

(** C5.  Over x = [1,2,3,4] and y = [2,4,6,8], after a full pre / apply /
    post cycle the visitor holds n = 4, s_xy = 10, var_x = 5/3, and exposes
    slope = s_xy / ((n-1) * var_x) = 2, intercept = mean_y - slope * mean_x = 0
    and correlation = s_xy / ((n-1) * std_x * std_y) = 1. *)
Theorem slr_scenario :
  let v := SLRegressionVisitor.run true
             SLRegressionVisitor.slr_xs SLRegressionVisitor.slr_ys in
  let n := SLRegressionVisitor.n_ v in
  let s_xy := SLRegressionVisitor.s_xy_ v in
  let xs := SLRegressionVisitor.x_stats_ v in
  let ys := SLRegressionVisitor.y_stats_ v in
  SLRegressionVisitor.get_slope v
    = (s_xy / (of_size (n - 1) * StatsVisitor.get_variance xs))%dbl /\
  SLRegressionVisitor.get_slope v = Fin 2 /\
  SLRegressionVisitor.get_intercept v
    = (StatsVisitor.get_mean ys
       - SLRegressionVisitor.get_slope v * StatsVisitor.get_mean xs)%dbl /\
  SLRegressionVisitor.get_intercept v = Fin 0 /\
  SLRegressionVisitor.get_corr v
    = (s_xy / (of_size (n - 1)
               * (StatsVisitor.get_std xs * StatsVisitor.get_std ys)))%dbl /\
  SLRegressionVisitor.get_corr v = Fin 1.
Proof.
  cbv zeta. rewrite slr_run_state.
  assert (Hvx : StatsVisitor.get_variance (StatsVisitor.mk 4 (Fin (5 / 2)) (Fin 5) true)
                = Fin (5 / 3)).
  { unfold StatsVisitor.get_variance, of_size; cbn [StatsVisitor.m2_ StatsVisitor.n_ dsub dlift2].
    rewrite ddiv_fin by lra. apply Fin_eq; lra. }
  assert (Hvy : StatsVisitor.get_variance (StatsVisitor.mk 4 (Fin 5) (Fin 20) true)
                = Fin (20 / 3)).
  { unfold StatsVisitor.get_variance, of_size; cbn [StatsVisitor.m2_ StatsVisitor.n_ dsub dlift2].
    rewrite ddiv_fin by lra. apply Fin_eq; lra. }
  assert (Hsl : SLRegressionVisitor.get_slope
                  (SLRegressionVisitor.mk 4 (Fin 10)
                     (StatsVisitor.mk 4 (Fin (5 / 2)) (Fin 5) true)
                     (StatsVisitor.mk 4 (Fin 5) (Fin 20) true) true) = Fin 2).
  { unfold SLRegressionVisitor.get_slope.
    cbn [SLRegressionVisitor.x_stats_ SLRegressionVisitor.n_ SLRegressionVisitor.s_xy_].
    rewrite Hvx, size_wrap_small by lia. change (4 - 1)%Z with 3%Z.
    unfold of_size; cbn [dmul dlift2].
    rewrite ddiv_fin by lra. apply Fin_eq; lra. }
  assert (Hsq : sqrt (5 / 3) * sqrt (20 / 3) = 10 / 3).
  { rewrite <- sqrt_mult by lra.
    replace (5 / 3 * (20 / 3)) with (10 / 3 * (10 / 3)) by lra.
    apply sqrt_square; lra. }
  assert (Hco : SLRegressionVisitor.get_corr
                  (SLRegressionVisitor.mk 4 (Fin 10)
                     (StatsVisitor.mk 4 (Fin (5 / 2)) (Fin 5) true)
                     (StatsVisitor.mk 4 (Fin 5) (Fin 20) true) true) = Fin 1).
  { unfold SLRegressionVisitor.get_corr, StatsVisitor.get_std.
    cbn [SLRegressionVisitor.x_stats_ SLRegressionVisitor.y_stats_
         SLRegressionVisitor.n_ SLRegressionVisitor.s_xy_].
    rewrite Hvx, Hvy, size_wrap_small, !dsqrt_fin by (lia || lra).
    change (4 - 1)%Z with 3%Z.
    unfold of_size; cbn [dmul dlift2]. rewrite Hsq.
    rewrite ddiv_fin by lra. apply Fin_eq; lra. }
  cbn [SLRegressionVisitor.x_stats_ SLRegressionVisitor.y_stats_
       SLRegressionVisitor.n_ SLRegressionVisitor.s_xy_].
  change (4 - 1)%Z with 3%Z.
  refine (conj _ (conj Hsl (conj eq_refl (conj _ (conj _ Hco))))).
  - rewrite Hsl, Hvx. unfold of_size; cbn [dmul dlift2].
    rewrite ddiv_fin by lra. apply Fin_eq; lra.
  - unfold SLRegressionVisitor.get_intercept. rewrite Hsl.
    cbn [SLRegressionVisitor.x_stats_ SLRegressionVisitor.y_stats_ StatsVisitor.get_mean
         StatsVisitor.m1_ dmul dsub dlift2]. apply Fin_eq; lra.
  - rewrite Hco. unfold StatsVisitor.get_std. rewrite Hvx, Hvy, !dsqrt_fin by lra.
    unfold of_size; cbn [dmul dlift2]. rewrite Hsq.
    rewrite ddiv_fin by lra. apply Fin_eq; lra.
Qed.

(** ** Vectors *)

Lemma length_vset (A : Type) (l : list A) (i : nat) (x : A) :
  length (vset l i x) = length l.
Proof.
  revert i; induction l as [| h t IH]; intros [| j]; cbn; auto.
Qed.

Lemma nth_vset_eq (A : Type) (l : list A) (i : nat) (x d : A) :
  (i < length l)%nat -> nth i (vset l i x) d = x.
Proof.
  revert i; induction l as [| h t IH]; intros [| j] Hi; cbn in *; try lia; auto.
  apply IH; lia.
Qed.

Lemma nth_vset_ne (A : Type) (l : list A) (i j : nat) (x d : A) :
  i <> j -> nth j (vset l i x) d = nth j l d.
Proof.
  revert i j; induction l as [| h t IH]; intros [| i] [| j] Hij; cbn; auto; try lia.
Qed.

Lemma nth_vset (A : Type) (l : list A) (i j : nat) (x d : A) :
  (i < length l)%nat ->
  nth j (vset l i x) d = if Nat.eqb i j then x else nth j l d.
Proof.
  intros Hi. destruct (Nat.eqb_spec i j) as [-> | Hne].
  - apply nth_vset_eq; exact Hi.
  - apply nth_vset_ne; exact Hne.
Qed.

Lemma at_repeat (x : double) (k c : nat) : (c < k)%nat -> at_ (repeat x k) c = x.
Proof.
  revert c; induction k as [| k IH]; intros [| c] Hc; cbn; try lia; auto.
  apply IH; lia.
Qed.

Lemma at_vset (l : list double) (i j : nat) (x : double) :
  (i < length l)%nat ->
  at_ (vset l i x) j = if Nat.eqb i j then x else at_ l j.
Proof. unfold at_. apply nth_vset. Qed.

(** ** KMeansVisitor *)

Section KMeans.

Import KMeansVisitor.

Variable dfunc : double -> double -> double.

Lemma nearest_from_range (value : double) (means : list double) :
  forall cluster best_distance best_cluster,
    nearest_from dfunc value means cluster best_distance best_cluster = best_cluster \/
    (cluster <= nearest_from dfunc value means cluster best_distance best_cluster
     < cluster + length means)%nat.
Proof.
  induction means as [| m means IH]; intros cluster bd bc; cbn [nearest_from length].
  - left; reflexivity.
  - destruct (dlt (dfunc value m) bd).
    + right. destruct (IH (S cluster) (dfunc value m) cluster) as [-> | H]; lia.
    + destruct (IH (S cluster) bd bc) as [-> | H]; [left; reflexivity | right; lia].
Qed.

Lemma nearest_lt (value : double) (means : list double) :
  means <> [] -> (nearest dfunc means value < length means)%nat.
Proof.
  intros Hne. unfold nearest.
  destruct (nearest_from_range value means 0 (Fin DBL_MAX) 0) as [-> | H].
  - destruct means; [contradiction | cbn; lia].
  - lia.
Qed.

Lemma assign_spec (means column : list double) :
  forall new_means counts,
    length new_means = length means -> length counts = length means ->
    let r := assign dfunc means column new_means counts in
    length (fst r) = length means /\ length (snd r) = length means /\
    forall c, (c < length means)%nat ->
      at_ (fst r) c
        = fold_left dadd (spec_assigned dfunc means column c) (at_ new_means c) /\
      at_ (snd r) c
        = fold_left (fun a _ => (a + Fin 1)%dbl)
            (spec_assigned dfunc means column c) (at_ counts c).
Proof.
  induction column as [| value column IH]; intros nm cnt Hnm Hcnt; cbn [assign].
  - cbn. auto.
  - unfold spec_assigned; cbn [filter]. fold (spec_assigned dfunc means column).
    destruct (is_nan__ value); cbn [negb andb].
    + apply IH; assumption.
    + set (cl := nearest dfunc means value).
      specialize (IH (vset nm cl (at_ nm cl + value)%dbl)
                     (vset cnt cl (at_ cnt cl + Fin 1)%dbl)).
      rewrite !length_vset in IH. specialize (IH Hnm Hcnt).
      destruct IH as (L1 & L2 & IH). split; [exact L1 | split; [exact L2 |]].
      intros c Hc. destruct (IH c Hc) as [E1 E2]. rewrite E1, E2.
      assert (Hcl : (cl < length means)%nat).
      { apply nearest_lt. intros ->; cbn in Hc; lia. }
      rewrite !at_vset by lia.
      destruct (Nat.eqb_spec cl c) as [-> | Hne]; cbn [fold_left]; auto.
Qed.

Lemma count_fold (l : list double) (x : R) :
  fold_left (fun a _ => (a + Fin 1)%dbl) l (Fin x) = Fin (x + INR (length l)).
Proof.
  revert x; induction l as [| h t IH]; intros x.
  - cbn. apply Fin_eq; lra.
  - cbn [fold_left dadd dlift2]. rewrite IH. apply Fin_eq.
    change (length (h :: t)) with (S (length t)). rewrite S_INR. lra.
Qed.

Lemma update_spec (means : list double) :
  forall new_means counts done,
    length new_means = length means -> length counts = length means ->
    let r := update dfunc means new_means counts done in
    length (fst r) = length means /\
    (forall c, (c < length means)%nat ->
       at_ (fst r) c = update_slot dfunc (at_ means c) (at_ new_means c) (at_ counts c)) /\
    (snd r = true <->
     done = true /\
     forall c, (c < length means)%nat ->
       slot_moves dfunc (at_ means c) (at_ new_means c) (at_ counts c) = false).
Proof.
  induction means as [| m means IH]; intros nm cnt done Hnm Hcnt.
  - cbn. split; [reflexivity | split; [intros; lia |]].
    split; [intros ->; split; [reflexivity | intros; lia] | tauto].
  - destruct nm as [| s nm]; [discriminate |]. destruct cnt as [| k cnt]; [discriminate |].
    cbn [length] in Hnm, Hcnt.
    cbn [update].
    destruct (dgt (dfunc (s / dmax (Fin 1) k)%dbl m) epsilon) eqn:Emv.
    + destruct (IH nm cnt false ltac:(lia) ltac:(lia)) as (L & N & D).
      destruct (update dfunc means nm cnt false) as [rest d]; cbn [fst snd] in *.
      split; [cbn; lia | split].
      * intros [| c] Hc; cbn [at_ nth].
        -- unfold update_slot. rewrite Emv. reflexivity.
        -- apply N. cbn in Hc; lia.
      * split.
        -- intros Hd. apply D in Hd. destruct Hd; discriminate.
        -- intros [_ H]. specialize (H 0%nat ltac:(cbn; lia)).
           unfold slot_moves in H; cbn [at_ nth] in H. congruence.
    + destruct (IH nm cnt done ltac:(lia) ltac:(lia)) as (L & N & D).
      destruct (update dfunc means nm cnt done) as [rest d]; cbn [fst snd] in *.
      split; [cbn; lia | split].
      * intros [| c] Hc; cbn [at_ nth].
        -- unfold update_slot. rewrite Emv. reflexivity.
        -- apply N. cbn in Hc; lia.
      * rewrite D. split.
        -- intros [Hd H]. split; [exact Hd |].
           intros [| c] Hc; [exact Emv | apply H; cbn in Hc; lia].
        -- intros [Hd H]. split; [exact Hd |].
           intros c Hc. apply (H (S c)). cbn; lia.
Qed.

Lemma iteration_spec (column means : list double) :
  let r := iteration dfunc column means in
  length (fst r) = length means /\
  (forall c, (c < length means)%nat ->
     at_ (fst r) c = if spec_moves dfunc means column c
                     then spec_candidate dfunc means column c
                     else at_ means c) /\
  (snd r = true <->
   forall c, (c < length means)%nat -> spec_moves dfunc means column c = false).
Proof.
  unfold iteration.
  pose proof (assign_spec means column (repeat (Fin 0) (length means))
                (repeat (Fin 0) (length means))
                (repeat_length _ _) (repeat_length _ _)) as HA.
  destruct (assign dfunc means column (repeat (Fin 0) (length means))
              (repeat (Fin 0) (length means))) as [nm cnt].
  cbn [fst snd] in HA. destruct HA as (L1 & L2 & HA).
  destruct (update_spec means nm cnt true L1 L2) as (L & N & D).
  assert (Hslot : forall c, (c < length means)%nat ->
            (at_ nm c / dmax (Fin 1) (at_ cnt c))%dbl
            = spec_candidate dfunc means column c).
  { intros c Hc. destruct (HA c Hc) as [E1 E2]. rewrite E1, E2.
    rewrite !at_repeat by exact Hc. rewrite count_fold. unfold spec_candidate.
    rewrite Rplus_0_l. reflexivity. }
  split; [exact L | split].
  - intros c Hc. rewrite (N c Hc). unfold update_slot, spec_moves.
    rewrite (Hslot c Hc). reflexivity.
  - rewrite D. split.
    + intros [_ H] c Hc. specialize (H c Hc). unfold slot_moves in H.
      rewrite (Hslot c Hc) in H. exact H.
    + intros H. split; [reflexivity |]. intros c Hc. unfold slot_moves.
      rewrite (Hslot c Hc). apply H; exact Hc.
Qed.

Lemma main_loop_passes (column : list double) :
  forall iter_num means,
  exists k, (k <= iter_num)%nat /\
    main_loop dfunc iter_num column means = passes dfunc k column means /\
    (forall j, (S j < k)%nat ->
       snd (iteration dfunc column (passes dfunc j column means)) = false) /\
    ((k < iter_num)%nat ->
     exists j, k = S j /\
       snd (iteration dfunc column (passes dfunc j column means)) = true).
Proof.
  assert (Hshift : forall k m,
            passes dfunc (S k) column m
            = passes dfunc k column (fst (iteration dfunc column m))).
  { intros k m. unfold passes. rewrite Nat.iter_succ_r. reflexivity. }
  induction iter_num as [| n IH]; intros means.
  - exists 0%nat. cbn. repeat split; intros; lia.
  - cbn [main_loop]. destruct (iteration dfunc column means) as [means' done] eqn:E.
    destruct done.
    + exists 1%nat. split; [lia | split; [cbn; rewrite E; reflexivity | split]].
      * intros j Hj; lia.
      * intros _. exists 0%nat. split; [reflexivity |]. cbn. rewrite E. reflexivity.
    + destruct (IH means') as (k & Hk & Hm & Hbefore & Hstop).
      assert (Hm' : means' = fst (iteration dfunc column means)) by (rewrite E; reflexivity).
      exists (S k). split; [lia | split; [| split]].
      * rewrite Hshift, <- Hm'. exact Hm.
      * intros [| j] Hj.
        -- cbn. rewrite E. reflexivity.
        -- rewrite Hshift, <- Hm'. apply Hbefore. lia.
      * intros Hlt. destruct Hstop as (j & -> & Hj); [lia |].
        exists (S j). split; [reflexivity |]. rewrite Hshift, <- Hm'. exact Hj.
Qed.

(** The cluster loop returns the first centroid at the least distance. *)
Lemma nearest_from_spec (value : double) (means : list double) :
  forall (rd : nat -> R) cluster b best_cluster,
    (forall i, (i < length means)%nat -> dfunc value (at_ means i) = Fin (rd i)) ->
    let c := nearest_from dfunc value means cluster (Fin b) best_cluster in
    (c = best_cluster /\ forall i, (i < length means)%nat -> b <= rd i) \/
    (exists i, (i < length means)%nat /\ c = (cluster + i)%nat /\ rd i < b /\
               (forall i', (i' < length means)%nat -> rd i <= rd i') /\
               (forall i', (i' < i)%nat -> rd i < rd i')).
Proof.
  induction means as [| m means IH]; intros rd cluster b bc Hrd; cbn [nearest_from].
  - left. split; [reflexivity |]. intros i Hi. cbn in Hi. lia.
  - cbv zeta. pose proof (Hrd 0%nat ltac:(cbn; lia)) as H0. cbn [at_ nth] in H0.
    rewrite H0.
    assert (Hrd' : forall i, (i < length means)%nat ->
              dfunc value (at_ means i) = Fin (rd (S i))).
    { intros i Hi. apply (Hrd (S i)). cbn; lia. }
    unfold dlt. destruct (Rlt_dec (rd 0%nat) b) as [Hlt | Hge].
    + destruct (IH (fun i => rd (S i)) (S cluster) (rd 0%nat) cluster Hrd')
        as [[Hc Hall] | (i & Hi & Hc & Hlt' & Hmin & Hfirst)].
      * right. exists 0%nat. split; [cbn; lia |].
        split; [rewrite Hc; lia | split; [exact Hlt | split]].
        -- intros [| i'] Hi'; [lra | apply Hall; cbn in Hi'; lia].
        -- intros i' Hi'. lia.
      * right. exists (S i). split; [cbn; lia |].
        split; [rewrite Hc; lia | split; [lra | split]].
        -- intros [| i'] Hi'; [lra | apply Hmin; cbn in Hi'; lia].
        -- intros [| i'] Hi'; [exact Hlt' | apply Hfirst; lia].
    + destruct (IH (fun i => rd (S i)) (S cluster) b bc Hrd')
        as [[Hc Hall] | (i & Hi & Hc & Hlt' & Hmin & Hfirst)].
      * left. split; [exact Hc |].
        intros [| i'] Hi'; [lra | apply Hall; cbn in Hi'; lia].
      * right. exists (S i). split; [cbn; lia |].
        split; [rewrite Hc; lia | split; [exact Hlt' | split]].
        -- intros [| i'] Hi'; [lra | apply Hmin; cbn in Hi'; lia].
        -- intros [| i'] Hi'; [lra | apply Hfirst; lia].
Qed.

Lemma nearest_argmin (value : double) (means : list double) (rd : nat -> R) :
  means <> [] ->
  (forall i, (i < length means)%nat ->
     dfunc value (at_ means i) = Fin (rd i) /\ rd i < DBL_MAX) ->
  let c := nearest dfunc means value in
  (c < length means)%nat /\
  (forall i, (i < length means)%nat -> rd c <= rd i) /\
  (forall i, (i < c)%nat -> rd c < rd i).
Proof.
  intros Hne Hrd. cbv zeta. unfold nearest.
  destruct (@nearest_from_spec value means rd 0%nat DBL_MAX 0%nat)
    as [[_ Hall] | (i & Hi & Hc & _ & Hmin & Hfirst)].
  - intros i Hi. apply Hrd; exact Hi.
  - exfalso. destruct means as [| m means]; [contradiction |].
    specialize (Hall 0%nat ltac:(cbn; lia)).
    destruct (Hrd 0%nat ltac:(cbn; lia)) as [_ Hlt]. lra.
  - cbn [Nat.add] in Hc. rewrite Hc. auto.
Qed.

Lemma nearest_single (m value : double) : nearest dfunc [m] value = 0%nat.
Proof.
  unfold nearest; cbn [nearest_from]. destruct (dlt _ _); reflexivity.
Qed.

Lemma spec_assigned_single (m : double) (column : list double) :
  spec_assigned dfunc [m] column 0 = non_nan column.
Proof.
  unfold spec_assigned, non_nan. apply filter_ext. intros value.
  rewrite nearest_single. cbn. apply andb_true_r.
Qed.

Lemma dmax_count (n : nat) :
  (1 <= n)%nat -> dmax (Fin 1) (Fin (INR n)) = Fin (INR n).
Proof.
  intros Hn. unfold dmax, dlt. destruct (Rlt_dec 1 (INR n)) as [_ | Hge]; [reflexivity |].
  apply Fin_eq. apply le_INR in Hn. cbn in Hn. lra.
Qed.

Lemma spec_candidate_single (m : double) (column : list double) :
  non_nan column <> [] ->
  spec_candidate dfunc [m] column 0 = spec_mean column.
Proof.
  intros Hne. unfold spec_candidate, spec_mean. rewrite spec_assigned_single.
  rewrite dmax_count; [reflexivity |].
  destruct (non_nan column); [contradiction | cbn; lia].
Qed.

Lemma iteration_single (m : double) (column : list double) :
  non_nan column <> [] ->
  iteration dfunc column [m] =
  if dgt (dfunc (spec_mean column) m) epsilon
  then ([spec_mean column], false) else ([m], true).
Proof.
  intros Hne. destruct (iteration_spec column [m]) as (L & N & D).
  specialize (N 0%nat ltac:(cbn; lia)).
  assert (Hmv : spec_moves dfunc [m] column 0 = dgt (dfunc (spec_mean column) m) epsilon).
  { unfold spec_moves. rewrite spec_candidate_single by exact Hne. reflexivity. }
  rewrite Hmv, spec_candidate_single in N by exact Hne.
  destruct (iteration dfunc column [m]) as [means' done]; cbn [fst snd] in *.
  destruct means' as [| c [| c' rest]]; cbn in L; try lia.
  cbn [at_ nth] in N. subst c.
  destruct (dgt (dfunc (spec_mean column) m) epsilon) eqn:E.
  - f_equal. destruct done; [| reflexivity].
    destruct D as [D _]. specialize (D eq_refl 0%nat ltac:(cbn; lia)). congruence.
  - f_equal. destruct done; [reflexivity |].
    destruct D as [_ D]. apply D. intros [| c] Hc; [exact Hmv | cbn in Hc; lia].
Qed.

Lemma main_loop_at_mean (column : list double) (iters : nat) :
  non_nan column <> [] ->
  main_loop dfunc iters column [spec_mean column] = [spec_mean column].
Proof.
  intros Hne. induction iters as [| n IH]; [reflexivity |].
  cbn [main_loop]. rewrite iteration_single by exact Hne.
  destruct (dgt _ _); [exact IH | reflexivity].
Qed.

End KMeans.

(** C2 (as stated, refuted).  With one centroid at 0 and the column
    [0, 0.0002], the candidate 0.0001 lies within the threshold of the
    centroid, which is therefore left at 0: the centroid is not the sum of
    its points over their count after the pass. *)
Lemma kmeans_recompute_counterexample :
  ~ (forall c, (c < 1)%nat ->
       at_ (fst (KMeansVisitor.iteration KMeansVisitor.default_dfunc
                   KMeansVisitor.close_column [Fin 0])) c
       = KMeansVisitor.spec_candidate KMeansVisitor.default_dfunc
           [Fin 0] KMeansVisitor.close_column c).
Proof.
  intros H. specialize (H 0%nat ltac:(lia)).
  assert (Hne : KMeansVisitor.non_nan KMeansVisitor.close_column <> []) by (cbn; discriminate).
  rewrite iteration_single, spec_candidate_single in H by exact Hne.
  assert (Hmean : KMeansVisitor.spec_mean KMeansVisitor.close_column = Fin (1 / 10000)).
  { unfold KMeansVisitor.spec_mean. cbn [KMeansVisitor.non_nan KMeansVisitor.close_column
      filter is_nan__ negb fold_left dadd dlift2 length].
    rewrite ddiv_fin by (cbn; lra). apply Fin_eq. cbn. lra. }
  rewrite Hmean in H.
  assert (Hd : dgt (KMeansVisitor.default_dfunc (Fin (1 / 10000)) (Fin 0))
                   KMeansVisitor.epsilon = false).
  { unfold dgt, KMeansVisitor.default_dfunc, KMeansVisitor.epsilon.
    cbn [dsub dmul dlift2 dlt]. destruct (Rlt_dec _ _) as [L | _]; [lra | reflexivity]. }
  rewrite Hd in H. cbn in H. injection H as H. lra.
Qed.

(** C2 (amended).  One pass of the main loop computes, for each of the K
    centroids, the sum of the non-NaN points nearest to it divided by
    max(1, count); the centroid is replaced by that candidate exactly when
    the candidate lies more than 1e-7 from it under the distance function,
    and is kept otherwise; the pass reports done exactly when no centroid
    was replaced.  The nearest centroid of a point is the first one at the
    least distance, the distances being finite and below DBL_MAX.  The loop
    makes k <= iter_num passes: no pass before the last reports done, and
    k < iter_num only when the last pass does. *)
Theorem kmeans_iteration (dfunc : double -> double -> double)
  (column means : list double) (iter_num : nat) :
  (forall value (rd : nat -> R),
     means <> [] ->
     (forall i, (i < length means)%nat ->
        dfunc value (at_ means i) = Fin (rd i) /\ rd i < DBL_MAX) ->
     let c := KMeansVisitor.nearest dfunc means value in
     (c < length means)%nat /\
     (forall i, (i < length means)%nat -> rd c <= rd i) /\
     (forall i, (i < c)%nat -> rd c < rd i)) /\
  (let r := KMeansVisitor.iteration dfunc column means in
   length (fst r) = length means /\
   (forall c, (c < length means)%nat ->
      at_ (fst r) c = if KMeansVisitor.spec_moves dfunc means column c
                      then KMeansVisitor.spec_candidate dfunc means column c
                      else at_ means c) /\
   (snd r = true <->
    forall c, (c < length means)%nat ->
      KMeansVisitor.spec_moves dfunc means column c = false)) /\
  exists k, (k <= iter_num)%nat /\
    KMeansVisitor.main_loop dfunc iter_num column means
      = KMeansVisitor.passes dfunc k column means /\
    (forall j, (S j < k)%nat ->
       snd (KMeansVisitor.iteration dfunc column
              (KMeansVisitor.passes dfunc j column means)) = false) /\
    ((k < iter_num)%nat ->
     exists j, k = S j /\
       snd (KMeansVisitor.iteration dfunc column
              (KMeansVisitor.passes dfunc j column means)) = true).
Proof.
  split; [| split; [apply iteration_spec | apply main_loop_passes]].
  intros value rd Hne Hrd. apply nearest_argmin; assumption.
Qed.

(** C6.  With K = 1, a column holding at least one non-NaN value and an
    iteration cap of at least 1, whatever the seeding draw and the distance
    function, the single centroid ends as the arithmetic mean of the non-NaN
    values, unless the seeded centroid already lies within the 1e-7
    threshold of that mean, in which case it is left as seeded. *)
Theorem kmeans_single_mean (dfunc : double -> double -> double)
  (column : list double) (iter_num draw : nat) (c0 : double) :
  KMeansVisitor.non_nan column <> [] ->
  (1 <= iter_num)%nat ->
  exists start c,
    KMeansVisitor.seed column [c0] [draw] = [start] /\
    KMeansVisitor.calc_k_means_ dfunc iter_num [c0] [draw] column = [c] /\
    (c = KMeansVisitor.spec_mean column \/
     (c = start /\
      dgt (dfunc (KMeansVisitor.spec_mean column) start) KMeansVisitor.epsilon
      = false)).
Proof.
  intros Hne Hit. unfold KMeansVisitor.calc_k_means_.
  cbn [KMeansVisitor.seed].
  set (start := if is_nan__ (at_ column draw) then c0 else at_ column draw).
  exists start. destruct iter_num as [| n]; [lia |].
  cbn [KMeansVisitor.main_loop]. rewrite iteration_single by exact Hne.
  destruct (dgt _ _) eqn:E.
  - exists (KMeansVisitor.spec_mean column). rewrite main_loop_at_mean by exact Hne. auto.
  - exists start. auto.
Qed.

Lemma kmeans_single_mean_witness :
  exists start c,
    KMeansVisitor.seed KMeansVisitor.sample_column [Fin 0] [0%nat] = [start] /\
    KMeansVisitor.calc_k_means_ KMeansVisitor.default_dfunc 1 [Fin 0] [0%nat]
      KMeansVisitor.sample_column = [c] /\
    (c = KMeansVisitor.spec_mean KMeansVisitor.sample_column \/
     (c = start /\
      dgt (KMeansVisitor.default_dfunc
             (KMeansVisitor.spec_mean KMeansVisitor.sample_column) start)
          KMeansVisitor.epsilon = false)).
Proof.
  apply (@kmeans_single_mean KMeansVisitor.default_dfunc
           KMeansVisitor.sample_column 1 0 (Fin 0)).
  - cbn. discriminate.
  - lia.
Defined.

(** ** AffinityPropVisitor *)

Lemma DBL_MAX_large : 1000000 < DBL_MAX.
Proof.
  unfold DBL_MAX.
  assert (H52 : 1 <= 2 ^ 52) by (apply pow_R1_Rle; lra).
  assert (H1003 : 1 <= 2 ^ 1003) by (apply pow_R1_Rle; lra).
  assert (H1023 : 2 ^ 1023 = 2 ^ 20 * 2 ^ 1003) by (rewrite <- pow_add; reflexivity).
  assert (H20 : 2 ^ 20 = 1048576) by (cbn [pow]; lra).
  assert (Hinv : / 2 ^ 52 <= 1).
  { rewrite <- Rinv_1. apply Rinv_le_contravar; lra. }
  assert (Hinv' : 0 < / 2 ^ 52) by (apply Rinv_0_lt_compat; lra).
  rewrite H1023, H20. nra.
Qed.

Lemma differ_spec (a b : nat) : AffinityPropVisitor.differ a b = negb (Nat.eqb a b).
Proof.
  unfold AffinityPropVisitor.differ. f_equal.
  destruct (Nat.eqb_spec a b) as [-> | Hne].
  - rewrite Nat.lxor_nilpotent. reflexivity.
  - apply Nat.eqb_neq. intros H. apply Nat.lxor_eq in H. contradiction.
Qed.

Lemma collect_filter (P : nat -> bool) (l : list nat) :
  forall result,
    fold_left (fun result i => if P i then result ++ [i] else result) l result
    = result ++ filter P l.
Proof.
  induction l as [| i l IH]; intros result; cbn [fold_left filter].
  - symmetry; apply app_nil_r.
  - rewrite IH. destruct (P i); [rewrite <- app_assoc |]; reflexivity.
Qed.

(** A loop that overwrites pairwise distinct slots, each from its own old
    value. *)
Lemma fold_vset_at (Key : Type) (g : Key -> nat) (f : Key -> double -> double)
  (ks : list Key) :
  forall l0 : list double,
    (forall k, In k ks -> (g k < length l0)%nat) ->
    NoDup (map g ks) ->
    let r := fold_left (fun l k => vset l (g k) (f k (at_ l (g k)))) ks l0 in
    length r = length l0 /\
    (forall k, In k ks -> at_ r (g k) = f k (at_ l0 (g k))) /\
    (forall p, ~ In p (map g ks) -> at_ r p = at_ l0 p).
Proof.
  induction ks as [| k ks IH]; intros l0 Hin Hnd; cbn [fold_left].
  - cbn. repeat split; intros; tauto.
  - inversion Hnd as [| ? ? Hnotin Hnd']; subst.
    specialize (IH (vset l0 (g k) (f k (at_ l0 (g k))))).
    rewrite length_vset in IH.
    destruct IH as (L & E & O); [intros; apply Hin; right; assumption | exact Hnd' |].
    split; [exact L | split].
    + intros k' [<- | Hk'].
      * rewrite O by exact Hnotin. rewrite at_vset by (apply Hin; left; reflexivity).
        rewrite Nat.eqb_refl. reflexivity.
      * rewrite E by exact Hk'. f_equal.
        rewrite at_vset by (apply Hin; left; reflexivity).
        destruct (Nat.eqb_spec (g k) (g k')) as [Heq | _]; [| reflexivity].
        exfalso. apply Hnotin. rewrite Heq. apply in_map; exact Hk'.
    + intros p Hp. rewrite O by (intros H; apply Hp; right; exact H).
      rewrite at_vset by (apply Hin; left; reflexivity).
      destruct (Nat.eqb_spec (g k) p) as [Heq | _]; [| reflexivity].
      exfalso. apply Hp. left; exact Heq.
Qed.

(** Two nested loops are one loop over the pairs. *)
Lemma fold_nested (A : Type) (F : A -> nat -> nat -> A) (js : list nat) :
  forall (is_ : list nat) (a : A),
    fold_left (fun a i => fold_left (fun a j => F a i j) js a) is_ a
    = fold_left (fun a (p : nat * nat) => F a (fst p) (snd p)) (list_prod is_ js) a.
Proof.
  induction is_ as [| i is_ IH]; intros a; cbn [fold_left list_prod].
  - reflexivity.
  - rewrite fold_left_app, <- IH. f_equal.
    clear IH. revert a. induction js as [| j js IHj]; intros a; cbn [fold_left map].
    + reflexivity.
    + apply IHj.
Qed.

Lemma slot_injective (csize i j i' j' : nat) :
  (i < csize)%nat -> (i' < csize)%nat ->
  (j * csize + i = j' * csize + i')%nat -> i = i' /\ j = j'.
Proof.
  intros Hi Hi' H.
  assert (Hj : j = j').
  { destruct (Nat.lt_trichotomy j j') as [Hlt | [Heq | Hgt]]; [exfalso | exact Heq | exfalso]; nia. }
  subst j'. split; [lia | reflexivity].
Qed.

Lemma NoDup_list_prod (A B : Type) (l : list A) (l' : list B) :
  NoDup l -> NoDup l' -> NoDup (list_prod l l').
Proof.
  intros Hl Hl'. induction Hl as [| a l Hnotin Hl IH]; cbn [list_prod].
  - constructor.
  - apply NoDup_app.
    + apply Injective_map_NoDup; [| exact Hl']. intros x y H; congruence.
    + exact IH.
    + intros [x y] Hin Hin'. apply in_map_iff in Hin. destruct Hin as (b & Heq & _).
      injection Heq as <- _. apply in_prod_iff in Hin'. tauto.
Qed.

Lemma slots_nodup (csize : nat) :
  NoDup (map (fun p : nat * nat => (snd p * csize + fst p)%nat)
           (list_prod (seq 0 csize) (seq 0 csize))).
Proof.
  apply Injective_map_NoDup_in.
  - intros [i j] [i' j'] Hin Hin' H. cbn [fst snd] in H.
    apply in_prod_iff in Hin, Hin'. rewrite !in_seq in Hin, Hin'.
    destruct (@slot_injective csize i j i' j') as [-> ->]; try lia. reflexivity.
  - apply NoDup_list_prod; apply seq_NoDup.
Qed.

(** Every responsibility slot is overwritten with [respon_entry] of its own
    old value; the similarity is read at the packed subscript of (i, j) as
    given, also when j < i. *)
Lemma update_respon_at (dfactor : double) (simil avail respon : list double)
  (csize i j : nat) :
  length respon = (csize * csize)%nat -> (i < csize)%nat -> (j < csize)%nat ->
  at_ (AffinityPropVisitor.update_respon dfactor simil csize avail respon)
      (j * csize + i)
  = AffinityPropVisitor.respon_entry dfactor simil avail csize i j
      (at_ respon (j * csize + i)).
Proof.
  intros Hlen Hi Hj. unfold AffinityPropVisitor.update_respon.
  rewrite (fold_nested
             (fun respon i j =>
                vset respon (j * csize + i)
                  (AffinityPropVisitor.respon_entry dfactor simil avail csize i j
                     (at_ respon (j * csize + i))))).
  pose proof (@fold_vset_at (nat * nat)
                (fun p => (snd p * csize + fst p)%nat)
                (fun p old =>
                   AffinityPropVisitor.respon_entry dfactor simil avail csize
                     (fst p) (snd p) old)
                (list_prod (seq 0 csize) (seq 0 csize)) respon) as H.
  cbv zeta in H. destruct H as (_ & E & _).
  - intros [i' j'] Hin. apply in_prod_iff in Hin. rewrite !in_seq in Hin.
    cbn [fst snd]. rewrite Hlen. nia.
  - apply slots_nodup.
  - apply (E (i, j)). apply in_prod_iff. rewrite !in_seq. lia.
Qed.

(** Evaluation of comparisons on finite values. *)
Lemma dlt_true (a b : R) : a < b -> dlt (Fin a) (Fin b) = true.
Proof. intros H. unfold dlt. destruct (Rlt_dec a b); [reflexivity | contradiction]. Qed.

Lemma dlt_false (a b : R) : ~ a < b -> dlt (Fin a) (Fin b) = false.
Proof. intros H. unfold dlt. destruct (Rlt_dec a b); [contradiction | reflexivity]. Qed.

Ltac dbl_compare :=
  match goal with
  | |- context [dlt (Fin ?a) (Fin ?b)] =>
      first [ rewrite (@dlt_true a b) by lra | rewrite (@dlt_false a b) by lra ]
  end.

Ltac dbl_arith :=
  try unfold dgt; try unfold dmax; try unfold dmin;
  cbn [dadd dsub dmul dneg dlift2].

Ltac dbl_eval := dbl_arith; repeat (dbl_compare; cbn [fst snd vset fold_left]; dbl_arith).

Lemma three_points_similarity :
  AffinityPropVisitor.get_similarity_ AffinityPropVisitor.default_dfunc
    AffinityPropVisitor.three_points 3
  = [Fin (-9); Fin (-1); Fin (-9); Fin (-9); Fin (-4); Fin (-9)].
Proof.
  pose proof DBL_MAX_large as Hmax.
  unfold AffinityPropVisitor.get_similarity_, AffinityPropVisitor.similarity_row,
    AffinityPropVisitor.three_points, AffinityPropVisitor.default_dfunc,
    AffinityPropVisitor.simil_index.
  cbn [seq Nat.sub Nat.add Nat.mul Nat.div Nat.divmod fst snd repeat fold_left
       at_ nth vset Nat.shiftr Nat.div2 nat_rect].
  dbl_eval. repeat f_equal; lra.
Qed.

(** C3 (the defect, evaluated).  On the three points 0, 1, 3 with the
    default distance, damping 0.9 and zero availabilities and
    responsibilities, the first responsibility update stores -0.5 for
    r(1,0), where the formula of the specification gives 0.3: the similarity
    of the pair (1,0) is read at packed subscript 2, the slot of the pair
    (0,2), not at subscript 1, the slot of the pair (0,1). *)
Theorem affinity_respon_lower_triangle :
  let column := AffinityPropVisitor.three_points in
  let dfunc := AffinityPropVisitor.default_dfunc in
  let simil := AffinityPropVisitor.get_similarity_ dfunc column 3 in
  let zeros := repeat (Fin 0) 9 in
  let dfactor := Fin (9 / 10) in
  AffinityPropVisitor.simil_index 3 1 0 = AffinityPropVisitor.simil_index 3 0 2 /\
  AffinityPropVisitor.simil_index 3 0 1 <> AffinityPropVisitor.simil_index 3 1 0 /\
  at_ (AffinityPropVisitor.update_respon dfactor simil 3 zeros zeros) (0 * 3 + 1)
    = Fin (- (1 / 2)) /\
  AffinityPropVisitor.spec_respon dfunc dfactor column zeros 3 1 0 (Fin 0)
    = Fin (3 / 10).
Proof.
  cbv zeta. pose proof DBL_MAX_large as Hmax.
  split; [reflexivity | split; [cbn; lia | split]].
  - rewrite update_respon_at by (cbn; lia).
    rewrite three_points_similarity.
    unfold AffinityPropVisitor.respon_entry, AffinityPropVisitor.max_diff_loop,
      AffinityPropVisitor.simil_index.
    cbn [seq fold_left]. rewrite !differ_spec.
    cbn [seq Nat.sub Nat.add Nat.mul fst snd repeat fold_left at_ nth
         Nat.shiftr Nat.div2 nat_rect Nat.eqb negb].
    dbl_eval. apply Fin_eq; lra.
  - unfold AffinityPropVisitor.spec_respon, AffinityPropVisitor.spec_s,
      AffinityPropVisitor.spec_preference, AffinityPropVisitor.spec_similarity,
      AffinityPropVisitor.three_points, AffinityPropVisitor.default_dfunc.
    cbn [seq list_prod map app filter Nat.eqb Nat.ltb Nat.leb negb fst snd
         fold_left Nat.min Nat.max at_ nth Nat.mul Nat.add repeat].
    dbl_eval. apply Fin_eq; lra.
Qed.

(** ** EntropyVisitor *)

Lemma at_map_seq (f : nat -> double) (n i : nat) :
  (i < n)%nat -> at_ (map f (seq 0 n)) i = f i.
Proof.
  intros Hi. unfold at_.
  rewrite (nth_indep _ NaN (f 0%nat)) by (rewrite length_map, length_seq; exact Hi).
  rewrite map_nth, seq_nth by exact Hi. reflexivity.
Qed.

Lemma window_of_repeat (x : double) (n k w : nat) :
  (k + w <= n)%nat -> firstn w (skipn k (repeat x n)) = repeat x w.
Proof.
  intros H. apply (nth_ext _ _ x x).
  - rewrite length_firstn, length_skipn, !repeat_length. lia.
  - intros i _. rewrite nth_firstn, nth_skipn, !nth_repeat.
    destruct (i <? w)%nat; reflexivity.
Qed.

Lemma sum_of_repeat (skipnan : bool) (c : R) (k : nat) :
  SimpleRollAdopter.sum skipnan (repeat (Fin c) k) = Fin (INR k * c).
Proof.
  unfold SimpleRollAdopter.sum.
  assert (H : forall a, fold_left
                (fun s x => if skipnan && is_nan__ x then s else (s + x)%dbl)
                (repeat (Fin c) k) (Fin a) = Fin (a + INR k * c)).
  { induction k as [| k IH]; intros a.
    - cbn. apply Fin_eq; lra.
    - cbn [repeat fold_left is_nan__]. rewrite andb_false_r. cbn [dadd dlift2].
      rewrite IH, S_INR. apply Fin_eq; lra. }
  rewrite H. apply Fin_eq; lra.
Qed.

Lemma roll_sum_length (skipnan : bool) (w : nat) (xs : list double) :
  length (SimpleRollAdopter.roll_sum skipnan w xs) = length xs.
Proof. unfold SimpleRollAdopter.roll_sum. rewrite length_map, length_seq. reflexivity. Qed.

Lemma roll_sum_of_repeat (skipnan : bool) (w n i : nat) (c : R) :
  (i < n)%nat ->
  at_ (SimpleRollAdopter.roll_sum skipnan w (repeat (Fin c) n)) i
  = if Nat.ltb (i + 1) w then NaN else Fin (INR w * c).
Proof.
  intros Hi. unfold SimpleRollAdopter.roll_sum. rewrite repeat_length.
  rewrite at_map_seq by exact Hi.
  destruct (Nat.ltb_spec (i + 1) w) as [Hlt | Hge]; [reflexivity |].
  rewrite window_of_repeat by lia. apply sum_of_repeat.
Qed.

Section EntropyOfConstant.

Variable skipnan : bool.
Variables w n : nat.
Variables v b : R.
Hypothesis Hw : (1 <= w)%nat.
Hypothesis Hn : (w <= n)%nat.
Hypothesis Hv : v <> 0.
Hypothesis Hb : 0 < b.
Hypothesis Hb1 : b <> 1.

Let column : list double := repeat (Fin v) n.

(** The contribution of an element of a full window. *)
Let contribution : R := - (v / (INR w * v)) * ln (v / (INR w * v)) / ln b.

Lemma INR_w_pos : 0 < INR w.
Proof. apply lt_0_INR. lia. Qed.

Lemma ln_base_nonzero : ln b <> 0.
Proof.
  intros H. apply Hb1. apply ln_inv; [exact Hb | lra |]. rewrite ln_1. exact H.
Qed.

Lemma window_total : INR w * contribution = ln (INR w) / ln b.
Proof.
  pose proof INR_w_pos as Hwp. pose proof ln_base_nonzero as Hlb.
  unfold contribution.
  replace (v / (INR w * v)) with (/ INR w) by (field; split; lra).
  rewrite ln_Rinv by exact Hwp. field. split; lra.
Qed.

Lemma contributions_at (i : nat) :
  (i < n)%nat ->
  at_ (EntropyVisitor.contributions (Fin b) column
         (SimpleRollAdopter.roll_sum skipnan w column)) i
  = if Nat.ltb (i + 1) w then NaN else Fin contribution.
Proof.
  intros Hi. pose proof INR_w_pos as Hwp. pose proof ln_base_nonzero as Hlb.
  unfold EntropyVisitor.contributions.
  pose proof (@fold_vset_at nat (fun i => i)
                (fun i old =>
                   (- (at_ column i / old) * dlog (at_ column i / old)
                    / dlog (Fin b))%dbl)
                (seq 0 (length column))
                (SimpleRollAdopter.roll_sum skipnan w column)) as H.
  cbv zeta in H. destruct H as (_ & E & _).
  - intros k Hk. apply in_seq in Hk. rewrite roll_sum_length. lia.
  - rewrite map_id. apply seq_NoDup.
  - rewrite (E i) by (apply in_seq; unfold column; rewrite repeat_length; lia).
    cbv beta. unfold column. rewrite roll_sum_of_repeat by exact Hi.
    unfold at_. rewrite nth_repeat_lt by exact Hi.
    destruct (Nat.ltb (i + 1) w); [reflexivity |].
    rewrite ddiv_fin by (apply Rmult_integral_contrapositive_currified; lra).
    rewrite !dlog_fin; [| exact Hb |].
    + cbn [dneg dmul dlift2]. rewrite ddiv_fin by exact Hlb. reflexivity.
    + replace (v / (INR w * v)) with (/ INR w) by (field; split; lra).
      apply Rinv_0_lt_compat; exact Hwp.
Qed.

Lemma contributions_length :
  length (EntropyVisitor.contributions (Fin b) column
            (SimpleRollAdopter.roll_sum skipnan w column)) = n.
Proof.
  unfold EntropyVisitor.contributions.
  pose proof (@fold_vset_at nat (fun i => i)
                (fun i old =>
                   (- (at_ column i / old) * dlog (at_ column i / old)
                    / dlog (Fin b))%dbl)
                (seq 0 (length column))
                (SimpleRollAdopter.roll_sum skipnan w column)) as H.
  cbv zeta in H. destruct H as (L & _ & _).
  - intros k Hk. apply in_seq in Hk. rewrite roll_sum_length. lia.
  - rewrite map_id. apply seq_NoDup.
  - rewrite L, roll_sum_length. unfold column. apply repeat_length.
Qed.

Lemma contributions_tail :
  skipn (w - 1)
    (EntropyVisitor.contributions (Fin b) column
       (SimpleRollAdopter.roll_sum skipnan w column))
  = repeat (Fin contribution) (n - (w - 1)).
Proof.
  apply (nth_ext _ _ NaN NaN).
  - rewrite length_skipn, contributions_length, repeat_length. reflexivity.
  - intros k Hk. rewrite length_skipn, contributions_length in Hk.
    rewrite nth_skipn, nth_repeat_lt by exact Hk.
    fold (at_ (EntropyVisitor.contributions (Fin b) column
                 (SimpleRollAdopter.roll_sum skipnan w column)) (w - 1 + k)).
    rewrite contributions_at by lia.
    destruct (Nat.ltb_spec (w - 1 + k + 1) w); [lia | reflexivity].
Qed.

Let result : list double :=
  EntropyVisitor.result_
    (EntropyVisitor.call skipnan (EntropyVisitor.make w (Fin b)) column).

Lemma entropy_result_shape :
  length result = n /\
  (forall i, (i < w - 1)%nat -> at_ result i = NaN) /\
  (forall k, (k < n - (w - 1))%nat ->
     at_ result (k + w - 1)
     = if Nat.ltb (k + 1) w then NaN else Fin (ln (INR w) / ln b)).
Proof.
  unfold result, EntropyVisitor.call, EntropyVisitor.make.
  cbn [EntropyVisitor.roll_count_ EntropyVisitor.log_base_ EntropyVisitor.result_].
  destruct (Nat.eqb_spec w 0) as [Hz | _]; [lia |].
  cbn [EntropyVisitor.result_]. fold column.
  rewrite contributions_tail.
  set (C1 := EntropyVisitor.contributions (Fin b) column
               (SimpleRollAdopter.roll_sum skipnan w column)).
  set (sums := SimpleRollAdopter.roll_sum skipnan w
                 (repeat (Fin contribution) (n - (w - 1)))).
  assert (Lsums : length sums = (n - (w - 1))%nat).
  { unfold sums. rewrite roll_sum_length, repeat_length. reflexivity. }
  pose proof (@fold_vset_at nat (fun i => i) (fun _ _ => NaN)
                (seq 0 (w - 1)) C1) as H3.
  cbv zeta in H3. destruct H3 as (L3 & E3 & O3).
  { intros k Hk. apply in_seq in Hk. unfold C1. rewrite contributions_length. lia. }
  { rewrite map_id. apply seq_NoDup. }
  set (R3 := fold_left (fun l k => vset l k NaN) (seq 0 (w - 1)) C1) in *.
  pose proof (@fold_vset_at nat (fun i => (i + w - 1)%nat) (fun i _ => at_ sums i)
                (seq 0 (length sums)) R3) as H4.
  cbv zeta in H4. destruct H4 as (L4 & E4 & O4).
  { intros k Hk. apply in_seq in Hk. rewrite L3. unfold C1.
    rewrite contributions_length. lia. }
  { apply Injective_map_NoDup; [| apply seq_NoDup]. intros x y Hxy. lia. }
  split; [| split].
  - rewrite L4, L3. apply contributions_length.
  - intros i Hi. rewrite O4.
    + apply (E3 i). apply in_seq. lia.
    + intros Hin. apply in_map_iff in Hin. destruct Hin as (k & Hk & _). lia.
  - intros k Hk. rewrite (E4 k) by (apply in_seq; lia).
    unfold sums. rewrite roll_sum_of_repeat by exact Hk.
    rewrite window_total. reflexivity.
Qed.

End EntropyOfConstant.

(** C4 (as stated, refuted).  With a window of 2 and base 2 over the
    column [1, 1, 1], position 2 is a fully-populated window position and
    holds 1, not 0. *)
Lemma entropy_identical_counterexample :
  ~ (forall i, (2 - 1 <= i < 3)%nat ->
       at_ (EntropyVisitor.result_
              (EntropyVisitor.call true (EntropyVisitor.make 2 (Fin 2))
                 EntropyVisitor.ones)) i = Fin 0).
Proof.
  intros H. specialize (H 2%nat ltac:(lia)).
  destruct (@entropy_result_shape true 2 3 1 2) as (_ & _ & E); try lia; try lra.
  specialize (E 1%nat ltac:(lia)).
  change (repeat (Fin 1) 3) with EntropyVisitor.ones in E.
  change (1 + 2 - 1)%nat with 2%nat in E. rewrite E in H.
  cbn [Nat.ltb Nat.leb Nat.add] in H. injection H as H.
  assert (Hln : ln 2 <> 0).
  { intros H0. pose proof ln_lt_2. lra. }
  change (INR 2) with (1 + 1) in H.
  replace (1 + 1) with 2 in H by lra.
  unfold Rdiv in H. rewrite Rinv_r in H by exact Hln. lra.
Qed.

(** C4 (amended).  Over a column of n >= window identical non-zero values,
    with window >= 1 and a logarithm base b > 0 other than 1, the result has
    n entries, is NaN at the first window-1 positions, and holds
    log_b(window) at every position from 2*(window-1) to n-1; that value is
    zero when the window is 1. *)
Theorem entropy_identical_values (skipnan : bool) (w n : nat) (v b : R) :
  (1 <= w)%nat -> (w <= n)%nat -> v <> 0 -> 0 < b -> b <> 1 ->
  let result :=
    EntropyVisitor.result_
      (EntropyVisitor.call skipnan (EntropyVisitor.make w (Fin b))
         (repeat (Fin v) n)) in
  length result = n /\
  (forall i, (i < w - 1)%nat -> at_ result i = NaN) /\
  (forall i, (2 * (w - 1) <= i < n)%nat ->
     at_ result i = Fin (ln (INR w) / ln b)) /\
  (w = 1%nat -> forall i, (i < n)%nat -> at_ result i = Fin 0).
Proof.
  intros Hw Hn Hv Hb Hb1 result.
  destruct (@entropy_result_shape skipnan w n v b Hw Hn Hv Hb Hb1) as (L & N & E).
  fold result in L, N, E.
  assert (Hfull : forall i, (2 * (w - 1) <= i < n)%nat ->
            at_ result i = Fin (ln (INR w) / ln b)).
  { intros i Hi. specialize (E (i - (w - 1))%nat ltac:(lia)).
    replace (i - (w - 1) + w - 1)%nat with i in E by lia.
    rewrite E. destruct (Nat.ltb_spec (i - (w - 1) + 1) w); [lia | reflexivity]. }
  split; [exact L | split; [exact N | split; [exact Hfull |]]].
  intros -> i Hi. rewrite Hfull by lia. apply Fin_eq.
  cbn [INR]. rewrite ln_1. unfold Rdiv. apply Rmult_0_l.
Qed.

Lemma entropy_identical_values_witness :
  let result :=
    EntropyVisitor.result_
      (EntropyVisitor.call true (EntropyVisitor.make 2 (Fin 2))
         (repeat (Fin 1) 3)) in
  length result = 3%nat /\
  (forall i, (i < 2 - 1)%nat -> at_ result i = NaN) /\
  (forall i, (2 * (2 - 1) <= i < 3)%nat ->
     at_ result i = Fin (ln (INR 2) / ln 2)) /\
  (2%nat = 1%nat -> forall i, (i < 3)%nat -> at_ result i = Fin 0).
Proof.
  apply (@entropy_identical_values true 2 3 1 2); try lia; lra.
Defined.

(** ** ImpurityVisitor *)

Section Impurity.

Variable T : Type.
Variable T_eqb : T -> T -> bool.
Variable T_default : T.

Lemma roll_length (imt : ImpurityVisitor.impurity_type) (w : nat) (column : list T) :
  (1 <= w)%nat ->
  forall fuel i table result,
    (i + w <= length column + 1)%nat ->
    (length column - i <= fuel)%nat ->
    length (ImpurityVisitor.roll T_eqb T_default fuel imt w column i table result)
    = (length result
       + Nat.min (length column - i) (length column + 2 - w - i))%nat.
Proof.
  intros Hw. induction fuel as [| fuel IH]; intros i table result Hi Hfuel;
    cbn [ImpurityVisitor.roll].
  - lia.
  - destruct (Nat.ltb_spec i (length column)) as [Hlt | Hge]; [| lia].
    destruct (Nat.ltb_spec (length column) (i + w)) as [Hbreak | Hgo].
    + rewrite length_app. cbn [length]. lia.
    + rewrite IH by lia. rewrite length_app. cbn [length]. lia.
Qed.

(** The number of values [operator()] stores. *)
Lemma impurity_result_length (v : ImpurityVisitor.t) (column : list T) :
  let w := ImpurityVisitor.roll_count_ v in
  let n := length column in
  (w = 0%nat \/ (n < w)%nat -> ImpurityVisitor.call T_eqb T_default v column = v) /\
  ((1 <= w <= n)%nat ->
   length (ImpurityVisitor.result_ (ImpurityVisitor.call T_eqb T_default v column))
   = if Nat.eqb w 1 then (n - 1)%nat else (n - w + 1)%nat).
Proof.
  cbv zeta. unfold ImpurityVisitor.call. split.
  - intros [Hz | Hlt].
    + rewrite Hz. reflexivity.
    + destruct (Nat.ltb_spec (length column) (ImpurityVisitor.roll_count_ v)); [| lia].
      rewrite orb_true_r. reflexivity.
  - intros [Hw Hn].
    destruct (Nat.eqb_spec (ImpurityVisitor.roll_count_ v) 0); [lia |].
    destruct (Nat.ltb_spec (length column) (ImpurityVisitor.roll_count_ v)); [lia |].
    cbn [orb ImpurityVisitor.result_]. rewrite roll_length by lia. cbn [length].
    destruct (Nat.eqb_spec (ImpurityVisitor.roll_count_ v) 1); lia.
Qed.

End Impurity.

(** C10 (the defect, evaluated).  With a window of 1 over the column
    [1, 2, 3] the visitor stores 2 values, not the 3 - 1 + 1 = 3 that one
    value per window position would make: the loop stops before the last
    window. *)
Theorem impurity_unit_window :
  length
    (ImpurityVisitor.result_
       (ImpurityVisitor.call Z.eqb 0%Z
          (ImpurityVisitor.mk 1 ImpurityVisitor.gini_index [])
          ImpurityVisitor.labels)) = 2%nat.
Proof.
  pose proof (@impurity_result_length Z Z.eqb 0%Z
                (ImpurityVisitor.mk 1 ImpurityVisitor.gini_index [])
                ImpurityVisitor.labels) as [_ H].
  cbn [ImpurityVisitor.roll_count_ ImpurityVisitor.labels length] in H.
  rewrite H by lia. reflexivity.
Qed.

(** ** The caller's memory *)

Section Frame.

Import MonadNotation.
Local Open Scope monad_scope.

Variable T : Type.

Lemma read_only_ret (A : Type) (a : A) :
  Heap.read_only (T := T) (ret a).
Proof. intros h. reflexivity. Qed.

Lemma read_only_bind (A B : Type) (c : state (Heap.heap T) A)
  (k : A -> state (Heap.heap T) B) :
  Heap.read_only c -> (forall a, Heap.read_only (k a)) ->
  Heap.read_only (x <- c ;; k x).
Proof.
  intros Hc Hk h. cbn. specialize (Hc h).
  destruct (runState c h) as [a h']. cbn in Hc. subst h'. apply Hk.
Qed.

Lemma read_only_load (p : Heap.addr) : Heap.read_only (T := T) (Heap.load p).
Proof. intros h. reflexivity. Qed.

Lemma read_only_load_label (p : Heap.addr) :
  Heap.read_only (T := T) (Heap.load_label p).
Proof. intros h. reflexivity. Qed.

Lemma read_only_load_range (n : nat) :
  forall p, Heap.read_only (T := T) (Heap.load_range p n).
Proof.
  induction n as [| n IH]; intros p; cbn [Heap.load_range].
  - apply read_only_ret.
  - apply read_only_bind; [apply read_only_load |]. intros x.
    apply read_only_bind; [apply IH |]. intros xs. apply read_only_ret.
Qed.

(** What a read-only computation returns. *)
Lemma load_range_value (n : nat) :
  forall p (h : Heap.heap T),
    fst (runState (Heap.load_range p n) h)
    = map (fun i => Heap.cells h (p + i)%nat) (seq 0 n).
Proof.
  induction n as [| n IH]; intros p h; cbn [Heap.load_range].
  - reflexivity.
  - cbn [seq map]. rewrite <- seq_shift, map_map.
    specialize (IH (S p) h). pose proof (read_only_load_range n (S p) h) as Hro.
    cbn. destruct (runState (Heap.load_range (S p) n) h) as [xs h'].
    cbn in *. subst. rewrite Nat.add_0_r. f_equal.
    apply map_ext. intros i. f_equal. lia.
Qed.

(** A store is seen through every pointer to the cell. *)
Lemma store_then_view (view : list Heap.addr) (k : nat) (x : T) (h : Heap.heap T) :
  fst (runState (Heap.store (nth k view 0%nat) x ;; Heap.view_get view k) h) = x.
Proof. cbn. rewrite Nat.eqb_refl. reflexivity. Qed.

End Frame.

Create HintDb frame.

#[local] Hint Resolve read_only_ret read_only_load read_only_load_label
  read_only_load_range : frame.

(** ** The containers: what a visitor writes *)

Section Containers.

Import MonadNotation.
Local Open Scope monad_scope.

Variable T : Type.
Variable dflt : T.

Lemma store_read_only_ret (A : Type) (a : A) :
  Store.read_only (T := T) (ret a).
Proof. intros s. reflexivity. Qed.

Lemma store_read_only_bind (A B : Type) (c : state (Store.store T) A)
  (k : A -> state (Store.store T) B) :
  Store.read_only c -> (forall a, Store.read_only (k a)) ->
  Store.read_only (x <- c ;; k x).
Proof.
  intros Hc Hk s. cbn. specialize (Hc s).
  destruct (runState c s) as [a s']. cbn in Hc. subst s'. apply Hk.
Qed.

Lemma store_read_only_deref (it : Store.iter) :
  Store.read_only (Store.deref dflt it).
Proof. intros s. reflexivity. Qed.

Lemma store_read_only_deref_label (it : Store.iter) :
  Store.read_only (T := T) (Store.deref_label it).
Proof. intros s. reflexivity. Qed.

Lemma store_read_only_read_range (n : nat) :
  forall it, Store.read_only (Store.read_range dflt it n).
Proof.
  induction n as [| n IH]; intros it; cbn [Store.read_range].
  - apply store_read_only_ret.
  - apply store_read_only_bind; [apply store_read_only_deref |]. intros x.
    apply store_read_only_bind; [apply IH |]. intros xs. apply store_read_only_ret.
Qed.

Lemma store_read_only_read_all (ps : list Store.iter) :
  Store.read_only (Store.read_all dflt ps).
Proof.
  induction ps as [| p ps IH]; cbn [Store.read_all].
  - apply store_read_only_ret.
  - apply store_read_only_bind; [apply store_read_only_deref |]. intros x.
    apply store_read_only_bind; [apply IH |]. intros xs. apply store_read_only_ret.
Qed.

(** What the reads return. *)
Lemma read_range_value (n : nat) :
  forall it (s : Store.store T),
    fst (runState (Store.read_range dflt it n) s)
    = map (fun i => nth (snd it + i) (Store.elems s (fst it)) dflt) (seq 0 n).
Proof.
  induction n as [| n IH]; intros it s; cbn [Store.read_range].
  - reflexivity.
  - cbn [seq map]. rewrite <- seq_shift, map_map.
    specialize (IH (Store.advance it 1) s).
    pose proof (store_read_only_read_range n (Store.advance it 1) s) as Hro.
    cbn. destruct (runState (Store.read_range dflt (Store.advance it 1) n) s)
      as [xs s'].
    cbn in *. subst. rewrite Nat.add_0_r. f_equal.
    apply map_ext. intros i. f_equal. lia.
Qed.

Lemma writes_only_of_read_only (A : Type) (self : Store.cid)
  (c : state (Store.store T) A) :
  Store.read_only c -> Store.writes_only self c.
Proof. intros Hc s. rewrite (Hc s). split; [reflexivity | intros; reflexivity]. Qed.

Lemma writes_only_ret (A : Type) (self : Store.cid) (a : A) :
  Store.writes_only (T := T) self (ret a).
Proof. apply writes_only_of_read_only, store_read_only_ret. Qed.

Lemma writes_only_bind (A B : Type) (self : Store.cid)
  (c : state (Store.store T) A) (k : A -> state (Store.store T) B) :
  Store.writes_only self c -> (forall a, Store.writes_only self (k a)) ->
  Store.writes_only self (x <- c ;; k x).
Proof.
  intros Hc Hk s. cbn. destruct (Hc s) as [Hl He].
  destruct (runState c s) as [a s']. cbn [snd] in Hl, He.
  destruct (Hk a s') as [Hl' He']. split.
  - rewrite Hl'. exact Hl.
  - intros d Hd. rewrite (He' d Hd). apply He, Hd.
Qed.

(** The three writes: each changes the container it names and no other. *)
Lemma writes_only_assign_elem (self : Store.cid) (k : nat) (x : T) :
  Store.writes_only self (Store.assign_elem (self, k) x).
Proof.
  intros s. cbn. split; [reflexivity |]. intros d Hd.
  destruct (Nat.eqb_spec d self) as [-> | _]; [contradiction | reflexivity].
Qed.

Lemma writes_only_push_back (self : Store.cid) (x : T) :
  Store.writes_only self (Store.push_back self x).
Proof.
  intros s. cbn. split; [reflexivity |]. intros d Hd.
  destruct (Nat.eqb_spec d self) as [-> | _]; [contradiction | reflexivity].
Qed.

Lemma writes_only_swap_in (self : Store.cid) (l : list T) :
  Store.writes_only self (Store.swap_in self l).
Proof.
  intros s. cbn. split; [reflexivity |]. intros d Hd.
  destruct (Nat.eqb_spec d self) as [-> | _]; [contradiction | reflexivity].
Qed.

Lemma writes_only_for_each (self : Store.cid)
  (f : T -> state (Store.store T) unit) (n : nat) :
  (forall x, Store.writes_only self (f x)) ->
  forall it, Store.writes_only self (Store.for_each dflt f it n).
Proof.
  intros Hf. induction n as [| n IH]; intros it; cbn [Store.for_each].
  - apply writes_only_ret.
  - apply writes_only_bind.
    + apply writes_only_of_read_only, store_read_only_deref.
    + intros x. apply writes_only_bind; [apply Hf | intros _; apply IH].
Qed.

(** A write to an element of a container is seen by every range over the
    container: the ranges alias. *)
Lemma assign_elem_seen (c : Store.cid) (k : nat) (x : T) (s : Store.store T) :
  (k < length (Store.elems s c))%nat ->
  fst (runState (Store.assign_elem (c, k) x ;; Store.deref dflt (c, k)) s) = x.
Proof.
  intros Hk. cbn. rewrite Nat.eqb_refl.
  generalize dependent k. induction (Store.elems s c) as [| h t IH]; intros k Hk.
  - cbn in Hk. lia.
  - destruct k as [| k]; cbn; [reflexivity |]. apply IH. cbn in Hk. lia.
Qed.

End Containers.

#[local] Hint Resolve store_read_only_ret store_read_only_deref
  store_read_only_deref_label store_read_only_read_range
  store_read_only_read_all : frame.

(** The programs of the visitors, one by one. *)

Lemma store_read_only_slr_loop (n : nat) :
  forall idx x y v, Store.read_only (Store.slr_loop n idx x y v).
Proof.
  induction n as [| n IH]; intros idx x y v; cbn [Store.slr_loop].
  - apply store_read_only_ret.
  - repeat (apply store_read_only_bind; [auto with frame | intros ?]). apply IH.
Qed.

Section KMeansWrites.

Import MonadNotation.
Local Open Scope monad_scope.

Variable dfunc : double -> double -> double.
Variable self : Store.cid.

Lemma writes_only_seed (column_begin : Store.iter) (draws : list nat) :
  forall left k,
    Store.writes_only self (Store.seed self column_begin k left draws).
Proof.
  induction draws as [| d draws IH]; intros left k.
  - destruct left; apply writes_only_ret.
  - destruct left as [| left]; [apply writes_only_ret |]. cbn [Store.seed].
    apply writes_only_bind.
    + apply writes_only_of_read_only, store_read_only_deref.
    + intros value. apply writes_only_bind; [| intros _; apply IH].
      destruct (is_nan__ value);
        [apply writes_only_ret | apply writes_only_assign_elem].
Qed.

Lemma writes_only_update (new_means : list double) :
  forall counts cluster done,
    Store.writes_only self (Store.update dfunc self cluster new_means counts done).
Proof.
  induction new_means as [| sum new_means IH]; intros counts cluster done.
  - apply writes_only_ret.
  - destruct counts as [| c counts]; [apply writes_only_ret |].
    cbn [Store.update]. apply writes_only_bind.
    + apply writes_only_of_read_only, store_read_only_deref.
    + intros result.
      destruct (dgt (dfunc (sum / dmax (Fin 1) c)%dbl result) KMeansVisitor.epsilon).
      * apply writes_only_bind; [apply writes_only_assign_elem | intros _; apply IH].
      * apply IH.
Qed.

Lemma writes_only_iteration (K : nat) (column_begin : Store.iter) (col_s : nat) :
  Store.writes_only self (Store.iteration dfunc self K column_begin col_s).
Proof.
  unfold Store.iteration. apply writes_only_bind.
  - apply writes_only_of_read_only, store_read_only_read_range.
  - intros means. apply writes_only_bind.
    + apply writes_only_of_read_only, store_read_only_read_range.
    + intros column.
      destruct (KMeansVisitor.assign dfunc means column
                  (repeat (Fin 0) K) (repeat (Fin 0) K)) as [new_means counts].
      apply writes_only_update.
Qed.

Lemma writes_only_main_loop (K : nat) (column_begin : Store.iter) (col_s : nat) :
  forall iters,
    Store.writes_only self (Store.main_loop dfunc self iters K column_begin col_s).
Proof.
  induction iters as [| iters IH]; cbn [Store.main_loop].
  - apply writes_only_ret.
  - apply writes_only_bind; [apply writes_only_iteration |].
    intros [|]; [apply writes_only_ret | apply IH].
Qed.

Lemma writes_only_kmeans_call (K iter_num : nat) (cc : bool)
  (clusters : list (list KMeansVisitor.ptr)) (draws : list nat)
  (idx_begin idx_end column_begin column_end : Store.iter) :
  Store.writes_only self
    (Store.kmeans_call dfunc self K iter_num cc clusters draws
       idx_begin idx_end column_begin column_end).
Proof.
  unfold Store.kmeans_call, Store.calc_k_means_, Store.calc_clusters_.
  apply writes_only_bind.
  - apply writes_only_bind; [apply writes_only_seed |].
    intros _. apply writes_only_main_loop.
  - intros _. destruct cc; [| apply writes_only_ret].
    apply writes_only_of_read_only.
    repeat (apply store_read_only_bind; [auto with frame | intros ?]).
    apply store_read_only_ret.
Qed.

End KMeansWrites.

Lemma writes_only_silu_loop (self : Store.cid) (sigm : list double)
  (column_begin : Store.iter) (n : nat) :
  forall i, Store.writes_only self (Store.silu_loop self sigm column_begin i n).
Proof.
  induction n as [| n IH]; intros i; cbn [Store.silu_loop].
  - apply writes_only_ret.
  - apply writes_only_bind.
    + apply writes_only_of_read_only, store_read_only_deref.
    + intros x. apply writes_only_bind;
        [apply writes_only_push_back | intros _; apply IH].
Qed.

Lemma writes_only_policy_loop (self : Store.cid) (n : nat) :
  forall action_prob reward,
    Store.writes_only self (Store.policy_loop self action_prob reward n).
Proof.
  induction n as [| n IH]; intros action_prob reward; cbn [Store.policy_loop].
  - apply writes_only_ret.
  - apply writes_only_bind.
    + apply writes_only_of_read_only, store_read_only_deref.
    + intros ap. apply writes_only_bind.
      * apply writes_only_of_read_only, store_read_only_deref.
      * intros r. apply writes_only_bind;
          [apply writes_only_push_back | intros _; apply IH].
Qed.

(** ** The containers: KMeansVisitor on a column of the caller *)

Lemma vset_middle (A : Type) (pre : list A) (m x : A) (rest : list A) :
  vset (pre ++ m :: rest) (length pre) x = pre ++ x :: rest.
Proof.
  induction pre as [| h pre IH]; cbn; [reflexivity |]. rewrite IH. reflexivity.
Qed.

Lemma map_nth_seq (A : Type) (l : list A) (d : A) :
  map (fun i => nth i l d) (seq 0 (length l)) = l.
Proof.
  induction l as [| h t IH]; cbn [length seq map]; [reflexivity |].
  rewrite <- seq_shift, map_map. cbn [nth]. rewrite IH. reflexivity.
Qed.

Section KMeansPasses.

Import MonadNotation.
Local Open Scope monad_scope.

Variable dfunc : double -> double -> double.
Variable self : Store.cid.

Lemma update_agrees (new_means : list double) :
  forall counts cluster done (s : Store.store double) pre means,
    Store.elems s self = pre ++ means ->
    length pre = cluster ->
    length new_means = length means -> length counts = length means ->
    let r := runState (Store.update dfunc self cluster new_means counts done) s in
    let r' := KMeansVisitor.update dfunc means new_means counts done in
    Store.elems (snd r) self = pre ++ fst r' /\ fst r = snd r'.
Proof.
  induction new_means as [| sum new_means IH];
    intros counts cluster done s pre means Hself Hk Hnm Hcnt.
  - destruct means; [| discriminate]. cbn. split; [exact Hself | reflexivity].
  - destruct means as [| m means]; [discriminate |].
    destruct counts as [| c counts]; [discriminate |].
    cbn [Store.update KMeansVisitor.update].
    cbn [bind Monad_state runState Store.deref get MonadState_state ret fst snd].
    rewrite Hself, <- Hk, nth_middle.
    destruct (dgt (dfunc (sum / dmax (Fin 1) c)%dbl m) KMeansVisitor.epsilon).
    + cbn [runState Store.assign_elem bind Monad_state get put MonadState_state
           snd fst].
      match goal with
      | |- context [runState (Store.update _ _ _ _ _ _) ?s'] =>
          specialize (IH counts (S (length pre)) false s'
                        (pre ++ [(sum / dmax (Fin 1) c)%dbl]) means)
      end.
      cbn [Store.elems] in IH. rewrite Nat.eqb_refl, Hself, vset_middle in IH.
      destruct IH as [E1 E2].
      * rewrite <- app_assoc. reflexivity.
      * rewrite length_app. cbn. lia.
      * cbn in Hnm. lia.
      * cbn in Hcnt. lia.
      * destruct (KMeansVisitor.update dfunc means new_means counts false)
          as [rest d]. cbn [fst snd] in *. rewrite E1, E2, <- app_assoc.
        split; reflexivity.
    + specialize (IH counts (S (length pre)) done s (pre ++ [m]) means).
      destruct IH as [E1 E2].
      * rewrite Hself, <- app_assoc. reflexivity.
      * rewrite length_app. cbn. lia.
      * cbn in Hnm. lia.
      * cbn in Hcnt. lia.
      * destruct (KMeansVisitor.update dfunc means new_means counts done)
          as [rest d]. cbn [fst snd] in *. rewrite E1, E2, <- app_assoc.
        split; reflexivity.
Qed.

Lemma read_means (s : Store.store double) (K : nat) :
  length (Store.elems s self) = K ->
  runState (Store.read_range NaN (self, 0%nat) K) s = (Store.elems s self, s).
Proof.
  intros HK.
  pose proof (read_range_value NaN K (self, 0%nat) s) as Hv.
  pose proof (store_read_only_read_range NaN K (self, 0%nat) s) as Hro.
  destruct (runState (Store.read_range NaN (self, 0%nat) K) s) as [l s'].
  cbn [fst snd] in Hv, Hro. subst l s'. cbn [Nat.add].
  rewrite <- HK at 1. rewrite map_nth_seq. reflexivity.
Qed.

Variable column_begin : Store.iter.
Variable col_s : nat.

(** One pass, wherever the column lies: the pass reads the column and
    [result_] before it writes. *)
Lemma iteration_pure (K : nat) (s : Store.store double) :
  length (Store.elems s self) = K ->
  let r := runState (Store.iteration dfunc self K column_begin col_s) s in
  let r' :=
    KMeansVisitor.iteration dfunc
      (map (fun i => nth (snd column_begin + i)
                       (Store.elems s (fst column_begin)) NaN) (seq 0 col_s))
      (Store.elems s self) in
  Store.elems (snd r) self = fst r' /\ fst r = snd r' /\
  length (Store.elems (snd r) self) = K.
Proof.
  intros HK r r'.
  subst r r'. unfold Store.iteration, KMeansVisitor.iteration in *.
  cbn [bind Monad_state runState] in *.
  rewrite (read_means s HK) in *.
  pose proof (read_range_value NaN col_s column_begin s) as Hv.
  pose proof (store_read_only_read_range NaN col_s column_begin s) as Hro.
  destruct (runState (Store.read_range NaN column_begin col_s) s) as [col s'].
  cbn [fst snd] in Hv, Hro. subst s'. rewrite <- Hv. clear Hv.
  rewrite HK.
  pose proof (@assign_spec dfunc (Store.elems s self) col
                (repeat (Fin 0) K) (repeat (Fin 0) K)) as Ha.
  rewrite !repeat_length in Ha. specialize (Ha (eq_sym HK) (eq_sym HK)).
  cbn zeta in Ha. destruct Ha as (L1 & L2 & _).
  destruct (KMeansVisitor.assign dfunc (Store.elems s self) col
              (repeat (Fin 0) K) (repeat (Fin 0) K)) as [new_means counts].
  cbn [fst snd] in *.
  pose proof (@update_agrees new_means counts 0%nat true s []
                (Store.elems s self) eq_refl eq_refl L1 L2) as [E1 E2].
  cbn [app] in E1. split; [exact E1 | split; [exact E2 |]].
  rewrite E1.
  pose proof (@update_spec dfunc (Store.elems s self) new_means counts true L1 L2)
    as (L & _).
  rewrite L. exact HK.
Qed.

End KMeansPasses.

Section KMeansAgrees.

Import MonadNotation.
Local Open Scope monad_scope.

Variable dfunc : double -> double -> double.
Variable self : Store.cid.
Variable column_begin : Store.iter.
Variable col_s : nat.

(** The column lies in another container than [result_]. *)
Hypothesis Hapart : fst column_begin <> self.

(** The contents of the container of the column, and the values of the
    column. *)
Variable contents : list double.

Let column : list double :=
  map (fun i => nth (snd column_begin + i) contents NaN) (seq 0 col_s).

Lemma at_column (d : nat) :
  (d < col_s)%nat -> at_ column d = nth (snd column_begin + d) contents NaN.
Proof.
  intros Hd. unfold at_, column.
  rewrite (nth_indep _ NaN (nth (snd column_begin + 0) contents NaN))
    by (rewrite length_map, length_seq; exact Hd).
  rewrite (map_nth (fun i => nth (snd column_begin + i) contents NaN)).
  rewrite seq_nth by exact Hd. reflexivity.
Qed.

Lemma seed_agrees (draws : list nat) :
  Forall (fun d => (d < col_s)%nat) draws ->
  forall left k (s : Store.store double) pre means,
    Store.elems s (fst column_begin) = contents ->
    Store.elems s self = pre ++ means ->
    length pre = k -> length means = left ->
    Store.elems (snd (runState (Store.seed self column_begin k left draws) s)) self
    = pre ++ KMeansVisitor.seed column means draws.
Proof.
  induction 1 as [| d draws Hd _ IH]; intros left k s pre means Hcol Hself Hk Hleft.
  - destruct left, means; cbn; exact Hself.
  - destruct means as [| m means]; destruct left as [| left]; try discriminate;
      [cbn; exact Hself |].
    cbn [Store.seed KMeansVisitor.seed]. rewrite (at_column Hd).
    cbn [bind Monad_state runState Store.deref get MonadState_state ret
         Store.advance fst snd].
    rewrite Hcol.
    destruct (is_nan__ (nth (snd column_begin + d) contents NaN)) eqn:En.
    + cbn [runState ret Monad_state snd].
      rewrite (IH left (S k) s (pre ++ [m]) means).
      * rewrite <- app_assoc. reflexivity.
      * exact Hcol.
      * rewrite Hself, <- app_assoc. reflexivity.
      * rewrite length_app. cbn. lia.
      * cbn in Hleft. lia.
    + cbn [runState Store.assign_elem bind Monad_state get put MonadState_state snd fst].
      match goal with
      | |- Store.elems (snd (runState _ ?s')) self = _ =>
          rewrite (IH left (S k) s' (pre ++ [nth (snd column_begin + d) contents NaN]) means)
      end.
      * rewrite <- app_assoc. reflexivity.
      * cbn [Store.elems].
        destruct (Nat.eqb_spec (fst column_begin) self) as [E | _];
          [contradiction | exact Hcol].
      * cbn [Store.elems]. rewrite Nat.eqb_refl, Hself, <- Hk, vset_middle.
        rewrite <- app_assoc. reflexivity.
      * rewrite length_app. cbn. lia.
      * cbn in Hleft. lia.
Qed.

Lemma read_column (s : Store.store double) :
  Store.elems s (fst column_begin) = contents ->
  runState (Store.read_range NaN column_begin col_s) s = (column, s).
Proof.
  intros Hcol.
  pose proof (read_range_value NaN col_s column_begin s) as Hv.
  pose proof (store_read_only_read_range NaN col_s column_begin s) as Hro.
  destruct (runState (Store.read_range NaN column_begin col_s) s) as [l s'].
  cbn [fst snd] in Hv, Hro. subst. reflexivity.
Qed.

Lemma iteration_agrees (K : nat) (s : Store.store double) :
  Store.elems s (fst column_begin) = contents ->
  length (Store.elems s self) = K ->
  let r := runState (Store.iteration dfunc self K column_begin col_s) s in
  let r' := KMeansVisitor.iteration dfunc column (Store.elems s self) in
  Store.elems (snd r) self = fst r' /\ fst r = snd r' /\
  Store.elems (snd r) (fst column_begin) = contents /\
  length (Store.elems (snd r) self) = K.
Proof.
  intros Hcol HK r r'.
  assert (Hframe : Store.elems (snd r) (fst column_begin) = contents).
  { unfold r. rewrite (proj2 (writes_only_iteration dfunc self K column_begin col_s s)
                         _ Hapart). exact Hcol. }
  destruct (@iteration_pure dfunc self column_begin col_s K s HK) as (E1 & E2 & L). rewrite Hcol in E1, E2.
  split; [exact E1 | split; [exact E2 | split; [exact Hframe | exact L]]].
Qed.

Lemma main_loop_agrees (K : nat) :
  forall iters (s : Store.store double),
    Store.elems s (fst column_begin) = contents ->
    length (Store.elems s self) = K ->
    let s' :=
      snd (runState (Store.main_loop dfunc self iters K column_begin col_s) s) in
    Store.elems s' self
    = KMeansVisitor.main_loop dfunc iters column (Store.elems s self) /\
    length (Store.elems s' self) = K.
Proof.
  induction iters as [| iters IH]; intros s Hcol HK;
    cbn [Store.main_loop KMeansVisitor.main_loop]; [split; [reflexivity | exact HK] |].
  destruct (iteration_agrees s Hcol HK) as (E1 & E2 & Hcol' & HK').
  cbn [bind Monad_state runState].
  destruct (runState (Store.iteration dfunc self K column_begin col_s) s)
    as [done s'].
  destruct (KMeansVisitor.iteration dfunc column (Store.elems s self))
    as [means' done'].
  cbn [fst snd] in *. subst done'. destruct done.
  - cbn. split; [exact E1 | exact HK'].
  - destruct (IH s' Hcol' HK') as [E HKs].
    split; [rewrite E, E1; reflexivity | exact HKs].
Qed.

(** [operator()] on a column that lies outside the visitor, [result_]
    holding [K] values and the draws being positions of the column: the
    container [self] ends with the centroids, and the call returns the
    clusters, of [KMeansVisitor.call]. *)
Lemma kmeans_call_agrees (K iter_num : nat) (cc : bool)
  (clusters : list (list KMeansVisitor.ptr)) (draws : list nat)
  (idx_begin idx_end : Store.iter) (s : Store.store double) :
  Store.elems s (fst column_begin) = contents ->
  length (Store.elems s self) = K ->
  Forall (fun d => (d < col_s)%nat) draws ->
  let r :=
    runState
      (Store.kmeans_call dfunc self K iter_num cc clusters draws
         idx_begin idx_end column_begin (Store.advance column_begin col_s)) s in
  let v :=
    KMeansVisitor.call
      (KMeansVisitor.mk K iter_num cc dfunc (Store.elems s self) clusters)
      draws (snd column_begin) column in
  Store.elems (snd r) self = KMeansVisitor.result_ v /\
  fst r = KMeansVisitor.clusters_ v /\
  Store.elems (snd r) (fst column_begin) = contents.
Proof.
  intros Hcol HK Hdraws r v.
  assert (Hframe : Store.elems (snd r) (fst column_begin) = contents).
  { unfold r.
    rewrite (proj2 (writes_only_kmeans_call dfunc self K iter_num cc clusters draws
                      idx_begin idx_end column_begin
                      (Store.advance column_begin col_s) s) _ Hapart).
    exact Hcol. }
  subst r v. unfold Store.kmeans_call, KMeansVisitor.call in *.
  replace (Store.distance column_begin (Store.advance column_begin col_s))
    with col_s in * by (unfold Store.distance, Store.advance; cbn; lia).
  cbn [KMeansVisitor.result_ KMeansVisitor.clusters_ KMeansVisitor.dfunc_
       KMeansVisitor.iter_num_ KMeansVisitor.cc_] in *.
  unfold Store.calc_k_means_, KMeansVisitor.calc_k_means_ in *.
  cbn [bind Monad_state runState] in *.
  pose proof (@seed_agrees draws Hdraws K 0%nat s [] (Store.elems s self)
                Hcol eq_refl eq_refl HK) as Hseed.
  cbn [app] in Hseed.
  pose proof (proj2 (writes_only_seed self column_begin draws K 0%nat s)
                _ Hapart) as Hcol1.
  rewrite Hcol in Hcol1.
  destruct (runState (Store.seed self column_begin 0 K draws) s) as [[] s1].
  cbn [fst snd] in *.
  assert (HK1 : length (Store.elems s1 self) = K).
  { rewrite Hseed. clear - HK. revert K HK draws.
    induction (Store.elems s self) as [| m means IH]; intros K HK draws.
    - destruct draws; exact HK.
    - destruct draws as [| d draws]; [exact HK |]. cbn [KMeansVisitor.seed length].
      destruct K as [| K]; [discriminate |]. f_equal. apply IH. cbn in HK. lia. }
  pose proof (main_loop_agrees iter_num s1 Hcol1 HK1) as [Hmain HK2].
  cbn zeta in Hmain, HK2.
  pose proof (proj2 (writes_only_main_loop dfunc self K column_begin col_s
                       iter_num s1) _ Hapart) as Hcol2.
  rewrite Hcol1 in Hcol2.
  destruct (runState (Store.main_loop dfunc self iter_num K column_begin col_s) s1)
    as [[] s2].
  cbn [fst snd] in *. rewrite Hseed in Hmain.
  destruct cc.
  - unfold Store.calc_clusters_. cbn [bind Monad_state runState].
    rewrite (@read_means self s2 K HK2). rewrite (read_column s2 Hcol2).
    cbn [runState ret Monad_state fst snd]. rewrite Hmain.
    split; [reflexivity | split; [reflexivity | exact Hcol2]].
  - cbn [runState ret Monad_state fst snd].
    split; [exact Hmain | split; [reflexivity | exact Hcol2]].
Qed.

End KMeansAgrees.

(** ** The containers: the visitors that push on their result *)

Section PushAgrees.

Import MonadNotation.
Local Open Scope monad_scope.

Variable self : Store.cid.

(** The values of the [n] elements from [it] on. *)
Let span (s : Store.store double) (it : Store.iter) (n : nat) : list double :=
  map (fun i => nth (snd it + i) (Store.elems s (fst it)) NaN) (seq 0 n).

Lemma span_step (s : Store.store double) (it : Store.iter) (n : nat) :
  span s it (S n)
  = nth (snd it) (Store.elems s (fst it)) NaN :: span s (Store.advance it 1) n.
Proof.
  unfold span. cbn [seq map]. rewrite Nat.add_0_r. f_equal.
  rewrite <- seq_shift, map_map. apply map_ext. intros i.
  cbn [Store.advance fst snd]. f_equal. lia.
Qed.

Lemma span_push (s : Store.store double) (it : Store.iter) (n : nat)
  (x : double) :
  fst it <> self ->
  span (snd (runState (Store.push_back self x) s)) it n = span s it n.
Proof.
  intros Hne. unfold span. cbn.
  destruct (Nat.eqb_spec (fst it) self) as [E | _]; [contradiction | reflexivity].
Qed.

Lemma for_each_push_agrees (g : double -> double) (n : nat) :
  forall it (s : Store.store double),
    fst it <> self ->
    Store.elems
      (snd (runState (Store.for_each NaN (fun x => Store.push_back self (g x)) it n) s))
      self
    = Store.elems s self ++ map g (span s it n).
Proof.
  induction n as [| n IH]; intros it s Hne.
  - cbn. rewrite app_nil_r. reflexivity.
  - rewrite span_step. cbn [Store.for_each map].
    cbn [bind Monad_state runState Store.deref get MonadState_state ret fst snd].
    set (x := nth (snd it) (Store.elems s (fst it)) NaN).
    pose proof (span_push s (Store.advance it 1) n (g x) Hne) as Hspan.
    destruct (runState (Store.push_back self (g x)) s) as [[] s'] eqn:Es.
    cbn [fst snd] in *. rewrite (IH (Store.advance it 1) s' Hne), Hspan.
    assert (Hs' : Store.elems s' self = Store.elems s self ++ [g x]).
    { apply (f_equal snd) in Es. cbn in Es. subst s'. cbn.
      rewrite Nat.eqb_refl. reflexivity. }
    rewrite Hs', <- app_assoc. reflexivity.
Qed.

(** SigmoidVisitor: the result grows by the sigmoid of every element. *)
Lemma sigmoid_call_agrees (erf : R -> R) (st : SigmoidVisitor.sigmoid_type)
  (idx_begin idx_end column_begin column_end : Store.iter)
  (s : Store.store double) :
  fst column_begin <> self ->
  Store.elems
    (snd (runState (Store.sigmoid_call erf self st idx_begin idx_end
                      column_begin column_end) s)) self
  = SigmoidVisitor.result_
      (SigmoidVisitor.call erf (SigmoidVisitor.mk (Store.elems s self) st)
         (Store.values NaN s column_begin column_end)).
Proof.
  intros Hne. unfold Store.sigmoid_call.
  rewrite for_each_push_agrees by exact Hne. reflexivity.
Qed.

Lemma silu_loop_agrees (column_begin : Store.iter) (sigm : list double) (n : nat) :
  fst column_begin <> self ->
  forall i (s : Store.store double),
    Store.elems
      (snd (runState (Store.silu_loop self sigm column_begin i n) s)) self
    = Store.elems s self
      ++ map (fun j => (nth (snd column_begin + j)
                          (Store.elems s (fst column_begin)) NaN
                        * at_ sigm j)%dbl) (seq i n).
Proof.
  intros Hne. induction n as [| n IH]; intros i s.
  - cbn. rewrite app_nil_r. reflexivity.
  - cbn [Store.silu_loop seq map].
    cbn [bind Monad_state runState Store.deref get MonadState_state ret fst snd
         Store.advance].
    set (x := nth (snd column_begin + i) (Store.elems s (fst column_begin)) NaN).
    destruct (runState (Store.push_back self (x * at_ sigm i)%dbl) s)
      as [[] s'] eqn:Es.
    apply (f_equal snd) in Es. cbn in Es. subst s'. cbn [snd].
    rewrite IH. cbn [Store.elems]. rewrite Nat.eqb_refl.
    destruct (Nat.eqb_spec (fst column_begin) self) as [E | _]; [contradiction |].
    rewrite <- app_assoc. reflexivity.
Qed.

(** RectifyVisitor: the result grows by the rectifier of every element, in
    the SiLU branch as in the others. *)
Lemma rectify_call_agrees (erf : R -> R) (v : RectifyVisitor.t)
  (idx_begin idx_end column_begin column_end : Store.iter)
  (s : Store.store double) :
  fst column_begin <> self ->
  Store.elems
    (snd (runState (Store.rectify_call erf self v idx_begin idx_end
                      column_begin column_end) s)) self
  = Store.elems s self
    ++ map (RectifyVisitor.apply erf v)
         (Store.values NaN s column_begin column_end).
Proof.
  intros Hne. unfold Store.rectify_call.
  destruct (RectifyVisitor.rtype_ v) eqn:Ety;
    try (rewrite for_each_push_agrees by exact Hne; reflexivity).
  cbn [bind Monad_state runState].
  pose proof (read_range_value NaN (Store.distance column_begin column_end)
                column_begin s) as Hv.
  pose proof (store_read_only_read_range NaN
                (Store.distance column_begin column_end) column_begin s) as Hro.
  destruct (runState (Store.read_range NaN column_begin
                        (Store.distance column_begin column_end)) s)
    as [column s'].
  cbn [fst snd] in Hv, Hro. subst s'. rewrite silu_loop_agrees by exact Hne.
  f_equal. unfold Store.values. rewrite map_map.
  apply map_ext_in. intros j Hj. apply in_seq in Hj.
  unfold RectifyVisitor.apply. rewrite Ety. f_equal.
  cbn [SigmoidVisitor.call SigmoidVisitor.pre SigmoidVisitor.result_
       SigmoidVisitor.sigmoid_type_ app].
  unfold at_.
  rewrite (nth_indep _ NaN (SigmoidVisitor.apply erf SigmoidVisitor.logistic NaN))
    by (rewrite length_map, Hv, length_map, length_seq; lia).
  rewrite map_nth. f_equal. rewrite Hv.
  rewrite (nth_indep _ NaN
             (nth (snd column_begin + 0) (Store.elems s (fst column_begin)) NaN))
    by (rewrite length_map, length_seq; lia).
  rewrite (map_nth (fun i => nth (snd column_begin + i)
                               (Store.elems s (fst column_begin)) NaN)).
  rewrite seq_nth by lia. reflexivity.
Qed.

Lemma policy_loop_agrees (n : nat) :
  forall action_prob reward (s : Store.store double),
    fst action_prob <> self -> fst reward <> self ->
    Store.elems
      (snd (runState (Store.policy_loop self action_prob reward n) s)) self
    = Store.elems s self
      ++ PolicyLearningLossVisitor.losses (span s action_prob n) (span s reward n).
Proof.
  induction n as [| n IH]; intros action_prob reward s Ha Hr.
  - cbn. rewrite app_nil_r. reflexivity.
  - rewrite !span_step. cbn [Store.policy_loop PolicyLearningLossVisitor.losses].
    cbn [bind Monad_state runState Store.deref get MonadState_state ret fst snd].
    set (ap := nth (snd action_prob) (Store.elems s (fst action_prob)) NaN).
    set (r := nth (snd reward) (Store.elems s (fst reward)) NaN).
    pose proof (span_push s (Store.advance action_prob 1) n (- dlog ap * r)%dbl Ha)
      as Hspan_a.
    pose proof (span_push s (Store.advance reward 1) n (- dlog ap * r)%dbl Hr)
      as Hspan_r.
    destruct (runState (Store.push_back self (- dlog ap * r)%dbl) s)
      as [[] s'] eqn:Es.
    cbn [fst snd] in *.
    rewrite (IH (Store.advance action_prob 1) (Store.advance reward 1) s' Ha Hr).
    rewrite Hspan_a, Hspan_r.
    assert (Hs' : Store.elems s' self
                  = Store.elems s self ++ [(- dlog ap * r)%dbl]).
    { apply (f_equal snd) in Es. cbn in Es. subst s'. cbn.
      rewrite Nat.eqb_refl. reflexivity. }
    rewrite Hs', <- app_assoc. reflexivity.
Qed.

End PushAgrees.

(** ** The containers: a KMeansVisitor on its own result *)

Lemma one_pass_apart :
  KMeansVisitor.iteration KMeansVisitor.default_dfunc [Fin 1; Fin 3] [Fin 1; Fin 3]
  = ([Fin 1; Fin 3], true).
Proof.
  pose proof DBL_MAX_large as Hmax.
  unfold KMeansVisitor.iteration, KMeansVisitor.assign, KMeansVisitor.nearest,
    KMeansVisitor.default_dfunc, KMeansVisitor.epsilon.
  cbn [length repeat is_nan__ KMeansVisitor.nearest_from].
  dbl_eval. cbn [at_ nth vset]. dbl_eval.
  cbn [KMeansVisitor.update]. dbl_eval.
  rewrite !ddiv_fin by lra. unfold KMeansVisitor.epsilon. dbl_eval. reflexivity.
Qed.

Lemma one_pass_aliased :
  KMeansVisitor.iteration KMeansVisitor.default_dfunc [Fin 1; Fin 1] [Fin 1; Fin 1]
  = ([Fin 1; Fin 0], false).
Proof.
  pose proof DBL_MAX_large as Hmax.
  unfold KMeansVisitor.iteration, KMeansVisitor.assign, KMeansVisitor.nearest,
    KMeansVisitor.default_dfunc, KMeansVisitor.epsilon.
  cbn [length repeat is_nan__ KMeansVisitor.nearest_from].
  dbl_eval. cbn [at_ nth vset]. dbl_eval.
  cbn [KMeansVisitor.update]. dbl_eval.
  rewrite !ddiv_fin by lra. unfold KMeansVisitor.epsilon. dbl_eval.
  repeat f_equal. lra.
Qed.

(** The first call leaves the centroids 1 and 3 in [result_]. *)
Lemma first_call_result :
  Store.elems (snd (runState Store.first_call Store.two_containers)) 0%nat
  = [Fin 1; Fin 3].
Proof.
  assert (Hapart : fst (1%nat, 0%nat) <> 0%nat) by (cbn; lia).
  assert (Hdraws : Forall (fun d => (d < 2)%nat) [0%nat; 1%nat])
    by (repeat constructor; lia).
  pose proof (@kmeans_call_agrees KMeansVisitor.default_dfunc 0%nat (1%nat, 0%nat)
                2%nat Hapart [Fin 1; Fin 3] 2%nat 1%nat false [[]; []]
                [0%nat; 1%nat] (2%nat, 0%nat) (2%nat, 0%nat) Store.two_containers
                eq_refl eq_refl Hdraws) as (E & _).
  etransitivity; [exact E |].
  unfold KMeansVisitor.call, KMeansVisitor.calc_k_means_.
  cbn [KMeansVisitor.result_ KMeansVisitor.dfunc_ KMeansVisitor.iter_num_
       Store.two_containers Store.elems snd Nat.add seq map nth
       KMeansVisitor.seed at_ is_nan__ KMeansVisitor.main_loop].
  rewrite one_pass_apart. reflexivity.
Qed.

(** The second call, on a state where [result_] holds 1 and 3, and the
    range handed in is [result_] itself: the draw for the second centroid
    writes 1 over the 3, and the pass of the main loop, which finds no point
    nearer to the second centroid than to the first, writes 0 there. *)
Lemma second_call_result (s : Store.store double) :
  Store.elems s 0%nat = [Fin 1; Fin 3] ->
  Store.elems (snd (runState Store.second_call s)) 0%nat = [Fin 1; Fin 0].
Proof.
  intros Hs. unfold Store.second_call, Store.kmeans_call, Store.calc_k_means_.
  cbn [bind Monad_state runState ret snd fst].
  assert (Hseed :
            Store.elems
              (snd (runState (Store.seed 0%nat (0%nat, 0%nat) 0%nat 2%nat [0%nat; 0%nat]) s))
              0%nat = [Fin 1; Fin 1]).
  { cbn [Store.seed bind Monad_state runState Store.deref get MonadState_state
         ret Store.advance fst snd Nat.add].
    rewrite Hs. cbn [nth is_nan__].
    cbn [Store.assign_elem bind Monad_state runState get put MonadState_state
         ret fst snd Store.elems Nat.eqb].
    rewrite Hs. cbn [vset nth is_nan__].
    cbn [Store.assign_elem bind Monad_state runState get put MonadState_state
         ret fst snd Store.elems Nat.eqb].
    rewrite Hs. reflexivity. }
  destruct (runState (Store.seed 0%nat (0%nat, 0%nat) 0%nat 2%nat [0%nat; 0%nat]) s)
    as [[] s1].
  cbn [snd] in Hseed. cbn [Store.main_loop bind Monad_state runState].
  assert (HK : length (Store.elems s1 0%nat) = 2%nat) by (rewrite Hseed; reflexivity).
  pose proof (@iteration_pure KMeansVisitor.default_dfunc 0%nat (0%nat, 0%nat)
                2%nat 2%nat s1 HK) as (E1 & E2 & _).
  cbn [fst snd Nat.add seq map] in E1, E2. rewrite Hseed in E1, E2.
  cbn [nth] in E1, E2. rewrite one_pass_aliased in E1, E2.
  replace (Store.distance (0%nat, 0%nat) (0%nat, 2%nat)) with 2%nat by reflexivity.
  destruct (runState (Store.iteration KMeansVisitor.default_dfunc 0%nat 2%nat
                        (0%nat, 0%nat) 2%nat) s1) as [done s2].
  cbn [fst snd] in E1, E2. subst done. cbn. exact E1.
Qed.



(** ** AffinityPropVisitor: the exemplars *)

Lemma collect_spec (column_begin col_s : nat) (avail respon : list double)
  (result : list nat) :
  AffinityPropVisitor.collect column_begin col_s avail respon result
  = result
    ++ map (fun i => (column_begin + i)%nat)
         (filter (AffinityPropVisitor.is_exemplar col_s avail respon) (seq 0 col_s)).
Proof.
  unfold AffinityPropVisitor.collect. generalize (seq 0 col_s) as l. intros l.
  revert result. induction l as [| i l IH]; intros result; cbn [fold_left filter].
  - cbn. symmetry; apply app_nil_r.
  - rewrite IH. destruct (AffinityPropVisitor.is_exemplar col_s avail respon i).
    + cbn [map]. rewrite <- app_assoc. reflexivity.
    + reflexivity.
Qed.

Lemma is_exemplar_spec (col_s : nat) (avail respon : list double) (i : nat) :
  AffinityPropVisitor.is_exemplar col_s avail respon i = true <->
  exists r a, at_ respon (i * col_s + i) = Fin r /\
              at_ avail (i * col_s + i) = Fin a /\ r + a > 0.
Proof.
  unfold AffinityPropVisitor.is_exemplar, dgt. split.
  - destruct (at_ respon (i * col_s + i)) as [| r]; [discriminate |].
    destruct (at_ avail (i * col_s + i)) as [| a]; [discriminate |].
    cbn [dadd dlift2 dlt]. destruct (Rlt_dec 0 (r + a)) as [Hlt | _]; [| discriminate].
    intros _. exists r, a. repeat split. lra.
  - intros (r & a & -> & -> & Hpos). cbn [dadd dlift2 dlt].
    destruct (Rlt_dec 0 (r + a)) as [_ | Hn]; [reflexivity | lra].
Qed.

(** C8.  After [operator()] on a column of n elements, run on a visitor
    reset by [pre], the address of element i is in the result exactly when
    r(i,i) + a(i,i) > 0 in the final state; the result holds each such
    address once, holds nothing but addresses of elements of the column,
    the call leaves the memory as it was, and an element read through the
    result is the cell of the column itself: a later store to the cell shows
    through the view. *)
Theorem affinity_exemplars (v : AffinityPropVisitor.t) (h : Heap.heap double)
  (idx_begin idx_end column_begin column_end : Heap.addr) :
  let n := Heap.distance column_begin column_end in
  let column := map (fun i => Heap.cells h (column_begin + i)%nat) (seq 0 n) in
  let st := AffinityPropVisitor.final_state v column in
  let run :=
    runState (Heap.affinity_call (AffinityPropVisitor.pre v)
                idx_begin idx_end column_begin column_end) h in
  let result := AffinityPropVisitor.result_ (fst run) in
  (forall i, (i < n)%nat ->
     (In (column_begin + i)%nat result <->
      exists r a, at_ (snd st) (i * n + i) = Fin r /\
                  at_ (fst st) (i * n + i) = Fin a /\ r + a > 0)) /\
  (forall p, In p result -> exists i, (i < n)%nat /\ p = (column_begin + i)%nat) /\
  NoDup result /\
  snd run = h /\
  (forall k x (h' : Heap.heap double),
     fst (runState (bind (Heap.store (nth k result 0%nat) x)
                      (fun _ => Heap.view_get result k)) h') = x).
Proof.
  intros n column st run result.
  assert (Hro : snd run = h).
  { unfold run, Heap.affinity_call. apply read_only_bind; [auto with frame |].
    intros a. apply read_only_ret. }
  assert (Hres : result
                 = map (fun i => (column_begin + i)%nat)
                     (filter (AffinityPropVisitor.is_exemplar n (fst st) (snd st))
                        (seq 0 n))).
  { unfold result, run, Heap.affinity_call.
    pose proof (load_range_value n column_begin h) as Hv.
    cbn. fold n. destruct (runState (Heap.load_range column_begin n) h) as [col h0].
    cbn [fst] in Hv. subst col. fold column. cbn [fst].
    unfold AffinityPropVisitor.call. cbn [AffinityPropVisitor.result_].
    rewrite collect_spec. cbn [AffinityPropVisitor.pre AffinityPropVisitor.result_ app].
    assert (Hlen : length column = n) by (unfold column; rewrite length_map, length_seq; reflexivity).
    rewrite Hlen. reflexivity. }
  split; [| split; [| split; [| split]]].
  - intros i Hi. rewrite <- is_exemplar_spec, Hres, in_map_iff. split.
    + intros (j & Hj & Hin). apply filter_In in Hin.
      assert (j = i) by lia. subst j. tauto.
    + intros He. exists i. split; [reflexivity |]. apply filter_In.
      split; [apply in_seq; lia | exact He].
  - intros p Hp. rewrite Hres in Hp. apply in_map_iff in Hp.
    destruct Hp as (i & <- & Hin). apply filter_In in Hin. destruct Hin as [Hin _].
    apply in_seq in Hin. exists i. split; [lia | reflexivity].
  - rewrite Hres. apply Injective_map_NoDup.
    + intros x y Hxy. lia.
    + apply NoDup_filter. apply seq_NoDup.
  - exact Hro.
  - intros k x h'. apply store_then_view.
Qed.

(** ** FastFourierTransVisitor: lengths and dispatch *)

Section FFTShape.

Import FastFourierTransVisitor.

Lemma fold_left_length (A B : Type) (f : list A -> B -> list A) (l : list B) :
  (forall a x, length (f a x) = length a) ->
  forall a, length (fold_left f l a) = length a.
Proof.
  intros Hf. induction l as [| x l IH]; intros a; cbn [fold_left].
  - reflexivity.
  - rewrite IH. apply Hf.
Qed.

Lemma swap_length (column : list cplx_t) (i j : nat) :
  length (swap column i j) = length column.
Proof. unfold swap. rewrite !length_vset. reflexivity. Qed.

Lemma bit_reverse_permute_length (levels : nat) (column : list cplx_t) :
  length (bit_reverse_permute levels column) = length column.
Proof.
  unfold bit_reverse_permute. apply fold_left_length. intros a i.
  destruct (Nat.ltb i (reverse_bits_ i levels)); [apply swap_length | reflexivity].
Qed.

Lemma butterfly_length (exp_table : list cplx_t) (half_size : nat)
  (column : list cplx_t) (jk : nat * nat) :
  length (butterfly exp_table half_size column jk) = length column.
Proof. unfold butterfly. rewrite !length_vset. reflexivity. Qed.

Lemma stage_length (exp_table : list cplx_t) (col_s s : nat) (column : list cplx_t) :
  length (stage exp_table col_s s column) = length column.
Proof. unfold stage. apply fold_left_length. intros; apply butterfly_length. Qed.

Lemma stages_length (exp_table : list cplx_t) (col_s : nat) :
  forall fuel s column,
    length (stages fuel exp_table col_s s column) = length column.
Proof.
  induction fuel as [| fuel IH]; intros s column; cbn [stages].
  - reflexivity.
  - destruct (Nat.leb s col_s); [| reflexivity]. rewrite IH. apply stage_length.
Qed.

Lemma fft_radix2_length (column : list cplx_t) (reverse : bool) :
  length (fft_radix2_ column reverse) = length column.
Proof.
  unfold fft_radix2_. rewrite stages_length. apply bit_reverse_permute_length.
Qed.

(** The stages perform the butterflies of the schedule, in order. *)
Lemma stages_schedule (exp_table : list cplx_t) (col_s : nat) :
  forall fuel s column,
    stages fuel exp_table col_s s column
    = fold_left (fun column op => butterfly exp_table (fst op) column (snd op))
        (radix2_schedule fuel col_s s) column.
Proof.
  induction fuel as [| fuel IH]; intros s column; cbn [stages radix2_schedule].
  - reflexivity.
  - destruct (Nat.leb s col_s); [| reflexivity].
    rewrite fold_left_app, IH. f_equal. unfold stage.
    generalize (butterfly_schedule col_s s) as ops. intros ops. revert column.
    induction ops as [| op ops IHops]; intros column; cbn [map fold_left fst snd].
    + reflexivity.
    + apply IHops.
Qed.

Lemma pointwise_mul_length (xs : list cplx_t) :
  forall ys, length (pointwise_mul xs ys) = Nat.min (length xs) (length ys).
Proof.
  induction xs as [| x xs IH]; intros [| y ys]; cbn [pointwise_mul length Nat.min]; auto.
Qed.

(** The test [(col_s & (col_s - 1)) == 0]. *)
Lemma is_power_of_2_pow (k : nat) : is_power_of_2 (2 ^ k) = true.
Proof.
  unfold is_power_of_2, size_wrap, size_bits. apply Z.eqb_eq.
  rewrite Nat2Z.inj_pow. change (Z.of_nat 2) with 2%Z.
  apply Z.bits_inj'. intros i Hi. rewrite Z.land_spec, Z.bits_0.
  rewrite Z.pow2_bits_eqb by lia.
  destruct (Z.eqb_spec (Z.of_nat k) i) as [<- | Hne]; [| reflexivity].
  cbn [andb].
  destruct (Z.ltb_spec (Z.of_nat k) 64) as [Hlt | Hge].
  - rewrite Z.mod_pow2_bits_low by lia.
    rewrite Z.sub_1_r, <- Z.ones_equiv. apply Z.ones_spec_high. lia.
  - apply Z.mod_pow2_bits_high. lia.
Qed.

Lemma is_power_of_2_inv (n : nat) :
  (0 < n)%nat -> (Z.of_nat n < 2 ^ 64)%Z ->
  is_power_of_2 n = true -> exists k, n = (2 ^ k)%nat.
Proof.
  intros Hpos Hlt H. unfold is_power_of_2 in H. apply Z.eqb_eq in H.
  rewrite size_wrap_small in H by lia.
  set (z := Z.of_nat n) in *.
  assert (Hz : (0 < z)%Z) by (unfold z; lia).
  pose proof (Z.log2_spec z Hz) as [Hlo Hhi].
  pose proof (Z.log2_nonneg z) as Hk.
  destruct (Z.eq_dec z (2 ^ Z.log2 z)) as [Heq | Hne].
  - exists (Z.to_nat (Z.log2 z)). apply Nat2Z.inj.
    rewrite Nat2Z.inj_pow, Z2Nat.id by exact Hk. exact Heq.
  - exfalso.
    assert (Hbit : Z.testbit (Z.land z (z - 1)) (Z.log2 z) = true).
    { rewrite Z.land_spec, Z.bit_log2 by exact Hz. cbn [andb].
      assert (Hlog : Z.log2 (z - 1) = Z.log2 z).
      { apply Z.log2_unique; [exact Hk |]. lia. }
      rewrite <- Hlog. apply Z.bit_log2. lia. }
    rewrite H, Z.bits_0 in Hbit. discriminate.
Qed.

(** The lengths for which neither [col_s * 2] nor [m *= 2] wraps in
    [fft_bluestein_], nor [s *= 2] in the transforms of the convolution. *)
Lemma conv_length_loop_spec (col_s : nat) :
  (Z.of_nat col_s < 2 ^ 60)%Z ->
  forall fuel m,
    (1 <= m)%nat -> (m <= 4 * col_s + 4)%nat ->
    (2 * col_s + 2 <= m * 2 ^ fuel)%nat ->
    (col_s < conv_length_loop fuel col_s m / 2)%nat /\
    (exists t, conv_length_loop fuel col_s m = (m * 2 ^ t)%nat) /\
    (conv_length_loop fuel col_s m <= 4 * col_s + 4)%nat.
Proof.
  intros Hb.
  induction fuel as [| fuel IH]; intros m Hm Hup Hfuel; cbn [conv_length_loop].
  - cbn [Nat.pow] in Hfuel. split; [| split].
    + apply Nat.div_le_lower_bound; lia.
    + exists 0%nat. cbn. lia.
    + exact Hup.
  - destruct (Nat.leb_spec (m / 2) col_s) as [Hle | Hgt].
    + assert (Hm2 : (m <= 2 * col_s + 1)%nat).
      { pose proof (Nat.div_mod_eq m 2).
        pose proof (Nat.mod_upper_bound m 2 ltac:(lia)). lia. }
      rewrite size_mul_small by lia.
      destruct (IH (m * 2)%nat) as (Hr & (t & Ht) & Hu).
      * lia.
      * lia.
      * cbn [Nat.pow] in Hfuel. lia.
      * split; [exact Hr | split; [| exact Hu]].
        exists (S t). rewrite Ht. cbn [Nat.pow]. lia.
    + split; [exact Hgt | split; [| exact Hup]]. exists 0%nat. cbn. lia.
Qed.

Lemma pow2_bound (n : nat) : (2 * n + 2 <= 2 ^ (n + 2))%nat.
Proof.
  induction n as [| n IH]; [cbn; lia |].
  change (S n + 2)%nat with (S (n + 2)). cbn [Nat.pow]. lia.
Qed.

Lemma conv_length_spec (col_s : nat) :
  (Z.of_nat col_s < 2 ^ 60)%Z ->
  (col_s < conv_length col_s / 2)%nat /\
  exists t, conv_length col_s = (2 ^ t)%nat /\ (t < 63)%nat.
Proof.
  intros Hb. unfold conv_length.
  destruct (@conv_length_loop_spec col_s Hb (col_s + 2) 1) as (H & (t & Ht) & Hu).
  - lia.
  - lia.
  - pose proof (pow2_bound col_s). lia.
  - split; [exact H |]. exists t. split; [rewrite Ht; lia |].
    destruct (Nat.lt_ge_cases t 63) as [Hlt | Hge]; [exact Hlt | exfalso].
    assert (Hz : (Z.of_nat (2 ^ t) <= 2 ^ 62 + 4)%Z) by (rewrite Ht in Hu; lia).
    rewrite pow2_of_nat in Hz.
    assert (Hp : (2 ^ 63 <= 2 ^ Z.of_nat t)%Z) by (apply Z.pow_le_mono_r; lia).
    lia.
Qed.

Lemma conv_length_ge (col_s : nat) :
  (Z.of_nat col_s < 2 ^ 60)%Z -> (col_s <= conv_length col_s)%nat.
Proof.
  intros Hb. destruct (@conv_length_spec col_s Hb) as [H _].
  assert (conv_length col_s / 2 <= conv_length col_s)%nat by (apply Nat.Div0.div_le_upper_bound; lia).
  lia.
Qed.

Lemma is_power_of_2_conv_length (col_s : nat) :
  (Z.of_nat col_s < 2 ^ 60)%Z -> is_power_of_2 (conv_length col_s) = true.
Proof.
  intros Hb. destruct (@conv_length_spec col_s Hb) as (_ & t & -> & _). apply is_power_of_2_pow.
Qed.

(** On a length that passes the test, one level of nesting is radix-2. *)
Lemma transform_depth_radix2 (depth : nat) (x : list cplx_t) (reverse : bool) :
  is_power_of_2 (length x) = true ->
  transform_depth (S depth) x reverse = fft_radix2_ x reverse.
Proof.
  intros H. cbn [transform_depth]. rewrite H.
  destruct (Nat.eqb_spec (length x) 0) as [Hz | _]; [| reflexivity].
  destruct x; [reflexivity | discriminate].
Qed.

Lemma bluestein_xvec_length (column exp_table : list cplx_t) :
  (Z.of_nat (length column) < 2 ^ 60)%Z ->
  let col_s := length column in
  length (map (fun i => Cmul (cat column i) (cat exp_table i)) (seq 0 col_s)
          ++ repeat C0 (conv_length col_s - col_s)) = conv_length col_s.
Proof.
  intros Hb. cbv zeta. rewrite length_app, length_map, length_seq, repeat_length.
  pose proof (@conv_length_ge _ Hb). lia.
Qed.

Lemma bluestein_yvec_length (exp_table : list cplx_t) (col_s m : nat) :
  length
    (fold_left
       (fun yvec i =>
          let c := conj (cat exp_table i) in vset (vset yvec (m - i) c) i c)
       (seq 1 (col_s - 1)) (vset (repeat C0 m) 0 (cat exp_table 0))) = m.
Proof.
  rewrite fold_left_length.
  - rewrite length_vset. apply repeat_length.
  - intros a i. cbv zeta. rewrite !length_vset. reflexivity.
Qed.

(** Inside Bluestein's algorithm every transform is radix-2. *)
Lemma bluestein_inner_radix2 (depth : nat) (column : list cplx_t) (reverse : bool) :
  (Z.of_nat (length column) < 2 ^ 60)%Z ->
  fft_bluestein_ (transform_depth (S depth)) column reverse
  = fft_bluestein_ fft_radix2_ column reverse.
Proof.
  intros Hb. unfold fft_bluestein_. f_equal. unfold convolve_.
  set (xvec := map _ _ ++ repeat C0 _).
  set (yvec := fold_left _ _ _).
  assert (Lx : length xvec = conv_length (length column))
    by (apply bluestein_xvec_length; exact Hb).
  assert (Ly : length yvec = conv_length (length column))
    by apply bluestein_yvec_length.
  rewrite (@transform_depth_radix2 depth xvec false)
    by (rewrite Lx; apply is_power_of_2_conv_length; exact Hb).
  rewrite (@transform_depth_radix2 depth yvec false)
    by (rewrite Ly; apply is_power_of_2_conv_length; exact Hb).
  rewrite transform_depth_radix2; [reflexivity |].
  rewrite pointwise_mul_length, !fft_radix2_length, Lx, Ly, Nat.min_id.
  apply is_power_of_2_conv_length. exact Hb.
Qed.

Lemma bluestein_table_length (col_s : nat) (reverse : bool) :
  length (bluestein_table col_s reverse) = col_s.
Proof. unfold bluestein_table. rewrite length_map, length_seq. reflexivity. Qed.

Lemma fft_bluestein_length (column : list cplx_t) (reverse : bool) :
  (Z.of_nat (length column) < 2 ^ 60)%Z ->
  length (fft_bluestein_ fft_radix2_ column reverse) = length column.
Proof.
  intros Hb. unfold fft_bluestein_, convolve_.
  set (xvec := map _ _ ++ repeat C0 _).
  set (yvec := fold_left _ _ _).
  assert (Lx : length xvec = conv_length (length column))
    by (apply bluestein_xvec_length; exact Hb).
  assert (Ly : length yvec = conv_length (length column))
    by apply bluestein_yvec_length.
  rewrite pointwise_mul_length, length_map, fft_radix2_length,
    pointwise_mul_length, !fft_radix2_length, Lx, Ly, Nat.min_id.
  rewrite bluestein_table_length.
  pose proof (@conv_length_ge _ Hb). lia.
Qed.

Lemma transform_dispatch (column : list cplx_t) (reverse : bool) :
  column <> [] -> (Z.of_nat (length column) < 2 ^ 60)%Z ->
  transform_ column reverse
  = if is_power_of_2 (length column) then fft_radix2_ column reverse
    else fft_bluestein_ fft_radix2_ column reverse.
Proof.
  intros Hne Hb. unfold transform_.
  change (transform_depth 2 column reverse)
    with (if Nat.eqb (length column) 0 then column
          else if is_power_of_2 (length column) then fft_radix2_ column reverse
               else fft_bluestein_ (transform_depth 1) column reverse).
  destruct (Nat.eqb_spec (length column) 0) as [Hz | _].
  - destruct column; [contradiction | discriminate].
  - destruct (is_power_of_2 (length column)); [reflexivity |].
    apply bluestein_inner_radix2. exact Hb.
Qed.

Lemma transform_length (column : list cplx_t) (reverse : bool) :
  (Z.of_nat (length column) < 2 ^ 60)%Z ->
  length (transform_ column reverse) = length column.
Proof.
  intros Hb. destruct column as [| c column]; [reflexivity |].
  rewrite transform_dispatch by (discriminate || exact Hb).
  destruct (is_power_of_2 _);
    [apply fft_radix2_length | apply fft_bluestein_length; exact Hb].
Qed.

Lemma itransform_length (column : list cplx_t) :
  (Z.of_nat (length column) < 2 ^ 60)%Z ->
  length (itransform_ column) = length column.
Proof.
  intros Hb. unfold itransform_. rewrite !length_map.
  destruct (is_power_of_2 (length column)).
  - rewrite fft_radix2_length. apply length_map.
  - unfold transform_.
    rewrite bluestein_inner_radix2, fft_bluestein_length
      by (rewrite length_map; exact Hb).
    apply length_map.
Qed.

End FFTShape.

(** * The Fourier transform *)

Section Fourier.

Import FastFourierTransVisitor.

(** ** Complex arithmetic *)

Lemma cplx_eq (a b : cplx_t) : fst a = fst b -> snd a = snd b -> a = b.
Proof. destruct a, b; cbn; intros -> ->; reflexivity. Qed.

Ltac cplx :=
  intros; apply cplx_eq;
  unfold Cadd, Csub, Cmul, conj, Cdiv_real, C0, Cone, polar; cbn [fst snd];
  try ring.

Lemma Cadd_comm a b : Cadd a b = Cadd b a. Proof. cplx. Qed.
Lemma Cadd_assoc a b c : Cadd a (Cadd b c) = Cadd (Cadd a b) c. Proof. cplx. Qed.
Lemma Cadd_0_l a : Cadd C0 a = a. Proof. cplx. Qed.
Lemma Cadd_0_r a : Cadd a C0 = a. Proof. cplx. Qed.
Lemma Cmul_comm a b : Cmul a b = Cmul b a. Proof. cplx. Qed.
Lemma Cmul_assoc a b c : Cmul a (Cmul b c) = Cmul (Cmul a b) c. Proof. cplx. Qed.
Lemma Cmul_1_l a : Cmul Cone a = a. Proof. cplx. Qed.
Lemma Cmul_1_r a : Cmul a Cone = a. Proof. cplx. Qed.
Lemma Cmul_0_l a : Cmul C0 a = C0. Proof. cplx. Qed.
Lemma Cmul_0_r a : Cmul a C0 = C0. Proof. cplx. Qed.
Lemma Cmul_add_distr_l a b c : Cmul a (Cadd b c) = Cadd (Cmul a b) (Cmul a c).
Proof. cplx. Qed.
Lemma Cmul_add_distr_r a b c : Cmul (Cadd a b) c = Cadd (Cmul a c) (Cmul b c).
Proof. cplx. Qed.
Lemma Csub_add_neg a b : Csub a b = Cadd a (Cmul (-1, 0) b). Proof. cplx. Qed.
Lemma conj_add a b : conj (Cadd a b) = Cadd (conj a) (conj b). Proof. cplx. Qed.
Lemma conj_mul a b : conj (Cmul a b) = Cmul (conj a) (conj b). Proof. cplx. Qed.
Lemma conj_conj a : conj (conj a) = a. Proof. cplx. Qed.
Lemma conj_0 : conj C0 = C0. Proof. cplx. Qed.

(** ** Roots of unity *)

Lemma root_0 n : root n 0 = Cone.
Proof.
  unfold root, polar, Cone. replace (2 * PI * 0 / INR n) with 0 by (unfold Rdiv; ring).
  rewrite cos_0, sin_0. f_equal; ring.
Qed.

Lemma root_add n a b : Cmul (root n a) (root n b) = root n (a + b).
Proof.
  unfold root, polar, Cmul. cbn [fst snd]. rewrite plus_IZR.
  replace (2 * PI * (IZR a + IZR b) / INR n)
    with (2 * PI * IZR a / INR n + 2 * PI * IZR b / INR n) by (unfold Rdiv; ring).
  rewrite cos_plus, sin_plus. f_equal; ring.
Qed.

Lemma root_conj n e : conj (root n e) = root n (- e).
Proof.
  unfold root, polar, conj. cbn [fst snd]. rewrite opp_IZR.
  replace (2 * PI * - IZR e / INR n) with (- (2 * PI * IZR e / INR n))
    by (unfold Rdiv; ring).
  rewrite cos_neg, sin_neg. f_equal; ring.
Qed.

Lemma cos_sin_period_Z (x : R) (k : Z) :
  cos (x + 2 * IZR k * PI) = cos x /\ sin (x + 2 * IZR k * PI) = sin x.
Proof.
  assert (Hpos : forall p, IZR (Z.pos p) = INR (Pos.to_nat p)).
  { intros p. rewrite INR_IZR_INZ, positive_nat_Z. reflexivity. }
  destruct k as [| p | p].
  - replace (x + 2 * 0 * PI) with x by ring. split; reflexivity.
  - rewrite (Hpos p). split; [apply cos_period | apply sin_period].
  - change (Z.neg p) with (- Z.pos p)%Z. rewrite opp_IZR, (Hpos p).
    set (k := Pos.to_nat p). split.
    + rewrite <- (cos_period (x + 2 * - INR k * PI) k). f_equal. ring.
    + rewrite <- (sin_period (x + 2 * - INR k * PI) k). f_equal. ring.
Qed.

Lemma INR_nonzero n : (0 < n)%nat -> INR n <> 0.
Proof. intros H. apply not_0_INR. lia. Qed.

Lemma root_period n e c : (0 < n)%nat -> root n (e + Z.of_nat n * c) = root n e.
Proof.
  intros Hn. unfold root, polar. rewrite plus_IZR, mult_IZR, <- INR_IZR_INZ.
  replace (2 * PI * (IZR e + INR n * IZR c) / INR n)
    with (2 * PI * IZR e / INR n + 2 * IZR c * PI) by (field; apply INR_nonzero; exact Hn).
  destruct (cos_sin_period_Z (2 * PI * IZR e / INR n) c) as [-> ->]. reflexivity.
Qed.

Lemma root_mod n e : (0 < n)%nat -> root n (e mod Z.of_nat n) = root n e.
Proof.
  intros Hn. rewrite <- (root_period (e mod Z.of_nat n) (e / Z.of_nat n) Hn).
  f_equal. rewrite Z.add_comm. symmetry. apply Z.div_mod. lia.
Qed.

Lemma root_scale c n e : (0 < c)%nat -> (0 < n)%nat ->
  root (c * n) (Z.of_nat c * e) = root n e.
Proof.
  intros Hc Hn. unfold root. f_equal.
  rewrite mult_INR, mult_IZR, <- INR_IZR_INZ. field.
  split; apply INR_nonzero; assumption.
Qed.

Lemma root_half s : (0 < s)%nat -> root (2 * s) (Z.of_nat s) = (-1, 0).
Proof.
  intros Hs. unfold root, polar. rewrite <- INR_IZR_INZ, mult_INR.
  replace (2 * PI * INR s / (INR 2 * INR s)) with PI
    by (cbn [INR]; field; apply INR_nonzero; exact Hs).
  rewrite cos_PI, sin_PI. f_equal; ring.
Qed.

Lemma root_full n : (0 < n)%nat -> root n (Z.of_nat n) = Cone.
Proof.
  intros Hn. rewrite <- (root_0 n).
  replace (Z.of_nat n) with (0 + Z.of_nat n * 1)%Z by lia. apply root_period; exact Hn.
Qed.

Lemma root_neq_1 n e : (0 < n)%nat -> (e mod Z.of_nat n <> 0)%Z -> fst (root n e) < 1.
Proof.
  intros Hn He. rewrite <- root_mod by exact Hn.
  set (r := (e mod Z.of_nat n)%Z) in *.
  assert (Hr : (0 < r < Z.of_nat n)%Z).
  { pose proof (Z.mod_pos_bound e (Z.of_nat n) ltac:(lia)). unfold r in *. lia. }
  unfold root, polar. cbn [fst].
  set (t := PI * IZR r / INR n).
  replace (2 * PI * IZR r / INR n) with (2 * t) by (unfold t, Rdiv; ring).
  rewrite cos_2a_sin.
  assert (HnR : 0 < INR n) by (apply lt_0_INR; exact Hn).
  assert (HrR : 0 < IZR r) by (apply IZR_lt; lia).
  assert (HrR' : IZR r < INR n) by (rewrite INR_IZR_INZ; apply IZR_lt; lia).
  assert (Ht : 0 < t < PI).
  { unfold t. pose proof PI_RGT_0. split.
    - apply Rdiv_lt_0_compat; [apply Rmult_lt_0_compat |]; assumption.
    - apply (Rmult_lt_reg_r (INR n)); [exact HnR |].
      unfold Rdiv. rewrite Rmult_assoc, Rinv_l by lra. nra. }
  pose proof (sin_gt_0 t (proj1 Ht) (proj2 Ht)). nra.
Qed.

(** ** Finite sums *)

Lemma Csum_ext (f g : nat -> cplx_t) (n : nat) :
  (forall i, (i < n)%nat -> f i = g i) -> Csum f n = Csum g n.
Proof.
  induction n as [| n IH]; intros H; cbn [Csum].
  - reflexivity.
  - rewrite IH, H by (intros; try apply H; lia). reflexivity.
Qed.

Lemma Csum_zero (n : nat) : Csum (fun _ => C0) n = C0.
Proof. induction n as [| n IH]; cbn [Csum]; [| rewrite IH, Cadd_0_l]; reflexivity. Qed.

Lemma Csum_add (f g : nat -> cplx_t) (n : nat) :
  Csum (fun i => Cadd (f i) (g i)) n = Cadd (Csum f n) (Csum g n).
Proof.
  induction n as [| n IH]; cbn [Csum].
  - symmetry; apply Cadd_0_l.
  - rewrite IH. cplx.
Qed.

Lemma Csum_mul_l (c : cplx_t) (f : nat -> cplx_t) (n : nat) :
  Csum (fun i => Cmul c (f i)) n = Cmul c (Csum f n).
Proof.
  induction n as [| n IH]; cbn [Csum].
  - symmetry; apply Cmul_0_r.
  - rewrite IH. symmetry; apply Cmul_add_distr_l.
Qed.

Lemma Csum_mul_r (c : cplx_t) (f : nat -> cplx_t) (n : nat) :
  Csum (fun i => Cmul (f i) c) n = Cmul (Csum f n) c.
Proof.
  induction n as [| n IH]; cbn [Csum].
  - symmetry; apply Cmul_0_l.
  - rewrite IH. symmetry; apply Cmul_add_distr_r.
Qed.

Lemma Csum_conj (f : nat -> cplx_t) (n : nat) :
  conj (Csum f n) = Csum (fun i => conj (f i)) n.
Proof.
  induction n as [| n IH]; cbn [Csum].
  - apply conj_0.
  - rewrite conj_add, IH. reflexivity.
Qed.

Lemma Csum_div_real (f : nat -> cplx_t) (r : R) (n : nat) :
  Cdiv_real (Csum f n) r = Csum (fun i => Cdiv_real (f i) r) n.
Proof.
  induction n as [| n IH]; cbn [Csum].
  - unfold Cdiv_real, C0; cbn [fst snd]. unfold Rdiv. f_equal; ring.
  - rewrite <- IH. unfold Cdiv_real, Cadd; cbn [fst snd]. unfold Rdiv. f_equal; ring.
Qed.

Lemma Csum_exchange (f : nat -> nat -> cplx_t) (n m : nat) :
  Csum (fun i => Csum (fun j => f i j) m) n
  = Csum (fun j => Csum (fun i => f i j) n) m.
Proof.
  induction n as [| n IH]; cbn [Csum].
  - symmetry; apply Csum_zero.
  - rewrite IH, <- Csum_add. reflexivity.
Qed.

Lemma Csum_delta (f : nat -> cplx_t) (n i0 : nat) :
  (i0 < n)%nat -> (forall i, (i < n)%nat -> i <> i0 -> f i = C0) ->
  Csum f n = f i0.
Proof.
  induction n as [| n IH]; intros Hi H; [lia |]. cbn [Csum].
  destruct (Nat.eq_dec i0 n) as [-> | Hne].
  - rewrite (@Csum_ext f (fun _ => C0)) by (intros; apply H; lia).
    rewrite Csum_zero. apply Cadd_0_l.
  - rewrite IH by (try lia; intros; apply H; lia).
    rewrite (H n) by lia. apply Cadd_0_r.
Qed.

Lemma Csum_shift (f : nat -> cplx_t) (n : nat) :
  Cadd (Csum (fun i => f (S i)) n) (f 0%nat) = Cadd (Csum f n) (f n).
Proof.
  induction n as [| n IH]; cbn [Csum].
  - cplx.
  - rewrite <- IH. cplx.
Qed.

Lemma Csum_app (f : nat -> cplx_t) (n m : nat) :
  Csum f (n + m) = Cadd (Csum f n) (Csum (fun i => f (n + i)%nat) m).
Proof.
  induction m as [| m IH]; cbn [Csum].
  - rewrite Nat.add_0_r. symmetry; apply Cadd_0_r.
  - rewrite Nat.add_succ_r. cbn [Csum]. rewrite IH. symmetry; apply Cadd_assoc.
Qed.

Lemma Csum_even_odd (f : nat -> cplx_t) (n : nat) :
  Csum f (2 * n)
  = Cadd (Csum (fun i => f (2 * i)%nat) n) (Csum (fun i => f (2 * i + 1)%nat) n).
Proof.
  induction n as [| n IH].
  - cbn. symmetry; apply Cadd_0_l.
  - replace (2 * S n)%nat with (S (S (2 * n))) by lia. cbn [Csum]. rewrite IH.
    replace (S (2 * n)) with (2 * n + 1)%nat by lia. cplx.
Qed.

Lemma Csum_const (c : cplx_t) (n : nat) :
  Csum (fun _ => c) n = (INR n * fst c, INR n * snd c).
Proof.
  induction n as [| n IH]; cbn [Csum].
  - cbn. unfold C0. f_equal; ring.
  - rewrite IH, S_INR. unfold Cadd; cbn [fst snd]. f_equal; ring.
Qed.

(** ** Orthogonality of the roots of unity *)

Lemma Cmul_integral (u s : cplx_t) : Cmul u s = C0 -> u <> C0 -> s = C0.
Proof.
  destruct u as [ur ui], s as [sr si]. unfold Cmul, C0; cbn [fst snd].
  intros H Hu. injection H as H1 H2.
  assert (Hn : 0 < ur * ur + ui * ui).
  { pose proof (Rle_0_sqr ur) as Hur. pose proof (Rle_0_sqr ui) as Hui.
    destruct (Req_dec ur 0) as [Hr | Hr]; destruct (Req_dec ui 0) as [Hi | Hi].
    - exfalso. apply Hu. rewrite Hr, Hi. reflexivity.
    - apply Rsqr_pos_lt in Hi. unfold Rsqr in *. lra.
    - apply Rsqr_pos_lt in Hr. unfold Rsqr in *. lra.
    - apply Rsqr_pos_lt in Hr. unfold Rsqr in *. lra. }
  assert (Hsr : sr * (ur * ur + ui * ui) = 0).
  { replace (sr * (ur * ur + ui * ui))
      with (ur * (ur * sr - ui * si) + ui * (ur * si + ui * sr)) by ring.
    rewrite H1, H2. ring. }
  assert (Hsi : si * (ur * ur + ui * ui) = 0).
  { replace (si * (ur * ur + ui * ui))
      with (ur * (ur * si + ui * sr) - ui * (ur * sr - ui * si)) by ring.
    rewrite H1, H2. ring. }
  apply Rmult_integral in Hsr, Hsi.
  destruct Hsr as [-> | Hsr]; [| lra]. destruct Hsi as [-> | Hsi]; [| lra].
  reflexivity.
Qed.

Lemma root_sum (n : nat) (d : Z) :
  (0 < n)%nat ->
  Csum (fun k => root n (Z.of_nat k * d)) n
  = if Z.eqb (d mod Z.of_nat n) 0 then (INR n, 0) else C0.
Proof.
  intros Hn. destruct (Z.eqb_spec (d mod Z.of_nat n) 0) as [Hz | Hnz].
  - rewrite (@Csum_ext _ (fun _ => Cone)).
    + rewrite Csum_const. unfold Cone; cbn [fst snd]. f_equal; ring.
    + intros k _. rewrite <- root_mod by exact Hn.
      rewrite Z.mul_mod, Hz, Z.mul_0_r, Z.mod_0_l by lia. apply root_0.
  - set (S := Csum (fun k => root n (Z.of_nat k * d)) n).
    assert (Hrot : Cmul (root n d) S = S).
    { unfold S. rewrite <- Csum_mul_l.
      rewrite (@Csum_ext _ (fun k => root n (Z.of_nat (Datatypes.S k) * d))).
      - pose proof (Csum_shift (fun k => root n (Z.of_nat k * d)) n) as Hs.
        cbv beta in Hs. change (Z.of_nat 0 * d)%Z with 0%Z in Hs.
        rewrite root_0 in Hs.
        replace (root n (Z.of_nat n * d)) with Cone in Hs.
        + apply (f_equal (fun z => Csub z Cone)) in Hs.
          revert Hs. generalize (Csum (fun i => root n (Z.of_nat (Datatypes.S i) * d)) n).
          generalize (Csum (fun k => root n (Z.of_nat k * d)) n).
          intros a b Hs.
          assert (Ha : Csub (Cadd a Cone) Cone = a) by cplx.
          assert (Hb : Csub (Cadd b Cone) Cone = b) by cplx.
          congruence.
        + rewrite <- (root_0 n).
          replace (Z.of_nat n * d)%Z with (0 + Z.of_nat n * d)%Z by lia.
          symmetry. apply root_period; exact Hn.
      - intros k _. rewrite root_add. f_equal. lia. }
    apply (@Cmul_integral (Csub (root n d) Cone)).
    + replace (Cmul (Csub (root n d) Cone) S) with (Csub (Cmul (root n d) S) S)
        by (generalize (root n d) S; cplx).
      rewrite Hrot. generalize S. cplx.
    + intros H. pose proof (root_neq_1 d Hn Hnz) as Hlt.
      apply (f_equal fst) in H. unfold Csub, Cone, C0 in H; cbn [fst] in H. lra.
Qed.

(** ** The discrete Fourier transform of a sequence *)

Lemma polar_root (reverse : bool) (e n : nat) :
  polar 1 ((if reverse then 2 else - 2) * PI * INR e / INR n)
  = root n (sign_of reverse * Z.of_nat e).
Proof.
  unfold root. f_equal. rewrite mult_IZR, <- INR_IZR_INZ.
  destruct reverse; cbn [sign_of]; unfold Rdiv; ring.
Qed.

Lemma cat_map_seq (f : nat -> cplx_t) (n i : nat) :
  (i < n)%nat -> cat (map f (seq 0 n)) i = f i.
Proof.
  intros Hi. unfold cat.
  rewrite (nth_indep _ C0 (f 0%nat)) by (rewrite length_map, length_seq; exact Hi).
  rewrite map_nth, seq_nth by exact Hi. reflexivity.
Qed.

Lemma cat_overflow (l : list cplx_t) (i : nat) : (length l <= i)%nat -> cat l i = C0.
Proof. intros H. unfold cat. apply nth_overflow; exact H. Qed.

Lemma cat_map_conj (l : list cplx_t) (i : nat) : cat (map conj l) i = conj (cat l i).
Proof. unfold cat. rewrite <- conj_0 at 1. apply map_nth. Qed.

Lemma dft_length (reverse : bool) (x : list cplx_t) : length (dft reverse x) = length x.
Proof. unfold dft. rewrite length_map, length_seq. reflexivity. Qed.

Lemma dft_cat (reverse : bool) (x : list cplx_t) (k : nat) :
  (k < length x)%nat ->
  cat (dft reverse x) k = dft_at (sign_of reverse) (length x) (cat x) k.
Proof.
  intros Hk. unfold dft. rewrite cat_map_seq by exact Hk. unfold dft_at.
  apply Csum_ext. intros j _. rewrite polar_root. reflexivity.
Qed.

(** Equality of columns, slot by slot. *)
Lemma cat_ext (l l' : list cplx_t) :
  length l = length l' ->
  (forall i, (i < length l)%nat -> cat l i = cat l' i) -> l = l'.
Proof. intros HL H. apply (nth_ext _ _ C0 C0); assumption. Qed.

(** The inversion formula. *)
Lemma dft_inversion (n : nat) (x : nat -> cplx_t) (t : nat) :
  (t < n)%nat ->
  Csum (fun k => Cmul (dft_at (-1) n x k) (root n (Z.of_nat (k * t)))) n
  = (INR n * fst (x t), INR n * snd (x t)).
Proof.
  intros Ht. assert (Hn : (0 < n)%nat) by lia.
  unfold dft_at.
  rewrite (@Csum_ext _
             (fun k => Csum (fun j => Cmul (x j)
                                        (root n (Z.of_nat k * (Z.of_nat t - Z.of_nat j)))) n)).
  2:{ intros k _. rewrite <- Csum_mul_r. apply Csum_ext. intros j _.
      rewrite <- Cmul_assoc, root_add. f_equal. f_equal. lia. }
  rewrite Csum_exchange.
  rewrite (@Csum_ext _
             (fun j => Cmul (x j)
                         (if Z.eqb ((Z.of_nat t - Z.of_nat j) mod Z.of_nat n) 0
                          then (INR n, 0) else C0))).
  2:{ intros j _. rewrite Csum_mul_l, root_sum by exact Hn. reflexivity. }
  rewrite (@Csum_delta _ n t Ht).
  - rewrite Z.sub_diag, Z.mod_0_l by lia. cbn [Z.eqb].
    unfold Cmul; cbn [fst snd]. f_equal; ring.
  - intros j Hj Hne.
    destruct (Z.eqb_spec ((Z.of_nat t - Z.of_nat j) mod Z.of_nat n) 0) as [Hz | _];
      [| apply Cmul_0_r].
    exfalso. apply Z.mod_divide in Hz; [| lia]. destruct Hz as [c Hc].
    assert (c = 0)%Z by nia. subst c. lia.
Qed.

(** Conjugate, transform forward, conjugate, divide by the length: the
    inverse of the forward transform. *)
Lemma conj_dft_conj_inverts (x : list cplx_t) :
  x <> [] ->
  map (fun v => Cdiv_real v (INR (length x)))
    (map conj (dft false (map conj (dft false x)))) = x.
Proof.
  intros Hne. set (n := length x).
  assert (Hn : (0 < n)%nat) by (unfold n; destruct x; [contradiction | cbn; lia]).
  apply cat_ext.
  - rewrite !length_map, dft_length, length_map, dft_length. reflexivity.
  - rewrite !length_map, dft_length, length_map, dft_length. intros t Ht. fold n in Ht.
    unfold cat at 1.
    rewrite (nth_indep _ C0 (Cdiv_real C0 (INR n)))
      by (rewrite !length_map, dft_length, length_map, dft_length; exact Ht).
    rewrite (map_nth (fun v => Cdiv_real v (INR n))).
    fold (cat (map conj (dft false (map conj (dft false x)))) t).
    rewrite cat_map_conj, dft_cat by (rewrite length_map, dft_length; exact Ht).
    rewrite length_map, dft_length. fold n. unfold dft_at. rewrite Csum_conj.
    rewrite (@Csum_ext _
               (fun k => Cmul (dft_at (-1) n (cat x) k) (root n (Z.of_nat (k * t))))).
    + rewrite dft_inversion by exact Ht.
      unfold Cdiv_real; cbn [fst snd]. apply cplx_eq; cbn [fst snd]; field;
        apply INR_nonzero; exact Hn.
    + intros k Hk. rewrite conj_mul, cat_map_conj, conj_conj, root_conj.
      rewrite dft_cat by exact Hk. fold n. cbn [sign_of]. f_equal. f_equal. lia.
Qed.

(** ** Bit reversal *)

Lemma lor_shift_bit (r b : nat) : (b < 2)%nat -> Nat.lor (2 * r) b = (2 * r + b)%nat.
Proof.
  intros Hb. destruct b as [| [| b]]; [| | lia].
  - rewrite Nat.lor_0_r. lia.
  - apply Nat.bits_inj. intros [| i]; rewrite Nat.lor_spec.
    + rewrite Nat.testbit_even_0, Nat.testbit_odd_0. reflexivity.
    + rewrite Nat.testbit_even_succ, Nat.testbit_odd_succ by lia.
      change 1%nat with (2 * 0 + 1)%nat at 1.
      rewrite Nat.testbit_odd_succ, Nat.bits_0 by lia. apply orb_false_r.
Qed.

Lemma reverse_bits_loop_step (w v r : nat) :
  reverse_bits_loop (S w) v r = reverse_bits_loop w (v / 2) (2 * r + v mod 2).
Proof.
  cbn [reverse_bits_loop].
  pose proof (Nat.land_ones v 1) as Hland.
  change (Nat.ones 1) with 1%nat in Hland. rewrite Hland.
  rewrite Nat.shiftr_div_pow2, Nat.shiftl_mul_pow2. change (2 ^ 1)%nat with 2%nat.
  rewrite (Nat.mul_comm r 2), lor_shift_bit by (apply Nat.mod_upper_bound; lia).
  reflexivity.
Qed.

Lemma reverse_bits_loop_acc (w : nat) :
  forall v r, reverse_bits_loop w v r = (r * 2 ^ w + reverse_bits_loop w v 0)%nat.
Proof.
  induction w as [| w IH]; intros v r.
  - cbn. lia.
  - rewrite !reverse_bits_loop_step. rewrite (IH (v / 2)%nat (2 * r + v mod 2)%nat).
    rewrite (IH (v / 2)%nat (2 * 0 + v mod 2)%nat). cbn [Nat.pow]. lia.
Qed.

Lemma reverse_bits_succ (w v : nat) :
  reverse_bits_ v (S w) = (v mod 2 * 2 ^ w + reverse_bits_ (v / 2) w)%nat.
Proof.
  unfold reverse_bits_. rewrite reverse_bits_loop_step, reverse_bits_loop_acc.
  rewrite Nat.mul_0_r, Nat.add_0_l. reflexivity.
Qed.

Lemma reverse_bits_lt (w : nat) : forall v, (reverse_bits_ v w < 2 ^ w)%nat.
Proof.
  induction w as [| w IH]; intros v.
  - cbn. lia.
  - rewrite reverse_bits_succ. specialize (IH (v / 2)%nat).
    pose proof (Nat.mod_upper_bound v 2 ltac:(lia)). cbn [Nat.pow]. nia.
Qed.

Lemma reverse_bits_even (w b : nat) : reverse_bits_ (2 * b) (S w) = reverse_bits_ b w.
Proof.
  rewrite reverse_bits_succ.
  replace ((2 * b) mod 2)%nat with 0%nat
    by (rewrite Nat.mul_comm, Nat.Div0.mod_mul; reflexivity).
  replace (2 * b / 2)%nat with b by (rewrite Nat.mul_comm, Nat.div_mul; lia).
  lia.
Qed.

Lemma reverse_bits_odd (w b : nat) :
  reverse_bits_ (2 * b + 1) (S w) = (2 ^ w + reverse_bits_ b w)%nat.
Proof.
  rewrite reverse_bits_succ.
  replace ((2 * b + 1) mod 2)%nat with 1%nat.
  2:{ rewrite Nat.add_comm, Nat.mul_comm, Nat.Div0.mod_add. reflexivity. }
  replace ((2 * b + 1) / 2)%nat with b.
  2:{ rewrite Nat.add_comm, Nat.mul_comm, Nat.div_add by lia. reflexivity. }
  lia.
Qed.

(** The top bit comes out as the bottom one. *)
Lemma reverse_bits_top (w : nat) :
  forall h lo, (h < 2)%nat -> (lo < 2 ^ w)%nat ->
    reverse_bits_ (h * 2 ^ w + lo) (S w) = (2 * reverse_bits_ lo w + h)%nat.
Proof.
  induction w as [| w IH]; intros h lo Hh Hlo.
  - cbn [Nat.pow] in *. assert (lo = 0)%nat by lia. subst lo.
    rewrite reverse_bits_succ. unfold reverse_bits_ at 1 2. cbn [reverse_bits_loop Nat.pow].
    rewrite Nat.mul_1_r, Nat.add_0_r, Nat.mod_small by lia. lia.
  - rewrite reverse_bits_succ.
    assert (Hmod : ((h * 2 ^ S w + lo) mod 2 = lo mod 2)%nat).
    { cbn [Nat.pow]. replace (h * (2 * 2 ^ w) + lo)%nat with (lo + (h * 2 ^ w) * 2)%nat by lia.
      apply Nat.Div0.mod_add. }
    assert (Hdiv : ((h * 2 ^ S w + lo) / 2 = h * 2 ^ w + lo / 2)%nat).
    { cbn [Nat.pow]. replace (h * (2 * 2 ^ w) + lo)%nat with (lo + (h * 2 ^ w) * 2)%nat by lia.
      rewrite Nat.div_add by lia. lia. }
    rewrite Hmod, Hdiv.
    rewrite IH; [| exact Hh |].
    + rewrite (reverse_bits_succ w lo). cbn [Nat.pow]. lia.
    + cbn [Nat.pow] in Hlo. apply Nat.Div0.div_lt_upper_bound. lia.
Qed.

Lemma reverse_bits_involutive (w : nat) :
  forall v, (v < 2 ^ w)%nat -> reverse_bits_ (reverse_bits_ v w) w = v.
Proof.
  induction w as [| w IH]; intros v Hv.
  - cbn in *. lia.
  - rewrite (reverse_bits_succ w v).
    assert (Hdiv : (v / 2 < 2 ^ w)%nat).
    { cbn [Nat.pow] in Hv. apply Nat.Div0.div_lt_upper_bound. lia. }
    rewrite reverse_bits_top.
    + rewrite IH by exact Hdiv. pose proof (Nat.div_mod_eq v 2). lia.
    + apply Nat.mod_upper_bound. lia.
    + apply reverse_bits_lt.
Qed.

(** ** The number of levels *)

Lemma levels_loop_pow2 (L : nat) :
  forall fuel levels, (L <= fuel)%nat ->
    levels_loop fuel (2 ^ L) levels = (levels + L)%nat.
Proof.
  induction L as [| L IH]; intros fuel levels Hfuel.
  - destruct fuel; cbn; lia.
  - destruct fuel as [| fuel]; [lia |]. cbn [levels_loop].
    assert (H1 : (1 < 2 ^ S L)%nat).
    { cbn [Nat.pow]. pose proof (Nat.pow_nonzero 2 L ltac:(lia)). lia. }
    destruct (Nat.ltb_spec 1 (2 ^ S L)); [| lia].
    rewrite Nat.shiftr_div_pow2. change (2 ^ 1)%nat with 2%nat.
    replace (2 ^ S L / 2)%nat with (2 ^ L)%nat.
    + rewrite IH by lia. lia.
    + cbn [Nat.pow]. rewrite Nat.mul_comm, Nat.div_mul by lia. reflexivity.
Qed.

Lemma pow2_gt (L : nat) : (L < 2 ^ L)%nat.
Proof. apply Nat.pow_gt_lin_r. lia. Qed.

Lemma levels_of_pow2 (L : nat) : levels_of (2 ^ L) = L.
Proof.
  unfold levels_of. rewrite levels_loop_pow2; [reflexivity |].
  pose proof (pow2_gt L). lia.
Qed.

(** ** Loops that update disjoint pairs of slots *)

Lemma cat_vset (column : list cplx_t) (i j : nat) (x : cplx_t) :
  (i < length column)%nat ->
  cat (vset column i x) j = if Nat.eqb i j then x else cat column j.
Proof. unfold cat. apply nth_vset. Qed.

Section PairOps.

Variable X : Type.
Variable step : list cplx_t -> X -> list cplx_t.
Variables P Q : X -> nat.
Variables FA FB : X -> cplx_t -> cplx_t -> cplx_t.
Variable n : nat.

Hypothesis step_length : forall column x, length (step column x) = length column.
Hypothesis step_cat :
  forall column x t,
    length column = n -> (P x < n)%nat -> (Q x < n)%nat -> P x <> Q x ->
    cat (step column x) t
    = if Nat.eqb t (P x) then FA x (cat column (P x)) (cat column (Q x))
      else if Nat.eqb t (Q x) then FB x (cat column (P x)) (cat column (Q x))
      else cat column t.

Lemma fold_pair_ops (ops : list X) :
  forall column,
    length column = n ->
    NoDup ops ->
    (forall x, In x ops -> (P x < n)%nat /\ (Q x < n)%nat) ->
    (forall x y, In x ops -> In y ops -> P x = P y -> x = y) ->
    (forall x y, In x ops -> In y ops -> Q x = Q y -> x = y) ->
    (forall x y, In x ops -> In y ops -> P x <> Q y) ->
    let r := fold_left step ops column in
    length r = n /\
    (forall x, In x ops ->
       cat r (P x) = FA x (cat column (P x)) (cat column (Q x)) /\
       cat r (Q x) = FB x (cat column (P x)) (cat column (Q x))) /\
    (forall t, (forall x, In x ops -> t <> P x /\ t <> Q x) -> cat r t = cat column t).
Proof.
  induction ops as [| x0 ops IH]; intros column Hlen Hnd Hrange HP HQ HPQ;
    cbn [fold_left].
  - cbn. repeat split; try assumption; intros; tauto.
  - apply NoDup_cons_iff in Hnd. destruct Hnd as [Hnotin Hnd'].
    destruct (Hrange x0 (or_introl eq_refl)) as [HP0 HQ0].
    assert (HPQ0 : P x0 <> Q x0) by (apply HPQ; left; reflexivity).
    assert (Hfresh : forall x, In x ops ->
              P x <> P x0 /\ P x <> Q x0 /\ Q x <> P x0 /\ Q x <> Q x0).
    { intros x Hx. assert (x <> x0) by (intros ->; contradiction).
      repeat split; intros E.
      - apply H. apply HP; [right | left |]; auto.
      - apply (HPQ x x0); [right | left |]; auto.
      - apply (HPQ x0 x); [left | right |]; auto.
      - apply H. apply HQ; [right | left |]; auto. }
    destruct (IH (step column x0)) as (L & E & O).
    + rewrite step_length. exact Hlen.
    + exact Hnd'.
    + intros x Hx. apply Hrange. right; exact Hx.
    + intros x y Hx Hy. apply HP; right; assumption.
    + intros x y Hx Hy. apply HQ; right; assumption.
    + intros x y Hx Hy. apply HPQ; right; assumption.
    + split; [exact L | split].
      * intros x [<- | Hx].
        -- rewrite !O.
           ++ rewrite !step_cat by assumption. rewrite !Nat.eqb_refl.
              destruct (Nat.eqb_spec (Q x0) (P x0)) as [Heq | _]; [congruence |].
              split; reflexivity.
           ++ intros x Hx. destruct (Hfresh x Hx) as (? & ? & ? & ?). split; congruence.
           ++ intros x Hx. destruct (Hfresh x Hx) as (? & ? & ? & ?). split; congruence.
        -- destruct (E x Hx) as [E1 E2]. rewrite E1, E2.
           destruct (Hfresh x Hx) as (H1 & H2 & H3 & H4).
           rewrite !step_cat by assumption.
           destruct (Nat.eqb_spec (P x) (P x0)); [contradiction |].
           destruct (Nat.eqb_spec (P x) (Q x0)); [contradiction |].
           destruct (Nat.eqb_spec (Q x) (P x0)); [contradiction |].
           destruct (Nat.eqb_spec (Q x) (Q x0)); [contradiction |].
           split; reflexivity.
      * intros t Ht. rewrite O by (intros x Hx; apply Ht; right; exact Hx).
        destruct (Ht x0 (or_introl eq_refl)) as [H1 H2].
        rewrite step_cat by assumption.
        destruct (Nat.eqb_spec t (P x0)); [contradiction |].
        destruct (Nat.eqb_spec t (Q x0)); [contradiction |]. reflexivity.
Qed.

End PairOps.

Lemma fold_left_filter (A B : Type) (p : B -> bool) (f : A -> B -> A) (l : list B) :
  forall a,
    fold_left (fun a x => if p x then f a x else a) l a = fold_left f (filter p l) a.
Proof.
  induction l as [| x l IH]; intros a; cbn [fold_left filter].
  - reflexivity.
  - destruct (p x); cbn [fold_left]; apply IH.
Qed.

(** ** The bit-reversed addressing permutation *)

Lemma swap_cat (column : list cplx_t) (i j t : nat) :
  (i < length column)%nat -> (j < length column)%nat -> i <> j ->
  cat (swap column i j) t
  = if Nat.eqb t i then cat column j
    else if Nat.eqb t j then cat column i else cat column t.
Proof.
  intros Hi Hj Hij. unfold swap.
  rewrite cat_vset by (rewrite length_vset; exact Hj).
  rewrite cat_vset by exact Hi.
  destruct (Nat.eqb_spec t i) as [-> | Hti].
  - destruct (Nat.eqb_spec j i); [congruence |]. rewrite Nat.eqb_refl. reflexivity.
  - destruct (Nat.eqb_spec t j) as [-> | Htj].
    + rewrite Nat.eqb_refl. reflexivity.
    + destruct (Nat.eqb_spec j t); [congruence |].
      destruct (Nat.eqb_spec i t); [congruence |]. reflexivity.
Qed.

Lemma bit_reverse_permute_cat (L : nat) (column : list cplx_t) (i : nat) :
  length column = (2 ^ L)%nat -> (i < 2 ^ L)%nat ->
  cat (bit_reverse_permute L column) i = cat column (reverse_bits_ i L).
Proof.
  intros Hlen Hi. unfold bit_reverse_permute.
  rewrite (fold_left_filter (fun i => Nat.ltb i (reverse_bits_ i L))
             (fun column i => swap column i (reverse_bits_ i L))).
  rewrite Hlen.
  set (ops := filter (fun i => Nat.ltb i (reverse_bits_ i L)) (seq 0 (2 ^ L))).
  assert (Hops : forall x, In x ops <-> (x < 2 ^ L)%nat /\ (x < reverse_bits_ x L)%nat).
  { intros x. unfold ops. rewrite filter_In, in_seq, Nat.ltb_lt. lia. }
  pose proof (@fold_pair_ops nat
                (fun column i => swap column i (reverse_bits_ i L))
                (fun i => i) (fun i => reverse_bits_ i L)
                (fun _ a b => b) (fun _ a b => a) (2 ^ L)) as H.
  destruct (H (fun column x => swap_length column x (reverse_bits_ x L))) with
    (ops := ops) (column := column) as (_ & E & O); clear H.
  - intros col x t Hl HP HQ HPQ. apply swap_cat; rewrite ?Hl; assumption.
  - exact Hlen.
  - apply NoDup_filter, seq_NoDup.
  - intros x Hx. apply Hops in Hx. split; [tauto | apply reverse_bits_lt].
  - intros x y _ _ Hxy. exact Hxy.
  - intros x y Hx Hy Hxy. apply Hops in Hx, Hy.
    rewrite <- (@reverse_bits_involutive L x), <- (@reverse_bits_involutive L y) by tauto.
    rewrite Hxy. reflexivity.
  - intros x y Hx Hy Hxy. apply Hops in Hx, Hy.
    assert (reverse_bits_ x L = y).
    { rewrite Hxy. apply reverse_bits_involutive. tauto. }
    lia.
  - destruct (Nat.lt_trichotomy i (reverse_bits_ i L)) as [Hlt | [Heq | Hgt]].
    + destruct (E i) as [E1 _]; [apply Hops; tauto |]. exact E1.
    + rewrite O; [rewrite <- Heq; reflexivity |].
      intros x Hx. apply Hops in Hx. split; [intros ->; lia |].
      intros Hix. assert (reverse_bits_ i L = x).
      { rewrite Hix. apply reverse_bits_involutive. tauto. }
      lia.
    + set (i' := reverse_bits_ i L) in *.
      assert (Hi' : reverse_bits_ i' L = i) by (apply reverse_bits_involutive; exact Hi).
      destruct (E i') as [_ E2].
      * apply Hops. split; [apply reverse_bits_lt | lia].
      * rewrite Hi' in E2. exact E2.
Qed.

(** ** One stage of butterflies *)

Lemma butterfly_cat (exp_table : list cplx_t) (half_size : nat)
  (column : list cplx_t) (jk : nat * nat) (t : nat) :
  (fst jk < length column)%nat -> (fst jk + half_size < length column)%nat ->
  fst jk <> (fst jk + half_size)%nat ->
  cat (butterfly exp_table half_size column jk) t
  = if Nat.eqb t (fst jk)
    then Cadd (cat column (fst jk))
           (Cmul (cat column (fst jk + half_size)) (cat exp_table (snd jk)))
    else if Nat.eqb t (fst jk + half_size)
    then Csub (cat column (fst jk))
           (Cmul (cat column (fst jk + half_size)) (cat exp_table (snd jk)))
    else cat column t.
Proof.
  intros Hj Hq Hne. unfold butterfly.
  rewrite cat_vset by (rewrite length_vset; exact Hj).
  rewrite !cat_vset by exact Hq.
  destruct (Nat.eqb_spec (fst jk + half_size) (fst jk)) as [E | _]; [congruence |].
  destruct (Nat.eqb_spec t (fst jk)) as [-> | Ht].
  - rewrite Nat.eqb_refl. reflexivity.
  - destruct (Nat.eqb_spec (fst jk) t) as [E | _]; [congruence |].
    destruct (Nat.eqb_spec t (fst jk + half_size)) as [-> | Ht'].
    + rewrite Nat.eqb_refl. reflexivity.
    + destruct (Nat.eqb_spec (fst jk + half_size) t) as [E | _]; [congruence |].
      reflexivity.
Qed.

Lemma flat_map_as_prod (A : Type) (g : nat * nat -> A) (bs ts : list nat) :
  flat_map (fun b => map (fun t => g (b, t)) ts) bs = map g (list_prod bs ts).
Proof.
  induction bs as [| b bs IH]; cbn [flat_map list_prod].
  - reflexivity.
  - rewrite map_app, map_map, IH. reflexivity.
Qed.

Section Stage.

Variables half nb : nat.
Hypothesis Hhalf : (0 < half)%nat.

Let s : nat := (2 * half)%nat.
Let n : nat := (nb * s)%nat.

Lemma stage_schedule :
  butterfly_schedule n s
  = map (fun bt : nat * nat => (fst bt * s + snd bt, snd bt * nb)%nat)
      (list_prod (seq 0 nb) (seq 0 half)).
Proof.
  unfold butterfly_schedule.
  assert (H1 : (s / 2 = half)%nat).
  { unfold s. rewrite Nat.mul_comm. apply Nat.div_mul. lia. }
  assert (H2 : (n / s = nb)%nat).
  { unfold n. apply Nat.div_mul. unfold s. lia. }
  assert (H3 : ((n + s - 1) / s = nb)%nat).
  { unfold n. replace (nb * s + s - 1)%nat with ((s - 1) + nb * s)%nat by (unfold s; lia).
    rewrite Nat.div_add by (unfold s; lia).
    rewrite Nat.div_small by (unfold s; lia). reflexivity. }
  rewrite H1, H2, H3.
  apply (flat_map_as_prod (fun bt => (fst bt * s + snd bt, snd bt * nb)%nat)).
Qed.

Lemma stage_cat (exp_table column : list cplx_t) (b t : nat) :
  length column = n -> (b < nb)%nat -> (t < half)%nat ->
  let lo := cat column (b * s + t) in
  let hi := Cmul (cat column (b * s + t + half)) (cat exp_table (t * nb)) in
  cat (stage exp_table n s column) (b * s + t) = Cadd lo hi /\
  cat (stage exp_table n s column) (b * s + t + half) = Csub lo hi.
Proof.
  intros Hlen Hb Ht. cbv zeta. unfold stage.
  assert (H1 : (s / 2 = half)%nat).
  { unfold s. rewrite Nat.mul_comm. apply Nat.div_mul. lia. }
  rewrite H1, stage_schedule.
  set (g := fun bt : nat * nat => (fst bt * s + snd bt, snd bt * nb)%nat).
  set (ops := map g (list_prod (seq 0 nb) (seq 0 half))).
  assert (Hops : forall x, In x ops ->
            exists b' t', (b' < nb)%nat /\ (t' < half)%nat /\ x = g (b', t')).
  { intros x Hx. unfold ops in Hx. apply in_map_iff in Hx.
    destruct Hx as ([b' t'] & <- & Hin). apply in_prod_iff in Hin.
    rewrite !in_seq in Hin. exists b', t'. repeat split; lia. }
  pose proof (@fold_pair_ops (nat * nat) (butterfly exp_table half)
                (fun jk => fst jk) (fun jk => (fst jk + half)%nat)
                (fun jk a c => Cadd a (Cmul c (cat exp_table (snd jk))))
                (fun jk a c => Csub a (Cmul c (cat exp_table (snd jk)))) n) as H.
  destruct (H (butterfly_length exp_table half)) with (ops := ops) (column := column)
    as (_ & E & _); clear H.
  - intros col x t0 Hl HP HQ HPQ. apply butterfly_cat; rewrite ?Hl; assumption.
  - exact Hlen.
  - unfold ops. apply Injective_map_NoDup_in.
    + intros [b1 t1] [b2 t2] Hin1 Hin2 Heq.
      apply in_prod_iff in Hin1, Hin2. rewrite !in_seq in Hin1, Hin2.
      unfold g in Heq; cbn [fst snd] in Heq. injection Heq as Hj _.
      assert (b1 = b2) by (unfold s in Hj; nia).
      subst b2. f_equal. lia.
    + apply NoDup_list_prod; apply seq_NoDup.
  - intros x Hx. destruct (Hops x Hx) as (b' & t' & Hb' & Ht' & ->).
    unfold g; cbn [fst snd]. unfold n, s. split; nia.
  - intros x y Hx Hy Hxy.
    destruct (Hops x Hx) as (b1 & t1 & Hb1 & Ht1 & ->).
    destruct (Hops y Hy) as (b2 & t2 & Hb2 & Ht2 & ->).
    unfold g in *; cbn [fst snd] in *.
    assert (b1 = b2) by (unfold s in Hxy; nia). subst b2.
    assert (t1 = t2) by lia. subst t2. reflexivity.
  - intros x y Hx Hy Hxy.
    destruct (Hops x Hx) as (b1 & t1 & Hb1 & Ht1 & ->).
    destruct (Hops y Hy) as (b2 & t2 & Hb2 & Ht2 & ->).
    unfold g in *; cbn [fst snd] in *.
    assert (b1 = b2) by (unfold s in Hxy; nia). subst b2.
    assert (t1 = t2) by lia. subst t2. reflexivity.
  - intros x y Hx Hy Hxy.
    destruct (Hops x Hx) as (b1 & t1 & Hb1 & Ht1 & ->).
    destruct (Hops y Hy) as (b2 & t2 & Hb2 & Ht2 & ->).
    unfold g in *; cbn [fst snd] in *. unfold s in Hxy.
    destruct (Nat.lt_trichotomy b1 b2) as [Hlt | [Heq | Hgt]]; nia.
  - destruct (E (g (b, t))) as [E1 E2].
    + unfold ops. apply in_map. apply in_prod_iff. rewrite !in_seq. lia.
    + unfold g in E1, E2; cbn [fst snd] in E1, E2. split; assumption.
Qed.

End Stage.

(** ** Transforms of the strided subsequences *)

Lemma root_2_scale (s : nat) (e : Z) : (0 < s)%nat -> root (2 * s) (2 * e) = root s e.
Proof. intros Hs. apply (@root_scale 2 s e); lia. Qed.

Lemma root_half_signed (s : nat) (sgn : Z) :
  (0 < s)%nat -> sgn = 1%Z \/ sgn = (-1)%Z ->
  root (2 * s) (sgn * Z.of_nat s) = (-1, 0)%R.
Proof.
  intros Hs [-> | ->].
  - rewrite Z.mul_1_l. apply root_half; exact Hs.
  - rewrite <- (@root_period (2 * s) (-1 * Z.of_nat s) 1) by lia.
    replace (-1 * Z.of_nat s + Z.of_nat (2 * s) * 1)%Z with (Z.of_nat s) by lia.
    apply root_half; exact Hs.
Qed.

Lemma sub_dft_combine (sgn : Z) (x : nat -> cplx_t) (s d r t : nat) :
  (0 < s)%nat -> sgn = 1%Z \/ sgn = (-1)%Z ->
  let even := sub_dft sgn x s (2 * d) r t in
  let odd := Cmul (sub_dft sgn x s (2 * d) (r + d) t)
               (root (2 * s) (sgn * Z.of_nat t)) in
  sub_dft sgn x (2 * s) d r t = Cadd even odd /\
  sub_dft sgn x (2 * s) d r (t + s) = Csub even odd.
Proof.
  intros Hs Hsgn. cbv zeta. unfold sub_dft. split.
  - rewrite Csum_even_odd. f_equal.
    + apply Csum_ext. intros u _. f_equal; [f_equal; lia |].
      rewrite <- (@root_2_scale s) by exact Hs. f_equal. destruct Hsgn as [-> | ->]; lia.
    + rewrite <- Csum_mul_r. apply Csum_ext. intros u _.
      rewrite <- Cmul_assoc. f_equal; [f_equal; lia |].
      rewrite <- (@root_2_scale s) by exact Hs. rewrite root_add. f_equal.
      destruct Hsgn as [-> | ->]; lia.
  - rewrite Csum_even_odd.
    rewrite Csub_add_neg. f_equal.
    + apply Csum_ext. intros u _. f_equal; [f_equal; lia |].
      rewrite <- (@root_2_scale s) by exact Hs.
      rewrite <- (@root_period (2 * s) (2 * (sgn * Z.of_nat (u * t)))
                               (sgn * Z.of_nat u)) by lia.
      f_equal. destruct Hsgn as [-> | ->]; lia.
    + rewrite <- Csum_mul_r, <- Csum_mul_l. apply Csum_ext. intros u _.
      rewrite <- (@root_half_signed s sgn Hs Hsgn).
      rewrite <- (@root_2_scale s) by exact Hs.
      rewrite (Cmul_comm (root (2 * s) (sgn * Z.of_nat s))).
      rewrite <- !Cmul_assoc. f_equal; [f_equal; lia |].
      rewrite !root_add.
      rewrite <- (@root_period (2 * s)
                    (2 * (sgn * Z.of_nat (u * t)) + (sgn * Z.of_nat t + sgn * Z.of_nat s))
                    (sgn * Z.of_nat u)) by lia.
      f_equal. destruct Hsgn as [-> | ->]; lia.
Qed.

Lemma sign_of_cases (reverse : bool) : sign_of reverse = 1%Z \/ sign_of reverse = (-1)%Z.
Proof. destruct reverse; [left | right]; reflexivity. Qed.

Lemma radix2_table_cat (n : nat) (reverse : bool) (k : nat) :
  (k < n / 2)%nat ->
  cat (radix2_table n reverse) k = root n (sign_of reverse * Z.of_nat k).
Proof.
  intros Hk. unfold radix2_table. rewrite cat_map_seq by exact Hk. apply polar_root.
Qed.

(** ** The invariant of the stages *)

Lemma pow2_pos (k : nat) : (0 < 2 ^ k)%nat.
Proof. pose proof (Nat.pow_nonzero 2 k ltac:(lia)). lia. Qed.

Lemma stage_inv_step (reverse : bool) (x : nat -> cplx_t) (l w : nat)
  (column : list cplx_t) :
  length column = (2 ^ (l + S w))%nat ->
  stage_inv (sign_of reverse) x l (S w) column ->
  stage_inv (sign_of reverse) x (S l) w
    (stage (radix2_table (2 ^ (l + S w)) reverse) (2 ^ (l + S w)) (2 ^ S l) column).
Proof.
  intros Hlen Hinv B t' HB Ht'.
  pose proof (pow2_pos l) as Hl. pose proof (pow2_pos w) as Hw.
  assert (Hn : (2 ^ (l + S w) = 2 ^ w * (2 * 2 ^ l))%nat).
  { rewrite Nat.pow_add_r. cbn [Nat.pow]. lia. }
  assert (Hs : (2 ^ S l = 2 * 2 ^ l)%nat) by reflexivity.
  rewrite Hs, Hn in *.
  set (tbl := radix2_table (2 ^ w * (2 * 2 ^ l)) reverse).
  assert (Htbl : forall t, (t < 2 ^ l)%nat ->
            cat tbl (t * 2 ^ w) = root (2 * 2 ^ l) (sign_of reverse * Z.of_nat t)).
  { intros t Ht. unfold tbl. rewrite radix2_table_cat.
    - rewrite <- (@root_scale (2 ^ w) (2 * 2 ^ l)) by lia. f_equal. lia.
    - replace (2 ^ w * (2 * 2 ^ l))%nat with ((2 ^ w * 2 ^ l) * 2)%nat by lia.
      rewrite Nat.div_mul by lia. nia. }
  assert (Hold : forall t, (t < 2 ^ l)%nat ->
            cat column (B * (2 * 2 ^ l) + t)
            = sub_dft (sign_of reverse) x (2 ^ l) (2 * 2 ^ w) (reverse_bits_ B w) t /\
            cat column (B * (2 * 2 ^ l) + t + 2 ^ l)
            = sub_dft (sign_of reverse) x (2 ^ l) (2 * 2 ^ w)
                (reverse_bits_ B w + 2 ^ w) t).
  { intros t Ht. split.
    - replace (B * (2 * 2 ^ l) + t)%nat with ((2 * B) * 2 ^ l + t)%nat by lia.
      rewrite Hinv by (cbn [Nat.pow]; lia).
      rewrite reverse_bits_even. reflexivity.
    - replace (B * (2 * 2 ^ l) + t + 2 ^ l)%nat with ((2 * B + 1) * 2 ^ l + t)%nat by lia.
      rewrite Hinv by (cbn [Nat.pow]; lia).
      rewrite reverse_bits_odd. rewrite (Nat.add_comm (2 ^ w)). reflexivity. }
  destruct (@sub_dft_combine (sign_of reverse) x (2 ^ l) (2 ^ w) (reverse_bits_ B w)
              (if Nat.ltb t' (2 ^ l) then t' else t' - 2 ^ l)%nat Hl
              (sign_of_cases reverse)) as [Clo Chi].
  destruct (Nat.ltb_spec t' (2 ^ l)) as [Hlo | Hhi].
  - destruct (@stage_cat (2 ^ l) (2 ^ w) Hl tbl column B t' Hlen HB Hlo) as [E _].
    rewrite E, Clo, Htbl by exact Hlo.
    destruct (Hold t' Hlo) as [-> ->]. reflexivity.
  - assert (Ht : (t' - 2 ^ l < 2 ^ l)%nat) by lia.
    destruct (@stage_cat (2 ^ l) (2 ^ w) Hl tbl column B (t' - 2 ^ l)%nat Hlen HB Ht)
      as [_ E].
    replace (B * (2 * 2 ^ l) + (t' - 2 ^ l) + 2 ^ l)%nat
      with (B * (2 * 2 ^ l) + t')%nat in E by lia.
    replace (t' - 2 ^ l + 2 ^ l)%nat with t' in Chi by lia.
    rewrite E, Chi, Htbl by exact Ht.
    destruct (Hold (t' - 2 ^ l)%nat Ht) as [-> H2].
    replace (B * (2 * 2 ^ l) + t')%nat
      with (B * (2 * 2 ^ l) + (t' - 2 ^ l) + 2 ^ l)%nat by lia.
    rewrite H2. reflexivity.
Qed.

Lemma stages_inv (reverse : bool) (x : nat -> cplx_t) (w : nat) :
  forall l fuel column,
    (w <= fuel)%nat -> (l + w < 63)%nat ->
    length column = (2 ^ (l + w))%nat ->
    stage_inv (sign_of reverse) x l w column ->
    stage_inv (sign_of reverse) x (l + w) 0
      (stages fuel (radix2_table (2 ^ (l + w)) reverse) (2 ^ (l + w)) (2 ^ S l) column).
Proof.
  induction w as [| w IH]; intros l fuel column Hfuel Hsmall Hlen Hinv.
  - rewrite Nat.add_0_r in *.
    assert (Hstop : stages fuel (radix2_table (2 ^ l) reverse) (2 ^ l) (2 ^ S l) column
                    = column).
    { destruct fuel; cbn [stages]; [reflexivity |].
      destruct (Nat.leb_spec (2 ^ S l) (2 ^ l)) as [Hle | _]; [| reflexivity].
      cbn [Nat.pow] in Hle. pose proof (pow2_pos l). lia. }
    rewrite Hstop. exact Hinv.
  - destruct fuel as [| fuel]; [lia |]. cbn [stages].
    destruct (Nat.leb_spec (2 ^ S l) (2 ^ (l + S w))) as [_ | Hgt].
    + assert (Hmul : size_mul (2 ^ S l) 2 = (2 ^ S (S l))%nat).
      { rewrite size_mul_small.
        - cbn [Nat.pow]. lia.
        - change (Z.of_nat 2) with 2%Z.
          pose proof (@pow2_lt_size (S (S l)) ltac:(lia)) as H.
          change (2 ^ S (S l))%nat with (2 * 2 ^ S l)%nat in H. lia. }
      rewrite Hmul.
      replace (l + S w)%nat with (S l + w)%nat in * by lia.
      apply IH.
      * lia.
      * exact Hsmall.
      * rewrite stage_length. exact Hlen.
      * replace (S l + w)%nat with (l + S w)%nat in * by lia.
        apply stage_inv_step; assumption.
    + exfalso. rewrite Nat.pow_add_r in Hgt. cbn [Nat.pow] in Hgt.
      pose proof (pow2_pos l). pose proof (pow2_pos w). nia.
Qed.

(** ** Radix-2 computes the transform *)

Theorem fft_radix2_correct (column : list cplx_t) (reverse : bool) (L : nat) :
  length column = (2 ^ L)%nat -> (L < 63)%nat ->
  fft_radix2_ column reverse = dft reverse column.
Proof.
  intros Hlen Hsmall. apply cat_ext.
  - rewrite fft_radix2_length, dft_length. reflexivity.
  - rewrite fft_radix2_length. intros t Ht.
    rewrite dft_cat by exact Ht. rewrite Hlen in *.
    unfold fft_radix2_. rewrite Hlen, levels_of_pow2.
    pose proof (@stages_inv reverse (cat column) L 0 (2 ^ L)
                  (bit_reverse_permute L column)) as H.
    cbn [Nat.add] in H.
    assert (Hinv0 : stage_inv (sign_of reverse) (cat column) 0 L
                      (bit_reverse_permute L column)).
    { intros b t0 Hb Ht0. cbn [Nat.pow] in *. assert (t0 = 0)%nat by lia. subst t0.
      rewrite Nat.mul_1_r, Nat.add_0_r.
      rewrite bit_reverse_permute_cat by assumption.
      unfold sub_dft. cbn [Csum]. rewrite Nat.mul_0_l, Nat.add_0_r.
      cbn [Nat.mul Z.of_nat]. rewrite Z.mul_0_r, root_0. cplx. }
    specialize (H ltac:(pose proof (pow2_gt L); lia) Hsmall
                  ltac:(rewrite bit_reverse_permute_length; exact Hlen) Hinv0).
    change (2 ^ 1)%nat with 2%nat in H.
    specialize (H 0%nat t ltac:(cbn; lia) Ht).
    cbn [Nat.mul Nat.add] in H. rewrite H.
    unfold sub_dft, dft_at. apply Csum_ext. intros u _.
    unfold reverse_bits_; cbn [reverse_bits_loop Nat.pow].
    rewrite Nat.mul_1_r. reflexivity.
Qed.

(** ** The convolution theorem *)

Lemma Csum_prod (f g : nat -> cplx_t) (n m : nat) :
  Cmul (Csum f n) (Csum g m)
  = Csum (fun j => Csum (fun l => Cmul (f j) (g l)) m) n.
Proof.
  rewrite <- Csum_mul_r. apply Csum_ext. intros j _. symmetry. apply Csum_mul_l.
Qed.

Lemma cyc_unique (m k j l : nat) :
  (0 < m)%nat -> (k < m)%nat -> (j < m)%nat -> (l < m)%nat ->
  ((Z.of_nat k - Z.of_nat j - Z.of_nat l) mod Z.of_nat m = 0)%Z <-> l = cyc m k j.
Proof.
  intros Hm Hk Hj Hl. unfold cyc. split.
  - intros H. apply Z.mod_divide in H; [| lia]. destruct H as [c Hc].
    apply Nat2Z.inj. rewrite Nat2Z.inj_mod.
    replace (Z.of_nat (k + m - j)) with (Z.of_nat l + (c + 1) * Z.of_nat m)%Z by lia.
    rewrite Z.mod_add by lia. symmetry. apply Z.mod_small. lia.
  - intros ->. apply Z.mod_divide; [lia |].
    pose proof (Nat.div_mod_eq (k + m - j) m) as Hdm.
    exists (Z.of_nat ((k + m - j) / m) - 1)%Z.
    assert (Hz : Z.of_nat (k + m - j)
                 = (Z.of_nat m * Z.of_nat ((k + m - j) / m)
                    + Z.of_nat ((k + m - j) mod m))%Z)
      by (rewrite <- Nat2Z.inj_mul, <- Nat2Z.inj_add; f_equal; exact Hdm).
    rewrite Nat2Z.inj_sub, Nat2Z.inj_add in Hz by lia. lia.
Qed.

Theorem convolution (m : nat) (a b : nat -> cplx_t) (k : nat) :
  (k < m)%nat ->
  Csum (fun q => Cmul (Cmul (dft_at (-1) m a q) (dft_at (-1) m b q))
                   (root m (Z.of_nat (q * k)))) m
  = Csum (fun j => Cmul (Cmul (a j) (b (cyc m k j))) (INR m, 0%R)) m.
Proof.
  intros Hk. assert (Hm : (0 < m)%nat) by lia.
  set (d := fun j l : nat => (Z.of_nat k - Z.of_nat j - Z.of_nat l)%Z).
  rewrite (@Csum_ext _
             (fun q => Csum (fun j => Csum (fun l =>
                Cmul (Cmul (a j) (b l)) (root m (Z.of_nat q * d j l))) m) m)).
  2:{ intros q _. unfold dft_at. rewrite Csum_prod, <- Csum_mul_r.
      apply Csum_ext. intros j _. rewrite <- Csum_mul_r. apply Csum_ext. intros l _.
      replace (root m (Z.of_nat q * d j l))
        with (Cmul (Cmul (root m (-1 * Z.of_nat (j * q))) (root m (-1 * Z.of_nat (l * q))))
                (root m (Z.of_nat (q * k))))
        by (rewrite !root_add; f_equal; unfold d; lia).
      generalize (root m (-1 * Z.of_nat (j * q))) (root m (-1 * Z.of_nat (l * q)))
                 (root m (Z.of_nat (q * k))) (a j) (b l). cplx. }
  rewrite Csum_exchange. apply Csum_ext. intros j Hj.
  rewrite Csum_exchange.
  rewrite (@Csum_ext _
             (fun l => Cmul (Cmul (a j) (b l))
                         (if Z.eqb (d j l mod Z.of_nat m) 0 then (INR m, 0%R) else C0))).
  2:{ intros l _. rewrite Csum_mul_l, root_sum by exact Hm. reflexivity. }
  assert (Hc : (cyc m k j < m)%nat) by (apply Nat.mod_upper_bound; lia).
  rewrite (@Csum_delta _ m (cyc m k j) Hc).
  - destruct (Z.eqb_spec (d j (cyc m k j) mod Z.of_nat m) 0) as [_ | Hne];
      [reflexivity |].
    exfalso. apply Hne. apply cyc_unique; auto.
  - intros l Hl Hne.
    destruct (Z.eqb_spec (d j l mod Z.of_nat m) 0) as [Hz | _]; [| apply Cmul_0_r].
    exfalso. apply Hne. apply (cyc_unique Hm Hk Hj Hl). exact Hz.
Qed.

(** ** Bluestein's algorithm *)

(** An entry of the table below 2^32, where [i * i] does not wrap, is the
    chirp. *)
Lemma bluestein_table_cat (n : nat) (reverse : bool) (i : nat) :
  (i < n)%nat -> (Z.of_nat n < 2 ^ 60)%Z -> (Z.of_nat i < 2 ^ 32)%Z ->
  cat (bluestein_table n reverse) i = chirp reverse n (Z.of_nat i).
Proof.
  intros Hi Hb Hi32. unfold bluestein_table. rewrite cat_map_seq by exact Hi.
  rewrite (@size_mul_small n 2) by (change (Z.of_nat 2) with 2%Z; lia).
  rewrite (@size_mul_small i i) by nia.
  assert (Hn : (0 < 2 * n)%nat) by lia.
  unfold chirp. rewrite <- (root_mod (sign_of reverse * (Z.of_nat i * Z.of_nat i)) Hn).
  rewrite <- Z.mul_mod_idemp_r by lia.
  rewrite <- Nat2Z.inj_mul, <- Nat2Z.inj_mod, (Nat.mul_comm 2 n).
  rewrite root_mod by lia.
  unfold root. f_equal. rewrite mult_IZR, <- INR_IZR_INZ, mult_INR.
  assert (HnR : INR n <> 0%R) by (apply INR_nonzero; lia).
  destruct reverse; cbn [sign_of INR]; field; exact HnR.
Qed.

(** An entry whose square is 0 in [size_type] is 1, whatever the length:
    the entry 0, and the entry at 2^32, where [i * i] is 2^64 and wraps. *)
Lemma bluestein_table_zero (n : nat) (reverse : bool) (i : nat) :
  (i < n)%nat -> size_mul i i = 0%nat ->
  cat (bluestein_table n reverse) i = Cone.
Proof.
  intros Hi Hz. unfold bluestein_table. rewrite cat_map_seq by exact Hi.
  rewrite Hz, Nat.Div0.mod_0_l. cbn [INR]. unfold polar, Cone.
  replace ((if reverse then PI else - PI) * 0 / INR n)%R with 0%R
    by (unfold Rdiv; ring).
  rewrite cos_0, sin_0. f_equal; ring.
Qed.

Lemma bluestein_table_wrapped (n : nat) (reverse : bool) (i : nat) :
  (i < n)%nat -> Z.of_nat i = (2 ^ 32)%Z ->
  cat (bluestein_table n reverse) i = Cone.
Proof.
  intros Hi Hi32. apply bluestein_table_zero; [exact Hi |].
  unfold size_mul, size_wrap, size_bits. rewrite Hi32. reflexivity.
Qed.

(** Every entry of the table has modulus 1. *)
Lemma bluestein_table_unit (n : nat) (reverse : bool) (i : nat) :
  (i < n)%nat ->
  Cmul (cat (bluestein_table n reverse) i) (conj (cat (bluestein_table n reverse) i))
  = Cone.
Proof.
  intros Hi. unfold bluestein_table. rewrite cat_map_seq by exact Hi.
  set (theta := (_ / INR n)%R).
  pose proof (sin2_cos2 theta) as H. unfold Rsqr in H.
  apply cplx_eq; unfold Cmul, conj, polar, Cone; cbn [fst snd]; nra.
Qed.

Lemma pointwise_mul_cat (xs : list cplx_t) :
  forall ys i, (i < length xs)%nat -> (i < length ys)%nat ->
    cat (pointwise_mul xs ys) i = Cmul (cat xs i) (cat ys i).
Proof.
  induction xs as [| x xs IH]; intros [| y ys] i Hx Hy; cbn [length] in *; try lia.
  destruct i as [| i]; cbn [pointwise_mul]; [reflexivity |].
  unfold cat in *. cbn [nth]. apply IH; lia.
Qed.

Lemma cat_map_div (l : list cplx_t) (r : R) (i : nat) :
  cat (map (fun v => Cdiv_real v r) l) i = Cdiv_real (cat l i) r.
Proof.
  unfold cat.
  assert (H0 : Cdiv_real C0 r = C0).
  { unfold Cdiv_real, C0; cbn [fst snd]. unfold Rdiv. f_equal; ring. }
  rewrite <- H0 at 1. apply (map_nth (fun v => Cdiv_real v r)).
Qed.

Lemma cat_app_repeat (l : list cplx_t) (k i : nat) :
  cat (l ++ repeat C0 k) i = cat l i.
Proof.
  unfold cat. destruct (Nat.lt_ge_cases i (length l)) as [Hlt | Hge].
  - apply app_nth1; exact Hlt.
  - rewrite app_nth2 by exact Hge. rewrite nth_repeat.
    symmetry. apply nth_overflow; exact Hge.
Qed.

Lemma cat_repeat (k i : nat) : cat (repeat C0 k) i = C0.
Proof. unfold cat. apply nth_repeat. Qed.

(** The convolution by three radix-2 transforms. *)
Lemma convolve_cat (xvec yvec : list cplx_t) (T k : nat) :
  length xvec = (2 ^ T)%nat -> length yvec = (2 ^ T)%nat -> (T < 63)%nat ->
  (k < 2 ^ T)%nat ->
  cat (convolve_ fft_radix2_ xvec yvec) k
  = Csum (fun j => Cmul (cat xvec j) (cat yvec (cyc (2 ^ T) k j))) (2 ^ T).
Proof.
  intros Lx Ly HT63 Hk. set (m := (2 ^ T)%nat) in *.
  assert (Hm : (0 < m)%nat) by (unfold m; apply pow2_pos).
  unfold convolve_.
  rewrite (@fft_radix2_correct xvec false T Lx HT63),
    (@fft_radix2_correct yvec false T Ly HT63).
  set (prod := pointwise_mul (dft false xvec) (dft false yvec)).
  assert (Lp : length prod = m).
  { unfold prod. rewrite pointwise_mul_length, !dft_length, Lx, Ly. apply Nat.min_id. }
  rewrite (@fft_radix2_correct prod true T Lp HT63).
  rewrite dft_length, Lp, cat_map_div, dft_cat by (rewrite Lp; exact Hk).
  rewrite Lp. unfold dft_at at 1.
  rewrite (@Csum_ext _
             (fun q => Cmul (Cmul (dft_at (-1) m (cat xvec) q) (dft_at (-1) m (cat yvec) q))
                         (root m (Z.of_nat (q * k))))).
  2:{ intros q Hq. unfold prod.
      rewrite pointwise_mul_cat by (rewrite dft_length; lia).
      rewrite !dft_cat by lia. rewrite Lx, Ly. cbn [sign_of].
      f_equal. f_equal. lia. }
  rewrite convolution by exact Hk.
  rewrite Csum_div_real. apply Csum_ext. intros j _.
  assert (HmR : INR m <> 0%R) by (apply INR_nonzero; exact Hm).
  generalize (cat xvec j) (cat yvec (cyc m k j)). intros u v.
  apply cplx_eq; unfold Cdiv_real, Cmul; cbn [fst snd]; field; exact HmR.
Qed.

(** The second operand of the convolution. *)
Lemma yvec_cat (exp_table : list cplx_t) (n m t : nat) :
  (2 * n < m)%nat ->
  cat (fold_left
         (fun yvec i =>
            let c := conj (cat exp_table i) in vset (vset yvec (m - i) c) i c)
         (seq 1 (n - 1)) (vset (repeat C0 m) 0 (cat exp_table 0))) t
  = if Nat.eqb t 0 then cat exp_table 0
    else if Nat.ltb t n then conj (cat exp_table t)
    else if Nat.ltb (m - n) t && Nat.ltb t m then conj (cat exp_table (m - t))
    else C0.
Proof.
  intros Hm.
  set (y0 := vset (repeat C0 m) 0 (cat exp_table 0)).
  assert (L0 : length y0 = m) by (unfold y0; rewrite length_vset; apply repeat_length).
  pose proof (@fold_pair_ops nat
                (fun yvec i =>
                   let c := conj (cat exp_table i) in vset (vset yvec (m - i) c) i c)
                (fun i => i) (fun i => (m - i)%nat)
                (fun i _ _ => conj (cat exp_table i))
                (fun i _ _ => conj (cat exp_table i)) m) as H.
  destruct H with (ops := seq 1 (n - 1)) (column := y0) as (_ & E & O); clear H.
  - intros col i. cbv zeta. rewrite !length_vset. reflexivity.
  - intros col i t0 Hl HP HQ HPQ. cbv zeta.
    rewrite cat_vset by (rewrite length_vset, Hl; exact HP).
    rewrite cat_vset by (rewrite Hl; exact HQ).
    destruct (Nat.eqb_spec t0 i) as [-> | Hne].
    + rewrite Nat.eqb_refl. reflexivity.
    + destruct (Nat.eqb_spec i t0); [congruence |].
      destruct (Nat.eqb_spec t0 (m - i)) as [-> | Hne'].
      * rewrite Nat.eqb_refl. reflexivity.
      * destruct (Nat.eqb_spec (m - i) t0); [congruence | reflexivity].
  - exact L0.
  - apply seq_NoDup.
  - intros i Hi. apply in_seq in Hi. lia.
  - intros x y _ _ Hxy. exact Hxy.
  - intros x y Hx Hy Hxy. apply in_seq in Hx, Hy. lia.
  - intros x y Hx Hy. apply in_seq in Hx, Hy. lia.
  - destruct (Nat.eqb_spec t 0) as [-> | Ht0].
    + rewrite O.
      * unfold y0. rewrite cat_vset by (rewrite repeat_length; lia). reflexivity.
      * intros x Hx. apply in_seq in Hx. lia.
    + destruct (Nat.ltb_spec t n) as [Htn | Htn].
      * destruct (E t) as [E1 _]; [apply in_seq; lia | exact E1].
      * destruct (Nat.ltb_spec (m - n) t) as [Hlo | Hlo]; cbn [andb].
        -- destruct (Nat.ltb_spec t m) as [Hhi | Hhi].
           ++ destruct (E (m - t)%nat) as [_ E2]; [apply in_seq; lia |].
              replace (m - (m - t))%nat with t in E2 by lia. exact E2.
           ++ rewrite O.
              ** apply cat_overflow. lia.
              ** intros x Hx. apply in_seq in Hx. lia.
        -- rewrite O.
           ++ unfold y0. rewrite cat_vset by (rewrite repeat_length; lia).
              destruct (Nat.eqb_spec 0 t); [lia |]. apply cat_repeat.
           ++ intros x Hx. apply in_seq in Hx. lia.
Qed.

Lemma chirp_0 (reverse : bool) (n : nat) : chirp reverse n 0 = Cone.
Proof. unfold chirp. rewrite Z.mul_0_r. apply root_0. Qed.

Lemma chirp_opp (reverse : bool) (n : nat) (e : Z) :
  chirp reverse n (- e) = chirp reverse n e.
Proof. unfold chirp. f_equal. lia. Qed.

(** The three chirps leave the kernel of the transform. *)
Lemma chirp_product (reverse : bool) (n : nat) (j k : Z) :
  (0 < n)%nat ->
  Cmul (chirp reverse n k)
    (Cmul (chirp reverse n j) (conj (chirp reverse n (k - j))))
  = root n (sign_of reverse * (j * k)).
Proof.
  intros Hn. unfold chirp. rewrite root_conj, !root_add.
  rewrite <- (@root_2_scale n) by exact Hn. f_equal.
  destruct (sign_of_cases reverse) as [-> | ->]; lia.
Qed.

(** What [fft_bluestein_] computes, whatever its table holds: element k is
    the table's entry k times the sum, over j, of x_j times the entry j
    times the conjugate of the entry |k - j| (the entry 0 itself for
    j = k). *)
Lemma fft_bluestein_cat (column : list cplx_t) (reverse : bool) (k : nat) :
  let n := length column in
  let tbl := bluestein_table n reverse in
  (Z.of_nat n < 2 ^ 60)%Z -> (k < n)%nat ->
  cat (fft_bluestein_ fft_radix2_ column reverse) k
  = Cmul (cat tbl k)
      (Csum (fun j =>
               Cmul (Cmul (cat column j) (cat tbl j))
                 (if Nat.eqb j k then cat tbl 0
                  else conj (cat tbl (if Nat.ltb j k then k - j else j - k)%nat)))
         n).
Proof.
  intros n tbl Hb Hk.
  assert (Hn : (0 < n)%nat) by lia.
  destruct (@conv_length_spec n Hb) as (Hbig & T & HT & HT63).
  assert (Hm : (2 * n < conv_length n)%nat).
  { pose proof (Nat.div_mod_eq (conv_length n) 2).
    pose proof (Nat.mod_upper_bound (conv_length n) 2 ltac:(lia)). lia. }
  unfold fft_bluestein_. fold n. fold tbl.
  set (m := conv_length n) in *.
  set (xvec := map (fun i => Cmul (cat column i) (cat tbl i)) (seq 0 n)
               ++ repeat C0 (m - n)).
  set (yvec := fold_left _ (seq 1 (n - 1)) _).
  assert (Lx : length xvec = (2 ^ T)%nat).
  { unfold xvec. rewrite length_app, length_map, length_seq, repeat_length. lia. }
  assert (Ly : length yvec = (2 ^ T)%nat).
  { unfold yvec. rewrite bluestein_yvec_length. exact HT. }
  assert (Ltbl : length tbl = n) by apply bluestein_table_length.
  assert (Lconv : length (convolve_ fft_radix2_ xvec yvec) = m).
  { unfold convolve_. rewrite length_map, fft_radix2_length, pointwise_mul_length,
      !fft_radix2_length, Lx, Ly, Nat.min_id. symmetry; exact HT. }
  rewrite pointwise_mul_cat by lia.
  rewrite (@convolve_cat xvec yvec T k Lx Ly HT63) by lia.
  rewrite <- HT. f_equal.
  set (F := fun j => Cmul (cat xvec j) (cat yvec (cyc m k j))).
  replace (Csum F m) with (Csum F (n + (m - n))) by (f_equal; lia).
  rewrite Csum_app.
  rewrite (@Csum_ext (fun i => F (n + i)%nat) (fun _ => C0)).
  2:{ intros i _. unfold F, xvec. rewrite cat_app_repeat, cat_overflow.
      - apply Cmul_0_l.
      - rewrite length_map, length_seq. lia. }
  rewrite Csum_zero, Cadd_0_r. unfold F.
  apply Csum_ext. intros j Hj. f_equal.
  - unfold xvec. rewrite cat_app_repeat, cat_map_seq by exact Hj. reflexivity.
  - unfold yvec. rewrite yvec_cat by exact Hm. unfold cyc.
    destruct (Nat.lt_trichotomy j k) as [Hlt | [Heq | Hgt]].
    + replace (k + m - j)%nat with ((k - j) + 1 * m)%nat by lia.
      rewrite Nat.Div0.mod_add, Nat.mod_small by lia.
      destruct (Nat.eqb_spec (k - j) 0); [lia |].
      destruct (Nat.ltb_spec (k - j) n); [| lia].
      destruct (Nat.eqb_spec j k); [lia |].
      destruct (Nat.ltb_spec j k); [reflexivity | lia].
    + subst j. replace (k + m - k)%nat with (0 + 1 * m)%nat by lia.
      rewrite Nat.Div0.mod_add, Nat.mod_small by lia. cbn [Nat.eqb].
      rewrite Nat.eqb_refl. reflexivity.
    + rewrite Nat.mod_small by lia.
      destruct (Nat.eqb_spec (k + m - j) 0); [lia |].
      destruct (Nat.ltb_spec (k + m - j) n); [lia |].
      destruct (Nat.ltb_spec (m - n) (k + m - j)); [| lia].
      destruct (Nat.ltb_spec (k + m - j) m); [| lia]. cbn [andb].
      destruct (Nat.eqb_spec j k); [lia |].
      destruct (Nat.ltb_spec j k); [lia |].
      do 2 f_equal. lia.
Qed.

Theorem fft_bluestein_correct (column : list cplx_t) (reverse : bool) :
  column <> [] -> (Z.of_nat (length column) <= 2 ^ 32)%Z ->
  fft_bluestein_ fft_radix2_ column reverse = dft reverse column.
Proof.
  intros Hne H32. set (n := length column) in *.
  assert (Hn : (0 < n)%nat) by (unfold n; destruct column; [contradiction | cbn; lia]).
  assert (Hb : (Z.of_nat n < 2 ^ 60)%Z) by lia.
  apply cat_ext.
  - rewrite fft_bluestein_length, dft_length by exact Hb. reflexivity.
  - rewrite fft_bluestein_length by exact Hb. fold n. intros k Hk.
    rewrite dft_cat by exact Hk. fold n.
    rewrite fft_bluestein_cat by (fold n; assumption). fold n.
    rewrite <- Csum_mul_l. unfold dft_at. apply Csum_ext. intros j Hj.
    rewrite !bluestein_table_cat by lia.
    assert (Hy : (if Nat.eqb j k then chirp reverse n (Z.of_nat 0%nat)
                  else conj (cat (bluestein_table n reverse)
                               (if Nat.ltb j k then k - j else j - k)%nat))
                 = conj (chirp reverse n (Z.of_nat k - Z.of_nat j))).
    { destruct (Nat.eqb_spec j k) as [-> | Hne'].
      - rewrite Z.sub_diag. cbn [Z.of_nat]. rewrite chirp_0. cplx.
      - destruct (Nat.ltb_spec j k) as [Hlt | Hge].
        + rewrite bluestein_table_cat by lia.
          rewrite Nat2Z.inj_sub by lia. reflexivity.
        + rewrite bluestein_table_cat by lia.
          rewrite <- chirp_opp. do 2 f_equal. lia. }
    rewrite Hy. rewrite Nat2Z.inj_mul.
    rewrite <- (@chirp_product reverse n (Z.of_nat j) (Z.of_nat k) Hn).
    generalize (cat column j) (chirp reverse n (Z.of_nat k))
               (chirp reverse n (Z.of_nat j))
               (conj (chirp reverse n (Z.of_nat k - Z.of_nat j))). cplx.
Qed.

(** ** The transforms of the visitor *)

(** A power of two that is at most 2^32. *)
Lemma pow2_le_32 (L : nat) : (Z.of_nat (2 ^ L) <= 2 ^ 32)%Z -> (L <= 32)%nat.
Proof.
  intros H. rewrite pow2_of_nat in H.
  destruct (Nat.le_gt_cases L 32) as [Hle | Hgt]; [exact Hle | exfalso].
  assert (Hp : (2 ^ 33 <= 2 ^ Z.of_nat L)%Z) by (apply Z.pow_le_mono_r; lia).
  lia.
Qed.

(** On a column of at most 2^32 elements, where none of the index
    computations wraps, [transform_] is the discrete Fourier transform. *)
Lemma transform_is_dft (column : list cplx_t) (reverse : bool) :
  (Z.of_nat (length column) <= 2 ^ 32)%Z ->
  transform_ column reverse = dft reverse column.
Proof.
  intros Hlt. destruct column as [| c column]; [reflexivity |].
  rewrite transform_dispatch by (discriminate || lia).
  destruct (is_power_of_2 (length (c :: column))) eqn:Hp.
  - destruct (@is_power_of_2_inv (length (c :: column))) as [L HL];
      [cbn; lia | lia | exact Hp |].
    apply (@fft_radix2_correct (c :: column) reverse L HL).
    rewrite HL in Hlt. apply pow2_le_32 in Hlt. lia.
  - apply fft_bluestein_correct; [discriminate | exact Hlt].
Qed.

(** The inverse: conjugate, transform forward, conjugate, divide by the
    length. *)
Lemma itransform_structure (column : list cplx_t) :
  (Z.of_nat (length column) < 2 ^ 60)%Z ->
  itransform_ column
  = map (fun v => Cdiv_real v (INR (length column)))
      (map conj (transform_ (map conj column) false)).
Proof.
  intros Hb. unfold itransform_. rewrite length_map. f_equal. f_equal.
  destruct column as [| c column]; [reflexivity |].
  rewrite transform_dispatch by (discriminate || (rewrite length_map; exact Hb)).
  rewrite length_map.
  destruct (is_power_of_2 (length (c :: column))); [reflexivity |].
  unfold transform_. apply bluestein_inner_radix2. rewrite length_map. exact Hb.
Qed.

Lemma itransform_transform (column : list cplx_t) :
  column <> [] -> (Z.of_nat (length column) <= 2 ^ 32)%Z ->
  itransform_ (transform_ column false) = column.
Proof.
  intros Hne Hlt.
  rewrite itransform_structure by (rewrite transform_length; lia).
  rewrite transform_length by lia.
  rewrite (transform_is_dft column false Hlt).
  rewrite transform_is_dft by (rewrite length_map, dft_length; exact Hlt).
  apply conj_dft_conj_inverts. exact Hne.
Qed.

(** ** Beyond 2^32 elements

    In a column of more than 2^32 elements whose length is not a power of
    two, [i * i] wraps for the entries of the table from 2^32 on.  The
    length is [n = K + 1] with [K = 2^32], the least one. *)

(** Element 0 of the inverse transform is the mean of the column, whatever
    the table holds. *)
Lemma itransform_mean (y : list cplx_t) :
  y <> [] -> (Z.of_nat (length y) < 2 ^ 60)%Z ->
  is_power_of_2 (length y) = false ->
  cat (itransform_ y) 0
  = Cdiv_real (Csum (cat y) (length y)) (INR (length y)).
Proof.
  intros Hne Hb Hp. set (m := length y) in *.
  assert (Hm : (0 < m)%nat) by (unfold m; destruct y; [contradiction | cbn; lia]).
  rewrite itransform_structure by exact Hb. fold m.
  rewrite cat_map_div, cat_map_conj. f_equal.
  rewrite transform_dispatch;
    [| destruct y; [contradiction | discriminate] | rewrite length_map; exact Hb].
  rewrite length_map. fold m. rewrite Hp.
  rewrite fft_bluestein_cat by (rewrite length_map; fold m; assumption).
  rewrite length_map. fold m.
  rewrite (@bluestein_table_zero m false 0%nat Hm) by reflexivity.
  rewrite Cmul_1_l.
  rewrite (@Csum_ext _ (fun j => conj (cat y j))).
  - rewrite <- Csum_conj. apply conj_conj.
  - intros j Hj. rewrite cat_map_conj.
    pose proof (@bluestein_table_unit m false j Hj) as Hu.
    destruct (Nat.eqb_spec j 0) as [-> | Hj0].
    + rewrite (@bluestein_table_zero m false 0%nat Hm) by reflexivity.
      rewrite !Cmul_1_r. reflexivity.
    + destruct (Nat.ltb_spec j 0) as [Hlt | _]; [lia |]. rewrite Nat.sub_0_r.
      rewrite <- Cmul_assoc, Hu. apply Cmul_1_r.
Qed.

Lemma impulse_length (n : nat) : length (impulse n) = n.
Proof. unfold impulse. rewrite length_map, length_seq. reflexivity. Qed.

Lemma impulse_cat (n j : nat) :
  (j < n)%nat -> cat (impulse n) j = if Nat.eqb j 1 then Cone else C0.
Proof. intros Hj. unfold impulse. apply cat_map_seq. exact Hj. Qed.

(** The transform of the impulse at frequency k is the root e^(-2 pi i k / n). *)
Lemma impulse_dft (n k : nat) :
  (1 < n)%nat -> (k < n)%nat ->
  cat (dft false (impulse n)) k = root n (- Z.of_nat k).
Proof.
  intros Hn Hk. rewrite dft_cat by (rewrite impulse_length; exact Hk).
  rewrite impulse_length. unfold dft_at.
  rewrite (@Csum_delta _ n 1%nat Hn).
  - rewrite impulse_cat by exact Hn. cbn [Nat.eqb]. rewrite Cmul_1_l.
    cbn [sign_of]. f_equal. lia.
  - intros j Hj Hne. rewrite impulse_cat by exact Hj.
    destruct (Nat.eqb_spec j 1); [contradiction | apply Cmul_0_l].
Qed.

Lemma root_nonzero (n : nat) (e : Z) : root n e <> C0.
Proof.
  unfold root, polar, C0. intros H. injection H as Hc Hs.
  set (theta := (2 * PI * IZR e / INR n)%R) in *.
  pose proof (sin2_cos2 theta) as H1. unfold Rsqr in H1. nra.
Qed.

Section Overflow.

Variables n K : nat.
Hypothesis HK : Z.of_nat K = (2 ^ 32)%Z.
Hypothesis Hn : n = S K.

Let Hn60 : (Z.of_nat n < 2 ^ 60)%Z.
Proof. lia. Qed.

Lemma overflow_not_power : is_power_of_2 n = false.
Proof.
  unfold is_power_of_2. replace (Z.of_nat n) with (2 ^ 32 + 1)%Z by lia.
  reflexivity.
Qed.

(** The factor by which the entry at K falls short of the chirp:
    e^(pi i K^2 / n). *)
Let rho : cplx_t := conj (chirp false n (Z.of_nat K)).

Lemma overflow_rho : rho = root (2 * n) (Z.of_nat n + 1).
Proof.
  unfold rho, chirp. rewrite root_conj. cbn [sign_of].
  assert (H2n : (0 < 2 * n)%nat) by lia.
  rewrite <- (root_mod (- (-1 * (Z.of_nat K * Z.of_nat K))) H2n).
  rewrite <- (root_mod (Z.of_nat n + 1) H2n). f_equal.
  replace (Z.of_nat (2 * n)) with (2 ^ 33 + 2)%Z by lia.
  replace (Z.of_nat n) with (2 ^ 32 + 1)%Z by lia.
  rewrite HK. reflexivity.
Qed.

Lemma overflow_rho_neq : rho <> Cone.
Proof.
  rewrite overflow_rho. intros H.
  assert (H2n : (0 < 2 * n)%nat) by lia.
  pose proof (@root_neq_1 (2 * n) (Z.of_nat n + 1) H2n) as Hlt.
  rewrite H in Hlt. cbn [fst Cone] in Hlt.
  assert (1 < 1)%R; [| lra].
  apply Hlt.
  replace (Z.of_nat (2 * n)) with (2 ^ 33 + 2)%Z by lia.
  replace (Z.of_nat n) with (2 ^ 32 + 1)%Z by lia.
  discriminate.
Qed.

(** The forward transform of the impulse takes Bluestein's algorithm. *)
Lemma overflow_forward (k : nat) :
  (k < n)%nat ->
  let tbl := bluestein_table n false in
  cat (transform_ (impulse n) false) k
  = Cmul (cat tbl k)
      (Cmul (cat tbl 1)
         (if Nat.eqb 1 k then cat tbl 0
          else conj (cat tbl (if Nat.ltb 1 k then k - 1 else 1 - k)%nat))).
Proof.
  intros Hk tbl.
  assert (H1 : (1 < n)%nat) by lia.
  rewrite transform_dispatch;
    [| unfold impulse; rewrite Hn; discriminate | rewrite impulse_length; exact Hn60].
  rewrite impulse_length, overflow_not_power.
  rewrite fft_bluestein_cat by (rewrite impulse_length; assumption).
  rewrite impulse_length. fold tbl. f_equal.
  rewrite (@Csum_delta _ n 1%nat H1).
  - rewrite impulse_cat by exact H1. cbn [Nat.eqb Nat.ltb Nat.leb]. rewrite Cmul_1_l.
    reflexivity.
  - intros j Hj Hne. rewrite impulse_cat by exact Hj.
    destruct (Nat.eqb_spec j 1); [contradiction |].
    rewrite Cmul_0_l. apply Cmul_0_l.
Qed.

Lemma overflow_kernel (k : nat) :
  (k < n)%nat ->
  let tbl := bluestein_table n false in
  Cmul (cat tbl 1)
    (if Nat.eqb 1 k then cat tbl 0
     else conj (cat tbl (if Nat.ltb 1 k then k - 1 else 1 - k)%nat))
  = Cmul (conj (chirp false n (Z.of_nat k))) (root n (- Z.of_nat k)).
Proof.
  intros Hk tbl.
  assert (Hpos : (0 < n)%nat) by lia.
  assert (Hy : (if Nat.eqb 1 k then cat tbl 0
                else conj (cat tbl (if Nat.ltb 1 k then k - 1 else 1 - k)%nat))
               = conj (chirp false n (Z.of_nat k - 1))).
  { destruct (Nat.eqb_spec 1 k) as [<- | Hne].
    - unfold tbl. rewrite bluestein_table_cat by lia.
      replace (Z.of_nat 1 - 1)%Z with 0%Z by lia.
      change (Z.of_nat 0) with 0%Z. rewrite chirp_0. cplx.
    - destruct (Nat.ltb_spec 1 k) as [Hlt | Hge].
      + unfold tbl. rewrite bluestein_table_cat by lia.
        rewrite Nat2Z.inj_sub by lia. reflexivity.
      + assert (k = 0)%nat by lia. subst k. cbn [Nat.sub].
        unfold tbl. rewrite bluestein_table_cat by lia.
        rewrite <- chirp_opp. reflexivity. }
  rewrite Hy. unfold tbl. rewrite bluestein_table_cat by lia.
  pose proof (@chirp_product false n 1%Z (Z.of_nat k) Hpos) as Hp.
  cbn [sign_of] in Hp. replace (-1 * (1 * Z.of_nat k))%Z with (- Z.of_nat k)%Z in Hp by lia.
  rewrite <- Hp. change (Z.of_nat 1) with 1%Z.
  assert (Hu : Cmul (conj (chirp false n (Z.of_nat k))) (chirp false n (Z.of_nat k)) = Cone).
  { unfold chirp. rewrite root_conj, root_add, Z.add_opp_diag_l. apply root_0. }
  rewrite (Cmul_assoc (conj (chirp false n (Z.of_nat k)))), Hu, Cmul_1_l.
  reflexivity.
Qed.

(** Below K the spectrum is that of the transform. *)
Lemma overflow_spectrum_low (k : nat) :
  (k < K)%nat ->
  cat (transform_ (impulse n) false) k = root n (- Z.of_nat k).
Proof.
  intros Hk. rewrite overflow_forward by lia. cbv zeta.
  rewrite overflow_kernel by lia. rewrite bluestein_table_cat by lia.
  rewrite Cmul_assoc.
  assert (Hu : Cmul (chirp false n (Z.of_nat k)) (conj (chirp false n (Z.of_nat k))) = Cone).
  { unfold chirp. rewrite root_conj, root_add, Z.add_opp_diag_r. apply root_0. }
  rewrite Hu. apply Cmul_1_l.
Qed.

(** At K the entry of the table is 1, and the spectrum is off by [rho]. *)
Lemma overflow_spectrum_top :
  cat (transform_ (impulse n) false) K = Cmul rho (root n (- Z.of_nat K)).
Proof.
  rewrite overflow_forward by lia. cbv zeta.
  rewrite overflow_kernel by lia.
  rewrite (@bluestein_table_wrapped n false K) by lia.
  apply Cmul_1_l.
Qed.

Lemma overflow_spectrum_differs :
  cat (transform_ (impulse n) false) K <> cat (dft false (impulse n)) K.
Proof.
  rewrite overflow_spectrum_top, impulse_dft by lia. intros H.
  apply overflow_rho_neq.
  assert (Hz : Cmul (root n (- Z.of_nat K)) (Csub rho Cone) = C0).
  { rewrite Cmul_comm. revert H. generalize (root n (- Z.of_nat K)) rho.
    intros [w1 w2] [r1 r2] H. unfold Cmul in H. cbn [fst snd] in H.
    injection H as H1 H2.
    apply cplx_eq; unfold Cmul, Csub, Cone, C0; cbn [fst snd]; lra. }
  apply Cmul_integral in Hz; [| apply root_nonzero].
  revert Hz. generalize rho. intros [r1 r2] Hz. unfold Csub, Cone, C0 in *.
  cbn [fst snd] in Hz. injection Hz as H1 H2. f_equal; lra.
Qed.

(** The sum of the spectrum, which the transform makes n times x_0 = 0. *)
Lemma overflow_spectrum_sum :
  Csum (cat (transform_ (impulse n) false)) n
  = Cmul (Csub rho Cone) (root n (- Z.of_nat K)).
Proof.
  assert (Hpos : (0 < n)%nat) by lia.
  pose proof (@root_sum n (-1) Hpos) as Hs.
  destruct (Z.eqb_spec (-1 mod Z.of_nat n) 0) as [Hz | _].
  { exfalso. replace (Z.of_nat n) with (2 ^ 32 + 1)%Z in Hz by lia. discriminate. }
  set (g := fun k => root n (Z.of_nat k * -1)) in *.
  set (f := cat (transform_ (impulse n) false)).
  rewrite (f_equal (Csum g) Hn) in Hs. rewrite (f_equal (Csum f) Hn).
  cbn [Csum] in *. unfold f at 2. rewrite overflow_spectrum_top.
  rewrite (@Csum_ext f g).
  2:{ intros k Hk. unfold f, g. rewrite overflow_spectrum_low by exact Hk.
      f_equal. lia. }
  unfold g at 2 in Hs.
  replace (Z.of_nat K * -1)%Z with (- Z.of_nat K)%Z in Hs by lia.
  revert Hs.
  generalize (Csum g K) (root n (- Z.of_nat K)) rho.
  intros [s1 s2] [w1 w2] [r1 r2] Hs. unfold Cadd, C0 in Hs. cbn [fst snd] in Hs.
  injection Hs as H1 H2.
  apply cplx_eq; unfold Cadd, Cmul, Csub, Cone; cbn [fst snd]; nra.
Qed.

(** The round trip gives back, at position 0, not the 0 of the impulse. *)
Lemma overflow_round_trip :
  cat (itransform_ (transform_ (impulse n) false)) 0
  = Cdiv_real (Cmul (Csub rho Cone) (root n (- Z.of_nat K))) (INR n) /\
  cat (itransform_ (transform_ (impulse n) false)) 0 <> cat (impulse n) 0.
Proof.
  assert (Hlen : length (transform_ (impulse n) false) = n).
  { rewrite transform_length by (rewrite impulse_length; exact Hn60).
    apply impulse_length. }
  assert (E : cat (itransform_ (transform_ (impulse n) false)) 0
              = Cdiv_real (Cmul (Csub rho Cone) (root n (- Z.of_nat K))) (INR n)).
  { rewrite itransform_mean.
    - rewrite Hlen, overflow_spectrum_sum. reflexivity.
    - intros H. rewrite H in Hlen. cbn in Hlen. lia.
    - rewrite Hlen. exact Hn60.
    - rewrite Hlen. exact overflow_not_power. }
  split; [exact E |].
  rewrite E, impulse_cat by lia. cbn [Nat.eqb]. intros H.
  assert (HnR : INR n <> 0%R) by (apply INR_nonzero; lia).
  assert (Hz : Cmul (root n (- Z.of_nat K)) (Csub rho Cone) = C0).
  { rewrite Cmul_comm. revert H.
    generalize (Cmul (Csub rho Cone) (root n (- Z.of_nat K))).
    intros [z1 z2] H. unfold Cdiv_real, C0 in *. cbn [fst snd] in H.
    injection H as H1 H2. unfold Rdiv in H1, H2.
    apply Rmult_integral in H1, H2.
    pose proof (Rinv_neq_0_compat _ HnR).
    f_equal; [destruct H1 | destruct H2]; tauto. }
  apply Cmul_integral in Hz; [| apply root_nonzero].
  apply overflow_rho_neq.
  revert Hz. generalize rho. intros [r1 r2] Hz. unfold Csub, Cone, C0 in *.
  cbn [fst snd] in Hz. injection Hz as H1 H2. f_equal; lra.
Qed.

(** The size of what comes back at position 0: a modulus of at least
    sqrt 3 / n. *)
Lemma overflow_round_trip_size :
  (3 / (INR n * INR n) <= norm (cat (itransform_ (transform_ (impulse n) false)) 0))%R.
Proof.
  destruct overflow_round_trip as [E _]. rewrite E, overflow_rho.
  assert (HnR : (3 <= INR n)%R).
  { replace 3%R with (INR 3) by (cbn [INR]; lra). apply le_INR. lia. }
  assert (Hrho : root (2 * n) (Z.of_nat n + 1) = (- cos (PI / INR n), - sin (PI / INR n))%R).
  { unfold root, polar.
    replace (2 * PI * IZR (Z.of_nat n + 1) / INR (2 * n))%R with (PI / INR n + PI)%R.
    - rewrite neg_cos, neg_sin. f_equal; ring.
    - rewrite plus_IZR, <- INR_IZR_INZ, mult_INR. cbn [INR]. field. lra. }
  rewrite Hrho.
  assert (Hc : (1 / 2 <= cos (PI / INR n))%R).
  { rewrite <- cos_PI3. pose proof PI_RGT_0 as Hpi.
    assert (H0 : (0 < PI / INR n)%R) by (apply Rdiv_lt_0_compat; lra).
    assert (H1 : (PI / INR n <= PI / 3)%R).
    { unfold Rdiv. apply Rmult_le_compat_l; [lra |].
      apply Rinv_le_contravar; lra. }
    apply cos_decr_1; lra. }
  pose proof (sin2_cos2 (PI / INR n)) as Hsc. unfold Rsqr in Hsc.
  set (w := root n (- Z.of_nat K)).
  assert (Hw : (fst w * fst w + snd w * snd w = 1)%R).
  { unfold w, root, polar. cbn [fst snd].
    set (theta := (2 * PI * IZR (- Z.of_nat K) / INR n)%R).
    pose proof (sin2_cos2 theta) as H. unfold Rsqr in H. lra. }
  revert Hw. generalize w. intros [w1 w2] Hw. cbn [fst snd] in Hw.
  set (c := cos (PI / INR n)) in *. set (sn := sin (PI / INR n)) in *.
  unfold norm, Cdiv_real, Cmul, Csub, Cone. cbn [fst snd].
  assert (Hnum : (3 <= ((- c - 1) * w1 - (- sn - 0) * w2) * ((- c - 1) * w1 - (- sn - 0) * w2)
                       + ((- c - 1) * w2 + (- sn - 0) * w1) * ((- c - 1) * w2 + (- sn - 0) * w1))%R).
  { replace (((- c - 1) * w1 - (- sn - 0) * w2) * ((- c - 1) * w1 - (- sn - 0) * w2)
             + ((- c - 1) * w2 + (- sn - 0) * w1) * ((- c - 1) * w2 + (- sn - 0) * w1))%R
      with (((c + 1) * (c + 1) + sn * sn) * (w1 * w1 + w2 * w2))%R by ring.
    rewrite Hw. nra. }
  set (num1 := ((- c - 1) * w1 - (- sn - 0) * w2)%R) in *.
  set (num2 := ((- c - 1) * w2 + (- sn - 0) * w1)%R) in *.
  replace (num1 / INR n * (num1 / INR n) + num2 / INR n * (num2 / INR n))%R
    with ((num1 * num1 + num2 * num2) / (INR n * INR n))%R by (field; lra).
  unfold Rdiv. apply Rmult_le_compat_r; [| exact Hnum].
  left. apply Rinv_0_lt_compat. nra.
Qed.

End Overflow.

End Fourier.

(** Within 2^32 elements, whether the length is a power of two (radix-2)
    or not (Bluestein), the forward visitor computes the discrete Fourier
    transform and the inverse visitor applied to its output gives the column
    back, here exactly, values being real numbers. *)
Lemma round_trip_in_range (x : list FastFourierTransVisitor.cplx_t) :
  x <> [] -> (Z.of_nat (length x) <= 2 ^ 32)%Z ->
  let forward := FastFourierTransVisitor.mk false [] in
  let inverse := FastFourierTransVisitor.mk true [] in
  let spectrum :=
    FastFourierTransVisitor.result_ (FastFourierTransVisitor.call forward x) in
  spectrum = FastFourierTransVisitor.dft false x /\
  FastFourierTransVisitor.result_ (FastFourierTransVisitor.call inverse spectrum) = x /\
  (forall xr : list R,
     map (fun r => (r, 0)) xr = x ->
     FastFourierTransVisitor.result_
       (FastFourierTransVisitor.call inverse
          (FastFourierTransVisitor.result_
             (FastFourierTransVisitor.call_real forward xr))) = x) /\
  (forall y, (Z.of_nat (length y) <= 2 ^ 32)%Z ->
     FastFourierTransVisitor.result_ (FastFourierTransVisitor.call inverse y)
     = map (fun v => FastFourierTransVisitor.Cdiv_real v (INR (length y)))
         (map FastFourierTransVisitor.conj
            (FastFourierTransVisitor.transform_
               (map FastFourierTransVisitor.conj y) false))).
Proof.
  intros Hne Hlt. cbv zeta. unfold FastFourierTransVisitor.call,
    FastFourierTransVisitor.call_real.
  cbn [FastFourierTransVisitor.result_ FastFourierTransVisitor.inverse_].
  rewrite !map_id.
  split; [apply transform_is_dft; exact Hlt | split; [| split]].
  - apply itransform_transform; assumption.
  - intros xr <-. rewrite map_id. apply itransform_transform.
    + exact Hne.
    + exact Hlt.
  - intros y Hy. rewrite map_id. apply itransform_structure. lia.
Qed.

Lemma overflow_index_value :
  Z.of_nat FastFourierTransVisitor.overflow_index = (2 ^ 32)%Z.
Proof. unfold FastFourierTransVisitor.overflow_index. apply Z2Nat.id. lia. Qed.

(** C1.  Within 2^32 elements the claim holds: for every column of
    1 <= n <= 2^32 complex values, of a length that is a power of two
    (radix-2) or not (Bluestein), the inverse visitor applied to the output
    of the forward one gives back the column, here exactly, values being
    real numbers; the same for a column of real values; and the inverse
    conjugates its input, runs the forward transform, conjugates the result
    and divides by n.  Beyond, it fails.  [fft_bluestein_] computes the
    entries of its table from [(i * i) % (2 * col_s)] in [size_type], and
    [i * i] wraps at i = 2^32.  On the column of n = 2^32 + 1 values that
    is 1 at position 1 and 0 elsewhere, the entry at 2^32 is 1, not the
    chirp e^(-pi i (2^32)^2 / n), and the round trip returns at position 0
    the value (rho - 1) e^(-2 pi i 2^32 / n) / n with
    rho = e^(pi i (n + 1) / n), of modulus at least sqrt 3 / n, which is not
    the 0 of the column. *)
Theorem fft_round_trip_overflow :
  (forall x : list FastFourierTransVisitor.cplx_t,
     x <> [] -> (Z.of_nat (length x) <= 2 ^ 32)%Z ->
     let forward := FastFourierTransVisitor.mk false [] in
     let inverse := FastFourierTransVisitor.mk true [] in
     let spectrum :=
       FastFourierTransVisitor.result_ (FastFourierTransVisitor.call forward x) in
     spectrum = FastFourierTransVisitor.dft false x /\
     FastFourierTransVisitor.result_
       (FastFourierTransVisitor.call inverse spectrum) = x /\
     (forall xr : list R,
        map (fun r => (r, 0)) xr = x ->
        FastFourierTransVisitor.result_
          (FastFourierTransVisitor.call inverse
             (FastFourierTransVisitor.result_
                (FastFourierTransVisitor.call_real forward xr))) = x) /\
     (forall y, (Z.of_nat (length y) <= 2 ^ 32)%Z ->
        FastFourierTransVisitor.result_ (FastFourierTransVisitor.call inverse y)
        = map (fun v => FastFourierTransVisitor.Cdiv_real v (INR (length y)))
            (map FastFourierTransVisitor.conj
               (FastFourierTransVisitor.transform_
                  (map FastFourierTransVisitor.conj y) false)))) /\
  (let n := FastFourierTransVisitor.overflow_length in
   let K := FastFourierTransVisitor.overflow_index in
   let x := FastFourierTransVisitor.impulse n in
   let forward := FastFourierTransVisitor.mk false [] in
   let inverse := FastFourierTransVisitor.mk true [] in
   let back :=
     FastFourierTransVisitor.result_
       (FastFourierTransVisitor.call inverse
          (FastFourierTransVisitor.result_
             (FastFourierTransVisitor.call forward x))) in
   let rho := FastFourierTransVisitor.root (2 * n) (Z.of_nat n + 1) in
   Z.of_nat n = (2 ^ 32 + 1)%Z /\ length x = n /\
   FastFourierTransVisitor.cat (FastFourierTransVisitor.bluestein_table n false) K
   = FastFourierTransVisitor.Cone /\
   FastFourierTransVisitor.chirp false n (Z.of_nat K)
   <> FastFourierTransVisitor.Cone /\
   FastFourierTransVisitor.cat x 0 = FastFourierTransVisitor.C0 /\
   FastFourierTransVisitor.cat back 0
   = FastFourierTransVisitor.Cdiv_real
       (FastFourierTransVisitor.Cmul
          (FastFourierTransVisitor.Csub rho FastFourierTransVisitor.Cone)
          (FastFourierTransVisitor.root n (- 2 ^ 32)))
       (INR n) /\
   FastFourierTransVisitor.cat back 0 <> FastFourierTransVisitor.cat x 0 /\
   3 / (INR n * INR n)
   <= FastFourierTransVisitor.norm (FastFourierTransVisitor.cat back 0)).
Proof.
  split; [intros x Hne Hlt; apply round_trip_in_range; assumption |].
  cbv zeta.
  pose proof overflow_index_value as HK.
  assert (Hn : FastFourierTransVisitor.overflow_length
               = S FastFourierTransVisitor.overflow_index) by reflexivity.
  set (n := FastFourierTransVisitor.overflow_length) in *.
  set (K := FastFourierTransVisitor.overflow_index) in *.
  destruct (overflow_round_trip HK Hn) as [E N].
  pose proof (overflow_round_trip_size HK Hn) as S3.
  rewrite (overflow_rho HK Hn), HK in E.
  unfold FastFourierTransVisitor.call.
  cbn [FastFourierTransVisitor.result_ FastFourierTransVisitor.inverse_].
  rewrite !map_id.
  split; [lia | split; [apply impulse_length | split; [| split; [| split]]]].
  - apply bluestein_table_wrapped; [lia | exact HK].
  - intros H. apply (overflow_rho_neq HK Hn). rewrite H. apply cplx_eq.
    + reflexivity.
    + cbn. lra.
  - rewrite impulse_cat by lia. reflexivity.
  - split; [exact E | split; [exact N | exact S3]].
Qed.

(** C7.  On a zero-length column [operator()] stores an empty result in
    both modes: the forward transform returns at once, and the inverse one
    takes the radix-2 branch, whose loop over the stages has no turn to
    make on no element, so that no butterfly is performed and Bluestein's
    algorithm is not entered.  No other length is rejected: a length that
    passes the test [(col_s & (col_s - 1)) == 0], which a length below 2^64
    does exactly when it is a power of two, goes to radix-2, every other one
    to Bluestein's algorithm (whose inner transforms are radix-2), forward
    and inverse alike, and the result is as long as the column.  Up to 2^32
    elements each of the two computes the discrete Fourier transform.  Above,
    Bluestein's algorithm does not: [i * i] wraps in its table, and on the
    column of 2^32 + 1 values that is 1 at position 1 and 0 elsewhere the
    element 2^32 of the result is not that of the transform. *)
Theorem fft_lengths_handled :
  (forall v, FastFourierTransVisitor.result_
               (FastFourierTransVisitor.call v []) = []) /\
  (forall v, FastFourierTransVisitor.result_
               (FastFourierTransVisitor.call_real v []) = []) /\
  (forall reverse, FastFourierTransVisitor.transform_ [] reverse = []) /\
  FastFourierTransVisitor.itransform_ [] = [] /\
  FastFourierTransVisitor.is_power_of_2 0 = true /\
  (forall fuel, FastFourierTransVisitor.radix2_schedule fuel 0 2 = []) /\
  (forall column reverse,
     column <> [] -> (Z.of_nat (length column) < 2 ^ 60)%Z ->
     FastFourierTransVisitor.transform_ column reverse
     = (if FastFourierTransVisitor.is_power_of_2 (length column)
        then FastFourierTransVisitor.fft_radix2_ column reverse
        else FastFourierTransVisitor.fft_bluestein_
               FastFourierTransVisitor.fft_radix2_ column reverse) /\
     FastFourierTransVisitor.itransform_ column
     = map (fun v => FastFourierTransVisitor.Cdiv_real v (INR (length column)))
         (map FastFourierTransVisitor.conj
            (if FastFourierTransVisitor.is_power_of_2 (length column)
             then FastFourierTransVisitor.fft_radix2_
                    (map FastFourierTransVisitor.conj column) false
             else FastFourierTransVisitor.fft_bluestein_
                    FastFourierTransVisitor.fft_radix2_
                    (map FastFourierTransVisitor.conj column) false)) /\
     length (FastFourierTransVisitor.transform_ column reverse) = length column /\
     length (FastFourierTransVisitor.itransform_ column) = length column) /\
  (forall n, (0 < n)%nat -> (Z.of_nat n < 2 ^ 64)%Z ->
     (FastFourierTransVisitor.is_power_of_2 n = true <-> exists k, n = (2 ^ k)%nat)) /\
  (forall column reverse,
     (Z.of_nat (length column) <= 2 ^ 32)%Z ->
     FastFourierTransVisitor.transform_ column reverse
     = FastFourierTransVisitor.dft reverse column /\
     FastFourierTransVisitor.itransform_ column
     = map (fun v => FastFourierTransVisitor.Cdiv_real v (INR (length column)))
         (map FastFourierTransVisitor.conj
            (FastFourierTransVisitor.dft false
               (map FastFourierTransVisitor.conj column)))) /\
  (let n := FastFourierTransVisitor.overflow_length in
   let K := FastFourierTransVisitor.overflow_index in
   let x := FastFourierTransVisitor.impulse n in
   Z.of_nat n = (2 ^ 32 + 1)%Z /\
   FastFourierTransVisitor.is_power_of_2 n = false /\
   FastFourierTransVisitor.transform_ x false
   = FastFourierTransVisitor.fft_bluestein_
       FastFourierTransVisitor.fft_radix2_ x false /\
   length (FastFourierTransVisitor.transform_ x false) = n /\
   FastFourierTransVisitor.cat (FastFourierTransVisitor.transform_ x false) K
   <> FastFourierTransVisitor.cat (FastFourierTransVisitor.dft false x) K).
Proof.
  assert (Hi : FastFourierTransVisitor.itransform_ [] = []) by reflexivity.
  assert (Hf : forall reverse, FastFourierTransVisitor.transform_ [] reverse = [])
    by reflexivity.
  split; [| split; [| split; [exact Hf | split; [exact Hi |]]]].
  - intros v. unfold FastFourierTransVisitor.call.
    cbn [map FastFourierTransVisitor.result_].
    destruct (FastFourierTransVisitor.inverse_ v); [exact Hi | apply Hf].
  - intros v. unfold FastFourierTransVisitor.call_real.
    cbn [map FastFourierTransVisitor.result_].
    destruct (FastFourierTransVisitor.inverse_ v); [exact Hi | apply Hf].
  - split; [reflexivity | split; [| split; [| split; [| split]]]].
    + intros [| fuel]; reflexivity.
    + intros column reverse Hne Hb.
      split; [apply transform_dispatch; assumption | split; [| split]].
      * rewrite itransform_structure by exact Hb.
        rewrite transform_dispatch.
        -- rewrite length_map. reflexivity.
        -- destruct column; [contradiction | discriminate].
        -- rewrite length_map. exact Hb.
      * apply transform_length. exact Hb.
      * apply itransform_length. exact Hb.
    + intros n Hpos Hlt. split.
      * apply is_power_of_2_inv; assumption.
      * intros [k ->]. apply is_power_of_2_pow.
    + intros column reverse Hb. split; [apply transform_is_dft; exact Hb |].
      rewrite itransform_structure by lia.
      rewrite transform_is_dft by (rewrite length_map; exact Hb). reflexivity.
    + cbv zeta.
      pose proof overflow_index_value as HK.
      assert (Hn : FastFourierTransVisitor.overflow_length
                   = S FastFourierTransVisitor.overflow_index) by reflexivity.
      set (n := FastFourierTransVisitor.overflow_length) in *.
      set (K := FastFourierTransVisitor.overflow_index) in *.
      assert (Hb : (Z.of_nat (length (FastFourierTransVisitor.impulse n)) < 2 ^ 60)%Z)
        by (rewrite impulse_length; lia).
      split; [lia | split; [exact (overflow_not_power HK Hn) | split; [| split]]].
      * rewrite transform_dispatch.
        -- rewrite impulse_length, (overflow_not_power HK Hn). reflexivity.
        -- intros H. apply (f_equal (@length _)) in H.
           rewrite impulse_length in H. cbn [length] in H. lia.
        -- exact Hb.
      * rewrite transform_length by exact Hb. apply impulse_length.
      * exact (overflow_spectrum_differs HK Hn).
Qed.

(* ====================================================================== *)
(** * Part III: further properties of the visitors *)
(* ====================================================================== *)

(* ---------------------------------------------------------------------- *)
(** ** SLRegressionVisitor: skipped pairs and the least-squares line *)

Section Regression.

Import SLRegressionVisitor.

Lemma visit_range_skip (v : t) (xs ys : list double) :
  skip_nan_ v = true ->
  visit_range v xs ys
  = visit_range v (map fst (complete_pairs xs ys)) (map snd (complete_pairs xs ys)).
Proof.
  revert v ys. induction xs as [| x xs IH]; intros v [| y ys] Hs; try reflexivity.
  cbn [visit_range]. unfold complete_pairs. cbn [combine filter].
  fold (complete_pairs xs ys).
  assert (Hkeep : forall a b, skip_nan_ (visit v a b) = true).
  { intros a b. unfold visit. rewrite Hs. cbn [andb].
    destruct (is_nan__ a || is_nan__ b); [exact Hs | reflexivity]. }
  destruct (complete (x, y)) eqn:E.
  - cbn [map fst snd visit_range]. apply IH. apply Hkeep.
  - rewrite <- IH by exact Hs. unfold complete in E. cbn [fst snd] in E.
    apply negb_false_iff in E. unfold visit at 1. rewrite Hs, E. reflexivity.
Qed.

Lemma visit_range_count (ps : list (double * double)) :
  Forall (fun p => complete p = true) ps ->
  forall v, (0 <= n_ v)%Z -> (n_ v + Z.of_nat (length ps) < 2 ^ 64)%Z ->
    n_ (visit_range v (map fst ps) (map snd ps)) = (n_ v + Z.of_nat (length ps))%Z.
Proof.
  induction 1 as [| [x y] ps Hp Hps IH]; intros v Hv Hlt; cbn [map visit_range fst snd length].
  - lia.
  - change (length ((x, y) :: ps)) with (S (length ps)) in Hlt.
    unfold complete in Hp. cbn [fst snd] in Hp. apply negb_true_iff in Hp.
    assert (Hn : n_ (visit v x y) = (n_ v + 1)%Z).
    { unfold visit. rewrite Hp, andb_false_r. cbn [n_]. apply size_wrap_small. lia. }
    rewrite IH by (rewrite Hn; lia). rewrite Hn. lia.
Qed.

End Regression.

(** X1.  With [skip_nan_] set, a pass over two columns is the pass over
    their complete pairs, those neither of whose values is NaN: the visitor
    ends in the state it reaches on the columns with the other pairs taken
    out, and [get_count] returns the number of complete pairs (below 2^64,
    the range of [size_type]). *)
Theorem slr_skips_incomplete_pairs (xs ys : list double) :
  let kept := SLRegressionVisitor.complete_pairs xs ys in
  (Z.of_nat (length kept) < 2 ^ 64)%Z ->
  SLRegressionVisitor.run true xs ys
  = SLRegressionVisitor.run true (map fst kept) (map snd kept) /\
  SLRegressionVisitor.get_count (SLRegressionVisitor.run true xs ys)
  = Z.of_nat (length kept).
Proof.
  intros kept Hlt. unfold SLRegressionVisitor.run, SLRegressionVisitor.post.
  assert (E : SLRegressionVisitor.visit_range
                (SLRegressionVisitor.pre (SLRegressionVisitor.make true)) xs ys
              = SLRegressionVisitor.visit_range
                  (SLRegressionVisitor.pre (SLRegressionVisitor.make true))
                  (map fst kept) (map snd kept)).
  { apply visit_range_skip. reflexivity. }
  split; [exact E |].
  unfold SLRegressionVisitor.get_count. rewrite E.
  rewrite visit_range_count.
    + reflexivity.
    + unfold kept, SLRegressionVisitor.complete_pairs. apply Forall_forall.
      intros p Hp. apply filter_In in Hp. tauto.
    + cbn. lia.
    + cbn. exact Hlt.
Qed.

Lemma slr_skips_incomplete_pairs_witness :
  let xs := [Fin 1; NaN; Fin 3; Fin 4] in
  let ys := [Fin 2; Fin 5; NaN; Fin 6] in
  let kept := SLRegressionVisitor.complete_pairs xs ys in
  SLRegressionVisitor.run true xs ys
  = SLRegressionVisitor.run true (map fst kept) (map snd kept) /\
  SLRegressionVisitor.get_count (SLRegressionVisitor.run true xs ys)
  = Z.of_nat (length kept).
Proof.
  apply (@slr_skips_incomplete_pairs
           [Fin 1; NaN; Fin 3; Fin 4] [Fin 2; Fin 5; NaN; Fin 6]).
  cbn. lia.
Defined.

Section LeastSquares.

Import SLRegressionVisitor.

(** The sum of the products, before centring. *)
Let products (xs ys : list R) : R :=
  total (map (fun p => fst p * snd p) (combine xs ys)).

Lemma total_app (l l' : list R) : total (l ++ l') = total l + total l'.
Proof.
  unfold total. induction l as [| a l IH]; cbn [app fold_right]; [lra | rewrite IH; lra].
Qed.

Lemma combine_snoc (A B : Type) (xs : list A) (x : A) (y : B) :
  forall ys, length xs = length ys ->
    combine (xs ++ [x]) (ys ++ [y]) = combine xs ys ++ [(x, y)].
Proof.
  induction xs as [| a xs IH]; intros [| b ys] Hlen; try discriminate.
  - reflexivity.
  - cbn [app combine]. rewrite IH by (cbn in Hlen; lia). reflexivity.
Qed.

Lemma products_snoc (xs ys : list R) (x y : R) :
  length xs = length ys ->
  products (xs ++ [x]) (ys ++ [y]) = products xs ys + x * y.
Proof.
  intros Hlen. unfold products. rewrite combine_snoc by exact Hlen.
  rewrite map_app, total_app. cbn. lra.
Qed.

Lemma centred_sum (a b : R) (xs : list R) :
  forall ys, length xs = length ys ->
    total (map (fun p => (fst p - a) * (snd p - b)) (combine xs ys))
    = products xs ys - a * total ys - b * total xs + INR (length xs) * a * b.
Proof.
  unfold products.
  induction xs as [| x xs IH]; intros [| y ys] Hlen; try discriminate.
  - cbn. lra.
  - cbn [combine map length] in *. injection Hlen as Hlen.
    unfold total in *. cbn [fold_right fst snd]. rewrite (IH ys Hlen).
    rewrite S_INR. lra.
Qed.

Lemma co_deviation_raw (xs ys : list R) :
  length xs = length ys -> (1 <= length xs)%nat ->
  co_deviation xs ys
  = products xs ys - total xs * total ys / INR (length xs).
Proof.
  intros Hlen Hpos. unfold co_deviation. rewrite centred_sum by exact Hlen.
  unfold mean_of. rewrite <- Hlen.
  assert (Hk : INR (length xs) <> 0) by (apply not_0_INR; lia).
  field. exact Hk.
Qed.

Lemma co_deviation_nil : co_deviation [] [] = 0.
Proof. reflexivity. Qed.

Lemma mean_of_nil : mean_of [] = 0.
Proof. unfold mean_of. cbn. lra. Qed.

Lemma mean_of_snoc (l : list R) (x : R) :
  mean_of (l ++ [x])
  = mean_of l + (x - mean_of l) / IZR (Z.of_nat (length l) + 1).
Proof.
  rewrite plus_IZR, <- INR_IZR_INZ.
  destruct l as [| a l].
  - rewrite mean_of_nil. unfold mean_of. cbn. field.
  - unfold mean_of. rewrite total_app, length_app, Nat.add_comm. cbn [length Nat.add].
    change (S (S (length l))) with (S (length (a :: l))).
    rewrite (S_INR (length (a :: l))).
    assert (Hk : INR (length (a :: l)) <> 0) by (apply not_0_INR; cbn; lia).
    assert (Hk1 : 0 <= INR (length (a :: l))) by apply pos_INR.
    change (total [x]) with (x + 0).
    change (INR (S (length l))) with (INR (length (a :: l))).
    generalize dependent (INR (length (a :: l))). intros k Hk Hk1.
    generalize (total (a :: l)). intros s.
    field. split; lra.
Qed.

Lemma co_deviation_snoc (xs ys : list R) (x y : R) :
  length xs = length ys ->
  co_deviation (xs ++ [x]) (ys ++ [y])
  = co_deviation xs ys
    + (mean_of xs - x) * (mean_of ys - y) * IZR (Z.of_nat (length xs))
      / IZR (Z.of_nat (length xs) + 1).
Proof.
  intros Hlen. rewrite plus_IZR, <- INR_IZR_INZ.
  destruct xs as [| a xs].
  - destruct ys; [| discriminate]. rewrite co_deviation_nil, mean_of_nil.
    unfold co_deviation, mean_of. cbn. field.
  - assert (Hpos : (1 <= length (a :: xs))%nat) by (cbn; lia).
    rewrite (@co_deviation_raw (a :: xs) ys Hlen Hpos).
    rewrite co_deviation_raw
      by (rewrite !length_app; cbn [length] in *; lia).
    rewrite products_snoc by exact Hlen. rewrite !total_app.
    unfold mean_of. rewrite <- Hlen.
    rewrite length_app, Nat.add_comm. cbn [length Nat.add].
    change (S (S (length xs))) with (S (length (a :: xs))).
    rewrite (S_INR (length (a :: xs))).
    assert (Hk : INR (length (a :: xs)) <> 0) by (apply not_0_INR; cbn; lia).
    assert (Hk1 : 0 <= INR (length (a :: xs))) by apply pos_INR.
    change (total [x]) with (x + 0). change (total [y]) with (y + 0).
    change (INR (S (length xs))) with (INR (length (a :: xs))).
    generalize dependent (INR (length (a :: xs))). intros k Hk Hk1.
    generalize (total (a :: xs)) (total ys) (products (a :: xs) ys). intros sx sy p.
    field. split; lra.
Qed.

(** The state after the pairs of [xs] and [ys] have been visited. *)
Let state_of (b : bool) (xs ys : list R) : t :=
  let n := Z.of_nat (length xs) in
  mk n (Fin (co_deviation xs ys))
    (StatsVisitor.mk n (Fin (mean_of xs)) (Fin (co_deviation xs xs)) b)
    (StatsVisitor.mk n (Fin (mean_of ys)) (Fin (co_deviation ys ys)) b) b.

Lemma visit_state (b : bool) (xs ys : list R) (x y : R) :
  length xs = length ys -> (Z.of_nat (length xs) < 2 ^ 64 - 1)%Z ->
  visit (state_of b xs ys) (Fin x) (Fin y) = state_of b (xs ++ [x]) (ys ++ [y]).
Proof.
  intros Hlen Hlt. unfold state_of. cbv zeta.
  rewrite slr_visit_fin by lia.
  rewrite !length_app. cbn [length].
  replace (Z.of_nat (length xs + 1)) with (Z.of_nat (length xs) + 1)%Z by lia.
  f_equal.
  - apply Fin_eq. symmetry. apply co_deviation_snoc. exact Hlen.
  - f_equal.
    + apply Fin_eq. symmetry. apply mean_of_snoc.
    + apply Fin_eq. rewrite co_deviation_snoc by reflexivity. field.
      apply not_0_IZR. lia.
  - f_equal.
    + apply Fin_eq. symmetry. rewrite Hlen. apply mean_of_snoc.
    + apply Fin_eq. rewrite co_deviation_snoc by reflexivity. rewrite <- Hlen. field.
      apply not_0_IZR. lia.
Qed.

Lemma visit_range_state (b : bool) (xs ys : list R) :
  forall pxs pys,
    length pxs = length pys -> length xs = length ys ->
    (Z.of_nat (length pxs + length xs) < 2 ^ 64)%Z ->
    visit_range (state_of b pxs pys) (map Fin xs) (map Fin ys)
    = state_of b (pxs ++ xs) (pys ++ ys).
Proof.
  revert ys. induction xs as [| x xs IH]; intros [| y ys] pxs pys Hp Hlen Hlt;
    try discriminate.
  - cbn [map visit_range]. rewrite !app_nil_r. reflexivity.
  - cbn [map visit_range length] in *. injection Hlen as Hlen.
    rewrite visit_state by (try exact Hp; lia).
    rewrite IH.
    + rewrite <- !app_assoc. reflexivity.
    + rewrite !length_app. cbn. lia.
    + exact Hlen.
    + rewrite length_app. cbn [length]. lia.
Qed.

Lemma run_state (b : bool) (xs ys : list R) :
  length xs = length ys -> (Z.of_nat (length xs) < 2 ^ 64)%Z ->
  run b (map Fin xs) (map Fin ys) = state_of b xs ys.
Proof.
  intros Hlen Hlt. unfold run, post.
  change (pre (make b)) with (state_of b [] []) || idtac.
  assert (E : pre (make b) = state_of b [] []).
  { unfold state_of, pre, make, StatsVisitor.pre. cbn [length Z.of_nat x_stats_ y_stats_
      skip_nan_ StatsVisitor.skip_nan_].
    rewrite co_deviation_nil, mean_of_nil. reflexivity. }
  rewrite E. rewrite visit_range_state by (cbn; auto). reflexivity.
Qed.

Lemma co_deviation_self_nonneg (xs : list R) : 0 <= co_deviation xs xs.
Proof.
  unfold co_deviation. generalize (mean_of xs) as m. intros m.
  induction xs as [| x xs IH]; cbn [combine map total fold_right fst snd].
  - lra.
  - unfold total in IH. pose proof (Rle_0_sqr (x - m)) as Hsq. unfold Rsqr in Hsq. lra.
Qed.

Lemma total_map_affine (a c : R) (xs : list R) :
  total (map (fun x => a * x + c) xs) = a * total xs + c * INR (length xs).
Proof.
  unfold total. induction xs as [| x xs IH]; cbn [map fold_right length].
  - cbn. lra.
  - rewrite IH, S_INR. lra.
Qed.

Lemma products_map_affine (a c : R) (xs zs : list R) :
  length zs = length xs ->
  products zs (map (fun x => a * x + c) xs) = a * products zs xs + c * total zs.
Proof.
  unfold products, total. revert zs.
  induction xs as [| x xs IH]; intros [| z zs] Hlen; try discriminate.
  - cbn. lra.
  - cbn [map combine fold_right fst snd]. rewrite IH by (cbn in Hlen; lia). lra.
Qed.

Lemma products_comm (xs : list R) :
  forall ys, products xs ys = products ys xs.
Proof.
  unfold products, total.
  induction xs as [| x xs IH]; intros [| y ys]; cbn [combine map fold_right fst snd];
    try reflexivity.
  rewrite IH. lra.
Qed.

Lemma mean_of_affine (a c : R) (xs : list R) :
  (1 <= length xs)%nat ->
  mean_of (map (fun x => a * x + c) xs) = a * mean_of xs + c.
Proof.
  intros Hpos. unfold mean_of. rewrite total_map_affine, length_map.
  assert (Hk : INR (length xs) <> 0) by (apply not_0_INR; lia).
  field. exact Hk.
Qed.

Lemma co_deviation_affine_r (a c : R) (xs : list R) :
  (1 <= length xs)%nat ->
  co_deviation xs (map (fun x => a * x + c) xs) = a * co_deviation xs xs.
Proof.
  intros Hpos.
  rewrite !co_deviation_raw by (rewrite ?length_map; auto).
  rewrite products_map_affine, total_map_affine by reflexivity.
  assert (Hk : INR (length xs) <> 0) by (apply not_0_INR; lia).
  field. exact Hk.
Qed.

Lemma co_deviation_affine (a c : R) (xs : list R) :
  (1 <= length xs)%nat ->
  co_deviation (map (fun x => a * x + c) xs) (map (fun x => a * x + c) xs)
  = a * a * co_deviation xs xs.
Proof.
  intros Hpos.
  rewrite !co_deviation_raw by (rewrite ?length_map; auto).
  rewrite products_map_affine by (rewrite length_map; reflexivity).
  rewrite (products_comm (map _ xs) xs).
  rewrite products_map_affine, !total_map_affine, length_map by reflexivity.
  assert (Hk : INR (length xs) <> 0) by (apply not_0_INR; lia).
  field. exact Hk.
Qed.

Lemma scaled_roots (a b c : R) :
  0 <= a -> 0 <= b -> 0 < c ->
  c * (sqrt (a / c) * sqrt (b / c)) = sqrt a * sqrt b.
Proof.
  intros Ha Hb Hc. rewrite !sqrt_div_alt by exact Hc.
  assert (Hs : sqrt c * sqrt c = c) by (apply sqrt_sqrt; lra).
  assert (Hs0 : sqrt c <> 0).
  { intros H0. rewrite H0 in Hs. lra. }
  rewrite <- Hs at 1. field. exact Hs0.
Qed.

(** What the getters return in a state reached over two columns of n >= 2
    values. *)
Lemma getters_of_state (b : bool) (xs ys : list R) :
  length xs = length ys -> (2 <= length xs)%nat ->
  (Z.of_nat (length xs) < 2 ^ 64)%Z ->
  let v := state_of b xs ys in
  let sxx := co_deviation xs xs in
  let syy := co_deviation ys ys in
  let sxy := co_deviation xs ys in
  (sxx <> 0 ->
   get_slope v = Fin (sxy / sxx) /\
   get_intercept v = Fin (mean_of ys - sxy / sxx * mean_of xs) /\
   (syy <> 0 -> get_corr v = Fin (sxy / (sqrt sxx * sqrt syy)))) /\
  (sxx = 0 -> get_slope v = NaN /\ get_intercept v = NaN /\ get_corr v = NaN).
Proof.
  intros Hlen Hn Hlt. cbv zeta.
  set (n := Z.of_nat (length xs)).
  assert (Hn1 : IZR n - 1 <> 0).
  { unfold n. rewrite <- INR_IZR_INZ. apply le_INR in Hn. cbn in Hn. lra. }
  assert (Hn1' : 0 < IZR (n - 1)).
  { apply IZR_lt. unfold n. lia. }
  assert (Hminus : IZR (n - 1) = IZR n - 1) by (rewrite minus_IZR; reflexivity).
  assert (Hvar : forall m1 m2, StatsVisitor.get_variance (StatsVisitor.mk n m1 (Fin m2) b)
                               = Fin (m2 / IZR (n - 1))).
  { intros m1 m2. unfold StatsVisitor.get_variance, of_size.
    cbn [StatsVisitor.m2_ StatsVisitor.n_ dsub dlift2].
    rewrite ddiv_fin by exact Hn1. rewrite Hminus. reflexivity. }
  assert (Hsxx : forall m2, m2 / IZR (n - 1) * IZR (n - 1) = m2).
  { intros m2. field. lra. }
  assert (Hslope : get_slope (state_of b xs ys)
                   = (Fin (co_deviation xs ys) / Fin (co_deviation xs xs))%dbl).
  { unfold get_slope, state_of. cbn [x_stats_ n_ s_xy_]. fold n.
    rewrite Hvar, size_wrap_small by (unfold n; lia).
    unfold of_size. cbn [dmul dlift2]. rewrite Hsxx. reflexivity. }
  assert (Hx0 := co_deviation_self_nonneg xs).
  assert (Hy0 := co_deviation_self_nonneg ys).
  assert (Hcorr : get_corr (state_of b xs ys)
                  = (Fin (co_deviation xs ys)
                     / Fin (sqrt (co_deviation xs xs) * sqrt (co_deviation ys ys)))%dbl).
  { unfold get_corr, state_of, StatsVisitor.get_std. cbn [x_stats_ y_stats_ n_ s_xy_].
    fold n. rewrite !Hvar, size_wrap_small by (unfold n; lia).
    rewrite !dsqrt_fin by (apply Rmult_le_pos; [assumption | left; apply Rinv_0_lt_compat; exact Hn1']).
    unfold of_size. cbn [dmul dlift2]. rewrite scaled_roots by assumption. reflexivity. }
  split.
  - intros Hxx. rewrite Hslope, ddiv_fin by exact Hxx.
    split; [reflexivity | split].
    + unfold get_intercept. rewrite Hslope, ddiv_fin by exact Hxx.
      unfold state_of. cbn [y_stats_ x_stats_ StatsVisitor.get_mean StatsVisitor.m1_
                            dmul dsub dlift2]. reflexivity.
    + intros Hyy. rewrite Hcorr. apply ddiv_fin.
      apply Rmult_integral_contrapositive_currified; intros H0;
        apply sqrt_eq_0 in H0; auto.
  - intros Hxx.
    assert (Hz : forall s, (Fin s / Fin 0)%dbl = NaN).
    { intros s. unfold ddiv. destruct (Req_dec_T 0 0) as [_ | N]; [reflexivity | contradiction]. }
    rewrite Hslope, Hcorr. unfold get_intercept. rewrite Hslope, Hxx.
    rewrite sqrt_0, Rmult_0_l, !Hz. repeat split; reflexivity.
Qed.

End LeastSquares.

(** X2.  For two columns of n >= 2 finite values (n below 2^64) one pass
    computes the least-squares line: [get_count] is n, [s_xy_] is the sum
    S_xy of the products of the deviations from the means, the slope is
    S_xy / S_xx, the intercept is mean(y) - slope * mean(x) and, when y
    varies too, the correlation is S_xy / (sqrt S_xx * sqrt S_yy).  When x
    does not vary (S_xx = 0) the three getters return NaN.  The running mean
    and variance are those of [StatsVisitor] as modelled above. *)
Theorem slr_least_squares (b : bool) (xs ys : list R) :
  length xs = length ys -> (2 <= length xs)%nat ->
  (Z.of_nat (length xs) < 2 ^ 64)%Z ->
  let v := SLRegressionVisitor.run b (map Fin xs) (map Fin ys) in
  let sxx := SLRegressionVisitor.co_deviation xs xs in
  let syy := SLRegressionVisitor.co_deviation ys ys in
  let sxy := SLRegressionVisitor.co_deviation xs ys in
  SLRegressionVisitor.get_count v = Z.of_nat (length xs) /\
  SLRegressionVisitor.s_xy_ v = Fin sxy /\
  (sxx <> 0 ->
   SLRegressionVisitor.get_slope v = Fin (sxy / sxx) /\
   SLRegressionVisitor.get_intercept v
   = Fin (SLRegressionVisitor.mean_of ys - sxy / sxx * SLRegressionVisitor.mean_of xs) /\
   (syy <> 0 ->
    SLRegressionVisitor.get_corr v = Fin (sxy / (sqrt sxx * sqrt syy)))) /\
  (sxx = 0 ->
   SLRegressionVisitor.get_slope v = NaN /\
   SLRegressionVisitor.get_intercept v = NaN /\
   SLRegressionVisitor.get_corr v = NaN).
Proof.
  intros Hlen Hn Hlt. cbv zeta. rewrite run_state by assumption.
  split; [reflexivity | split; [reflexivity |]].
  apply getters_of_state; assumption.
Qed.

Lemma slr_least_squares_witness :
  let xs := SLRegressionVisitor.rising_xs in
  let ys := SLRegressionVisitor.rising_ys in
  let v := SLRegressionVisitor.run true (map Fin xs) (map Fin ys) in
  let sxx := SLRegressionVisitor.co_deviation xs xs in
  let syy := SLRegressionVisitor.co_deviation ys ys in
  let sxy := SLRegressionVisitor.co_deviation xs ys in
  SLRegressionVisitor.get_count v = Z.of_nat (length xs) /\
  SLRegressionVisitor.s_xy_ v = Fin sxy /\
  (sxx <> 0 ->
   SLRegressionVisitor.get_slope v = Fin (sxy / sxx) /\
   SLRegressionVisitor.get_intercept v
   = Fin (SLRegressionVisitor.mean_of ys - sxy / sxx * SLRegressionVisitor.mean_of xs) /\
   (syy <> 0 ->
    SLRegressionVisitor.get_corr v = Fin (sxy / (sqrt sxx * sqrt syy)))) /\
  (sxx = 0 ->
   SLRegressionVisitor.get_slope v = NaN /\
   SLRegressionVisitor.get_intercept v = NaN /\
   SLRegressionVisitor.get_corr v = NaN).
Proof.
  apply (@slr_least_squares true SLRegressionVisitor.rising_xs
           SLRegressionVisitor.rising_ys).
  - reflexivity.
  - cbn. lia.
  - cbn. lia.
Defined.

Lemma corr_of_line (a s : R) :
  0 < s -> a <> 0 -> a * s / (sqrt s * sqrt (a * a * s)) = a / Rabs a.
Proof.
  intros Hs Ha.
  rewrite sqrt_mult by nra.
  fold (Rsqr a). rewrite sqrt_Rsqr_abs.
  assert (Hr : sqrt s * sqrt s = s) by (apply sqrt_sqrt; lra).
  assert (Hr0 : sqrt s <> 0) by (intros H0; rewrite H0 in Hr; lra).
  assert (Habs : Rabs a <> 0) by (apply Rabs_no_R0; exact Ha).
  rewrite <- Hr at 1. field. split; assumption.
Qed.

(** X3.  On points that lie on a line y = a x + c, x not constant, the
    visitor returns the slope a and the intercept c; the correlation is 1
    for a > 0 and -1 for a < 0. *)
Theorem slr_recovers_line (b : bool) (xs : list R) (a c : R) :
  (2 <= length xs)%nat -> (Z.of_nat (length xs) < 2 ^ 64)%Z ->
  SLRegressionVisitor.co_deviation xs xs <> 0 ->
  let v := SLRegressionVisitor.run b (map Fin xs)
             (map Fin (map (fun x => a * x + c) xs)) in
  SLRegressionVisitor.get_slope v = Fin a /\
  SLRegressionVisitor.get_intercept v = Fin c /\
  (0 < a -> SLRegressionVisitor.get_corr v = Fin 1) /\
  (a < 0 -> SLRegressionVisitor.get_corr v = Fin (-1)).
Proof.
  intros Hn Hlt Hxx. cbv zeta.
  assert (Hpos : (1 <= length xs)%nat) by lia.
  assert (Hlen : length xs = length (map (fun x => a * x + c) xs))
    by (rewrite length_map; reflexivity).
  rewrite run_state by assumption.
  destruct (@getters_of_state b xs (map (fun x => a * x + c) xs) Hlen Hn Hlt)
    as [Hgen _].
  destruct (Hgen Hxx) as (Hs & Hi & Hc). clear Hgen.
  pose proof (co_deviation_self_nonneg xs) as H0.
  assert (Hsxx : 0 < SLRegressionVisitor.co_deviation xs xs) by lra.
  assert (Hyy : forall a', a' = a -> a <> 0 ->
            SLRegressionVisitor.co_deviation (map (fun x => a' * x + c) xs)
              (map (fun x => a' * x + c) xs) <> 0).
  { intros a' -> Ha. rewrite co_deviation_affine by exact Hpos.
    repeat apply Rmult_integral_contrapositive_currified; assumption. }
  split; [| split; [| split]].
  - rewrite Hs, co_deviation_affine_r by exact Hpos. apply Fin_eq. field. exact Hxx.
  - rewrite Hi, co_deviation_affine_r, mean_of_affine by exact Hpos.
    apply Fin_eq. field. exact Hxx.
  - intros Ha. rewrite Hc by (apply Hyy; [reflexivity | lra]).
    rewrite co_deviation_affine_r, co_deviation_affine by exact Hpos. apply Fin_eq.
    rewrite corr_of_line by lra. rewrite Rabs_right by lra. field. lra.
  - intros Ha. rewrite Hc by (apply Hyy; [reflexivity | lra]).
    rewrite co_deviation_affine_r, co_deviation_affine by exact Hpos. apply Fin_eq.
    rewrite corr_of_line by lra. rewrite Rabs_left by lra. field. lra.
Qed.

Lemma slr_recovers_line_witness :
  let v := SLRegressionVisitor.run true (map Fin SLRegressionVisitor.rising_xs)
             (map Fin (map (fun x => 3 * x + 5) SLRegressionVisitor.rising_xs)) in
  SLRegressionVisitor.get_slope v = Fin 3 /\
  SLRegressionVisitor.get_intercept v = Fin 5 /\
  (0 < 3 -> SLRegressionVisitor.get_corr v = Fin 1) /\
  (3 < 0 -> SLRegressionVisitor.get_corr v = Fin (-1)).
Proof.
  apply (@slr_recovers_line true SLRegressionVisitor.rising_xs 3 5).
  - cbn. lia.
  - cbn. lia.
  - unfold SLRegressionVisitor.co_deviation, SLRegressionVisitor.mean_of,
      total, SLRegressionVisitor.rising_xs.
    cbn. lra.
Defined.

(* ---------------------------------------------------------------------- *)
(** ** KMeansVisitor: clusters and centroids *)

(** ** Loops that file addresses into buckets *)

Section Buckets.

Variables (V P : Type).
Variable keep : V -> bool.
Variable bucket : V -> nat.
Variable tag : nat -> P.
Variable d : V.

(** The addresses, from [addr] on, of the kept elements of bucket [i]. *)
Let filed (column : list V) (addr i : nat) : list P :=
  map (fun j => tag (addr + j)%nat)
    (filter (fun j => keep (nth j column d) && Nat.eqb (bucket (nth j column d)) i)
       (seq 0 (length column))).

Lemma filed_cons (v : V) (column : list V) (addr i : nat) :
  filed (v :: column) addr i
  = (if keep v && Nat.eqb (bucket v) i then [tag addr] else [])
    ++ filed column (S addr) i.
Proof.
  unfold filed. cbn [length]. rewrite <- cons_seq, <- seq_shift.
  cbn [filter]. rewrite filter_map_swap. cbn [nth].
  assert (E : forall l,
            map (fun j => tag (addr + j)%nat) (map S l)
            = map (fun j => tag (S addr + j)%nat) l).
  { intros l. rewrite map_map. apply map_ext. intros j. f_equal. lia. }
  destruct (keep v && Nat.eqb (bucket v) i); cbn [map app];
    rewrite ?Nat.add_0_r, E; reflexivity.
Qed.

Variable F : list V -> nat -> list (list P) -> list (list P).
Hypothesis F_nil : forall addr clusters, F [] addr clusters = clusters.
Hypothesis F_cons :
  forall v column addr clusters,
    F (v :: column) addr clusters
    = if keep v
      then F column (S addr)
             (vset clusters (bucket v) (nth (bucket v) clusters [] ++ [tag addr]))
      else F column (S addr) clusters.

Lemma buckets_filled (column : list V) :
  forall addr clusters,
    (forall v, In v column -> keep v = true -> (bucket v < length clusters)%nat) ->
    length (F column addr clusters) = length clusters /\
    forall i, (i < length clusters)%nat ->
      nth i (F column addr clusters) [] = nth i clusters [] ++ filed column addr i.
Proof.
  induction column as [| v column IH]; intros addr clusters Hin.
  - rewrite F_nil. split; [reflexivity |]. intros i _. unfold filed. cbn.
    symmetry. apply app_nil_r.
  - rewrite F_cons. destruct (keep v) eqn:Ek.
    + specialize (Hin v (or_introl eq_refl) Ek) as Hb.
      destruct (IH (S addr)
                  (vset clusters (bucket v) (nth (bucket v) clusters [] ++ [tag addr])))
        as [L N].
      { intros v' Hv' Hk'. rewrite length_vset. apply Hin; [right; exact Hv' | exact Hk']. }
      rewrite length_vset in L, N. split; [exact L |].
      intros i Hi. rewrite (N i Hi), filed_cons, Ek. cbn [andb].
      rewrite nth_vset by exact Hb.
      destruct (Nat.eqb_spec (bucket v) i) as [-> | Hne].
      * rewrite <- app_assoc. reflexivity.
      * reflexivity.
    + destruct (IH (S addr) clusters) as [L N].
      { intros v' Hv' Hk'. apply Hin; [right; exact Hv' | exact Hk']. }
      split; [exact L |]. intros i Hi. rewrite (N i Hi), filed_cons, Ek. reflexivity.
Qed.

End Buckets.

Section KMeansMore.

Import KMeansVisitor.

Variable dfunc : double -> double -> double.

Lemma min_idx_is_nearest (value : double) (means : list double) :
  forall i min_dist min_idx,
    min_idx_from dfunc value means i min_dist min_idx
    = nearest_from dfunc value means i min_dist min_idx.
Proof.
  induction means as [| m means IH]; intros i md mi; cbn [min_idx_from nearest_from].
  - reflexivity.
  - cbv zeta. destruct (dlt (dfunc value m) md); apply IH.
Qed.

Lemma nth_singletons (P : Type) (f : nat -> P) (k i : nat) :
  (i < k)%nat -> nth i (map (fun i => [f i]) (seq 0 k)) [] = [f i].
Proof.
  intros Hi. rewrite (nth_indep _ [] [f 0%nat]) by (rewrite length_map, length_seq; exact Hi).
  rewrite (map_nth (fun i => [f i])), seq_nth by exact Hi. reflexivity.
Qed.

Lemma calc_clusters_spec (means : list double) (column_begin : nat)
  (column : list double) :
  (forall v, In v column -> is_nan__ v = false -> means <> []) ->
  let clusters := calc_clusters_ dfunc means column_begin column in
  length clusters = length means /\
  forall i, (i < length means)%nat ->
    nth i clusters []
    = PMean i
      :: map (fun j => PCol (column_begin + j))
           (filter (fun j => negb (is_nan__ (at_ column j))
                             && Nat.eqb (nearest dfunc means (at_ column j)) i)
              (seq 0 (length column))).
Proof.
  intros Hne. cbv zeta. unfold calc_clusters_.
  pose proof (@buckets_filled double ptr (fun v => negb (is_nan__ v))
                (nearest dfunc means) PCol NaN
                (partition_from dfunc means)) as H.
  destruct (H (fun addr clusters => eq_refl)) with (column := column)
    (addr := column_begin)
    (clusters := map (fun i => [PMean i]) (seq 0 (length means))) as [L N].
  - intros v col addr clusters. cbn [partition_from].
    destruct (is_nan__ v); cbn [negb]; [reflexivity |].
    cbv zeta. rewrite min_idx_is_nearest. reflexivity.
  - intros v Hv Hk. rewrite length_map, length_seq. apply nearest_lt.
    apply (Hne v Hv). apply negb_true_iff. exact Hk.
  - rewrite length_map, length_seq in L, N. split; [exact L |].
    intros i Hi. rewrite (N i Hi), nth_singletons by exact Hi. reflexivity.
Qed.

End KMeansMore.

(** X4.  [calc_clusters_] partitions the column.  When every non-NaN
    value has a centroid at a distance below [DBL_MAX] (so that [min_idx] is
    assigned), there are as many clusters as centroids; cluster i holds the
    address of centroid i followed by the addresses, in column order, of the
    non-NaN values that the assignment loop of [calc_k_means_] gives to
    centroid i; and the address of a value is in cluster i exactly when the
    value is not NaN and i is the centroid it is given to. *)
Theorem kmeans_clusters_partition (dfunc : double -> double -> double)
  (means : list double) (column_begin : nat) (column : list double) :
  (forall v, In v column -> is_nan__ v = false ->
     exists m, In m means /\ dlt (dfunc v m) (Fin DBL_MAX) = true) ->
  let clusters := KMeansVisitor.calc_clusters_ dfunc means column_begin column in
  let home := fun j => KMeansVisitor.nearest dfunc means (at_ column j) in
  length clusters = length means /\
  (forall i, (i < length means)%nat ->
     nth i clusters []
     = KMeansVisitor.PMean i
       :: map (fun j => KMeansVisitor.PCol (column_begin + j))
            (filter (fun j => negb (is_nan__ (at_ column j)) && Nat.eqb (home j) i)
               (seq 0 (length column)))) /\
  (forall i j, (i < length means)%nat -> (j < length column)%nat ->
     (In (KMeansVisitor.PCol (column_begin + j)) (nth i clusters [])
      <-> is_nan__ (at_ column j) = false /\ home j = i)).
Proof.
  intros Hinit. cbv zeta.
  destruct (@calc_clusters_spec dfunc means column_begin column) as [L N].
  { intros v Hv Hn. destruct (Hinit v Hv Hn) as (m & Hm & _).
    intros ->. contradiction. }
  split; [exact L | split; [exact N |]].
  intros i j Hi Hj. rewrite (N i Hi). cbn [In]. split.
  - intros [Hc | Hin]; [discriminate |].
    apply in_map_iff in Hin. destruct Hin as (j' & Heq & Hin).
    injection Heq as Heq. assert (j' = j) by lia. subst j'.
    apply filter_In in Hin. destruct Hin as [_ Hin].
    apply andb_true_iff in Hin. destruct Hin as [Hn He].
    apply negb_true_iff in Hn. apply Nat.eqb_eq in He. auto.
  - intros [Hn He]. right. apply in_map_iff. exists j. split; [reflexivity |].
    apply filter_In. split; [apply in_seq; lia |].
    rewrite Hn, He, Nat.eqb_refl. reflexivity.
Qed.

Lemma kmeans_clusters_partition_witness :
  let dfunc := KMeansVisitor.default_dfunc in
  let means := [Fin 0; Fin 2] in
  let column := KMeansVisitor.sample_column in
  let clusters := KMeansVisitor.calc_clusters_ dfunc means 10 column in
  let home := fun j => KMeansVisitor.nearest dfunc means (at_ column j) in
  length clusters = length means /\
  (forall i, (i < length means)%nat ->
     nth i clusters []
     = KMeansVisitor.PMean i
       :: map (fun j => KMeansVisitor.PCol (10 + j))
            (filter (fun j => negb (is_nan__ (at_ column j)) && Nat.eqb (home j) i)
               (seq 0 (length column)))) /\
  (forall i j, (i < length means)%nat -> (j < length column)%nat ->
     (In (KMeansVisitor.PCol (10 + j)) (nth i clusters [])
      <-> is_nan__ (at_ column j) = false /\ home j = i)).
Proof.
  apply (@kmeans_clusters_partition KMeansVisitor.default_dfunc
           [Fin 0; Fin 2] 10 KMeansVisitor.sample_column).
  pose proof DBL_MAX_large as Hmax.
  intros v [<- | [<- | [<- | []]]] Hv; try discriminate;
    exists (Fin 0); (split; [left; reflexivity |]);
    unfold KMeansVisitor.default_dfunc; cbn [dsub dmul dlift2];
    apply dlt_true; lra.
Defined.

Section KMeansValid.

Import KMeansVisitor.

Variable dfunc : double -> double -> double.

Let valid (m : double) : Prop := is_nan__ m = false.

Lemma seed_valid (column : list double) :
  forall means draws,
    Forall valid means ->
    length (seed column means draws) = length means /\
    Forall valid (seed column means draws).
Proof.
  induction means as [| m means IH]; intros draws Hv; cbn [seed].
  - split; [reflexivity | constructor].
  - destruct draws as [| dr draws]; [split; [reflexivity | exact Hv] |].
    inversion Hv as [| ? ? Hm Hms]; subst.
    destruct (IH draws Hms) as [L F]. split; [cbn; lia |].
    constructor; [| exact F].
    destruct (is_nan__ (at_ column dr)) eqn:E; [exact Hm | exact E].
Qed.

Lemma sum_valid (pts : list double) :
  Forall valid pts -> forall a, exists s, fold_left dadd pts (Fin a) = Fin s.
Proof.
  induction 1 as [| p pts Hp Hps IH]; intros a; cbn [fold_left].
  - exists a. reflexivity.
  - destruct p as [| r]; [discriminate |]. cbn [dadd dlift2]. apply IH.
Qed.

Lemma spec_candidate_valid (means column : list double) (c : nat) :
  valid (spec_candidate dfunc means column c).
Proof.
  unfold spec_candidate.
  destruct (@sum_valid (spec_assigned dfunc means column c)) with (a := 0) as [s Hs].
  { unfold spec_assigned. apply Forall_forall. intros v Hv. apply filter_In in Hv.
    destruct Hv as [_ Hv]. apply andb_true_iff in Hv. destruct Hv as [Hv _].
    apply negb_true_iff. exact Hv. }
  rewrite Hs. set (k := INR (length (spec_assigned dfunc means column c))).
  assert (Hk : 0 <= k) by apply pos_INR.
  unfold dmax, dlt. destruct (Rlt_dec 1 k).
  - rewrite ddiv_fin by lra. reflexivity.
  - rewrite ddiv_fin by lra. reflexivity.
Qed.

Lemma iteration_valid (column means : list double) :
  Forall valid means -> Forall valid (fst (iteration dfunc column means)).
Proof.
  intros Hv. destruct (iteration_spec dfunc column means) as (L & N & _).
  apply Forall_nth. intros i d Hi. rewrite L in Hi.
  rewrite (nth_indep _ d NaN) by (rewrite L; exact Hi).
  fold (at_ (fst (iteration dfunc column means)) i). rewrite (N i Hi).
  destruct (spec_moves dfunc means column i).
  - apply spec_candidate_valid.
  - unfold at_. apply Forall_nth; assumption.
Qed.

Lemma main_loop_valid (column : list double) :
  forall iters means,
    Forall valid means ->
    length (main_loop dfunc iters column means) = length means /\
    Forall valid (main_loop dfunc iters column means).
Proof.
  induction iters as [| n IH]; intros means Hv; cbn [main_loop].
  - split; [reflexivity | exact Hv].
  - pose proof (iteration_valid column Hv) as Hv'.
    destruct (iteration_spec dfunc column means) as (L & _ & _).
    destruct (iteration dfunc column means) as [means' done]. cbn [fst] in *.
    destruct done; [split; assumption |].
    destruct (IH means' Hv') as [L' F']. split; [lia | exact F'].
Qed.

(** A pass that reports done has left every centroid as it was. *)
Lemma iteration_done_fixed (column means : list double) :
  snd (iteration dfunc column means) = true ->
  fst (iteration dfunc column means) = means.
Proof.
  intros Hd. pose proof (iteration_spec dfunc column means) as H. cbv zeta in H.
  destruct H as (L & N & D).
  pose proof (proj1 D Hd) as Hm. apply (nth_ext _ _ NaN NaN); [exact L |].
  intros i Hi. rewrite L in Hi. fold (at_ (fst (iteration dfunc column means)) i).
  rewrite (N i Hi), (Hm i Hi). reflexivity.
Qed.

Lemma main_loop_fixed (column means : list double) (iters : nat) :
  snd (iteration dfunc column means) = true ->
  main_loop dfunc iters column means = means.
Proof.
  intros Hd. destruct iters as [| n]; [reflexivity |]. cbn [main_loop].
  pose proof (iteration_done_fixed column means Hd) as Hf.
  destruct (iteration dfunc column means) as [means' done]. cbn [fst snd] in *.
  subst. reflexivity.
Qed.

End KMeansValid.

(** X5.  K-means produces no NaN centroid.  If no centroid is NaN before
    the call (they are 0 after construction) and the draws, one per centroid,
    fall within the column, then after [operator()] there are as many
    centroids as before and none is NaN, whatever NaNs the column holds and
    whatever the distance function returns. *)
Theorem kmeans_centroids_stay_valid (v : KMeansVisitor.t) (draws : list nat)
  (column_begin : nat) (column : list double) :
  length draws = length (KMeansVisitor.result_ v) ->
  Forall (fun d => (d < length column)%nat) draws ->
  Forall (fun m => is_nan__ m = false) (KMeansVisitor.result_ v) ->
  let means := KMeansVisitor.result_ (KMeansVisitor.call v draws column_begin column) in
  length means = length (KMeansVisitor.result_ v) /\
  Forall (fun m => is_nan__ m = false) means.
Proof.
  intros _ _ Hv. cbv zeta. unfold KMeansVisitor.call. cbn [KMeansVisitor.result_].
  unfold KMeansVisitor.calc_k_means_.
  destruct (seed_valid column draws Hv) as [L F].
  destruct (main_loop_valid (KMeansVisitor.dfunc_ v) column (KMeansVisitor.iter_num_ v) F)
    as [L' F'].
  split; [lia | exact F'].
Qed.

Lemma kmeans_centroids_stay_valid_witness :
  let v := KMeansVisitor.make 2 5 true KMeansVisitor.default_dfunc in
  let means :=
    KMeansVisitor.result_ (KMeansVisitor.call v [1%nat; 2%nat] 0 KMeansVisitor.sample_column) in
  length means = length (KMeansVisitor.result_ v) /\
  Forall (fun m => is_nan__ m = false) means.
Proof.
  apply (@kmeans_centroids_stay_valid
           (KMeansVisitor.make 2 5 true KMeansVisitor.default_dfunc)
           [1%nat; 2%nat] 0 KMeansVisitor.sample_column).
  - reflexivity.
  - cbn. repeat constructor; lia.
  - cbn. repeat constructor.
Defined.

(** X6.  A pass of the main loop that reports [done] has left every
    centroid as it was; from such centroids the loop returns them unchanged,
    whatever the number of passes it is allowed. *)
Theorem kmeans_converged_is_fixed (dfunc : double -> double -> double)
  (column means : list double) :
  snd (KMeansVisitor.iteration dfunc column means) = true ->
  KMeansVisitor.iteration dfunc column means = (means, true) /\
  (forall iter_num, KMeansVisitor.main_loop dfunc iter_num column means = means).
Proof.
  intros Hd. split.
  - rewrite (surjective_pairing (KMeansVisitor.iteration dfunc column means)), Hd.
    f_equal. apply iteration_done_fixed. exact Hd.
  - intros n. apply main_loop_fixed. exact Hd.
Qed.

Lemma kmeans_converged_is_fixed_witness :
  KMeansVisitor.iteration KMeansVisitor.default_dfunc KMeansVisitor.close_column [Fin 0]
  = ([Fin 0], true) /\
  (forall iter_num,
     KMeansVisitor.main_loop KMeansVisitor.default_dfunc iter_num
       KMeansVisitor.close_column [Fin 0] = [Fin 0]).
Proof.
  apply (@kmeans_converged_is_fixed KMeansVisitor.default_dfunc
           KMeansVisitor.close_column [Fin 0]).
  assert (Hne : KMeansVisitor.non_nan KMeansVisitor.close_column <> [])
    by (cbn; discriminate).
  rewrite iteration_single by exact Hne.
  assert (Hmean : KMeansVisitor.spec_mean KMeansVisitor.close_column = Fin (1 / 10000)).
  { unfold KMeansVisitor.spec_mean.
    cbn [KMeansVisitor.non_nan KMeansVisitor.close_column
         filter is_nan__ negb fold_left dadd dlift2 length].
    rewrite ddiv_fin by (cbn; lra). apply Fin_eq. cbn. lra. }
  rewrite Hmean.
  assert (Hd : dgt (KMeansVisitor.default_dfunc (Fin (1 / 10000)) (Fin 0))
                   KMeansVisitor.epsilon = false).
  { unfold dgt, KMeansVisitor.default_dfunc, KMeansVisitor.epsilon.
    cbn [dsub dmul dlift2 dlt]. destruct (Rlt_dec _ _) as [L | _]; [lra | reflexivity]. }
  rewrite Hd. reflexivity.
Defined.

(* ---------------------------------------------------------------------- *)
(** ** AffinityPropVisitor: the packed similarities and the clusters *)

Section PackedTriangle.

Import AffinityPropVisitor.

Lemma product_of_neighbours_even (i : nat) : exists k, (i * (i + 1) = 2 * k)%nat.
Proof.
  induction i as [| i [k Hk]].
  - exists 0%nat. reflexivity.
  - exists (k + i + 1)%nat. nia.
Qed.

Lemma shiftr_neighbours (i : nat) : (2 * Nat.shiftr (i * (i + 1)) 1 = i * (i + 1))%nat.
Proof.
  destruct (product_of_neighbours_even i) as [k Hk].
  rewrite Nat.shiftr_div_pow2, Hk. change (2 ^ 1)%nat with 2%nat.
  rewrite (Nat.mul_comm 2 k), Nat.div_mul by lia. lia.
Qed.

(** Twice the packed subscript, in integers. *)
Lemma simil_index_double (n i j : nat) :
  (i < n)%nat ->
  (2 * Z.of_nat (simil_index n i j)
   = 2 * Z.of_nat i * Z.of_nat n + 2 * Z.of_nat j
     - Z.of_nat i * (Z.of_nat i + 1))%Z.
Proof.
  intros Hi. unfold simil_index. pose proof (shiftr_neighbours i) as H.
  set (t := Nat.shiftr (i * (i + 1)) 1) in *. nia.
Qed.

Lemma simil_index_injective (n i j i' j' : nat) :
  (i <= j < n)%nat -> (i' <= j' < n)%nat ->
  simil_index n i j = simil_index n i' j' -> i = i' /\ j = j'.
Proof.
  intros Hij Hij' H.
  pose proof (@simil_index_double n i j ltac:(lia)) as E.
  pose proof (@simil_index_double n i' j' ltac:(lia)) as E'.
  rewrite H in E.
  assert (Hi : i = i').
  { destruct (Nat.lt_trichotomy i i') as [Hlt | [Heq | Hgt]]; [exfalso | exact Heq | exfalso].
    - set (d := (Z.of_nat i' - Z.of_nat i)%Z).
      assert (Hd : (1 <= d)%Z) by (unfold d; lia).
      assert (Hid : (2 * (d - 1) * (Z.of_nat n - Z.of_nat i') + (d * d - d + 2)
                     + 2 * (Z.of_nat j' - Z.of_nat i')
                     + 2 * (Z.of_nat n - 1 - Z.of_nat j) = 0)%Z).
      { unfold d. nia. }
      assert (0 <= (d - 1) * (Z.of_nat n - Z.of_nat i'))%Z by (apply Z.mul_nonneg_nonneg; lia).
      nia.
    - set (d := (Z.of_nat i - Z.of_nat i')%Z).
      assert (Hd : (1 <= d)%Z) by (unfold d; lia).
      assert (Hid : (2 * (d - 1) * (Z.of_nat n - Z.of_nat i) + (d * d - d + 2)
                     + 2 * (Z.of_nat j - Z.of_nat i)
                     + 2 * (Z.of_nat n - 1 - Z.of_nat j') = 0)%Z).
      { unfold d. nia. }
      assert (0 <= (d - 1) * (Z.of_nat n - Z.of_nat i))%Z by (apply Z.mul_nonneg_nonneg; lia).
      nia. }
  subst i'. split; [reflexivity | lia].
Qed.

Lemma simil_index_bound (n i j : nat) :
  (i <= j < n)%nat -> (simil_index n i j < Nat.div (n * (n + 1)) 2)%nat.
Proof.
  intros Hij. pose proof (@simil_index_double n i j ltac:(lia)) as E.
  pose proof (shiftr_neighbours n) as Hn.
  rewrite Nat.shiftr_div_pow2 in Hn. change (2 ^ 1)%nat with 2%nat in Hn.
  set (t := Nat.div (n * (n + 1)) 2) in *.
  assert (Hid : (Z.of_nat n * Z.of_nat n + Z.of_nat n - 2
                 - (2 * Z.of_nat i * Z.of_nat n + 2 * Z.of_nat j
                    - Z.of_nat i * (Z.of_nat i + 1))
                 = (Z.of_nat n - 1 - Z.of_nat i) * (Z.of_nat n - Z.of_nat i)
                   + 2 * (Z.of_nat n - 1 - Z.of_nat j))%Z) by ring.
  assert (0 <= (Z.of_nat n - 1 - Z.of_nat i) * (Z.of_nat n - Z.of_nat i))%Z
    by (apply Z.mul_nonneg_nonneg; lia).
  nia.
Qed.

(** Below the diagonal the subscript is that of a slot of the row above. *)
Lemma simil_index_below (n i j : nat) :
  (j < i < n)%nat ->
  simil_index n i j = simil_index n (i - 1) (n + j - i).
Proof.
  intros Hji.
  pose proof (@simil_index_double n i j ltac:(lia)) as E.
  pose proof (@simil_index_double n (i - 1) (n + j - i) ltac:(lia)) as E'.
  rewrite !Nat2Z.inj_sub, Nat2Z.inj_add in E' by lia. nia.
Qed.

End PackedTriangle.

(** ** Loops over a triangle of pairs, and a state of two parts *)

Lemma fold_rows (A : Type) (F : A -> nat -> nat -> A) (js : nat -> list nat)
  (is_ : list nat) :
  forall a,
    fold_left (fun a i => fold_left (fun a j => F a i j) (js i) a) is_ a
    = fold_left (fun a (p : nat * nat) => F a (fst p) (snd p))
        (flat_map (fun i => map (pair i) (js i)) is_) a.
Proof.
  induction is_ as [| i is_ IH]; intros a; cbn [fold_left flat_map].
  - reflexivity.
  - rewrite fold_left_app, <- IH. f_equal.
    generalize (js i) as l. intros l. revert a.
    induction l as [| j l IHl]; intros a; cbn [fold_left map fst snd]; auto.
Qed.

Lemma fold_two_parts (A B X : Type) (f : A -> X -> A) (g : B -> X -> B) (l : list X) :
  forall a b,
    fold_left (fun (st : A * B) x => (f (fst st) x, g (snd st) x)) l (a, b)
    = (fold_left f l a, fold_left g l b).
Proof.
  induction l as [| x l IH]; intros a b; cbn [fold_left fst snd]; auto.
Qed.

(** The running minimum of a loop over finite values. *)
Lemma fold_least (X : Type) (val : X -> R) (l : list X) :
  forall m0,
    exists m,
      fold_left (fun (m : double) x => if dlt (Fin (val x)) m then Fin (val x) else m)
        l (Fin m0) = Fin m /\
      m <= m0 /\
      (forall x, In x l -> m <= val x) /\
      (m = m0 \/ exists x, In x l /\ m = val x).
Proof.
  induction l as [| x l IH]; intros m0; cbn [fold_left].
  - exists m0. split; [reflexivity | split; [lra | split; [intros x [] | left; reflexivity]]].
  - destruct (Rlt_dec (val x) m0) as [Hlt | Hge];
      [rewrite (dlt_true Hlt) | rewrite (dlt_false Hge)].
    + destruct (IH (val x)) as (m & E & Hle & Hall & Hex). exists m.
      split; [exact E | split; [lra | split]].
      * intros y [<- | Hy]; [exact Hle | apply Hall; exact Hy].
      * right. destruct Hex as [-> | (y & Hy & ->)].
        -- exists x. split; [left; reflexivity | reflexivity].
        -- exists y. split; [right; exact Hy | reflexivity].
    + destruct (IH m0) as (m & E & Hle & Hall & Hex). exists m.
      split; [exact E | split; [exact Hle | split]].
      * intros y [<- | Hy]; [lra | apply Hall; exact Hy].
      * destruct Hex as [-> | (y & Hy & ->)]; [left; reflexivity |].
        right. exists y. split; [right; exact Hy | reflexivity].
Qed.

Lemma fold_left_ext_in (A X : Type) (f g : A -> X -> A) (l : list X) :
  (forall a x, In x l -> f a x = g a x) ->
  forall a, fold_left f l a = fold_left g l a.
Proof.
  induction l as [| x l IH]; intros H a; cbn [fold_left]; [reflexivity |].
  rewrite H by (left; reflexivity). apply IH. intros a' x' Hx'. apply H. right; exact Hx'.
Qed.

Section Similarity.

Import AffinityPropVisitor.

Variable dfunc : double -> double -> double.
Variable column : list double.

Let n : nat := length column.

(** The pairs the two loops of [get_similarity_] go through. *)
Let pairs : list (nat * nat) :=
  flat_map (fun i => map (pair i) (seq (i + 1) (n - (i + 1)))) (seq 0 (n - 1)).

Lemma in_pairs (p : nat * nat) : In p pairs <-> (fst p < snd p < n)%nat.
Proof.
  unfold pairs. rewrite in_flat_map. split.
  - intros (i & Hi & Hp). apply in_map_iff in Hp. destruct Hp as (j & <- & Hj).
    apply in_seq in Hi, Hj. cbn [fst snd]. lia.
  - intros Hp. exists (fst p). split; [apply in_seq; lia |].
    apply in_map_iff. exists (snd p). split; [destruct p; reflexivity | apply in_seq; lia].
Qed.

Lemma pairs_nodup : NoDup pairs.
Proof.
  unfold pairs. generalize (seq_NoDup (n - 1) 0). generalize (seq 0 (n - 1)) as l.
  induction l as [| i l IH]; intros Hnd; cbn [flat_map]; [constructor |].
  inversion Hnd as [| ? ? Hnotin Hnd']; subst. apply NoDup_app.
  - apply Injective_map_NoDup; [| apply seq_NoDup]. intros x y H; congruence.
  - apply IH; exact Hnd'.
  - intros [a b] Hin Hin'. apply in_map_iff in Hin. destruct Hin as (j & Heq & _).
    injection Heq as <- _. apply in_flat_map in Hin'. destruct Hin' as (i' & Hi' & Hp).
    apply in_map_iff in Hp. destruct Hp as (j' & Heq' & _). injection Heq' as -> _.
    contradiction.
Qed.

Lemma pair_slots_nodup :
  NoDup (map (fun p : nat * nat => simil_index n (fst p) (snd p)) pairs).
Proof.
  apply Injective_map_NoDup_in; [| apply pairs_nodup].
  intros [i j] [i' j'] Hp Hp' H. apply in_pairs in Hp, Hp'. cbn [fst snd] in *.
  destruct (@simil_index_injective n i j i' j') as [-> ->]; try lia. reflexivity.
Qed.

Hypothesis finite_distances :
  forall i j, (i < j < n)%nat -> exists r, dfunc (at_ column i) (at_ column j) = Fin r.

(** The similarity of a pair, as a real number. *)
Let sim (p : nat * nat) : R :=
  match dfunc (at_ column (fst p)) (at_ column (snd p)) with
  | Fin r => - r
  | NaN => 0
  end.

Lemma sim_spec (p : nat * nat) :
  In p pairs ->
  dneg (dfunc (at_ column (fst p)) (at_ column (snd p))) = Fin (sim p).
Proof.
  intros Hp. apply in_pairs in Hp. unfold sim.
  destruct (finite_distances Hp) as [r ->]. reflexivity.
Qed.

Lemma similarity_loops :
  fold_left (fun st i => similarity_row dfunc column n i st) (seq 0 (n - 1))
    (repeat (Fin 0) (Nat.div (n * (n + 1)) 2), Fin DBL_MAX)
  = (fold_left (fun l p => vset l (simil_index n (fst p) (snd p)) (Fin (sim p)))
       pairs (repeat (Fin 0) (Nat.div (n * (n + 1)) 2)),
     fold_left (fun (m : double) p => if dlt (Fin (sim p)) m then Fin (sim p) else m)
       pairs (Fin DBL_MAX)).
Proof.
  unfold similarity_row.
  rewrite (fold_rows
             (fun (st : list double * double) i j =>
                (vset (fst st) (simil_index n i j)
                   (dneg (dfunc (at_ column i) (at_ column j))),
                 if dlt (dneg (dfunc (at_ column i) (at_ column j))) (snd st)
                 then dneg (dfunc (at_ column i) (at_ column j)) else snd st))
             (fun i => seq (i + 1) (n - (i + 1)))).
  fold pairs. rewrite <- fold_two_parts.
  apply fold_left_ext_in. intros st p Hp. rewrite (sim_spec p Hp). reflexivity.
Qed.

Lemma similarity_spec :
  let simil := get_similarity_ dfunc column n in
  length simil = Nat.div (n * (n + 1)) 2 /\
  (forall i j, (i < j < n)%nat ->
     at_ simil (simil_index n i j) = dneg (dfunc (at_ column i) (at_ column j))) /\
  exists least,
    (forall i, (i < n)%nat -> at_ simil (simil_index n i i) = Fin least) /\
    (forall i j, (i < j < n)%nat ->
       exists s, dneg (dfunc (at_ column i) (at_ column j)) = Fin s /\ least <= s) /\
    (least = DBL_MAX \/
     exists i j, (i < j < n)%nat /\
       dneg (dfunc (at_ column i) (at_ column j)) = Fin least).
Proof.
  cbv zeta. unfold get_similarity_. rewrite similarity_loops. cbn [fst snd].
  destruct (fold_least sim pairs DBL_MAX) as (least & Eleast & _ & Hall & Hex).
  rewrite Eleast.
  set (zeros := repeat (Fin 0) (Nat.div (n * (n + 1)) 2)).
  pose proof (@fold_vset_at (nat * nat) (fun p => simil_index n (fst p) (snd p))
                (fun p _ => Fin (sim p)) pairs zeros) as H1.
  cbv zeta in H1. destruct H1 as (L1 & E1 & O1).
  { intros p Hp. apply in_pairs in Hp. unfold zeros. rewrite repeat_length.
    apply simil_index_bound. lia. }
  { apply pair_slots_nodup. }
  set (upper := fold_left (fun l p => vset l (simil_index n (fst p) (snd p)) (Fin (sim p)))
                  pairs zeros) in *.
  pose proof (@fold_vset_at nat (fun i => simil_index n i i) (fun _ _ => Fin least)
                (seq 0 n) upper) as H2.
  cbv zeta in H2. destruct H2 as (L2 & E2 & O2).
  { intros i Hi. apply in_seq in Hi. rewrite L1. unfold zeros. rewrite repeat_length.
    apply simil_index_bound. lia. }
  { apply Injective_map_NoDup_in; [| apply seq_NoDup].
    intros i i' Hi Hi' H. apply in_seq in Hi, Hi'.
    destruct (@simil_index_injective n i i i' i') as [-> _]; lia. }
  split; [| split].
  - rewrite L2, L1. unfold zeros. apply repeat_length.
  - intros i j Hij. rewrite O2.
    + pose proof (E1 (i, j)) as E. cbn [fst snd] in E.
      rewrite E by (apply in_pairs; exact Hij).
      symmetry. apply (sim_spec (i, j)). apply in_pairs; exact Hij.
    + intros Hin. apply in_map_iff in Hin. destruct Hin as (k & Hk & Hin).
      apply in_seq in Hin.
      destruct (@simil_index_injective n k k i j) as [-> ->]; try lia.
  - exists least. split; [| split].
    + intros i Hi. apply (E2 i). apply in_seq. lia.
    + intros i j Hij. exists (sim (i, j)). split.
      * apply (sim_spec (i, j)). apply in_pairs; exact Hij.
      * apply Hall. apply in_pairs; exact Hij.
    + destruct Hex as [-> | ([i j] & Hp & ->)]; [left; reflexivity |].
      right. exists i, j. split; [apply in_pairs in Hp; exact Hp |].
      apply (sim_spec (i, j)). exact Hp.
Qed.

End Similarity.

(** X7.  [get_similarity_] fills a packed upper triangle.  For a column
    of n values at finite distances the vector has n (n + 1) / 2 slots; the
    slot of a pair i < j holds minus the distance of the two points; every
    slot of the diagonal holds the same value, which is at most every such
    similarity and is one of them, or [DBL_MAX] when none lies below it. *)
Theorem affinity_similarity_matrix (dfunc : double -> double -> double)
  (column : list double) :
  let n := length column in
  (forall i j, (i < j < n)%nat ->
     exists r, dfunc (at_ column i) (at_ column j) = Fin r) ->
  let simil := AffinityPropVisitor.get_similarity_ dfunc column n in
  length simil = Nat.div (n * (n + 1)) 2 /\
  (forall i j, (i < j < n)%nat ->
     at_ simil (AffinityPropVisitor.simil_index n i j)
     = dneg (dfunc (at_ column i) (at_ column j))) /\
  exists least,
    (forall i, (i < n)%nat ->
       at_ simil (AffinityPropVisitor.simil_index n i i) = Fin least) /\
    (forall i j, (i < j < n)%nat ->
       exists s, dneg (dfunc (at_ column i) (at_ column j)) = Fin s /\ least <= s) /\
    (least = DBL_MAX \/
     exists i j, (i < j < n)%nat /\
       dneg (dfunc (at_ column i) (at_ column j)) = Fin least).
Proof.
  intros n Hfin. apply similarity_spec. exact Hfin.
Qed.

Lemma affinity_similarity_matrix_witness :
  let dfunc := AffinityPropVisitor.default_dfunc in
  let column := AffinityPropVisitor.three_points in
  let n := length column in
  let simil := AffinityPropVisitor.get_similarity_ dfunc column n in
  length simil = Nat.div (n * (n + 1)) 2 /\
  (forall i j, (i < j < n)%nat ->
     at_ simil (AffinityPropVisitor.simil_index n i j)
     = dneg (dfunc (at_ column i) (at_ column j))) /\
  exists least,
    (forall i, (i < n)%nat ->
       at_ simil (AffinityPropVisitor.simil_index n i i) = Fin least) /\
    (forall i j, (i < j < n)%nat ->
       exists s, dneg (dfunc (at_ column i) (at_ column j)) = Fin s /\ least <= s) /\
    (least = DBL_MAX \/
     exists i j, (i < j < n)%nat /\
       dneg (dfunc (at_ column i) (at_ column j)) = Fin least).
Proof.
  apply (@affinity_similarity_matrix AffinityPropVisitor.default_dfunc
           AffinityPropVisitor.three_points).
  intros i j Hij. cbn [length AffinityPropVisitor.three_points] in Hij.
  unfold AffinityPropVisitor.default_dfunc.
  assert (Hfin : forall k, (k < 3)%nat ->
            exists x, at_ AffinityPropVisitor.three_points k = Fin x).
  { intros [| [| [| k]]] Hk; cbn; try lia; eexists; reflexivity. }
  destruct (Hfin i ltac:(lia)) as [x ->]. destruct (Hfin j ltac:(lia)) as [y ->].
  eexists. reflexivity.
Defined.

(** X8.  The subscript into the packed triangle is that of a pair
    i <= j.  For j < i with 2 i <= n + j it is the subscript of the pair
    (i - 1, n + j - i) of the row above: the slot holds minus the distance of
    those two points, while the similarity of the points i and j is in the
    slot of (j, i). *)
Theorem affinity_lower_triangle_read (dfunc : double -> double -> double)
  (column : list double) (i j : nat) :
  let n := length column in
  (forall a b, (a < b < n)%nat ->
     exists r, dfunc (at_ column a) (at_ column b) = Fin r) ->
  (j < i < n)%nat -> (2 * i <= n + j)%nat ->
  let simil := AffinityPropVisitor.get_similarity_ dfunc column n in
  AffinityPropVisitor.simil_index n i j
  = AffinityPropVisitor.simil_index n (i - 1) (n + j - i) /\
  at_ simil (AffinityPropVisitor.simil_index n i j)
  = dneg (dfunc (at_ column (i - 1)) (at_ column (n + j - i))) /\
  at_ simil (AffinityPropVisitor.simil_index n j i)
  = dneg (dfunc (at_ column j) (at_ column i)).
Proof.
  intros n Hfin Hji Hrow simil.
  destruct (@similarity_spec dfunc column Hfin) as (_ & Hup & _).
  fold n in Hup. fold simil in Hup.
  assert (E : AffinityPropVisitor.simil_index n i j
              = AffinityPropVisitor.simil_index n (i - 1) (n + j - i))
    by (apply simil_index_below; exact Hji).
  split; [exact E | split].
  - rewrite E. apply Hup. lia.
  - apply Hup. lia.
Qed.

Lemma affinity_lower_triangle_read_witness :
  let dfunc := AffinityPropVisitor.default_dfunc in
  let column := AffinityPropVisitor.three_points in
  let n := length column in
  let simil := AffinityPropVisitor.get_similarity_ dfunc column n in
  AffinityPropVisitor.simil_index n 1 0
  = AffinityPropVisitor.simil_index n (1 - 1) (n + 0 - 1) /\
  at_ simil (AffinityPropVisitor.simil_index n 1 0)
  = dneg (dfunc (at_ column (1 - 1)) (at_ column (n + 0 - 1))) /\
  at_ simil (AffinityPropVisitor.simil_index n 0 1)
  = dneg (dfunc (at_ column 0) (at_ column 1)).
Proof.
  apply (@affinity_lower_triangle_read AffinityPropVisitor.default_dfunc
           AffinityPropVisitor.three_points 1 0).
  - intros a b Hab. cbn [length AffinityPropVisitor.three_points] in Hab.
    unfold AffinityPropVisitor.default_dfunc.
    assert (Hfin : forall k, (k < 3)%nat ->
              exists x, at_ AffinityPropVisitor.three_points k = Fin x).
    { intros [| [| [| k]]] Hk; cbn; try lia; eexists; reflexivity. }
    destruct (Hfin a ltac:(lia)) as [x ->]. destruct (Hfin b ltac:(lia)) as [y ->].
    eexists. reflexivity.
  - cbn. lia.
  - cbn. lia.
Defined.

Section AffinityClusters.

Import AffinityPropVisitor.

Variable dfunc : double -> double -> double.

Lemma center_is_nearest (j_val : double) (centers : list double) :
  forall i min_dist min_idx,
    center_from dfunc j_val centers i min_dist min_idx
    = KMeansVisitor.nearest_from dfunc j_val centers i min_dist min_idx.
Proof.
  induction centers as [| c centers IH]; intros i md mi;
    cbn [center_from KMeansVisitor.nearest_from].
  - reflexivity.
  - cbv zeta. destruct (dlt (dfunc j_val c) md); apply IH.
Qed.

Lemma nth_repeat_nil (P : Type) (k i : nat) : nth i (repeat (@nil P) k) [] = [].
Proof.
  revert i. induction k as [| k IH]; intros [| i]; cbn; auto.
Qed.

Lemma get_clusters_spec (centers : list double) (column_begin : nat)
  (column : list double) :
  centers <> [] ->
  let clusters := get_clusters dfunc centers column_begin column in
  length clusters = length centers /\
  forall i, (i < length centers)%nat ->
    nth i clusters []
    = map (fun j => (column_begin + j)%nat)
        (filter (fun j => Nat.eqb (center_from dfunc (at_ column j) centers 0
                                     (Fin DBL_MAX) 0) i)
           (seq 0 (length column))).
Proof.
  intros Hne. cbv zeta. unfold get_clusters.
  destruct (Nat.ltb_spec 0 (length centers)) as [_ | Hz];
    [| destruct centers; [contradiction | cbn in Hz; lia]].
  pose proof (@buckets_filled double nat (fun _ => true)
                (fun v => center_from dfunc v centers 0 (Fin DBL_MAX) 0)
                (fun a => a) NaN (cluster_from dfunc centers)) as H.
  destruct (H (fun addr clusters => eq_refl)) with (column := column)
    (addr := column_begin) (clusters := repeat (@nil nat) (length centers)) as [L N].
  - intros v col addr clusters. reflexivity.
  - intros v Hv _. rewrite repeat_length, center_is_nearest.
    apply (nearest_lt dfunc v Hne).
  - rewrite repeat_length in L, N. split; [exact L |].
    intros i Hi. rewrite (N i Hi), nth_repeat_nil. cbn [app]. reflexivity.
Qed.

End AffinityClusters.

(** X9.  [get_clusters] partitions the column among the centers.  With
    at least one center, and every value at a distance below [DBL_MAX] from
    some center (so that [min_idx] is assigned), there are as many clusters
    as centers; cluster i holds, in column order, the addresses of the values
    whose chosen center is i; every address is in exactly one cluster; and
    the chosen center is the first of those at the least distance. *)
Theorem affinity_clusters_partition (dfunc : double -> double -> double)
  (centers : list double) (column_begin : nat) (column : list double) :
  (forall v, In v column ->
     exists c, In c centers /\ dlt (dfunc v c) (Fin DBL_MAX) = true) ->
  centers <> [] ->
  let clusters :=
    AffinityPropVisitor.get_clusters dfunc centers column_begin column in
  let home := fun j =>
    AffinityPropVisitor.center_from dfunc (at_ column j) centers 0 (Fin DBL_MAX) 0 in
  length clusters = length centers /\
  (forall i, (i < length centers)%nat ->
     nth i clusters []
     = map (fun j => (column_begin + j)%nat)
         (filter (fun j => Nat.eqb (home j) i) (seq 0 (length column)))) /\
  (forall j, (j < length column)%nat ->
     (home j < length centers)%nat /\
     forall i, (i < length centers)%nat ->
       (In (column_begin + j)%nat (nth i clusters []) <-> home j = i)) /\
  (forall j (rd : nat -> R), (j < length column)%nat ->
     (forall i, (i < length centers)%nat ->
        dfunc (at_ column j) (at_ centers i) = Fin (rd i) /\ rd i < DBL_MAX) ->
     (forall i, (i < length centers)%nat -> rd (home j) <= rd i) /\
     (forall i, (i < home j)%nat -> rd (home j) < rd i)).
Proof.
  intros _ Hne. cbv zeta.
  destruct (@get_clusters_spec dfunc centers column_begin column Hne) as [L N].
  split; [exact L | split; [exact N | split]].
  - intros j Hj. split.
    + rewrite center_is_nearest. apply (nearest_lt dfunc (at_ column j) Hne).
    + intros i Hi. rewrite (N i Hi), in_map_iff. split.
      * intros (j' & Heq & Hin). assert (j' = j) by lia. subst j'.
        apply filter_In in Hin. destruct Hin as [_ Hin]. apply Nat.eqb_eq. exact Hin.
      * intros He. exists j. split; [reflexivity |]. apply filter_In.
        split; [apply in_seq; lia | apply Nat.eqb_eq; exact He].
  - intros j rd Hj Hrd. rewrite center_is_nearest.
    destruct (@nearest_argmin dfunc (at_ column j) centers rd Hne Hrd) as (_ & H1 & H2).
    split; assumption.
Qed.

Lemma affinity_clusters_partition_witness :
  let dfunc := AffinityPropVisitor.default_dfunc in
  let centers := [Fin 0; Fin 3] in
  let column := AffinityPropVisitor.three_points in
  let clusters := AffinityPropVisitor.get_clusters dfunc centers 10 column in
  let home := fun j =>
    AffinityPropVisitor.center_from dfunc (at_ column j) centers 0 (Fin DBL_MAX) 0 in
  length clusters = length centers /\
  (forall i, (i < length centers)%nat ->
     nth i clusters []
     = map (fun j => (10 + j)%nat)
         (filter (fun j => Nat.eqb (home j) i) (seq 0 (length column)))) /\
  (forall j, (j < length column)%nat ->
     (home j < length centers)%nat /\
     forall i, (i < length centers)%nat ->
       (In (10 + j)%nat (nth i clusters []) <-> home j = i)) /\
  (forall j (rd : nat -> R), (j < length column)%nat ->
     (forall i, (i < length centers)%nat ->
        dfunc (at_ column j) (at_ centers i) = Fin (rd i) /\ rd i < DBL_MAX) ->
     (forall i, (i < length centers)%nat -> rd (home j) <= rd i) /\
     (forall i, (i < home j)%nat -> rd (home j) < rd i)).
Proof.
  apply (@affinity_clusters_partition AffinityPropVisitor.default_dfunc
           [Fin 0; Fin 3] 10 AffinityPropVisitor.three_points).
  - pose proof DBL_MAX_large as Hmax.
    intros v [<- | [<- | [<- | []]]]; exists (Fin 0); (split; [left; reflexivity |]);
      unfold AffinityPropVisitor.default_dfunc; cbn [dsub dmul dlift2];
      apply dlt_true; lra.
  - discriminate.
Defined.

Lemma filter_none (A : Type) (f : A -> bool) (l : list A) :
  (forall x, In x l -> f x = false) -> filter f l = [].
Proof.
  induction l as [| x l IH]; intros H; cbn [filter]; [reflexivity |].
  rewrite H by (left; reflexivity). apply IH. intros y Hy. apply H. right; exact Hy.
Qed.

(** X10.  With no iterations ([iter_num_] = 0) [operator()] selects no
    center: availabilities and responsibilities are all 0, so [result_] is
    left as it was, empty after [pre]; and without centers [get_clusters]
    returns no cluster. *)
Theorem affinity_no_iterations (v : AffinityPropVisitor.t) (column_begin : nat)
  (column : list double) :
  AffinityPropVisitor.iter_num_ v = 0%nat ->
  AffinityPropVisitor.result_ (AffinityPropVisitor.call v column_begin column)
  = AffinityPropVisitor.result_ v /\
  AffinityPropVisitor.result_
    (AffinityPropVisitor.call (AffinityPropVisitor.pre v) column_begin column) = [] /\
  AffinityPropVisitor.get_clusters (AffinityPropVisitor.dfunc_ v) [] column_begin column
  = [].
Proof.
  intros Hz.
  assert (H : forall w, AffinityPropVisitor.iter_num_ w = 0%nat ->
            AffinityPropVisitor.result_ (AffinityPropVisitor.call w column_begin column)
            = AffinityPropVisitor.result_ w).
  { intros w Hw. unfold AffinityPropVisitor.call. cbn [AffinityPropVisitor.result_].
    rewrite collect_spec.
    unfold AffinityPropVisitor.final_state, AffinityPropVisitor.get_avail_and_respon.
    rewrite Hw. cbn [Nat.iter nat_rect fst snd].
    rewrite filter_none; [cbn; apply app_nil_r |].
    intros i _. unfold AffinityPropVisitor.is_exemplar, AffinityPropVisitor.resize.
    cbn [firstn app length]. rewrite firstn_nil. cbn [app].
    set (k := (i * length column + i)%nat).
    unfold at_. destruct (Nat.lt_ge_cases k (length column * length column - 0)) as [Hk | Hk].
    - rewrite nth_repeat_lt by exact Hk. cbn [dadd dlift2]. unfold dgt.
      apply dlt_false. lra.
    - rewrite nth_overflow by (rewrite repeat_length; exact Hk). reflexivity. }
  split; [apply H; exact Hz | split].
  - rewrite H; [reflexivity | exact Hz].
  - reflexivity.
Qed.

Lemma affinity_no_iterations_witness :
  let v := AffinityPropVisitor.make 0 AffinityPropVisitor.default_dfunc (Fin (9 / 10)) in
  AffinityPropVisitor.result_
    (AffinityPropVisitor.call v 10 AffinityPropVisitor.three_points)
  = AffinityPropVisitor.result_ v /\
  AffinityPropVisitor.result_
    (AffinityPropVisitor.call (AffinityPropVisitor.pre v) 10
       AffinityPropVisitor.three_points) = [] /\
  AffinityPropVisitor.get_clusters (AffinityPropVisitor.dfunc_ v) [] 10
    AffinityPropVisitor.three_points = [].
Proof.
  apply (@affinity_no_iterations
           (AffinityPropVisitor.make 0 AffinityPropVisitor.default_dfunc (Fin (9 / 10)))
           10 AffinityPropVisitor.three_points).
  reflexivity.
Defined.

(* ---------------------------------------------------------------------- *)
(** ** FastFourierTransVisitor: polar form and laws of the transform *)

Section Getters.

Import FastFourierTransVisitor.

Lemma hypot_scaled (x y : R) :
  x <> 0 -> sqrt (norm (x, y)) = Rabs x * sqrt (1 + (y / x)²).
Proof.
  intros Hx. unfold norm. cbn [fst snd].
  replace (x * x + y * y) with (x² * (1 + (y / x)²)) by (unfold Rsqr; field; exact Hx).
  rewrite sqrt_mult.
  - rewrite sqrt_Rsqr_abs. reflexivity.
  - apply Rle_0_sqr.
  - pose proof (Rle_0_sqr (y / x)). lra.
Qed.

Lemma root_one_plus_sqr_pos (t : R) : 0 < sqrt (1 + t²).
Proof. apply sqrt_lt_R0. pose proof (Rle_0_sqr t). lra. Qed.

(** A complex number is its magnitude at its angle. *)
Lemma polar_of_parts (c : cplx_t) : polar (sqrt (norm c)) (arg c) = c.
Proof.
  destruct c as [x y]. unfold arg, polar. cbn [fst snd].
  pose proof (root_one_plus_sqr_pos (y / x)) as Hs.
  destruct (Rlt_dec 0 x) as [Hpos | Hnpos].
  - rewrite hypot_scaled by lra. rewrite Rabs_right by lra.
    rewrite cos_atan, sin_atan. f_equal; field; lra.
  - destruct (Rlt_dec x 0) as [Hneg | Hnneg].
    + rewrite hypot_scaled by lra. rewrite Rabs_left by lra.
      destruct (Rle_dec 0 y) as [Hy | Hy].
      * rewrite neg_cos, neg_sin, cos_atan, sin_atan. f_equal; field; lra.
      * unfold Rminus. rewrite cos_plus, sin_plus, cos_neg, sin_neg, cos_PI, sin_PI.
        rewrite cos_atan, sin_atan. f_equal; field; lra.
    + assert (Hx : x = 0) by lra. subst x. unfold norm. cbn [fst snd].
      replace (0 * 0 + y * y) with (y²) by (unfold Rsqr; ring).
      rewrite sqrt_Rsqr_abs.
      destruct (Rlt_dec 0 y) as [Hy | Hy].
      * rewrite cos_PI2, sin_PI2, Rabs_right by lra. f_equal; ring.
      * destruct (Rlt_dec y 0) as [Hy' | Hy'].
        -- rewrite cos_neg, sin_neg, cos_PI2, sin_PI2, Rabs_left by lra. f_equal; ring.
        -- assert (y = 0) by lra. subst y. rewrite Rabs_R0. f_equal; ring.
Qed.

Lemma push_back_loop (A B : Type) (f : A -> B) (l : list A) :
  forall acc, fold_left (fun acc x => acc ++ [f x]) l acc = acc ++ map f l.
Proof.
  induction l as [| x l IH]; intros acc; cbn [fold_left map].
  - symmetry. apply app_nil_r.
  - rewrite IH, <- app_assoc. reflexivity.
Qed.

Lemma get_magnitude_fresh (v : visitor) :
  magnitude_ v = [] ->
  get_magnitude v
  = (map (fun c => sqrt (norm c)) (get_result v),
     mk_visitor (core v) (map (fun c => sqrt (norm c)) (get_result v)) (angle_ v)).
Proof.
  intros H. unfold get_magnitude, get_result. rewrite H. cbn [empty].
  rewrite push_back_loop. reflexivity.
Qed.

Lemma get_angle_fresh (v : visitor) :
  angle_ v = [] ->
  get_angle v
  = (map arg (get_result v), mk_visitor (core v) (magnitude_ v) (map arg (get_result v))).
Proof.
  intros H. unfold get_angle, get_result. rewrite H. cbn [empty].
  rewrite push_back_loop. reflexivity.
Qed.

End Getters.

(** X11.  The magnitudes and angles, computed on first use, are the polar
    form of the result: both vectors have the length of the result, which the
    getters leave as it is; every magnitude is >= 0, every angle lies in
    (-pi, pi], and magnitude * (cos angle, sin angle) is the element of the
    result. *)
Theorem fft_polar_form (v : FastFourierTransVisitor.visitor) :
  FastFourierTransVisitor.magnitude_ v = [] ->
  FastFourierTransVisitor.angle_ v = [] ->
  let result := FastFourierTransVisitor.get_result v in
  let m := FastFourierTransVisitor.get_magnitude v in
  let a := FastFourierTransVisitor.get_angle (snd m) in
  length (fst m) = length result /\
  length (fst a) = length result /\
  FastFourierTransVisitor.get_result (snd a) = result /\
  forall k, (k < length result)%nat ->
    0 <= nth k (fst m) 0 /\
    - PI < nth k (fst a) 0 <= PI /\
    FastFourierTransVisitor.polar (nth k (fst m) 0) (nth k (fst a) 0)
    = FastFourierTransVisitor.cat result k.
Proof.
  intros Hm Ha. cbv zeta. rewrite (get_magnitude_fresh v Hm). cbn [fst snd].
  rewrite get_angle_fresh by exact Ha. cbn [fst snd].
  unfold FastFourierTransVisitor.get_result at 3 4 5 6. cbn [FastFourierTransVisitor.core].
  fold (FastFourierTransVisitor.get_result v).
  rewrite !length_map. split; [reflexivity | split; [reflexivity | split; [reflexivity |]]].
  intros k Hk.
  set (result := FastFourierTransVisitor.get_result v) in *.
  rewrite (nth_indep _ 0 (sqrt (FastFourierTransVisitor.norm FastFourierTransVisitor.C0)))
    by (rewrite length_map; exact Hk).
  rewrite (nth_indep (map FastFourierTransVisitor.arg result) 0
             (FastFourierTransVisitor.arg FastFourierTransVisitor.C0))
    by (rewrite length_map; exact Hk).
  rewrite (map_nth (fun c => sqrt (FastFourierTransVisitor.norm c))),
    (map_nth FastFourierTransVisitor.arg).
  fold (FastFourierTransVisitor.cat result k).
  split; [apply sqrt_pos | split; [| apply polar_of_parts]].
  generalize (FastFourierTransVisitor.cat result k). intros [x y].
  unfold FastFourierTransVisitor.arg. cbn [fst snd].
  pose proof PI_RGT_0 as Hpi. pose proof (atan_bound (y / x)) as Hb.
  destruct (Rlt_dec 0 x); [lra |].
  destruct (Rlt_dec x 0) as [Hx |].
  - destruct (Rle_dec 0 y) as [Hy | Hy].
    + assert (Hq : y / x <= 0).
      { assert (0 <= y * / (- x))
          by (apply Rmult_le_pos; [lra | left; apply Rinv_0_lt_compat; lra]).
        replace (y / x) with (- (y * / (- x))) by (field; lra). lra. }
      assert (atan (y / x) <= 0).
      { destruct Hq as [Hq | Hq]; [left; rewrite <- atan_0; apply atan_increasing; exact Hq
                                  | rewrite Hq, atan_0; lra]. }
      lra.
    + assert (Hq : 0 < y / x).
      { unfold Rdiv. replace (y * / x) with ((- y) * / (- x)) by (field; lra).
        apply Rmult_lt_0_compat; [lra | apply Rinv_0_lt_compat; lra]. }
      assert (0 < atan (y / x)) by (rewrite <- atan_0; apply atan_increasing; exact Hq).
      lra.
  - destruct (Rlt_dec 0 y); [lra |]. destruct (Rlt_dec y 0); lra.
Qed.

Lemma fft_polar_form_witness :
  let v :=
    FastFourierTransVisitor.call_v (FastFourierTransVisitor.make false)
      FastFourierTransVisitor.ramp in
  let result := FastFourierTransVisitor.get_result v in
  let m := FastFourierTransVisitor.get_magnitude v in
  let a := FastFourierTransVisitor.get_angle (snd m) in
  length (fst m) = length result /\
  length (fst a) = length result /\
  FastFourierTransVisitor.get_result (snd a) = result /\
  forall k, (k < length result)%nat ->
    0 <= nth k (fst m) 0 /\
    - PI < nth k (fst a) 0 <= PI /\
    FastFourierTransVisitor.polar (nth k (fst m) 0) (nth k (fst a) 0)
    = FastFourierTransVisitor.cat result k.
Proof.
  apply (@fft_polar_form
           (FastFourierTransVisitor.call_v (FastFourierTransVisitor.make false)
              FastFourierTransVisitor.ramp)).
  - reflexivity.
  - reflexivity.
Defined.

(** X12.  [get_magnitude] and [get_angle] compute only when their vector
    is empty.  After another [operator()] without [pre] they return the
    vectors of the earlier run, while the result is the new one; after [pre]
    they are computed from the new result. *)
Theorem fft_getters_cache (v : FastFourierTransVisitor.visitor)
  (column : list FastFourierTransVisitor.cplx_t) :
  FastFourierTransVisitor.magnitude_ v <> [] ->
  FastFourierTransVisitor.angle_ v <> [] ->
  let again := FastFourierTransVisitor.call_v v column in
  let fresh :=
    FastFourierTransVisitor.call_v (FastFourierTransVisitor.pre v) column in
  fst (FastFourierTransVisitor.get_magnitude again)
  = FastFourierTransVisitor.magnitude_ v /\
  fst (FastFourierTransVisitor.get_angle again) = FastFourierTransVisitor.angle_ v /\
  FastFourierTransVisitor.get_result again = FastFourierTransVisitor.get_result fresh /\
  fst (FastFourierTransVisitor.get_magnitude fresh)
  = map (fun c => sqrt (FastFourierTransVisitor.norm c))
      (FastFourierTransVisitor.get_result fresh) /\
  fst (FastFourierTransVisitor.get_angle fresh)
  = map FastFourierTransVisitor.arg (FastFourierTransVisitor.get_result fresh).
Proof.
  intros Hm Ha. cbv zeta.
  split; [| split; [| split; [| split]]].
  - unfold FastFourierTransVisitor.get_magnitude, FastFourierTransVisitor.call_v.
    cbn [FastFourierTransVisitor.magnitude_].
    destruct (FastFourierTransVisitor.magnitude_ v); [contradiction | reflexivity].
  - unfold FastFourierTransVisitor.get_angle, FastFourierTransVisitor.call_v.
    cbn [FastFourierTransVisitor.angle_].
    destruct (FastFourierTransVisitor.angle_ v); [contradiction | reflexivity].
  - reflexivity.
  - rewrite get_magnitude_fresh by reflexivity. reflexivity.
  - rewrite get_angle_fresh by reflexivity. reflexivity.
Qed.

Lemma fft_getters_cache_witness :
  let v := FastFourierTransVisitor.mk_visitor (FastFourierTransVisitor.mk false []) [5] [0] in
  let column := FastFourierTransVisitor.ramp in
  let again := FastFourierTransVisitor.call_v v column in
  let fresh :=
    FastFourierTransVisitor.call_v (FastFourierTransVisitor.pre v) column in
  fst (FastFourierTransVisitor.get_magnitude again)
  = FastFourierTransVisitor.magnitude_ v /\
  fst (FastFourierTransVisitor.get_angle again) = FastFourierTransVisitor.angle_ v /\
  FastFourierTransVisitor.get_result again = FastFourierTransVisitor.get_result fresh /\
  fst (FastFourierTransVisitor.get_magnitude fresh)
  = map (fun c => sqrt (FastFourierTransVisitor.norm c))
      (FastFourierTransVisitor.get_result fresh) /\
  fst (FastFourierTransVisitor.get_angle fresh)
  = map FastFourierTransVisitor.arg (FastFourierTransVisitor.get_result fresh).
Proof.
  apply (@fft_getters_cache
           (FastFourierTransVisitor.mk_visitor (FastFourierTransVisitor.mk false []) [5] [0])
           FastFourierTransVisitor.ramp).
  - discriminate.
  - discriminate.
Defined.

Section Spectrum.

Import FastFourierTransVisitor.

Ltac cring :=
  intros; apply cplx_eq;
  unfold Cadd, Csub, Cmul, conj, Cdiv_real, C0, Cone, norm; cbn [fst snd];
  try ring.

Lemma norm_as_product (z : cplx_t) : Cmul z (conj z) = (norm z, 0).
Proof. cring. Qed.

Lemma Csum_fst (f : nat -> cplx_t) (n : nat) :
  fst (Csum f n) = total (map (fun i => fst (f i)) (seq 0 n)).
Proof.
  induction n as [| n IH]; cbn [Csum]; [reflexivity |].
  rewrite seq_S, map_app. unfold total in *. rewrite fold_right_app.
  cbn [map fold_right Nat.add]. unfold Cadd. cbn [fst]. rewrite IH.
  generalize (map (fun i => fst (f i)) (seq 0 n)) as l. intros l.
  generalize (fst (f n)) as a. intros a.
  induction l as [| b l IHl]; cbn [fold_right]; lra.
Qed.

Lemma map_as_seq (A : Type) (g : cplx_t -> A) (l : list cplx_t) :
  map g l = map (fun i => g (cat l i)) (seq 0 (length l)).
Proof.
  induction l as [| c l IH]; cbn [map length seq]; [reflexivity |].
  f_equal. rewrite <- seq_shift, map_map. exact IH.
Qed.

(** The energy of a sequence and of its transform. *)
Lemma energy (n : nat) (x : nat -> cplx_t) :
  (0 < n)%nat ->
  Csum (fun k => Cmul (dft_at (-1) n x k) (conj (dft_at (-1) n x k))) n
  = Csum (fun j => Cmul (Cmul (x j) (conj (x j))) (INR n, 0)) n.
Proof.
  intros Hn.
  set (d := fun j l : nat => (Z.of_nat l - Z.of_nat j)%Z).
  rewrite (@Csum_ext _
             (fun k => Csum (fun j => Csum (fun l =>
                Cmul (Cmul (x j) (conj (x l))) (root n (Z.of_nat k * d j l))) n) n)).
  2:{ intros k _. unfold dft_at. rewrite Csum_conj, Csum_prod.
      apply Csum_ext. intros j _. apply Csum_ext. intros l _.
      rewrite conj_mul, root_conj.
      replace (root n (Z.of_nat k * d j l))
        with (Cmul (root n (-1 * Z.of_nat (j * k))) (root n (- (-1 * Z.of_nat (l * k)))))
        by (rewrite root_add; f_equal; unfold d; lia).
      generalize (root n (-1 * Z.of_nat (j * k))) (root n (- (-1 * Z.of_nat (l * k))))
                 (x j) (conj (x l)). cring. }
  rewrite Csum_exchange. apply Csum_ext. intros j Hj.
  rewrite Csum_exchange.
  rewrite (@Csum_ext _
             (fun l => Cmul (Cmul (x j) (conj (x l)))
                         (if Z.eqb (d j l mod Z.of_nat n) 0 then (INR n, 0) else C0))).
  2:{ intros l _. rewrite Csum_mul_l, root_sum by exact Hn. reflexivity. }
  rewrite (@Csum_delta _ n j Hj).
  - unfold d. rewrite Z.sub_diag, Z.mod_0_l by lia. reflexivity.
  - intros l Hl Hne.
    destruct (Z.eqb_spec (d j l mod Z.of_nat n) 0) as [Hz | _]; [| apply Cmul_0_r].
    exfalso. unfold d in Hz. apply Z.mod_divide in Hz; [| lia]. destruct Hz as [c Hc].
    assert (c = 0)%Z by nia. subst c. lia.
Qed.

Lemma parseval (x : list cplx_t) :
  total (map norm (dft false x)) = INR (length x) * total (map norm x).
Proof.
  destruct x as [| c0 x0]; [cbn; lra |].
  set (x := c0 :: x0). set (n := length x).
  assert (Hn : (0 < n)%nat) by (unfold n, x; cbn; lia).
  rewrite (map_as_seq norm (dft false x)), dft_length. fold n.
  rewrite (map_as_seq norm x). fold n.
  pose proof (energy (cat x) Hn) as E. apply (f_equal fst) in E.
  rewrite !Csum_fst in E.
  rewrite (map_ext_in _ (fun i => fst (Cmul (dft_at (-1) n (cat x) i)
                                         (conj (dft_at (-1) n (cat x) i))))).
  2:{ intros k Hk. apply in_seq in Hk. rewrite dft_cat by (fold n; lia).
      fold n. cbn [sign_of]. rewrite norm_as_product. reflexivity. }
  rewrite E.
  assert (Hscale : forall (g : nat -> R) (l : list nat) (c : R),
            total (map (fun i => g i * c) l) = c * total (map g l)).
  { intros g l c. unfold total. induction l as [| i l IH]; cbn [map fold_right]; [lra |].
    rewrite IH. lra. }
  rewrite <- Hscale. f_equal. apply map_ext. intros j.
  rewrite norm_as_product. unfold Cmul. cbn [fst snd]. ring.
Qed.

End Spectrum.

(** X13.  Parseval's identity, in exact arithmetic: for a column of at most
    2^32 values, where no index computation of the transform wraps, the sum
    of the squared moduli of the forward transform is n times that of the
    column, and so is the sum of the squares of the magnitudes that
    [get_magnitude] returns. *)
Theorem fft_parseval (x : list FastFourierTransVisitor.cplx_t) :
  (Z.of_nat (length x) <= 2 ^ 32)%Z ->
  let v := FastFourierTransVisitor.call_v (FastFourierTransVisitor.make false) x in
  let spectrum := FastFourierTransVisitor.get_result v in
  let magnitude := fst (FastFourierTransVisitor.get_magnitude v) in
  total (map FastFourierTransVisitor.norm spectrum)
  = INR (length x) * total (map FastFourierTransVisitor.norm x) /\
  total (map (fun m => m * m) magnitude)
  = INR (length x) * total (map FastFourierTransVisitor.norm x).
Proof.
  intros Hlt. cbv zeta.
  assert (Hs : FastFourierTransVisitor.get_result
                 (FastFourierTransVisitor.call_v (FastFourierTransVisitor.make false) x)
               = FastFourierTransVisitor.dft false x).
  { unfold FastFourierTransVisitor.get_result, FastFourierTransVisitor.call_v,
      FastFourierTransVisitor.make, FastFourierTransVisitor.call.
    cbn [FastFourierTransVisitor.core FastFourierTransVisitor.result_
         FastFourierTransVisitor.inverse_].
    rewrite map_id. apply transform_is_dft. exact Hlt. }
  split.
  - rewrite Hs. apply parseval.
  - rewrite get_magnitude_fresh by reflexivity. cbn [fst]. rewrite Hs, map_map.
    rewrite <- parseval. f_equal. apply map_ext. intros c.
    apply sqrt_sqrt. unfold FastFourierTransVisitor.norm. nra.
Qed.

Lemma fft_parseval_witness :
  let x := FastFourierTransVisitor.ramp in
  let v := FastFourierTransVisitor.call_v (FastFourierTransVisitor.make false) x in
  let spectrum := FastFourierTransVisitor.get_result v in
  let magnitude := fst (FastFourierTransVisitor.get_magnitude v) in
  total (map FastFourierTransVisitor.norm spectrum)
  = INR (length x) * total (map FastFourierTransVisitor.norm x) /\
  total (map (fun m => m * m) magnitude)
  = INR (length x) * total (map FastFourierTransVisitor.norm x).
Proof.
  apply (@fft_parseval FastFourierTransVisitor.ramp).
  cbn. lia.
Defined.

Section SpectrumLaws.

Import FastFourierTransVisitor.

Ltac cring :=
  intros; apply cplx_eq;
  unfold Cadd, Csub, Cmul, conj, Cdiv_real, C0, Cone, norm; cbn [fst snd];
  try ring.

(** *** Real input *)

Lemma dft_at_mirror (n : nat) (x : nat -> cplx_t) (k : nat) :
  (0 < k < n)%nat -> (forall j, snd (x j) = 0) ->
  dft_at (-1) n x (n - k) = conj (dft_at (-1) n x k).
Proof.
  intros Hk Hreal. unfold dft_at. rewrite Csum_conj. apply Csum_ext. intros j _.
  rewrite conj_mul, root_conj.
  replace (conj (x j)) with (x j)
    by (specialize (Hreal j); destruct (x j) as [a b]; cbn in *; subst; cring).
  f_equal.
  replace (-1 * Z.of_nat (j * (n - k)))%Z
    with (- (-1 * Z.of_nat (j * k)) + Z.of_nat n * (- Z.of_nat j))%Z by nia.
  apply root_period. lia.
Qed.

Lemma dft_at_zero_real (n : nat) (x : nat -> cplx_t) :
  (forall j, snd (x j) = 0) -> snd (dft_at (-1) n x 0) = 0.
Proof.
  intros Hreal. unfold dft_at.
  rewrite (@Csum_ext _ x).
  - induction n as [| n IH]; cbn [Csum]; [reflexivity |].
    unfold Cadd. cbn [snd]. rewrite IH, Hreal. lra.
  - intros j _. rewrite Nat.mul_0_r. change (-1 * Z.of_nat 0)%Z with 0%Z.
    rewrite root_0. apply Cmul_1_r.
Qed.

Lemma cat_of_reals (xr : list R) (j : nat) :
  snd (cat (map (fun r => (r, 0)) xr) j) = 0.
Proof.
  unfold cat. revert j. induction xr as [| r xr IH]; intros [| j]; cbn; auto.
Qed.

(** *** Linearity *)

Lemma dft_at_axpy (sgn : Z) (n : nat) (c : cplx_t) (x y : nat -> cplx_t) (k : nat) :
  dft_at sgn n (fun j => Cadd (Cmul c (x j)) (y j)) k
  = Cadd (Cmul c (dft_at sgn n x k)) (dft_at sgn n y k).
Proof.
  unfold dft_at. rewrite <- Csum_mul_l, <- Csum_add. apply Csum_ext. intros j _.
  generalize (x j) (y j) (root n (sgn * Z.of_nat (j * k))). cring.
Qed.

Lemma axpy_length (c : cplx_t) (x y : list cplx_t) :
  length x = length y -> length (axpy c x y) = length x.
Proof.
  intros H. unfold axpy. rewrite length_map, length_combine, <- H. apply Nat.min_id.
Qed.

Lemma axpy_cat (c : cplx_t) (x y : list cplx_t) (j : nat) :
  length x = length y ->
  cat (axpy c x y) j = Cadd (Cmul c (cat x j)) (cat y j).
Proof.
  intros H. unfold axpy, cat.
  destruct (Nat.lt_ge_cases j (length x)) as [Hj | Hj].
  - rewrite (nth_indep _ C0 (Cadd (Cmul c (fst (C0, C0))) (snd (C0, C0))))
      by (rewrite length_map, length_combine, <- H, Nat.min_id; exact Hj).
    rewrite (map_nth (fun p => Cadd (Cmul c (fst p)) (snd p))).
    rewrite combine_nth by exact H. reflexivity.
  - rewrite !nth_overflow; try lia.
    + cring.
    + rewrite length_map, length_combine, <- H, Nat.min_id. exact Hj.
Qed.

Lemma dft_axpy (reverse : bool) (c : cplx_t) (x y : list cplx_t) :
  length x = length y ->
  dft reverse (axpy c x y) = axpy c (dft reverse x) (dft reverse y).
Proof.
  intros H. apply cat_ext.
  - rewrite dft_length, !axpy_length, dft_length by (rewrite ?dft_length; exact H).
    reflexivity.
  - rewrite dft_length, axpy_length by exact H. intros k Hk.
    rewrite dft_cat by (rewrite axpy_length by exact H; exact Hk).
    rewrite axpy_length by exact H.
    rewrite axpy_cat by (rewrite !dft_length; exact H).
    rewrite !dft_cat by (rewrite <- ?H; exact Hk). rewrite <- H.
    rewrite <- dft_at_axpy. unfold dft_at. apply Csum_ext. intros j _.
    rewrite axpy_cat by exact H. reflexivity.
Qed.

(** *** The other round trip *)

Lemma dft_scaled (reverse : bool) (r : R) (x : list cplx_t) :
  dft reverse (map (fun v => Cdiv_real v r) x)
  = map (fun v => Cdiv_real v r) (dft reverse x).
Proof.
  apply cat_ext.
  - rewrite dft_length, !length_map, dft_length. reflexivity.
  - rewrite dft_length, length_map. intros k Hk.
    rewrite dft_cat by (rewrite length_map; exact Hk).
    rewrite cat_map_div, dft_cat by exact Hk. rewrite length_map.
    unfold dft_at. rewrite Csum_div_real. apply Csum_ext. intros j _.
    rewrite cat_map_div. generalize (cat x j) (root (length x) (sign_of reverse * Z.of_nat (j * k))).
    intros u w. apply cplx_eq; unfold Cdiv_real, Cmul; cbn [fst snd]; unfold Rdiv; ring.
Qed.

Lemma map_conj_scaled (r : R) (x : list cplx_t) :
  map conj (map (fun v => Cdiv_real v r) x) = map (fun v => Cdiv_real v r) (map conj x).
Proof.
  rewrite !map_map. apply map_ext. intros v.
  apply cplx_eq; unfold Cdiv_real, conj; cbn [fst snd]; unfold Rdiv; ring.
Qed.

Lemma map_conj_conj (x : list cplx_t) : map conj (map conj x) = x.
Proof.
  rewrite map_map. rewrite <- (map_id x) at 2. apply map_ext. intros v. apply conj_conj.
Qed.

Lemma transform_itransform (x : list cplx_t) :
  x <> [] -> (Z.of_nat (length x) <= 2 ^ 32)%Z ->
  transform_ (itransform_ x) false = x.
Proof.
  intros Hne Hlt. rewrite itransform_structure by lia.
  assert (Hc32 : (Z.of_nat (length (map conj x)) <= 2 ^ 32)%Z)
    by (rewrite length_map; exact Hlt).
  rewrite (transform_is_dft (map conj x) false Hc32).
  rewrite transform_is_dft by (rewrite !length_map, dft_length, length_map; exact Hlt).
  rewrite dft_scaled.
  assert (Hc : map conj x <> []) by (destruct x; [contradiction | discriminate]).
  pose proof (conj_dft_conj_inverts Hc) as E. rewrite length_map in E.
  apply (f_equal (map conj)) in E.
  rewrite map_conj_scaled, !map_conj_conj in E. exact E.
Qed.

(** *** Convolution *)

Lemma convolve_general (xvec yvec : list cplx_t) (k : nat) :
  length xvec = length yvec -> (k < length xvec)%nat ->
  (Z.of_nat (length xvec) <= 2 ^ 32)%Z ->
  cat (convolve_ transform_ xvec yvec) k
  = Csum (fun j => Cmul (cat xvec j) (cat yvec (cyc (length xvec) k j))) (length xvec).
Proof.
  intros Hlen Hk Hlt. set (m := length xvec) in *.
  assert (Hm : (0 < m)%nat) by lia.
  unfold convolve_.
  rewrite (transform_is_dft xvec false) by exact Hlt.
  rewrite (transform_is_dft yvec false) by (rewrite <- Hlen; exact Hlt).
  set (prod := pointwise_mul (dft false xvec) (dft false yvec)).
  assert (Lp : length prod = m).
  { unfold prod. rewrite pointwise_mul_length, !dft_length, <- Hlen. apply Nat.min_id. }
  rewrite (transform_is_dft prod true) by (rewrite Lp; exact Hlt).
  rewrite dft_length, Lp, cat_map_div, dft_cat by (rewrite Lp; exact Hk).
  rewrite Lp. unfold dft_at at 1.
  rewrite (@Csum_ext _
             (fun q => Cmul (Cmul (dft_at (-1) m (cat xvec) q) (dft_at (-1) m (cat yvec) q))
                         (root m (Z.of_nat (q * k))))).
  2:{ intros q Hq. unfold prod.
      rewrite pointwise_mul_cat by (rewrite dft_length, <- ?Hlen; exact Hq).
      rewrite !dft_cat by (rewrite <- ?Hlen; exact Hq). rewrite <- Hlen. fold m.
      cbn [sign_of]. f_equal. f_equal. lia. }
  rewrite convolution by exact Hk.
  rewrite Csum_div_real. apply Csum_ext. intros j _.
  assert (HmR : INR m <> 0%R) by (apply INR_nonzero; exact Hm).
  generalize (cat xvec j) (cat yvec (cyc m k j)). intros u v.
  apply cplx_eq; unfold Cdiv_real, Cmul; cbn [fst snd]; field; exact HmR.
Qed.

End SpectrumLaws.

(** X14.  For a column of n <= 2^32 real values the forward transform is, in
    exact arithmetic, conjugate-symmetric: it has n elements, element n - k
    is the conjugate of element k for 0 < k < n, and element 0 is real. *)
Theorem fft_real_input_symmetry (xr : list R) :
  (Z.of_nat (length xr) <= 2 ^ 32)%Z ->
  let n := length xr in
  let spectrum :=
    FastFourierTransVisitor.result_
      (FastFourierTransVisitor.call_real (FastFourierTransVisitor.mk false []) xr) in
  length spectrum = n /\
  (forall k, (0 < k < n)%nat ->
     FastFourierTransVisitor.cat spectrum (n - k)
     = FastFourierTransVisitor.conj (FastFourierTransVisitor.cat spectrum k)) /\
  snd (FastFourierTransVisitor.cat spectrum 0) = 0.
Proof.
  intros Hlt. cbv zeta. unfold FastFourierTransVisitor.call_real.
  cbn [FastFourierTransVisitor.result_ FastFourierTransVisitor.inverse_].
  change (map (fun x0 : R => (x0, 0)) xr)
    with (map (fun r : R => (r, 0) : FastFourierTransVisitor.cplx_t) xr).
  set (x := map (fun r : R => (r, 0) : FastFourierTransVisitor.cplx_t) xr).
  assert (Lx : length x = length xr) by (unfold x; apply length_map).
  rewrite transform_is_dft by (rewrite Lx; exact Hlt).
  split; [rewrite dft_length; exact Lx | split].
  - intros k Hk. rewrite !dft_cat by (rewrite Lx; lia). rewrite Lx.
    cbn [FastFourierTransVisitor.sign_of]. apply dft_at_mirror; [exact Hk |].
    intros j. apply cat_of_reals.
  - destruct xr as [| r xr]; [reflexivity |].
    rewrite dft_cat by (rewrite Lx; cbn; lia).
    cbn [FastFourierTransVisitor.sign_of]. apply dft_at_zero_real.
    intros j. apply cat_of_reals.
Qed.

Lemma fft_real_input_symmetry_witness :
  let n := length FastFourierTransVisitor.real_ramp in
  let spectrum :=
    FastFourierTransVisitor.result_
      (FastFourierTransVisitor.call_real (FastFourierTransVisitor.mk false [])
         FastFourierTransVisitor.real_ramp) in
  length spectrum = n /\
  (forall k, (0 < k < n)%nat ->
     FastFourierTransVisitor.cat spectrum (n - k)
     = FastFourierTransVisitor.conj (FastFourierTransVisitor.cat spectrum k)) /\
  snd (FastFourierTransVisitor.cat spectrum 0) = 0.
Proof.
  apply (@fft_real_input_symmetry FastFourierTransVisitor.real_ramp).
  cbn. lia.
Defined.

(** X15.  [transform_] is linear, in either direction and in exact
    arithmetic: for columns x and y of the same length, at most 2^32, the
    transform of c x + y, taken element by element, is c times the transform
    of x plus the transform of y. *)
Theorem fft_linear (c : FastFourierTransVisitor.cplx_t)
  (x y : list FastFourierTransVisitor.cplx_t) (reverse : bool) :
  length x = length y -> (Z.of_nat (length x) <= 2 ^ 32)%Z ->
  FastFourierTransVisitor.transform_ (FastFourierTransVisitor.axpy c x y) reverse
  = FastFourierTransVisitor.axpy c
      (FastFourierTransVisitor.transform_ x reverse)
      (FastFourierTransVisitor.transform_ y reverse).
Proof.
  intros Hlen Hlt.
  rewrite !transform_is_dft
    by (rewrite ?axpy_length by exact Hlen; rewrite <- ?Hlen; exact Hlt).
  apply dft_axpy. exact Hlen.
Qed.

Lemma fft_linear_witness :
  FastFourierTransVisitor.transform_
    (FastFourierTransVisitor.axpy (2, 1) FastFourierTransVisitor.ramp
       FastFourierTransVisitor.ramp) false
  = FastFourierTransVisitor.axpy (2, 1)
      (FastFourierTransVisitor.transform_ FastFourierTransVisitor.ramp false)
      (FastFourierTransVisitor.transform_ FastFourierTransVisitor.ramp false).
Proof.
  apply (@fft_linear (2, 1) FastFourierTransVisitor.ramp FastFourierTransVisitor.ramp false).
  - reflexivity.
  - cbn. lia.
Defined.

(** X16.  The round trip the other way, in exact arithmetic: the forward
    visitor applied to the output of the inverse visitor gives back a column
    of at most 2^32 elements. *)
Theorem fft_inverse_then_forward (x : list FastFourierTransVisitor.cplx_t) :
  x <> [] -> (Z.of_nat (length x) <= 2 ^ 32)%Z ->
  let forward := FastFourierTransVisitor.mk false [] in
  let inverse := FastFourierTransVisitor.mk true [] in
  FastFourierTransVisitor.result_
    (FastFourierTransVisitor.call forward
       (FastFourierTransVisitor.result_ (FastFourierTransVisitor.call inverse x))) = x.
Proof.
  intros Hne Hlt. cbv zeta. unfold FastFourierTransVisitor.call.
  cbn [FastFourierTransVisitor.result_ FastFourierTransVisitor.inverse_].
  rewrite !map_id. apply transform_itransform; assumption.
Qed.

Lemma fft_inverse_then_forward_witness :
  let forward := FastFourierTransVisitor.mk false [] in
  let inverse := FastFourierTransVisitor.mk true [] in
  FastFourierTransVisitor.result_
    (FastFourierTransVisitor.call forward
       (FastFourierTransVisitor.result_
          (FastFourierTransVisitor.call inverse FastFourierTransVisitor.ramp)))
  = FastFourierTransVisitor.ramp.
Proof.
  apply (@fft_inverse_then_forward FastFourierTransVisitor.ramp).
  - discriminate.
  - cbn. lia.
Defined.

(** X17.  [convolve_] computes, in exact arithmetic, the cyclic convolution
    of two vectors of the same length m <= 2^32: element k of its result is
    the sum over j < m of x[j] * y[(k - j) mod m]. *)
Theorem fft_convolve_cyclic (xvec yvec : list FastFourierTransVisitor.cplx_t) :
  length xvec = length yvec -> (Z.of_nat (length xvec) <= 2 ^ 32)%Z ->
  let m := length xvec in
  let conv :=
    FastFourierTransVisitor.convolve_ FastFourierTransVisitor.transform_ xvec yvec in
  length conv = m /\
  forall k, (k < m)%nat ->
    FastFourierTransVisitor.cat conv k
    = FastFourierTransVisitor.Csum
        (fun j => FastFourierTransVisitor.Cmul
                    (FastFourierTransVisitor.cat xvec j)
                    (FastFourierTransVisitor.cat yvec ((k + m - j) mod m))) m.
Proof.
  intros Hlen Hlt. cbv zeta. split.
  - unfold FastFourierTransVisitor.convolve_.
    assert (Hx : length (FastFourierTransVisitor.transform_ xvec false) = length xvec)
      by (apply transform_length; lia).
    assert (Hy : length (FastFourierTransVisitor.transform_ yvec false) = length xvec)
      by (rewrite transform_length by lia; symmetry; exact Hlen).
    rewrite length_map, transform_length;
      rewrite pointwise_mul_length, Hx, Hy, Nat.min_id; [reflexivity | lia].
  - intros k Hk. apply convolve_general; assumption.
Qed.

Lemma fft_convolve_cyclic_witness :
  let xvec := FastFourierTransVisitor.ramp in
  let yvec := FastFourierTransVisitor.ramp in
  let m := length xvec in
  let conv :=
    FastFourierTransVisitor.convolve_ FastFourierTransVisitor.transform_ xvec yvec in
  length conv = m /\
  forall k, (k < m)%nat ->
    FastFourierTransVisitor.cat conv k
    = FastFourierTransVisitor.Csum
        (fun j => FastFourierTransVisitor.Cmul
                    (FastFourierTransVisitor.cat xvec j)
                    (FastFourierTransVisitor.cat yvec ((k + m - j) mod m))) m.
Proof.
  apply (@fft_convolve_cyclic FastFourierTransVisitor.ramp FastFourierTransVisitor.ramp).
  - reflexivity.
  - cbn. lia.
Defined.

(** *** Bit reversal, bit by bit *)

Lemma testbit_high_low (w h lo i : nat) :
  (lo < 2 ^ w)%nat ->
  Nat.testbit (h * 2 ^ w + lo) i
  = if Nat.ltb i w then Nat.testbit lo i else Nat.testbit h (i - w).
Proof.
  intros Hlo. assert (Hp : (2 ^ w <> 0)%nat) by (apply Nat.pow_nonzero; lia).
  destruct (Nat.ltb_spec i w) as [Hi | Hi].
  - rewrite <- (Nat.mod_pow2_bits_low (h * 2 ^ w + lo) w i) by exact Hi.
    rewrite Nat.add_comm, Nat.Div0.mod_add, Nat.mod_small by exact Hlo. reflexivity.
  - replace i with (i - w + w)%nat at 1 by lia.
    rewrite <- Nat.div_pow2_bits.
    rewrite Nat.add_comm, Nat.div_add, Nat.div_small by assumption. reflexivity.
Qed.

Lemma reverse_bits_testbit (w : nat) :
  forall val i,
    Nat.testbit (FastFourierTransVisitor.reverse_bits_ val w) i
    = if Nat.ltb i w then Nat.testbit val (w - 1 - i) else false.
Proof.
  induction w as [| w IH]; intros val i.
  - cbn [Nat.ltb Nat.leb]. unfold FastFourierTransVisitor.reverse_bits_. cbn.
    apply Nat.bits_0.
  - rewrite reverse_bits_succ.
    rewrite testbit_high_low by apply reverse_bits_lt.
    destruct (Nat.ltb_spec i w) as [Hi | Hi].
    + rewrite IH. destruct (Nat.ltb_spec i w) as [_ | ?]; [| lia].
      destruct (Nat.ltb_spec i (S w)) as [_ | ?]; [| lia].
      replace (S w - 1 - i)%nat with (S (w - 1 - i)) by lia.
      rewrite <- Nat.div2_bits. reflexivity.
    + destruct (Nat.ltb_spec i (S w)) as [Hi' | Hi'].
      * assert (i = w) by lia. subst i.
        replace (w - w)%nat with 0%nat by lia. replace (S w - 1 - w)%nat with 0%nat by lia.
        change (val mod 2)%nat with (val mod 2 ^ 1)%nat.
        apply Nat.mod_pow2_bits_low. lia.
      * assert (Hm : (val mod 2 < 2)%nat) by (apply Nat.mod_upper_bound; lia).
        destruct (val mod 2) as [| [| m]]; try lia.
        -- apply Nat.bits_0.
        -- destruct (i - w)%nat as [| q] eqn:E; [lia |].
           cbn [Nat.testbit Nat.div2]. apply Nat.bits_0.
Qed.

(** X18.  [reverse_bits_] mirrors the low [width] bits, within the 64 bits
    of [size_type]: bit i of the result is bit width - 1 - i of [val] for
    i < width and 0 from [width] on, so the result lies below 2^width; and
    reversing twice gives back a value that lies below 2^width. *)
Theorem fft_reverse_bits (val width : nat) :
  (width <= 64)%nat -> (Z.of_nat val < 2 ^ 64)%Z ->
  (forall i, Nat.testbit (FastFourierTransVisitor.reverse_bits_ val width) i
             = if Nat.ltb i width then Nat.testbit val (width - 1 - i) else false) /\
  (FastFourierTransVisitor.reverse_bits_ val width < 2 ^ width)%nat /\
  ((val < 2 ^ width)%nat ->
   FastFourierTransVisitor.reverse_bits_
     (FastFourierTransVisitor.reverse_bits_ val width) width = val).
Proof.
  intros _ _.
  split; [apply reverse_bits_testbit | split; [apply reverse_bits_lt |]].
  apply reverse_bits_involutive.
Qed.

Lemma fft_reverse_bits_witness :
  (forall i, Nat.testbit (FastFourierTransVisitor.reverse_bits_ 6 3) i
             = if Nat.ltb i 3 then Nat.testbit 6 (3 - 1 - i) else false) /\
  (FastFourierTransVisitor.reverse_bits_ 6 3 < 2 ^ 3)%nat /\
  ((6 < 2 ^ 3)%nat ->
   FastFourierTransVisitor.reverse_bits_
     (FastFourierTransVisitor.reverse_bits_ 6 3) 3 = 6%nat).
Proof.
  apply (@fft_reverse_bits 6 3).
  - lia.
  - cbn. lia.
Defined.

(* ---------------------------------------------------------------------- *)
(** ** ImpurityVisitor: the frequency table and the rolling windows *)

Section Tables.

Import ImpurityVisitor.

Variable T : Type.
Variable T_eqb : T -> T -> bool.
Variable T_default : T.

Hypothesis T_eqb_spec : forall a b, T_eqb a b = true <-> a = b.

Lemma T_eqb_refl (a : T) : T_eqb a a = true.
Proof. apply T_eqb_spec. reflexivity. Qed.

Lemma T_eqb_false (a b : T) : T_eqb a b = false <-> a <> b.
Proof.
  split.
  - intros E H. apply T_eqb_spec in H. congruence.
  - intros H. destruct (T_eqb a b) eqn:E; [| reflexivity].
    apply T_eqb_spec in E. contradiction.
Qed.

Lemma T_eqb_sym (a b : T) : T_eqb a b = T_eqb b a.
Proof.
  destruct (T_eqb b a) eqn:E.
  - apply T_eqb_spec in E. subst. apply T_eqb_refl.
  - apply T_eqb_false in E. apply T_eqb_false. congruence.
Qed.

(** Case analysis on a comparison, with the fact it decides. *)
Ltac eqb_cases a b :=
  let E := fresh "E" in let H := fresh "H" in
  destruct (T_eqb a b) eqn:E;
  [ assert (H : a = b) by (apply T_eqb_spec; exact E)
  | assert (H : a <> b) by (apply T_eqb_false; exact E) ].

(** *** What the three table operations do to a lookup *)

Lemma find_insert (table : map_t T) (key k : T) :
  find T_eqb (insert T_eqb table key) k
  = match find T_eqb table k with
    | Some c => Some c
    | None => if T_eqb key k then Some (Fin 0) else None
    end.
Proof.
  induction table as [| [k0 c0] table IH]; cbn [insert find].
  - reflexivity.
  - eqb_cases k0 key; cbn [find].
    + subst key. destruct (T_eqb k0 k); [reflexivity |].
      destruct (find T_eqb table k); reflexivity.
    + destruct (T_eqb k0 k); [reflexivity | exact IH].
Qed.

Lemma keys_insert (table : map_t T) (key : T) :
  map fst (insert T_eqb table key)
  = match find T_eqb table key with
    | Some _ => map fst table
    | None => map fst table ++ [key]
    end.
Proof.
  induction table as [| [k0 c0] table IH]; cbn [insert find map fst app].
  - reflexivity.
  - destruct (T_eqb k0 key); [reflexivity |].
    cbn [map fst]. rewrite IH. destruct (find T_eqb table key); reflexivity.
Qed.

Lemma find_adjust (table : map_t T) (key : T) (delta : double) (k : T) :
  find T_eqb (adjust T_eqb table key delta) k
  = if T_eqb key k
    then option_map (fun c => (c + delta)%dbl) (find T_eqb table k)
    else find T_eqb table k.
Proof.
  induction table as [| [k0 c0] table IH]; cbn [adjust find].
  - destruct (T_eqb key k); reflexivity.
  - eqb_cases k0 key; cbn [find].
    + subst key. destruct (T_eqb k0 k); reflexivity.
    + eqb_cases k0 k; [| exact IH].
      subst k. rewrite (proj2 (T_eqb_false key k0)) by congruence. reflexivity.
Qed.

Lemma keys_adjust (table : map_t T) (key : T) (delta : double) :
  map fst (adjust T_eqb table key delta) = map fst table.
Proof.
  induction table as [| [k0 c0] table IH]; cbn [adjust map fst]; [reflexivity |].
  destruct (T_eqb k0 key); cbn [map fst]; [reflexivity | rewrite IH; reflexivity].
Qed.

Lemma find_absent (table : map_t T) (k : T) :
  ~ In k (map fst table) -> find T_eqb table k = None.
Proof.
  induction table as [| [k0 c0] table IH]; cbn [find map fst In]; [reflexivity |].
  intros H. eqb_cases k0 k; [tauto | apply IH; tauto].
Qed.

Lemma find_present (table : map_t T) (k : T) :
  In k (map fst table) -> exists c, find T_eqb table k = Some c.
Proof.
  induction table as [| [k0 c0] table IH]; cbn [find map fst In]; [tauto |].
  intros [-> | H].
  - rewrite T_eqb_refl. eexists; reflexivity.
  - destruct (T_eqb k0 k); [eexists; reflexivity | apply IH; exact H].
Qed.

Lemma find_erase (table : map_t T) (key k : T) :
  NoDup (map fst table) ->
  find T_eqb (erase_if_zero T_eqb table key) k
  = if T_eqb key k
    then match find T_eqb table k with
         | Some c => if is_zero c then None else Some c
         | None => None
         end
    else find T_eqb table k.
Proof.
  induction table as [| [k0 c0] table IH]; intros Hnd; cbn [erase_if_zero find].
  - destruct (T_eqb key k); reflexivity.
  - cbn [map fst] in Hnd. inversion Hnd as [| ? ? Hnotin Hnd']; subst.
    eqb_cases k0 key.
    + subst key. eqb_cases k0 k.
      * subst k. destruct (is_zero c0).
        -- apply find_absent. exact Hnotin.
        -- cbn [find]. rewrite T_eqb_refl. reflexivity.
      * destruct (is_zero c0); [reflexivity |].
        cbn [find]. rewrite E0. reflexivity.
    + cbn [find]. eqb_cases k0 k.
      * subst k. rewrite (proj2 (T_eqb_false key k0)) by congruence. reflexivity.
      * apply IH. exact Hnd'.
Qed.

Lemma keys_erase (table : map_t T) (key : T) :
  NoDup (map fst table) -> NoDup (map fst (erase_if_zero T_eqb table key)).
Proof.
  induction table as [| [k0 c0] table IH]; intros Hnd; cbn [erase_if_zero].
  - exact Hnd.
  - cbn [map fst] in Hnd. inversion Hnd as [| ? ? Hnotin Hnd']; subst.
    destruct (T_eqb k0 key).
    + destruct (is_zero c0); [exact Hnd' | exact Hnd].
    + cbn [map fst]. constructor; [| apply IH; exact Hnd'].
      intros Hin. apply Hnotin.
      clear - Hin. induction table as [| [k1 c1] table IH]; cbn [erase_if_zero map fst] in *;
        [exact Hin |].
      destruct (T_eqb k1 key).
      * destruct (is_zero c1); [right; exact Hin | exact Hin].
      * cbn [map fst In] in Hin. destruct Hin as [-> | Hin]; [left; reflexivity |].
        right. apply IH. exact Hin.
Qed.

(** *** Tables that hold the counts of a list *)

Lemma occurrences_cons (key x : T) (l : list T) :
  occurrences T_eqb key (x :: l)
  = ((if T_eqb key x then 1 else 0) + occurrences T_eqb key l)%nat.
Proof.
  unfold occurrences. cbn [filter]. destruct (T_eqb key x); reflexivity.
Qed.

Lemma occurrences_app (key : T) (l l' : list T) :
  occurrences T_eqb key (l ++ l')
  = (occurrences T_eqb key l + occurrences T_eqb key l')%nat.
Proof. unfold occurrences. rewrite filter_app, length_app. reflexivity. Qed.

Lemma tallied_ext (table : map_t T) (l l' : list T) :
  (forall key, occurrences T_eqb key l = occurrences T_eqb key l') ->
  tallied T_eqb table l -> tallied T_eqb table l'.
Proof.
  intros H [Hnd Hf]. split; [exact Hnd |]. intros key. rewrite Hf.
  unfold count_of. rewrite H. reflexivity.
Qed.

Lemma tallied_nil : tallied T_eqb [] [].
Proof. split; [constructor | reflexivity]. Qed.

Lemma enter_tallied (table : map_t T) (x : T) (l : list T) :
  tallied T_eqb table l -> tallied T_eqb (enter T_eqb table x) (x :: l).
Proof.
  intros [Hnd Hf]. unfold enter. split.
  - rewrite keys_adjust, keys_insert.
    destruct (find T_eqb table x) eqn:E; [exact Hnd |].
    apply NoDup_app; [exact Hnd | repeat constructor; intros [] |].
    intros k Hk [<- | []]. apply find_present in Hk. destruct Hk as [c Hc]. congruence.
  - intros key. rewrite find_adjust, find_insert, Hf.
    unfold count_of. rewrite occurrences_cons, (T_eqb_sym key x).
    eqb_cases x key.
    + destruct (Nat.eqb_spec (occurrences T_eqb key l) 0) as [Hz | Hnz].
      * rewrite Hz. cbn [Nat.add Nat.eqb option_map dadd dlift2]. f_equal.
        apply Fin_eq. cbn. lra.
      * cbn [option_map dadd dlift2].
        destruct (Nat.eqb_spec (1 + occurrences T_eqb key l) 0) as [? | _]; [lia |].
        f_equal. apply Fin_eq. rewrite plus_INR. cbn. lra.
    + cbn [Nat.add].
      destruct (Nat.eqb (occurrences T_eqb key l) 0); reflexivity.
Qed.

Lemma leave_tallied (table : map_t T) (x : T) (l : list T) :
  tallied T_eqb table (x :: l) -> tallied T_eqb (leave T_eqb table x) l.
Proof.
  intros [Hnd Hf]. unfold leave.
  assert (Hnd' : NoDup (map fst (adjust T_eqb table x (- Fin 1)%dbl)))
    by (rewrite keys_adjust; exact Hnd).
  split; [apply keys_erase; exact Hnd' |].
  intros key. rewrite find_erase by exact Hnd'. rewrite find_adjust, Hf.
  unfold count_of. rewrite occurrences_cons, (T_eqb_sym key x).
  eqb_cases x key.
  - cbn [Nat.add Nat.eqb option_map].
    cbn [dneg dadd dlift2]. unfold is_zero.
    destruct (Nat.eqb_spec (occurrences T_eqb key l) 0) as [Hz | Hnz].
    + rewrite Hz.
      match goal with |- context [Req_dec_T ?a 0] => destruct (Req_dec_T a 0) as [_ | N] end;
        [reflexivity |].
      exfalso. apply N. cbn. lra.
    + assert (Hpos : 0 < INR (occurrences T_eqb key l)) by (apply lt_0_INR; lia).
      match goal with |- context [Req_dec_T ?a 0] => destruct (Req_dec_T a 0) as [Z | _] end.
      * exfalso. rewrite S_INR in Z. lra.
      * f_equal. apply Fin_eq. rewrite S_INR. lra.
  - reflexivity.
Qed.

Lemma fold_enter_tallied (l : list T) :
  forall table acc,
    tallied T_eqb table acc -> tallied T_eqb (fold_left (enter T_eqb) l table) (rev l ++ acc).
Proof.
  induction l as [| x l IH]; intros table acc H; cbn [fold_left rev app].
  - exact H.
  - rewrite <- app_assoc. cbn [app]. apply IH. apply enter_tallied. exact H.
Qed.

Lemma tally_tallied (l : list T) : tallied T_eqb (tally T_eqb l) l.
Proof.
  unfold tally. apply (@tallied_ext _ (rev l ++ [])).
  - intros key. rewrite app_nil_r. unfold occurrences.
    rewrite <- (rev_involutive l) at 2. rewrite (filter_rev _ (rev l)), length_rev.
    reflexivity.
  - apply fold_enter_tallied. apply tallied_nil.
Qed.

(** *** Two tables of the same list hold the same entries *)

Lemma find_in (table : map_t T) (k : T) (c : double) :
  NoDup (map fst table) -> (In (k, c) table <-> find T_eqb table k = Some c).
Proof.
  induction table as [| [k0 c0] table IH]; intros Hnd; cbn [In find].
  - split; [tauto | discriminate].
  - cbn [map fst] in Hnd. inversion Hnd as [| ? ? Hnotin Hnd']; subst.
    eqb_cases k0 k.
    + subst k. split.
      * intros [H | H]; [congruence |].
        exfalso. apply Hnotin. apply (in_map fst) in H. exact H.
      * intros H. left. congruence.
    + rewrite <- IH by exact Hnd'. split; [intros [Heq | Hin]; [congruence | exact Hin] | tauto].
Qed.

Lemma tallied_permutation (t1 t2 : map_t T) (l : list T) :
  tallied T_eqb t1 l -> tallied T_eqb t2 l -> Permutation t1 t2.
Proof.
  intros [N1 F1] [N2 F2]. apply NoDup_Permutation.
  - apply (NoDup_map_inv fst). exact N1.
  - apply (NoDup_map_inv fst). exact N2.
  - intros [k c]. rewrite !find_in by assumption. rewrite F1, F2. reflexivity.
Qed.

End Tables.

(** ** Sums of doubles do not depend on the order *)

Lemma dadd_comm (a b : double) : (a + b)%dbl = (b + a)%dbl.
Proof. destruct a, b; cbn; try reflexivity. apply Fin_eq. lra. Qed.

Lemma dadd_assoc (a b c : double) : (a + b + c)%dbl = (a + (b + c))%dbl.
Proof. destruct a, b, c; cbn; try reflexivity. apply Fin_eq. lra. Qed.

Lemma fold_sum_permutation (X : Type) (h : X -> double) (l l' : list X) :
  Permutation l l' ->
  forall a, fold_left (fun s e => (s + h e)%dbl) l a
            = fold_left (fun s e => (s + h e)%dbl) l' a.
Proof.
  induction 1 as [| x l l' _ IH | x y l | l l' l'' _ IH1 _ IH2]; intros a; cbn [fold_left].
  - reflexivity.
  - apply IH.
  - f_equal. rewrite !dadd_assoc. f_equal. apply dadd_comm.
  - rewrite IH1. apply IH2.
Qed.

Section Rolling.

Import ImpurityVisitor.

Variable T : Type.
Variable T_eqb : T -> T -> bool.
Variable T_default : T.

Hypothesis T_eqb_spec : forall a b, T_eqb a b = true <-> a = b.

Lemma measure_permutation (imt : impurity_type) (w : nat) (t1 t2 : map_t T) :
  Permutation t1 t2 -> measure imt w t1 = measure imt w t2.
Proof.
  intros H. unfold measure. destruct imt; f_equal.
  - apply (fold_sum_permutation
             (fun e : T * double => (snd e / Fin (INR w) * (snd e / Fin (INR w)))%dbl) H).
  - apply (fold_sum_permutation
             (fun e : T * double =>
                (snd e / Fin (INR w) * dlog2 (snd e / Fin (INR w)))%dbl) H).
Qed.

Lemma measure_tallied (imt : impurity_type) (w : nat) (table : map_t T) (l : list T) :
  tallied T_eqb table l -> measure imt w table = measure imt w (tally T_eqb l).
Proof.
  intros H. apply measure_permutation.
  apply (tallied_permutation T_eqb_spec H). apply tally_tallied. exact T_eqb_spec.
Qed.

(** *** Windows *)

Lemma window_head (column : list T) (k w : nat) :
  (k < length column)%nat ->
  window column k (S w) = nth k column T_default :: firstn w (skipn (S k) column).
Proof.
  unfold window. revert k. induction column as [| c column IH]; intros k Hk; cbn in Hk; [lia |].
  destruct k as [| k].
  - reflexivity.
  - cbn [skipn nth]. apply IH. lia.
Qed.

Lemma window_last (column : list T) (k w : nat) :
  (k + w < length column)%nat ->
  window column k (S w) = firstn w (skipn k column) ++ [nth (k + w) column T_default].
Proof.
  unfold window. revert k. induction column as [| c column IH]; intros k Hk; cbn in Hk; [lia |].
  destruct k as [| k].
  - cbn [skipn Nat.add]. clear IH. revert c column Hk.
    induction w as [| w IHw]; intros c column Hk.
    + reflexivity.
    + destruct column as [| c' column]; [cbn in Hk; lia |].
      cbn [firstn app nth]. f_equal. apply IHw. cbn in Hk |- *. lia.
  - cbn [skipn nth Nat.add]. apply IH. lia.
Qed.

Lemma initial_table (column : list T) (w : nat) :
  (w <= length column)%nat ->
  fold_left (fun table i => enter T_eqb table (nth i column T_default)) (seq 0 w) []
  = tally T_eqb (window column 0 w).
Proof.
  intros Hw. unfold tally, window. cbn [skipn].
  assert (E : firstn w column = map (fun i => nth i column T_default) (seq 0 w)).
  { apply (nth_ext _ _ T_default T_default).
    - rewrite length_firstn, length_map, length_seq. lia.
    - intros i Hi. rewrite length_firstn in Hi.
      rewrite nth_firstn.
      destruct (Nat.ltb_spec i w) as [Hlt | ?]; [| lia].
      rewrite (nth_indep (map (fun i => nth i column T_default) (seq 0 w))
                 T_default (nth 0 column T_default))
        by (rewrite length_map, length_seq; exact Hlt).
      rewrite (map_nth (fun i => nth i column T_default)), seq_nth by exact Hlt.
      reflexivity. }
  rewrite E. generalize (seq 0 w) as l. intros l. generalize (@nil (T * double)) as t0.
  induction l as [| i l IH]; intros t0; cbn [fold_left map]; [reflexivity | apply IH].
Qed.

(** *** The main loop *)

Lemma roll_spec (imt : impurity_type) (w : nat) (column : list T) :
  (1 <= w)%nat ->
  forall fuel i table result,
    (1 <= i)%nat -> (i - 1 + w <= length column)%nat ->
    (length column - i <= fuel)%nat ->
    tallied T_eqb table (window column (i - 1) w) ->
    roll T_eqb T_default fuel imt w column i table result
    = result
      ++ map (fun k => measure imt w (tally T_eqb (window column k w)))
           (seq (i - 1)
              (Nat.min (length column - i) (length column + 2 - w - i))).
Proof.
  intros Hw. induction fuel as [| fuel IH]; intros i table result Hi Hwin Hfuel Ht;
    cbn [roll].
  - replace (length column - i)%nat with 0%nat by lia. cbn. symmetry. apply app_nil_r.
  - destruct (Nat.ltb_spec i (length column)) as [Hlt | Hge].
    2:{ replace (length column - i)%nat with 0%nat by lia. cbn. symmetry. apply app_nil_r. }
    rewrite (measure_tallied imt w Ht).
    destruct (Nat.ltb_spec (length column) (i + w)) as [Hbreak | Hgo].
    + replace (Nat.min (length column - i) (length column + 2 - w - i)) with 1%nat by lia.
      reflexivity.
    + rewrite IH; try lia.
      * replace (Nat.min (length column - i) (length column + 2 - w - i))
          with (S (Nat.min (length column - (i + 1)) (length column + 2 - w - (i + 1))))
          by lia.
        cbn [seq map]. rewrite <- app_assoc. cbn [app].
        replace (i + 1 - 1)%nat with (S (i - 1)) by lia. reflexivity.
      * replace (i + 1 - 1)%nat with (S (i - 1)) by lia.
        destruct w as [| w']; [lia |].
        apply (@tallied_ext _ T_eqb
                 _ (nth (i + S w' - 1) column T_default
                    :: firstn w' (skipn (S (i - 1)) column))).
        -- intros key. rewrite (@window_last column (S (i - 1)) w') by lia.
           replace (S (i - 1) + w')%nat with (i + S w' - 1)%nat by lia.
           rewrite occurrences_cons, occurrences_app, occurrences_cons.
           unfold occurrences at 3. cbn [filter length]. lia.
        -- apply enter_tallied; [exact T_eqb_spec |].
           apply leave_tallied; [exact T_eqb_spec |].
           rewrite <- window_head by lia. exact Ht.
Qed.

Lemma call_spec (v : t) (column : list T) :
  (1 <= roll_count_ v <= length column)%nat ->
  result_ (call T_eqb T_default v column)
  = map (fun k => measure (imt_ v) (roll_count_ v)
                    (tally T_eqb (window column k (roll_count_ v))))
      (seq 0 (if Nat.eqb (roll_count_ v) 1 then length column - 1
              else length column - roll_count_ v + 1)).
Proof.
  intros [Hw Hn]. unfold call.
  destruct (Nat.eqb_spec (roll_count_ v) 0) as [? | _]; [lia |].
  destruct (Nat.ltb_spec (length column) (roll_count_ v)) as [? | _]; [lia |].
  cbn [orb result_]. rewrite initial_table by exact Hn.
  rewrite roll_spec; try lia.
  - cbn [app Nat.sub]. f_equal. f_equal.
    destruct (Nat.eqb_spec (roll_count_ v) 1); lia.
  - cbn [Nat.sub]. apply tally_tallied. exact T_eqb_spec.
Qed.

End Rolling.

Section Counts.

Import ImpurityVisitor.

Variable T : Type.
Variable T_eqb : T -> T -> bool.

Hypothesis T_eqb_spec : forall a b, T_eqb a b = true <-> a = b.

Lemma enter_counts (key : T) (table : map_t T) :
  forall cs,
    map snd table = map Fin cs -> Forall (fun c => 1 <= c) cs ->
    exists cs',
      map snd (enter T_eqb table key) = map Fin cs' /\
      Forall (fun c => 1 <= c) cs' /\ total cs' = total cs + 1.
Proof.
  unfold enter.
  induction table as [| [k c] table IH]; intros [| c0 cs] E Hcs; try discriminate.
  - cbn [insert adjust]. rewrite (proj2 (T_eqb_spec key key) eq_refl).
    exists [0 + 1]. cbn [map snd dadd dlift2 total fold_right].
    repeat split; [repeat constructor; lra | lra].
  - cbn [map snd] in E. injection E as Ec Et. subst c.
    inversion Hcs as [| ? ? H0 Hcs']; subst.
    cbn [insert]. destruct (T_eqb k key) eqn:Ek.
    + cbn [adjust]. rewrite Ek. exists ((c0 + 1) :: cs).
      cbn [map snd dadd dlift2 total fold_right]. rewrite Et.
      repeat split; [constructor; [lra | exact Hcs'] | fold (total cs); lra].
    + cbn [adjust]. rewrite Ek.
      destruct (IH cs Et Hcs') as [cs' [E' [H' S']]].
      exists (c0 :: cs'). cbn [map snd total fold_right]. rewrite E'.
      repeat split; [constructor; assumption |].
      fold (total cs'). fold (total cs). lra.
Qed.

Lemma tally_counts (l : list T) :
  exists cs,
    map snd (tally T_eqb l) = map Fin cs /\
    Forall (fun c => 1 <= c) cs /\ total cs = INR (length l).
Proof.
  unfold tally.
  assert (H : forall (l : list T) table cs,
             map snd table = map Fin cs -> Forall (fun c => 1 <= c) cs ->
             exists cs',
               map snd (fold_left (enter T_eqb) l table) = map Fin cs' /\
               Forall (fun c => 1 <= c) cs' /\
               total cs' = total cs + INR (length l)).
  { clear l. induction l as [| x l IH]; intros table cs E Hcs.
    - exists cs. cbn [fold_left length INR]. repeat split; [exact E | exact Hcs | lra].
    - cbn [fold_left]. destruct (enter_counts x table E Hcs) as [cs1 [E1 [H1 S1]]].
      destruct (IH _ _ E1 H1) as [cs' [E' [H' S']]].
      exists cs'. repeat split; [exact E' | exact H' |].
      rewrite S', S1. change (length (x :: l)) with (S (length l)).
      rewrite S_INR. lra. }
  destruct (H l [] [] eq_refl (Forall_nil _)) as [cs [E [Hcs S]]].
  exists cs. repeat split; [exact E | exact Hcs |].
  rewrite S. cbn [total fold_right]. lra.
Qed.

Lemma fold_counts (h : double -> double) (g : R -> R) :
  forall (cs : list R) (table : map_t T) (a : R),
    map snd table = map Fin cs ->
    Forall (fun c => h (Fin c) = Fin (g c)) cs ->
    fold_left (fun sum (e : T * double) => (sum + h (snd e))%dbl) table (Fin a)
    = Fin (a + total (map g cs)).
Proof.
  induction cs as [| c cs IH]; intros [| [k d] table] a E Hh; try discriminate.
  - cbn [fold_left map total fold_right]. apply Fin_eq. lra.
  - cbn [map snd] in E. injection E as Ed Et. subst d.
    inversion Hh as [| ? ? H0 Hh']; subst.
    cbn [fold_left snd]. rewrite H0. cbn [dadd dlift2].
    rewrite (IH table _ Et Hh'). apply Fin_eq.
    cbn [map total fold_right]. fold (total (map g cs)). lra.
Qed.

Lemma squares_between (cs : list R) :
  Forall (fun c => 1 <= c) cs ->
  total cs <= total (map (fun c => c * c) cs) <= total cs * total cs /\ 0 <= total cs.
Proof.
  induction 1 as [| c cs Hc Hcs IH]; cbn [map total fold_right].
  - lra.
  - fold (total cs). fold (total (map (fun c => c * c) cs)). nra.
Qed.

Lemma total_scaled (g : R -> R) (k : R) (cs : list R) :
  total (map (fun c => g c * k) cs) = total (map g cs) * k.
Proof.
  induction cs as [| c cs IH]; cbn [map total fold_right]; [lra |].
  fold (total (map (fun c => g c * k) cs)). fold (total (map g cs)). rewrite IH. lra.
Qed.

Lemma total_map_le (g h : R -> R) (cs : list R) :
  Forall (fun c => g c <= h c) cs -> total (map g cs) <= total (map h cs).
Proof.
  induction 1 as [| c cs Hc Hcs IH]; cbn [map total fold_right]; [lra |].
  fold (total (map g cs)). fold (total (map h cs)). lra.
Qed.

Lemma counts_below (cs : list R) :
  Forall (fun c => 1 <= c) cs -> Forall (fun c => 1 <= c <= total cs) cs.
Proof.
  induction 1 as [| c cs Hc Hcs IH]; [constructor |].
  pose proof (squares_between Hcs) as [_ H0].
  cbn [total fold_right]. fold (total cs). constructor; [lra |].
  eapply Forall_impl; [| exact IH]. cbv beta. intros x Hx. lra.
Qed.

Lemma measure_bounds (l : list T) :
  l <> [] ->
  let w := length l in
  exists g e,
    measure gini_index w (tally T_eqb l) = Fin g /\
    measure info_entropy w (tally T_eqb l) = Fin e /\
    0 <= g <= 1 - 1 / INR w /\ 0 <= e <= ln (INR w) / ln 2.
Proof.
  intros Hne w.
  assert (Hw : 1 <= INR w).
  { change 1 with (INR 1). apply le_INR. unfold w. destruct l; [contradiction | cbn; lia]. }
  destruct (tally_counts l) as [cs [E [Hcs S]]]. fold w in S.
  pose proof (counts_below Hcs) as Hb. rewrite S in Hb.
  pose proof (squares_between Hcs) as [[Q1 Q2] _]. rewrite S in Q1, Q2.
  assert (Hln2 : 0 < ln 2) by (rewrite <- ln_1; apply ln_increasing; lra).
  unfold measure.
  rewrite (@fold_counts
             (fun c => (c / Fin (INR w) * (c / Fin (INR w)))%dbl)
             (fun c => c * c * (/ INR w * / INR w)) cs _ 0 E).
  2:{ apply Forall_forall. intros c _. rewrite ddiv_fin by lra.
      cbn [dmul dlift2]. apply Fin_eq. unfold Rdiv. ring. }
  rewrite (@fold_counts
             (fun c => (c / Fin (INR w) * dlog2 (c / Fin (INR w)))%dbl)
             (fun c => c * ln (c / INR w) * (/ INR w * / ln 2)) cs _ 0 E).
  2:{ rewrite Forall_forall in Hb. apply Forall_forall. intros c Hc.
      specialize (Hb c Hc). rewrite ddiv_fin by lra. unfold dlog2.
      rewrite dlog_fin by (apply Rdiv_lt_0_compat; lra).
      rewrite ddiv_fin by lra. cbn [dmul dlift2]. apply Fin_eq. unfold Rdiv. ring. }
  rewrite !total_scaled. cbn [dsub dneg dlift2 dlift1].
  eexists. eexists. split; [reflexivity | split; [reflexivity | split]].
  - rewrite Rplus_0_l.
    set (q := total (map (fun c => c * c) cs)) in *.
    assert (Hi : 0 < / INR w) by (apply Rinv_0_lt_compat; lra).
    assert (Hii : INR w * / INR w = 1) by (apply Rinv_r; lra).
    split.
    + assert (q * (/ INR w * / INR w) <= INR w * INR w * (/ INR w * / INR w)).
      { apply Rmult_le_compat_r; [nra | exact Q2]. }
      replace (INR w * INR w * (/ INR w * / INR w))
        with ((INR w * / INR w) * (INR w * / INR w)) in H by ring.
      rewrite Hii in H. lra.
    + assert (INR w * (/ INR w * / INR w) <= q * (/ INR w * / INR w)).
      { apply Rmult_le_compat_r; [nra | exact Q1]. }
      replace (INR w * (/ INR w * / INR w)) with ((INR w * / INR w) * / INR w) in H by ring.
      rewrite Hii in H. unfold Rdiv. lra.
  - rewrite Rplus_0_l.
    set (s := total (map (fun c => c * ln (c / INR w)) cs)).
    assert (Hs : - (total cs * ln (INR w)) <= s <= 0).
    { unfold s. split.
      - replace (- (total cs * ln (INR w)))
          with (total (map (fun c => c * - ln (INR w)) cs)).
        2:{ rewrite (total_scaled (fun c => c)), map_id. ring. }
        apply total_map_le. rewrite Forall_forall in Hb. apply Forall_forall.
        intros c Hc. specialize (Hb c Hc).
        unfold Rdiv. rewrite ln_mult by (try apply Rinv_0_lt_compat; lra).
        rewrite ln_Rinv by lra.
        assert (0 <= ln c).
        { rewrite <- ln_1. destruct (Req_dec c 1) as [-> | N]; [lra |].
          left. apply ln_increasing; lra. }
        nra.
      - replace 0 with (total (map (fun c : R => 0) cs)).
        2:{ clear. induction cs as [| c cs IH]; cbn [map total fold_right]; [reflexivity |].
            fold (total (map (fun _ : R => 0) cs)). rewrite IH. lra. }
        apply total_map_le. rewrite Forall_forall in Hb. apply Forall_forall.
        intros c Hc. specialize (Hb c Hc).
        assert (ln (c / INR w) <= 0).
        { rewrite <- ln_1. destruct (Req_dec (c / INR w) 1) as [-> | N]; [lra |].
          left. apply ln_increasing; [apply Rdiv_lt_0_compat; lra |].
          assert (c / INR w <= 1).
          { apply (Rmult_le_reg_r (INR w)); [lra |].
            unfold Rdiv. rewrite Rmult_assoc, Rinv_l by lra. lra. }
          lra. }
        nra. }
    rewrite S in Hs.
    assert (Hi : 0 < / INR w) by (apply Rinv_0_lt_compat; lra).
    assert (Hl : 0 < / ln 2) by (apply Rinv_0_lt_compat; lra).
    assert (Hp : 0 < / INR w * / ln 2) by (apply Rmult_lt_0_compat; assumption).
    split.
    + assert (s * (/ INR w * / ln 2) <= 0 * (/ INR w * / ln 2)).
      { apply Rmult_le_compat_r; lra. }
      lra.
    + assert (- (INR w * ln (INR w)) * (/ INR w * / ln 2) <= s * (/ INR w * / ln 2)).
      { apply Rmult_le_compat_r; lra. }
      replace (- (INR w * ln (INR w)) * (/ INR w * / ln 2))
        with (- ((INR w * / INR w) * (ln (INR w) * / ln 2))) in H by ring.
      rewrite Rinv_r in H by lra. unfold Rdiv. lra.
Qed.

Lemma window_length (column : list T) (k w : nat) :
  (k + w <= length column)%nat -> length (window column k w) = w.
Proof.
  intros H. unfold window. rewrite length_firstn, length_skipn. lia.
Qed.

End Counts.

(** X19.  For 1 <= roll_count <= n the result holds one value per window,
    in order: the impurity of the frequency table of the roll_count elements
    from position k on, for k from 0 to n - roll_count (one window fewer when
    roll_count = 1, the loop running from 1 to below n).  The frequency table
    of a list holds, for each key, the number of its occurrences, and no
    entry for a key that does not occur; so the table the loop slides along
    the column, by one removal and one insertion a step, stands at every
    step for the window. *)
Theorem impurity_rolling_windows (T : Type) (T_eqb : T -> T -> bool) (T_default : T)
  (v : ImpurityVisitor.t) (column : list T) :
  (forall a b, T_eqb a b = true <-> a = b) ->
  (1 <= ImpurityVisitor.roll_count_ v <= length column)%nat ->
  let w := ImpurityVisitor.roll_count_ v in
  ImpurityVisitor.result_ (ImpurityVisitor.call T_eqb T_default v column)
  = map (fun k => ImpurityVisitor.measure (ImpurityVisitor.imt_ v) w
                    (ImpurityVisitor.tally T_eqb (ImpurityVisitor.window column k w)))
      (seq 0 (if Nat.eqb w 1 then length column - 1 else length column - w + 1)) /\
  (forall l key,
     ImpurityVisitor.find T_eqb (ImpurityVisitor.tally T_eqb l) key
     = if Nat.eqb (ImpurityVisitor.occurrences T_eqb key l) 0 then None
       else Some (Fin (INR (ImpurityVisitor.occurrences T_eqb key l)))).
Proof.
  intros Hspec Hw w. split.
  - apply call_spec; assumption.
  - intros l key. apply (@tally_tallied T T_eqb Hspec l).
Qed.

Lemma impurity_rolling_windows_witness :
  let v := ImpurityVisitor.mk 2 ImpurityVisitor.gini_index [] in
  let w := ImpurityVisitor.roll_count_ v in
  ImpurityVisitor.result_ (ImpurityVisitor.call Z.eqb 0%Z v ImpurityVisitor.labels)
  = map (fun k => ImpurityVisitor.measure (ImpurityVisitor.imt_ v) w
                    (ImpurityVisitor.tally Z.eqb
                       (ImpurityVisitor.window ImpurityVisitor.labels k w)))
      (seq 0 (if Nat.eqb w 1 then length ImpurityVisitor.labels - 1
              else length ImpurityVisitor.labels - w + 1)) /\
  (forall l key,
     ImpurityVisitor.find Z.eqb (ImpurityVisitor.tally Z.eqb l) key
     = if Nat.eqb (ImpurityVisitor.occurrences Z.eqb key l) 0 then None
       else Some (Fin (INR (ImpurityVisitor.occurrences Z.eqb key l)))).
Proof.
  apply (@impurity_rolling_windows Z Z.eqb 0%Z
           (ImpurityVisitor.mk 2 ImpurityVisitor.gini_index []) ImpurityVisitor.labels).
  - exact Z.eqb_eq.
  - cbn. lia.
Defined.

(** X20.  In exact arithmetic (a [double] carried as a real number, no
    rounding) every value of the result lies in the range of its measure: a
    Gini index between 0 and 1 - 1 / roll_count, an entropy between 0 and
    log2 roll_count. *)
Theorem impurity_bounds (T : Type) (T_eqb : T -> T -> bool) (T_default : T)
  (v : ImpurityVisitor.t) (column : list T) :
  (forall a b, T_eqb a b = true <-> a = b) ->
  (1 <= ImpurityVisitor.roll_count_ v <= length column)%nat ->
  Forall
    (fun d : double =>
       exists x,
         d = Fin x /\
         match ImpurityVisitor.imt_ v with
         | ImpurityVisitor.gini_index =>
             0 <= x <= 1 - 1 / INR (ImpurityVisitor.roll_count_ v)
         | ImpurityVisitor.info_entropy =>
             0 <= x <= ln (INR (ImpurityVisitor.roll_count_ v)) / ln 2
         end)
    (ImpurityVisitor.result_ (ImpurityVisitor.call T_eqb T_default v column)).
Proof.
  intros Hspec Hw.
  rewrite (@call_spec T T_eqb T_default Hspec v column Hw).
  set (w := ImpurityVisitor.roll_count_ v) in *.
  apply Forall_map. apply Forall_forall. intros i Hi. apply in_seq in Hi.
  assert (Hk : (i + w <= length column)%nat).
  { destruct (Nat.eqb_spec w 1); lia. }
  pose proof (window_length column i w Hk) as Hl.
  assert (Hne : ImpurityVisitor.window column i w <> []).
  { intros E. rewrite E in Hl. cbn in Hl. lia. }
  destruct (@measure_bounds T T_eqb Hspec _ Hne) as [g [e [Eg [Ee [Bg Be]]]]].
  rewrite Hl in Eg, Ee, Bg, Be.
  destruct (ImpurityVisitor.imt_ v).
  - exists g. split; [exact Eg | exact Bg].
  - exists e. split; [exact Ee | exact Be].
Qed.

Lemma impurity_bounds_witness :
  Forall
    (fun d : double => exists x, d = Fin x /\ 0 <= x <= ln (INR 2) / ln 2)
    (ImpurityVisitor.result_
       (ImpurityVisitor.call Z.eqb 0%Z
          (ImpurityVisitor.mk 2 ImpurityVisitor.info_entropy [])
          ImpurityVisitor.labels)).
Proof.
  apply (@impurity_bounds Z Z.eqb 0%Z
           (ImpurityVisitor.mk 2 ImpurityVisitor.info_entropy []) ImpurityVisitor.labels).
  - exact Z.eqb_eq.
  - cbn. lia.
Defined.

(* ---------------------------------------------------------------------- *)
(** ** SigmoidVisitor: ranges *)

(** ** Elementary functions *)

Lemma cosh_pos (x : R) : 0 < cosh x.
Proof. unfold cosh. pose proof (exp_pos x). pose proof (exp_pos (- x)). lra. Qed.

Lemma tanh_bound (x : R) : -1 < tanh x < 1.
Proof.
  unfold tanh. pose proof (cosh_pos x) as Hc.
  assert (Hlo : - cosh x < sinh x)
    by (unfold cosh, sinh; pose proof (exp_pos x); lra).
  assert (Hhi : sinh x < cosh x)
    by (unfold cosh, sinh; pose proof (exp_pos (- x)); lra).
  split.
  - apply (Rmult_lt_reg_r (cosh x)); [exact Hc |].
    unfold Rdiv. rewrite Rmult_assoc, Rinv_l by lra. lra.
  - apply (Rmult_lt_reg_r (cosh x)); [exact Hc |].
    unfold Rdiv. rewrite Rmult_assoc, Rinv_l by lra. lra.
Qed.

Lemma dle_true (a b : R) : a <= b -> dle (Fin a) (Fin b) = true.
Proof. intros H. unfold dle. destruct (Rle_dec a b); [reflexivity | contradiction]. Qed.

Lemma dle_false (a b : R) : ~ a <= b -> dle (Fin a) (Fin b) = false.
Proof. intros H. unfold dle. destruct (Rle_dec a b); [contradiction | reflexivity]. Qed.

Section Sigmoid.

Import SigmoidVisitor.

Variable erf : R -> R.

Lemma logistic_value (x : R) :
  apply erf logistic (Fin x) = Fin (1 / (1 + exp (- x))).
Proof.
  unfold apply, dexp. cbn [dneg dlift1 dadd dlift2].
  apply ddiv_fin. pose proof (exp_pos (- x)). lra.
Qed.

Lemma algebraic_value (x : R) :
  apply erf algebraic (Fin x) = Fin (1 / sqrt (1 + x * x)).
Proof.
  unfold apply. cbn [dmul dadd dlift2].
  assert (H : 0 < 1 + x * x) by nra.
  rewrite dsqrt_fin by lra. apply ddiv_fin.
  pose proof (sqrt_lt_R0 _ H). lra.
Qed.

Lemma smoothstep_value (x : R) :
  apply erf smoothstep (Fin x)
  = Fin (if Rle_dec x 0 then 0 else if Rle_dec 1 x then 1 else x * x * (3 - 2 * x)).
Proof.
  unfold apply, dge.
  destruct (Rle_dec x 0) as [H0 | H0].
  - rewrite dle_true by exact H0. reflexivity.
  - rewrite dle_false by exact H0.
    destruct (Rle_dec 1 x) as [H1 | H1].
    + rewrite dle_true by exact H1. reflexivity.
    + rewrite dle_false by exact H1. reflexivity.
Qed.

End Sigmoid.

(** X21.  The sigmoids send NaN to NaN and a finite value to a finite one.
    The logistic value lies in (0, 1) and those at x and -x add up to 1;
    the algebraic one lies in (0, 1], the hyperbolic tangent in (-1, 1), the
    arc tangent and the Gudermannian in (-pi/2, pi/2), smoothstep in [0, 1],
    being 0 up to 0 and 1 from 1 on.  [operator()] appends one value per
    element to the result. *)
Theorem sigmoid_ranges (erf : R -> R) :
  (forall st, SigmoidVisitor.apply erf st NaN = NaN) /\
  (forall st x, exists y, SigmoidVisitor.apply erf st (Fin x) = Fin y) /\
  (forall x, exists y,
     SigmoidVisitor.apply erf SigmoidVisitor.logistic (Fin x) = Fin y /\ 0 < y < 1 /\
     SigmoidVisitor.apply erf SigmoidVisitor.logistic (Fin (- x)) = Fin (1 - y)) /\
  (forall x, exists y,
     SigmoidVisitor.apply erf SigmoidVisitor.algebraic (Fin x) = Fin y /\ 0 < y <= 1) /\
  (forall x, exists y,
     SigmoidVisitor.apply erf SigmoidVisitor.hyperbolic_tan (Fin x) = Fin y /\
     -1 < y < 1) /\
  (forall x, exists y,
     SigmoidVisitor.apply erf SigmoidVisitor.arc_tan (Fin x) = Fin y /\
     - PI / 2 < y < PI / 2) /\
  (forall x, exists y,
     SigmoidVisitor.apply erf SigmoidVisitor.gudermannian (Fin x) = Fin y /\
     - PI / 2 < y < PI / 2) /\
  (forall x, exists y,
     SigmoidVisitor.apply erf SigmoidVisitor.smoothstep (Fin x) = Fin y /\
     0 <= y <= 1 /\ (x <= 0 -> y = 0) /\ (1 <= x -> y = 1)) /\
  (forall v column,
     length (SigmoidVisitor.result_ (SigmoidVisitor.call erf v column))
     = (length (SigmoidVisitor.result_ v) + length column)%nat).
Proof.
  split; [| split; [| split; [| split; [| split; [| split; [| split; [| split]]]]]]].
  - intros []; reflexivity.
  - intros st x. destruct st.
    + rewrite logistic_value. eexists; reflexivity.
    + rewrite algebraic_value. eexists; reflexivity.
    + eexists; reflexivity.
    + eexists; reflexivity.
    + eexists; reflexivity.
    + eexists; reflexivity.
    + rewrite smoothstep_value. eexists; reflexivity.
  - intros x. rewrite !logistic_value. eexists. split; [reflexivity |].
    pose proof (exp_pos (- x)) as Hn. pose proof (exp_pos x) as Hp.
    assert (He : exp (- - x) = / exp (- x)).
    { rewrite (exp_Ropp (- x)). reflexivity. }
    split.
    + split.
      * apply Rdiv_lt_0_compat; lra.
      * apply (Rmult_lt_reg_r (1 + exp (- x))); [lra |].
        unfold Rdiv. rewrite Rmult_assoc, Rinv_l by lra. lra.
    + apply Fin_eq. rewrite He. field. split; lra.
  - intros x. rewrite algebraic_value. eexists. split; [reflexivity |].
    assert (H : 1 <= 1 + x * x) by nra.
    assert (Hs : 1 <= sqrt (1 + x * x)).
    { rewrite <- sqrt_1 at 1. apply sqrt_le_1_alt. exact H. }
    split.
    + apply Rdiv_lt_0_compat; lra.
    + apply (Rmult_le_reg_r (sqrt (1 + x * x))); [lra |].
      unfold Rdiv. rewrite Rmult_assoc, Rinv_l by lra. lra.
  - intros x. eexists. split; [reflexivity | apply tanh_bound].
  - intros x. eexists. split; [reflexivity | apply atan_bound].
  - intros x. eexists. split; [reflexivity | apply atan_bound].
  - intros x. rewrite smoothstep_value. eexists. split; [reflexivity |].
    destruct (Rle_dec x 0) as [H0 | H0]; [repeat split; intros; lra |].
    destruct (Rle_dec 1 x) as [H1 | H1]; [repeat split; intros; lra |].
    assert (Hlo : 0 <= x * x * (3 - 2 * x)) by (apply Rmult_le_pos; nra).
    assert (Hhi : 0 <= (1 - x) * (1 - x) * (1 + 2 * x)) by (apply Rmult_le_pos; nra).
    repeat split; intros; lra.
  - intros v column. unfold SigmoidVisitor.call. cbn [SigmoidVisitor.result_].
    rewrite length_app, length_map. reflexivity.
Qed.

(* ---------------------------------------------------------------------- *)
(** ** RectifyVisitor: the rectifiers *)

Section Rectify.

Import RectifyVisitor.

Variable erf : R -> R.

Lemma softp_value (x p : R) :
  0 < p -> softp_ (Fin x) (Fin p) = Fin (ln (1 + exp (p * x)) / p).
Proof.
  intros Hp. unfold softp_, dexp. cbn [dmul dadd dlift1 dlift2].
  rewrite dlog_fin by (pose proof (exp_pos (p * x)); lra).
  apply ddiv_fin. lra.
Qed.

Lemma softp_above (x p : R) :
  0 < p -> 0 < ln (1 + exp (p * x)) / p /\ x < ln (1 + exp (p * x)) / p.
Proof.
  intros Hp. pose proof (exp_pos (p * x)) as He.
  assert (H0 : 0 < ln (1 + exp (p * x))).
  { rewrite <- ln_1. apply ln_increasing; lra. }
  assert (H1 : p * x < ln (1 + exp (p * x))).
  { rewrite <- (ln_exp (p * x)) at 1. apply ln_increasing; lra. }
  split.
  - apply Rdiv_lt_0_compat; assumption.
  - apply (Rmult_lt_reg_r p); [exact Hp |].
    unfold Rdiv. rewrite Rmult_assoc, Rinv_l by lra. lra.
Qed.

Lemma metallic_value (v : t) (x : R) :
  rtype_ v = metallic_mean ->
  apply erf v (Fin x) = Fin ((x + sqrt (x * x + 4)) / 2).
Proof.
  intros Hv. unfold apply. rewrite Hv. cbn [dmul dadd dlift2].
  rewrite dsqrt_fin by nra. cbn [dadd dlift2]. apply ddiv_fin. lra.
Qed.

Lemma metallic_above (x : R) :
  let m := (x + sqrt (x * x + 4)) / 2 in
  0 < m /\ x < m /\ m * (m - x) = 1.
Proof.
  cbv zeta.
  assert (Hpos : 0 <= x * x + 4) by nra.
  pose proof (sqrt_sqrt _ Hpos) as Hs.
  pose proof (sqrt_pos (x * x + 4)) as Hs0.
  assert (Habs : Rabs x < sqrt (x * x + 4)).
  { rewrite <- sqrt_Rsqr_abs. apply sqrt_lt_1_alt. unfold Rsqr. nra. }
  assert (Hx : - sqrt (x * x + 4) < x < sqrt (x * x + 4)).
  { apply Rabs_def2 in Habs. lra. }
  split; [lra | split; [lra |]].
  set (s := sqrt (x * x + 4)) in *. nra.
Qed.

Lemma silu_loop (column sigm : list double) :
  length sigm = length column ->
  forall result,
    fold_left (fun result i => result ++ [(at_ column i * at_ sigm i)%dbl])
      (seq 0 (length column)) result
    = result ++ map (fun p => (fst p * snd p)%dbl) (combine column sigm).
Proof.
  intros Hlen result.
  assert (E : map (fun p => (fst p * snd p)%dbl) (combine column sigm)
              = map (fun i => (at_ column i * at_ sigm i)%dbl) (seq 0 (length column))).
  { apply (nth_ext _ _ NaN NaN).
    - rewrite !length_map, length_combine, length_seq, Hlen. apply Nat.min_id.
    - intros i Hi. rewrite length_map, length_combine, Hlen, Nat.min_id in Hi.
      rewrite (nth_indep _ NaN ((fun p => (fst p * snd p)%dbl) (NaN, NaN)))
        by (rewrite length_map, length_combine, Hlen, Nat.min_id; exact Hi).
      rewrite (map_nth (fun p => (fst p * snd p)%dbl)).
      rewrite combine_nth by (symmetry; exact Hlen).
      fold (at_ (map (fun i => (at_ column i * at_ sigm i)%dbl) (seq 0 (length column))) i).
      rewrite at_map_seq by exact Hi. reflexivity. }
  rewrite E. generalize (seq 0 (length column)) as l. intros l. revert result.
  induction l as [| i l IH]; intros result; cbn [fold_left map].
  - symmetry. apply app_nil_r.
  - rewrite IH, <- app_assoc. reflexivity.
Qed.

Lemma silu_branch_is_call (v : t) (column : list double) :
  rtype_ v = SiLU -> silu_branch erf v column = call erf v column.
Proof.
  intros Hv. unfold silu_branch, call. f_equal.
  unfold SigmoidVisitor.call, SigmoidVisitor.pre.
  cbn [SigmoidVisitor.result_ SigmoidVisitor.sigmoid_type_ app].
  rewrite silu_loop by apply length_map. f_equal.
  induction column as [| x column IH]; cbn [map combine fst snd]; [reflexivity |].
  rewrite IH. f_equal. unfold apply. rewrite Hv. reflexivity.
Qed.

End Rectify.

(** X22.  ReLU returns x for x > 0 and 0 otherwise, and turns NaN into 0.
    Parametric ReLU with a parameter in [0, 1] returns x for x >= 0 and
    x * param below; ELU returns x for x > 0 and param * (exp x - 1)
    otherwise; both keep NaN. *)
Theorem rectify_relu_family (erf : R -> R) (v : RectifyVisitor.t) :
  (RectifyVisitor.rtype_ v = RectifyVisitor.ReLU ->
   RectifyVisitor.apply erf v NaN = Fin 0 /\
   forall x, RectifyVisitor.apply erf v (Fin x) = Fin (if Rlt_dec 0 x then x else 0)) /\
  (RectifyVisitor.rtype_ v = RectifyVisitor.param_ReLU ->
   RectifyVisitor.apply erf v NaN = NaN /\
   forall p x, RectifyVisitor.param_ v = Fin p -> 0 <= p <= 1 ->
     RectifyVisitor.apply erf v (Fin x) = Fin (if Rle_dec 0 x then x else x * p)) /\
  (RectifyVisitor.rtype_ v = RectifyVisitor.elu ->
   RectifyVisitor.apply erf v NaN = NaN /\
   forall p x, RectifyVisitor.param_ v = Fin p ->
     RectifyVisitor.apply erf v (Fin x)
     = Fin (if Rlt_dec 0 x then x else p * (exp x - 1))).
Proof.
  split; [| split].
  - intros Hv. unfold RectifyVisitor.apply. rewrite Hv. split; [reflexivity |].
    intros x. unfold dmax, dlt. destruct (Rlt_dec 0 x); reflexivity.
  - intros Hv. unfold RectifyVisitor.apply. rewrite Hv. split; [reflexivity |].
    intros p x Hp Hr. rewrite Hp. cbn [dmul dlift2]. unfold dmax, dlt.
    destruct (Rlt_dec (x * p) x) as [Hlt | Hge]; destruct (Rle_dec 0 x) as [H0 | H0];
      try reflexivity; apply Fin_eq; nra.
  - intros Hv. unfold RectifyVisitor.apply. rewrite Hv. split.
    + destruct (RectifyVisitor.param_ v); reflexivity.
    + intros p x Hp. rewrite Hp. unfold dgt, dlt, dexp. cbn [dlift1 dsub dmul dlift2].
      destruct (Rlt_dec 0 x); reflexivity.
Qed.

(** X23.  In exact arithmetic (a [double] carried as a real number, no
    rounding): softplus with a positive parameter is positive and above x;
    the metallic mean m is positive, above x, and solves m (m - x) = 1.
    SiLU returns x times the logistic value of x and keeps NaN; the branch
    of the source, which runs a logistic [SigmoidVisitor] over the column
    and multiplies element by element, computes what [call] does. *)
Theorem rectify_smooth_family (erf : R -> R) (v : RectifyVisitor.t) (x : R) :
  (RectifyVisitor.rtype_ v = RectifyVisitor.softplus ->
   forall p, RectifyVisitor.param_ v = Fin p -> 0 < p ->
     exists y, RectifyVisitor.apply erf v (Fin x) = Fin y /\ 0 < y /\ x < y) /\
  (RectifyVisitor.rtype_ v = RectifyVisitor.metallic_mean ->
   exists m, RectifyVisitor.apply erf v (Fin x) = Fin m /\
             0 < m /\ x < m /\ m * (m - x) = 1) /\
  (RectifyVisitor.rtype_ v = RectifyVisitor.SiLU ->
   RectifyVisitor.apply erf v NaN = NaN /\
   RectifyVisitor.apply erf v (Fin x) = Fin (x * (1 / (1 + exp (- x)))) /\
   forall column,
     RectifyVisitor.silu_branch erf v column = RectifyVisitor.call erf v column).
Proof.
  split; [| split].
  - intros Hv p Hp Hpos. unfold RectifyVisitor.apply. rewrite Hv, Hp.
    rewrite softp_value by exact Hpos. eexists. split; [reflexivity |].
    apply softp_above. exact Hpos.
  - intros Hv. rewrite (metallic_value erf v x Hv). eexists. split; [reflexivity |].
    apply metallic_above.
  - intros Hv. split; [| split].
    + unfold RectifyVisitor.apply. rewrite Hv. reflexivity.
    + unfold RectifyVisitor.apply. rewrite Hv, logistic_value. reflexivity.
    + intros column. apply silu_branch_is_call. exact Hv.
Qed.

(* ---------------------------------------------------------------------- *)
(** ** PolicyLearningLossVisitor: negative log likelihood *)

Section PolicyLoss.

Import PolicyLearningLossVisitor.

Lemma losses_length (action_prob : list double) :
  forall reward,
    length (losses action_prob reward) = Nat.min (length action_prob) (length reward).
Proof.
  induction action_prob as [| ap action_prob IH]; intros [| r reward];
    cbn [losses length Nat.min]; auto.
Qed.

Lemma losses_at (action_prob : list double) :
  forall reward i,
    (i < length action_prob)%nat -> (i < length reward)%nat ->
    at_ (losses action_prob reward) i
    = (- dlog (at_ action_prob i) * at_ reward i)%dbl.
Proof.
  unfold at_.
  induction action_prob as [| ap action_prob IH]; intros [| r reward] i Ha Hr;
    cbn [length] in *; try lia.
  destruct i as [| i]; cbn [losses nth]; [reflexivity |]. apply IH; lia.
Qed.

End PolicyLoss.

(** X24.  The policy learning loss appends one value per pair and keeps
    what the result held.  For a finite pair with probability ap > 0 the
    value is -ln(ap) * r, which is >= 0 when ap <= 1 and r >= 0, and 0 when
    ap = 1. *)
Theorem policy_loss_signs (v : PolicyLearningLossVisitor.t)
  (action_prob reward : list double) :
  length action_prob = length reward ->
  let before := PolicyLearningLossVisitor.result_ v in
  let after :=
    PolicyLearningLossVisitor.result_
      (PolicyLearningLossVisitor.call v action_prob reward) in
  length after = (length before + length action_prob)%nat /\
  firstn (length before) after = before /\
  forall i ap r, (i < length action_prob)%nat ->
    at_ action_prob i = Fin ap -> at_ reward i = Fin r -> 0 < ap ->
    at_ after (length before + i) = Fin (- ln ap * r) /\
    (ap <= 1 -> 0 <= r -> 0 <= - ln ap * r) /\
    (ap = 1 -> - ln ap * r = 0).
Proof.
  intros Hlen. cbv zeta. unfold PolicyLearningLossVisitor.call.
  cbn [PolicyLearningLossVisitor.result_].
  split; [| split].
  - rewrite length_app, losses_length, <- Hlen, Nat.min_id. reflexivity.
  - rewrite firstn_app, Nat.sub_diag, firstn_all. cbn [firstn]. apply app_nil_r.
  - intros i ap r Hi Hap Hr Hpos. split; [| split].
    + unfold at_ at 1. rewrite app_nth2_plus.
      fold (at_ (PolicyLearningLossVisitor.losses action_prob reward) i).
      rewrite losses_at by (rewrite <- ?Hlen; exact Hi).
      rewrite Hap, Hr, dlog_fin by exact Hpos. reflexivity.
    + intros Hle Hr0.
      assert (ln ap <= 0).
      { destruct Hle as [Hlt | ->]; [| rewrite ln_1; lra].
        left. rewrite <- ln_1. apply ln_increasing; assumption. }
      apply Rmult_le_pos; lra.
    + intros ->. rewrite ln_1. lra.
Qed.

Lemma policy_loss_signs_witness :
  let v := PolicyLearningLossVisitor.mk [] in
  let action_prob := [Fin (1 / 2); Fin 1] in
  let reward := [Fin 3; Fin 4] in
  let before := PolicyLearningLossVisitor.result_ v in
  let after :=
    PolicyLearningLossVisitor.result_
      (PolicyLearningLossVisitor.call v action_prob reward) in
  length after = (length before + length action_prob)%nat /\
  firstn (length before) after = before /\
  forall i ap r, (i < length action_prob)%nat ->
    at_ action_prob i = Fin ap -> at_ reward i = Fin r -> 0 < ap ->
    at_ after (length before + i) = Fin (- ln ap * r) /\
    (ap <= 1 -> 0 <= r -> 0 <= - ln ap * r) /\
    (ap = 1 -> - ln ap * r = 0).
Proof.
  apply (@policy_loss_signs (PolicyLearningLossVisitor.mk [])
           [Fin (1 / 2); Fin 1] [Fin 3; Fin 4]).
  reflexivity.
Defined.

(* ---------------------------------------------------------------------- *)
(** ** LossFunctionVisitor: the losses *)

Section Losses.

Import LossFunctionVisitor.

Lemma transform_reduce_fin (f : double -> double -> double) (g : R -> R -> R)
  (actual : list R) :
  forall model acc,
    Forall (fun p => f (Fin (fst p)) (Fin (snd p)) = Fin (g (fst p) (snd p)))
      (combine actual model) ->
    transform_reduce f (map Fin actual) (map Fin model) (Fin acc)
    = Fin (acc + pair_sum g actual model).
Proof.
  unfold pair_sum, total.
  induction actual as [| a actual IH]; intros [| m model] acc H;
    cbn [map transform_reduce combine fold_right]; try (apply Fin_eq; lra).
  cbn [combine] in H. inversion H as [| ? ? Hh Ht]; subst. cbn [fst snd] in Hh.
  rewrite Hh. cbn [dadd dlift2]. rewrite IH by exact Ht. apply Fin_eq.
  cbn [fst snd]. lra.
Qed.

Lemma pair_sum_nonneg (g : R -> R -> R) (actual model : list R) :
  (forall a m, 0 <= g a m) -> 0 <= pair_sum g actual model.
Proof.
  intros Hg. unfold pair_sum, total.
  induction (combine actual model) as [| p l IH]; cbn [map fold_right]; [lra |].
  pose proof (Hg (fst p) (snd p)). lra.
Qed.

Lemma pair_sum_zero (g : R -> R -> R) (actual : list R) :
  (forall a m, 0 <= g a m) -> (forall a m, g a m = 0 <-> a = m) ->
  forall model, length actual = length model ->
    (pair_sum g actual model = 0 <-> actual = model).
Proof.
  intros Hg Hz. unfold pair_sum, total.
  induction actual as [| a actual IH]; intros [| m model] Hlen; try discriminate.
  - cbn. tauto.
  - cbn [combine map fold_right fst snd]. injection Hlen as Hlen.
    pose proof (Hg a m) as H1.
    pose proof (@pair_sum_nonneg g actual model Hg) as H2. unfold pair_sum, total in H2.
    specialize (IH model Hlen). split.
    + intros H. assert (g a m = 0) by lra.
      assert (fold_right Rplus 0 (map (fun p => g (fst p) (snd p)) (combine actual model)) = 0)
        by lra.
      f_equal; [apply Hz; assumption | apply IH; assumption].
    + intros H. injection H as Ha Hm. apply Hz in Ha. apply IH in Hm. lra.
Qed.

Lemma pair_sum_swap (g : R -> R -> R) (actual : list R) :
  (forall a m, g a m = g m a) ->
  forall model, pair_sum g actual model = pair_sum g model actual.
Proof.
  intros Hg. unfold pair_sum, total.
  induction actual as [| a actual IH]; intros [| m model]; cbn [combine map fold_right fst snd];
    try reflexivity.
  rewrite IH, Hg. reflexivity.
Qed.

Lemma mean_value (s : R) (actual : list R) :
  actual <> [] ->
  (Fin s / Fin (INR (length (map Fin actual))))%dbl = Fin (s / INR (length actual)).
Proof.
  intros Hne. rewrite length_map. apply ddiv_fin. apply not_0_INR.
  destruct actual; [contradiction | discriminate].
Qed.

Lemma mean_sign (s : R) (actual : list R) :
  actual <> [] -> 0 <= s ->
  0 <= s / INR (length actual) /\ (s / INR (length actual) = 0 <-> s = 0).
Proof.
  intros Hne Hs.
  assert (Hn : 0 < INR (length actual)).
  { apply lt_0_INR. destruct actual; [contradiction | cbn; lia]. }
  split.
  - apply Rmult_le_pos; [exact Hs | left; apply Rinv_0_lt_compat; exact Hn].
  - split.
    + intros H. apply (f_equal (fun z => z * INR (length actual))) in H.
      unfold Rdiv in H. rewrite Rmult_assoc, Rinv_l, Rmult_1_r, Rmult_0_l in H by lra.
      exact H.
    + intros ->. unfold Rdiv. apply Rmult_0_l.
Qed.

Lemma mae_value (actual model : list R) :
  actual <> [] ->
  loss mean_abs_error (map Fin actual) (map Fin model)
  = Fin (pair_sum (fun a m => Rabs (a - m)) actual model / INR (length actual)).
Proof.
  intros Hne. unfold loss.
  rewrite (@transform_reduce_fin _ (fun a m => Rabs (a - m)))
    by (apply Forall_forall; intros p _; reflexivity).
  rewrite Rplus_0_l. apply mean_value. exact Hne.
Qed.

Lemma mse_value (actual model : list R) :
  actual <> [] ->
  loss mean_sqr_error (map Fin actual) (map Fin model)
  = Fin (pair_sum (fun a m => (a - m) * (a - m)) actual model / INR (length actual)).
Proof.
  intros Hne. unfold loss.
  rewrite (@transform_reduce_fin _ (fun a m => (a - m) * (a - m)))
    by (apply Forall_forall; intros p _; reflexivity).
  rewrite Rplus_0_l. apply mean_value. exact Hne.
Qed.

Lemma mean_errors (actual model : list R) :
  length actual = length model -> actual <> [] ->
  exists mae mse,
    loss mean_abs_error (map Fin actual) (map Fin model) = Fin mae /\
    loss mean_sqr_error (map Fin actual) (map Fin model) = Fin mse /\
    0 <= mae /\ 0 <= mse /\
    (mae = 0 <-> actual = model) /\ (mse = 0 <-> actual = model) /\
    loss mean_abs_error (map Fin model) (map Fin actual) = Fin mae /\
    loss mean_sqr_error (map Fin model) (map Fin actual) = Fin mse.
Proof.
  intros Hlen Hne.
  assert (Hne' : model <> []) by (destruct model; [destruct actual; [contradiction | discriminate] | discriminate]).
  rewrite !mae_value, !mse_value by assumption.
  assert (Ha : forall a m, 0 <= Rabs (a - m)) by (intros; apply Rabs_pos).
  assert (Hs : forall a m, 0 <= (a - m) * (a - m)).
  { intros a m. pose proof (Rle_0_sqr (a - m)) as H. unfold Rsqr in H. exact H. }
  assert (Haz : forall a m, Rabs (a - m) = 0 <-> a = m).
  { intros a m. split.
    - intros H. destruct (Req_dec (a - m) 0) as [E | E]; [lra |].
      apply Rabs_no_R0 in E. contradiction.
    - intros ->. rewrite Rminus_diag. apply Rabs_R0. }
  assert (Hsz : forall a m, (a - m) * (a - m) = 0 <-> a = m).
  { intros a m. split; [| intros ->; ring].
    intros H. apply Rmult_integral in H. lra. }
  destruct (@mean_sign (pair_sum (fun a m => Rabs (a - m)) actual model) actual Hne
              (pair_sum_nonneg _ actual model Ha)) as [Hm0 Hmz].
  destruct (@mean_sign (pair_sum (fun a m => (a - m) * (a - m)) actual model) actual Hne
              (pair_sum_nonneg _ actual model Hs)) as [Hq0 Hqz].
  eexists. eexists. split; [reflexivity | split; [reflexivity |]].
  split; [exact Hm0 | split; [exact Hq0 | split; [| split; [| split]]]].
  - rewrite Hmz. apply pair_sum_zero; assumption.
  - rewrite Hqz. apply pair_sum_zero; assumption.
  - rewrite <- Hlen. f_equal. f_equal. apply pair_sum_swap.
    intros a m. rewrite Rabs_minus_sym. reflexivity.
  - rewrite <- Hlen. f_equal. f_equal. apply pair_sum_swap.
    intros a m. ring.
Qed.

(** *** Kullback-Leibler *)

Lemma ln_below (t : R) : 0 < t -> ln t <= t - 1.
Proof.
  intros Ht. destruct (Req_dec (ln t) 0) as [E | E].
  - assert (t = 1).
    { apply ln_inv; [exact Ht | lra | rewrite ln_1; exact E]. }
    lra.
  - pose proof (exp_ineq1 (ln t) E) as H. rewrite exp_ln in H by exact Ht. lra.
Qed.

Lemma kl_term (a m : R) : 0 < a -> 0 < m -> a - m <= a * ln (a / m).
Proof.
  intros Ha Hm.
  assert (Hq : 0 < m / a) by (apply Rdiv_lt_0_compat; assumption).
  pose proof (ln_below Hq) as H.
  assert (E : ln (a / m) = - ln (m / a)).
  { rewrite <- ln_Rinv by exact Hq. f_equal. field. split; lra. }
  rewrite E.
  assert (a * ln (m / a) <= a * (m / a - 1)) by (apply Rmult_le_compat_l; lra).
  replace (a * (m / a - 1)) with (m - a) in * by (field; lra). lra.
Qed.

Lemma kl_value (actual model : list R) :
  length actual = length model ->
  Forall (fun a => 0 < a) actual -> Forall (fun m => 0 < m) model ->
  loss kullback_leibler (map Fin actual) (map Fin model)
  = Fin (pair_sum (fun a m => a * ln (a / m)) actual model).
Proof.
  intros Hlen Ha Hm. unfold loss.
  rewrite (@transform_reduce_fin _ (fun a m => a * ln (a / m))).
  - apply Fin_eq. lra.
  - apply Forall_forall. intros [a m] Hin. cbn [fst snd].
    assert (Hpa : 0 < a).
    { apply in_combine_l in Hin. rewrite Forall_forall in Ha. apply Ha. exact Hin. }
    assert (Hpm : 0 < m).
    { apply in_combine_r in Hin. rewrite Forall_forall in Hm. apply Hm. exact Hin. }
    rewrite ddiv_fin by lra.
    rewrite dlog_fin by (apply Rdiv_lt_0_compat; assumption). reflexivity.
Qed.

Lemma kl_bound (actual : list R) :
  forall model,
    length actual = length model ->
    Forall (fun a => 0 < a) actual -> Forall (fun m => 0 < m) model ->
    total actual - total model <= pair_sum (fun a m => a * ln (a / m)) actual model.
Proof.
  unfold pair_sum, total.
  induction actual as [| a actual IH]; intros [| m model] Hlen Ha Hm; try discriminate.
  - cbn. lra.
  - cbn [combine map fold_right fst snd]. injection Hlen as Hlen.
    inversion Ha; inversion Hm; subst.
    pose proof (@kl_term a m ltac:(assumption) ltac:(assumption)).
    specialize (IH model Hlen ltac:(assumption) ltac:(assumption)). lra.
Qed.

Lemma kl_self (actual : list R) :
  Forall (fun a => 0 < a) actual ->
  pair_sum (fun a m => a * ln (a / m)) actual actual = 0.
Proof.
  unfold pair_sum, total. induction 1 as [| a actual Ha _ IH]; [reflexivity |].
  cbn [combine map fold_right fst snd]. rewrite IH.
  replace (a / a) with 1 by (field; lra). rewrite ln_1. lra.
Qed.

(** *** Cosine similarity *)

Lemma dot_value (xs ys : list R) :
  dot_prod (map Fin xs) (map Fin ys) = Fin (pair_sum Rmult xs ys).
Proof.
  unfold dot_prod. rewrite (@transform_reduce_fin _ Rmult).
  - apply Fin_eq. lra.
  - apply Forall_forall. intros p _. reflexivity.
Qed.

Lemma quadratic_form (t : R) (xs : list R) :
  forall ys, length xs = length ys ->
    pair_sum (fun a m => (a * t + m) * (a * t + m)) xs ys
    = pair_sum Rmult xs xs * (t * t) + 2 * pair_sum Rmult xs ys * t
      + pair_sum Rmult ys ys.
Proof.
  unfold pair_sum, total.
  induction xs as [| x xs IH]; intros [| y ys] Hlen; try discriminate.
  - cbn. lra.
  - cbn [combine map fold_right fst snd]. injection Hlen as Hlen.
    rewrite (IH ys Hlen). ring.
Qed.

Lemma cauchy_schwarz (xs ys : list R) :
  length xs = length ys ->
  pair_sum Rmult xs ys * pair_sum Rmult xs ys
  <= pair_sum Rmult xs xs * pair_sum Rmult ys ys.
Proof.
  intros Hlen.
  set (A := pair_sum Rmult xs xs). set (B := pair_sum Rmult ys ys).
  set (C := pair_sum Rmult xs ys).
  assert (HA : 0 <= A).
  { unfold A, pair_sum, total. clear. induction xs as [| x xs IH]; cbn; [lra |].
    cbn in IH. pose proof (Rle_0_sqr x) as H. unfold Rsqr in H. lra. }
  assert (HB : 0 <= B).
  { unfold B, pair_sum, total. clear. induction ys as [| y ys IH]; cbn; [lra |].
    cbn in IH. pose proof (Rle_0_sqr y) as H. unfold Rsqr in H. lra. }
  assert (Hq : forall t, 0 <= A * (t * t) + 2 * C * t + B).
  { intros t. unfold A, B, C. rewrite <- quadratic_form by exact Hlen.
    apply pair_sum_nonneg. intros a m.
    pose proof (Rle_0_sqr (a * t + m)) as H. unfold Rsqr in H. exact H. }
  destruct (Req_dec A 0) as [HA0 | HA0].
  - (* a zero first vector: the form is linear and bounded below *)
    assert (HC : C = 0).
    { destruct (Req_dec C 0) as [E | E]; [exact E | exfalso].
      pose proof (Hq (- (B + 1) / (2 * C))) as H. rewrite HA0 in H.
      replace (0 * (- (B + 1) / (2 * C) * (- (B + 1) / (2 * C)))
               + 2 * C * (- (B + 1) / (2 * C)) + B) with (-1) in H by (field; exact E).
      lra. }
    rewrite HC, HA0. lra.
  - pose proof (Hq (- C / A)) as H.
    replace (A * (- C / A * (- C / A)) + 2 * C * (- C / A) + B)
      with ((A * B - C * C) / A) in H by (field; exact HA0).
    assert (0 < A) by lra.
    assert (0 <= (A * B - C * C) / A * A) by (apply Rmult_le_pos; lra).
    replace ((A * B - C * C) / A * A) with (A * B - C * C) in * by (field; exact HA0).
    lra.
Qed.

Lemma cosine_value (actual model : list R) :
  0 < pair_sum Rmult actual actual -> 0 < pair_sum Rmult model model ->
  loss cosine_similarity (map Fin actual) (map Fin model)
  = Fin (pair_sum Rmult actual model
         / (sqrt (pair_sum Rmult actual actual) * sqrt (pair_sum Rmult model model))).
Proof.
  intros Ha Hm. unfold loss. rewrite !dot_value, !dsqrt_fin by lra.
  cbn [dmul dlift2]. apply ddiv_fin.
  pose proof (sqrt_lt_R0 _ Ha). pose proof (sqrt_lt_R0 _ Hm).
  apply Rmult_integral_contrapositive_currified; lra.
Qed.

Lemma cosine_bound (A B C : R) :
  0 < A -> 0 < B -> C * C <= A * B ->
  -1 <= C / (sqrt A * sqrt B) <= 1.
Proof.
  intros HA HB H.
  pose proof (sqrt_lt_R0 _ HA) as Ha. pose proof (sqrt_lt_R0 _ HB) as Hb.
  assert (Hs : (sqrt A * sqrt B) * (sqrt A * sqrt B) = A * B).
  { replace (sqrt A * sqrt B * (sqrt A * sqrt B))
      with ((sqrt A * sqrt A) * (sqrt B * sqrt B)) by ring.
    rewrite !sqrt_sqrt by lra. reflexivity. }
  set (S := sqrt A * sqrt B) in *.
  assert (HS : 0 < S) by (unfold S; apply Rmult_lt_0_compat; assumption).
  assert (Habs : - S <= C <= S).
  { split.
    - destruct (Rle_lt_dec (- S) C) as [Hle | Hlt]; [exact Hle | exfalso].
      assert (S * S < C * C) by nra. lra.
    - destruct (Rle_lt_dec C S) as [Hle | Hlt]; [exact Hle | exfalso].
      assert (S * S < C * C) by nra. lra. }
  split.
  - apply (Rmult_le_reg_r S); [exact HS |].
    unfold Rdiv. rewrite Rmult_assoc, Rinv_l by lra. lra.
  - apply (Rmult_le_reg_r S); [exact HS |].
    unfold Rdiv. rewrite Rmult_assoc, Rinv_l by lra. lra.
Qed.

Lemma pair_sum_scaled (k : R) (xs : list R) :
  pair_sum Rmult xs (map (Rmult k) xs) = k * pair_sum Rmult xs xs /\
  pair_sum Rmult (map (Rmult k) xs) (map (Rmult k) xs) = k * k * pair_sum Rmult xs xs.
Proof.
  unfold pair_sum, total. induction xs as [| x xs [IH1 IH2]]; cbn; [lra |].
  cbn in IH1, IH2. rewrite IH1, IH2. lra.
Qed.

(** *** NaN in, NaN out *)

Lemma transform_reduce_nan (f : double -> double -> double) (actual : list double) :
  forall model, transform_reduce f actual model NaN = NaN.
Proof.
  induction actual as [| a actual IH]; intros [| m model]; cbn [transform_reduce];
    try reflexivity.
  apply IH.
Qed.

Lemma transform_reduce_poisoned (f : double -> double -> double) :
  (forall m, f NaN m = NaN) -> (forall a, f a NaN = NaN) ->
  forall actual model i acc,
    (i < length actual)%nat -> (i < length model)%nat ->
    at_ actual i = NaN \/ at_ model i = NaN ->
    transform_reduce f actual model acc = NaN.
Proof.
  intros Hl Hr. unfold at_.
  induction actual as [| a actual IH]; intros [| m model] i acc Ha Hm Hnan;
    cbn [length] in *; try lia.
  cbn [transform_reduce]. destruct i as [| i].
  - cbn [nth] in Hnan. destruct Hnan as [-> | ->].
    + rewrite Hl. replace (acc + NaN)%dbl with NaN by (destruct acc; reflexivity).
      apply transform_reduce_nan.
    + rewrite Hr. replace (acc + NaN)%dbl with NaN by (destruct acc; reflexivity).
      apply transform_reduce_nan.
  - apply (IH model i); [lia | lia | exact Hnan].
Qed.

Lemma loss_poisoned (lft : loss_function_type) (actual model : list double) (i : nat) :
  length actual = length model -> (i < length actual)%nat ->
  at_ actual i = NaN \/ at_ model i = NaN ->
  loss lft actual model = NaN.
Proof.
  intros Hlen Hi Hnan.
  assert (Hm : (i < length model)%nat) by (rewrite <- Hlen; exact Hi).
  assert (P : forall f, (forall m, f NaN m = NaN) -> (forall a, f a NaN = NaN) ->
            transform_reduce f actual model (Fin 0) = NaN).
  { intros f Hl Hr. apply (@transform_reduce_poisoned f Hl Hr actual model i); assumption. }
  assert (Strict2 : forall x, (x * NaN)%dbl = NaN) by (intros []; reflexivity).
  assert (StrictS : forall x, (x - NaN)%dbl = NaN) by (intros []; reflexivity).
  assert (StrictA : forall x, (x + NaN)%dbl = NaN) by (intros []; reflexivity).
  assert (StrictD : forall x, (x / NaN)%dbl = NaN) by (intros []; reflexivity).
  unfold loss. destruct lft.
  - apply P; intros; cbn; rewrite ?StrictD; cbn; rewrite ?Strict2; reflexivity.
  - rewrite P; [reflexivity | |]; intros; rewrite ?StrictS; reflexivity.
  - rewrite P; [reflexivity | |]; intros; rewrite ?StrictS; cbn; rewrite ?Strict2; reflexivity.
  - rewrite P; [reflexivity | |]; intros; cbn; rewrite ?StrictA; cbn; rewrite ?StrictS;
      cbn; rewrite ?Strict2; reflexivity.
  - rewrite P; [reflexivity | |]; intros; cbn; rewrite ?Strict2; reflexivity.
  - rewrite P; [reflexivity | |]; intros; cbn; rewrite ?StrictS; cbn;
      rewrite ?Strict2; cbn; rewrite ?StrictA; reflexivity.
  - rewrite P; [reflexivity | |]; intros; cbn; rewrite ?Strict2; reflexivity.
  - unfold dot_prod at 1. rewrite P; [reflexivity | |]; intros; cbn; rewrite ?Strict2; reflexivity.
  - rewrite P; [reflexivity | |]; intros; rewrite ?StrictS; reflexivity.
Qed.

End Losses.

(** X25.  In exact arithmetic (a [double] carried as a real number, no
    rounding), on two non-empty columns of finite values of the same length
    the mean absolute error and the mean squared error are >= 0, are 0
    exactly when the columns are equal, and do not change when the columns
    are swapped. *)
Theorem loss_mean_errors (actual model : list R) :
  length actual = length model -> actual <> [] ->
  exists mae mse,
    LossFunctionVisitor.loss LossFunctionVisitor.mean_abs_error
      (map Fin actual) (map Fin model) = Fin mae /\
    LossFunctionVisitor.loss LossFunctionVisitor.mean_sqr_error
      (map Fin actual) (map Fin model) = Fin mse /\
    0 <= mae /\ 0 <= mse /\
    (mae = 0 <-> actual = model) /\ (mse = 0 <-> actual = model) /\
    LossFunctionVisitor.loss LossFunctionVisitor.mean_abs_error
      (map Fin model) (map Fin actual) = Fin mae /\
    LossFunctionVisitor.loss LossFunctionVisitor.mean_sqr_error
      (map Fin model) (map Fin actual) = Fin mse.
Proof. apply mean_errors. Qed.

Lemma loss_mean_errors_witness :
  exists mae mse,
    LossFunctionVisitor.loss LossFunctionVisitor.mean_abs_error
      (map Fin [1; 2]) (map Fin [1; 4]) = Fin mae /\
    LossFunctionVisitor.loss LossFunctionVisitor.mean_sqr_error
      (map Fin [1; 2]) (map Fin [1; 4]) = Fin mse /\
    0 <= mae /\ 0 <= mse /\
    (mae = 0 <-> [1; 2] = [1; 4]) /\ (mse = 0 <-> [1; 2] = [1; 4]) /\
    LossFunctionVisitor.loss LossFunctionVisitor.mean_abs_error
      (map Fin [1; 4]) (map Fin [1; 2]) = Fin mae /\
    LossFunctionVisitor.loss LossFunctionVisitor.mean_sqr_error
      (map Fin [1; 4]) (map Fin [1; 2]) = Fin mse.
Proof.
  apply (@loss_mean_errors [1; 2] [1; 4]).
  - reflexivity.
  - discriminate.
Defined.

(** X26.  Kullback-Leibler on columns of positive values, in exact
    arithmetic (a [double] carried as a real number, no rounding): the loss
    is at least sum(actual) - sum(model), hence >= 0 when the two sums are
    equal (Gibbs' inequality), and it is 0 of a column against itself. *)
Theorem loss_kullback_leibler_gibbs (actual model : list R) :
  length actual = length model ->
  Forall (fun a => 0 < a) actual -> Forall (fun m => 0 < m) model ->
  exists kl,
    LossFunctionVisitor.loss LossFunctionVisitor.kullback_leibler
      (map Fin actual) (map Fin model) = Fin kl /\
    total actual - total model <= kl /\
    (total actual = total model -> 0 <= kl) /\
    LossFunctionVisitor.loss LossFunctionVisitor.kullback_leibler
      (map Fin actual) (map Fin actual) = Fin 0.
Proof.
  intros Hlen Ha Hm. rewrite (kl_value Hlen Ha Hm).
  pose proof (kl_bound Hlen Ha Hm) as Hb.
  eexists. split; [reflexivity | split; [exact Hb | split]].
  - intros E. lra.
  - rewrite (kl_value eq_refl Ha Ha), kl_self by exact Ha. reflexivity.
Qed.

Lemma loss_kullback_leibler_gibbs_witness :
  exists kl,
    LossFunctionVisitor.loss LossFunctionVisitor.kullback_leibler
      (map Fin [1; 3]) (map Fin [2; 2]) = Fin kl /\
    total [1; 3] - total [2; 2] <= kl /\
    (total [1; 3] = total [2; 2] -> 0 <= kl) /\
    LossFunctionVisitor.loss LossFunctionVisitor.kullback_leibler
      (map Fin [1; 3]) (map Fin [1; 3]) = Fin 0.
Proof.
  apply (@loss_kullback_leibler_gibbs [1; 3] [2; 2]).
  - reflexivity.
  - repeat constructor; lra.
  - repeat constructor; lra.
Defined.

(** X27.  In exact arithmetic (a [double] carried as a real number, no
    rounding) the cosine similarity of two columns neither of which is all
    zeros is dot(a, m) / (|a| |m|), lies in [-1, 1], and is 1 of a column
    against a positive multiple of itself. *)
Theorem loss_cosine_bounds (actual model : list R) :
  length actual = length model ->
  0 < LossFunctionVisitor.pair_sum Rmult actual actual ->
  0 < LossFunctionVisitor.pair_sum Rmult model model ->
  exists c,
    LossFunctionVisitor.loss LossFunctionVisitor.cosine_similarity
      (map Fin actual) (map Fin model) = Fin c /\
    c = LossFunctionVisitor.pair_sum Rmult actual model
        / (sqrt (LossFunctionVisitor.pair_sum Rmult actual actual)
           * sqrt (LossFunctionVisitor.pair_sum Rmult model model)) /\
    -1 <= c <= 1 /\
    (forall k, 0 < k ->
       LossFunctionVisitor.loss LossFunctionVisitor.cosine_similarity
         (map Fin actual) (map Fin (map (Rmult k) actual)) = Fin 1).
Proof.
  intros Hlen Ha Hm. rewrite (cosine_value _ _ Ha Hm).
  eexists. split; [reflexivity | split; [reflexivity | split]].
  - apply cosine_bound; [exact Ha | exact Hm | apply cauchy_schwarz; exact Hlen].
  - intros k Hk. destruct (pair_sum_scaled k actual) as [E1 E2].
    assert (Hk2 : 0 < LossFunctionVisitor.pair_sum Rmult (map (Rmult k) actual)
                        (map (Rmult k) actual)).
    { rewrite E2. apply Rmult_lt_0_compat; [nra | exact Ha]. }
    rewrite (cosine_value _ _ Ha Hk2), E1, E2. apply Fin_eq.
    set (A := LossFunctionVisitor.pair_sum Rmult actual actual) in *.
    rewrite sqrt_mult by nra.
    replace (k * k) with (k²) by (unfold Rsqr; ring).
    rewrite sqrt_Rsqr by lra.
    pose proof (sqrt_lt_R0 _ Ha) as Hs.
    assert (Hss : sqrt A * sqrt A = A) by (apply sqrt_sqrt; lra).
    rewrite <- Hss at 1. field. split; lra.
Qed.

Lemma loss_cosine_bounds_witness :
  exists c,
    LossFunctionVisitor.loss LossFunctionVisitor.cosine_similarity
      (map Fin [1; 2]) (map Fin [3; 1]) = Fin c /\
    c = LossFunctionVisitor.pair_sum Rmult [1; 2] [3; 1]
        / (sqrt (LossFunctionVisitor.pair_sum Rmult [1; 2] [1; 2])
           * sqrt (LossFunctionVisitor.pair_sum Rmult [3; 1] [3; 1])) /\
    -1 <= c <= 1 /\
    (forall k, 0 < k ->
       LossFunctionVisitor.loss LossFunctionVisitor.cosine_similarity
         (map Fin [1; 2]) (map Fin (map (Rmult k) [1; 2])) = Fin 1).
Proof.
  apply (@loss_cosine_bounds [1; 2] [3; 1]).
  - reflexivity.
  - unfold LossFunctionVisitor.pair_sum, total. cbn. lra.
  - unfold LossFunctionVisitor.pair_sum, total. cbn. lra.
Defined.

(** X28.  Degenerate inputs.  On empty columns the losses that divide by
    the size, and the cosine similarity, are NaN (0 / 0), Kullback-Leibler is
    0 and the categorical hinge is 1.  A NaN anywhere in either column makes
    every loss NaN.  The cosine similarity of an all-zero first column is
    NaN. *)
Theorem loss_degenerate_inputs :
  (forall lft,
     LossFunctionVisitor.loss lft [] []
     = match lft with
       | LossFunctionVisitor.kullback_leibler => Fin 0
       | LossFunctionVisitor.categorical_hinge => Fin 1
       | _ => NaN
       end) /\
  (forall lft actual model i,
     length actual = length model -> (i < length actual)%nat ->
     at_ actual i = NaN \/ at_ model i = NaN ->
     LossFunctionVisitor.loss lft actual model = NaN) /\
  (forall actual model : list R,
     LossFunctionVisitor.pair_sum Rmult actual actual = 0 ->
     LossFunctionVisitor.loss LossFunctionVisitor.cosine_similarity
       (map Fin actual) (map Fin model) = NaN).
Proof.
  assert (Hz : (Fin 0 / Fin (INR 0))%dbl = NaN).
  { unfold ddiv. cbn [INR]. destruct (Req_dec_T 0 0) as [_ | N]; [reflexivity | contradiction]. }
  split; [| split].
  - intros lft. unfold LossFunctionVisitor.loss.
    cbn [length LossFunctionVisitor.transform_reduce LossFunctionVisitor.dot_prod].
    destruct lft; rewrite ?Hz; try reflexivity.
    + cbn [dsub dadd dlift2]. unfold dmax. rewrite dlt_false by lra.
      apply Fin_eq. lra.
    + rewrite dsqrt_fin by lra. cbn [dmul dlift2]. rewrite sqrt_0, Rmult_0_l.
      unfold ddiv. destruct (Req_dec_T 0 0) as [_ | N]; [reflexivity | contradiction].
  - intros lft actual model i. apply loss_poisoned.
  - intros actual model Hz0. unfold LossFunctionVisitor.loss.
    rewrite !dot_value, Hz0.
    assert (Hm : 0 <= LossFunctionVisitor.pair_sum Rmult model model).
    { apply Rle_trans with
        (LossFunctionVisitor.pair_sum Rmult model model
         * LossFunctionVisitor.pair_sum Rmult model model
         - LossFunctionVisitor.pair_sum Rmult model model
           * LossFunctionVisitor.pair_sum Rmult model model
         + 0).
      - lra.
      - rewrite Rplus_0_r, Rminus_diag.
        unfold LossFunctionVisitor.pair_sum, total. clear.
        induction model as [| m model IH]; cbn; [lra |].
        cbn in IH. pose proof (Rle_0_sqr m) as H. unfold Rsqr in H. lra. }
    rewrite !dsqrt_fin by lra. cbn [dmul dlift2]. rewrite sqrt_0, Rmult_0_l.
    unfold ddiv. destruct (Req_dec_T 0 0) as [_ | N]; [reflexivity | contradiction].
Qed.

(** X29.  The binary cross entropy adds (1 - a) ln(1 - m) to -a ln m.  In
    exact arithmetic (a [double] carried as a real number, no rounding), for
    model values in (0, 1) it is the mean of ln(1 - m), which is negative,
    when all actual values are 0, and the mean of -ln m, which is positive,
    when they are all 1. *)
Theorem loss_binary_cross_entropy_sign (model : list R) :
  model <> [] -> Forall (fun m => 0 < m < 1) model ->
  let n := length model in
  exists b0 b1,
    LossFunctionVisitor.loss LossFunctionVisitor.binary_cross_entropy
      (map Fin (repeat 0 n)) (map Fin model) = Fin b0 /\
    LossFunctionVisitor.loss LossFunctionVisitor.binary_cross_entropy
      (map Fin (repeat 1 n)) (map Fin model) = Fin b1 /\
    b0 = total (map (fun m => ln (1 - m)) model) / INR n /\
    b1 = total (map (fun m => - ln m) model) / INR n /\
    b0 < 0 /\ 0 < b1.
Proof.
  intros Hne Hm n.
  assert (Hn : 0 < INR n).
  { apply lt_0_INR. unfold n. destruct model; [contradiction | cbn; lia]. }
  assert (Hlen : forall a : R, length (map Fin (repeat a n)) = n)
    by (intros a; rewrite length_map; apply repeat_length).
  assert (Hsum : forall (a : R) (g : R -> R),
            (forall m, 0 < m < 1 ->
               (- (Fin a * dlog (Fin m)) + (Fin 1 - Fin a) * dlog (Fin 1 - Fin m))%dbl
               = Fin (g m)) ->
            LossFunctionVisitor.loss LossFunctionVisitor.binary_cross_entropy
              (map Fin (repeat a n)) (map Fin model)
            = Fin (total (map g model) / INR n)).
  { intros a g Hg. unfold LossFunctionVisitor.loss. rewrite Hlen.
    rewrite (@transform_reduce_fin _ (fun _ m => g m)).
    - rewrite ddiv_fin by lra. apply Fin_eq. f_equal. rewrite Rplus_0_l.
      unfold LossFunctionVisitor.pair_sum. f_equal. unfold n. clear.
      induction model as [| m model IH]; cbn [length repeat combine map]; [reflexivity |].
      f_equal. exact IH.
    - apply Forall_forall. intros [x m] Hin. cbn [fst snd].
      assert (Hx : x = a) by (apply in_combine_l in Hin; apply repeat_spec in Hin; exact Hin).
      subst x. apply Hg. apply in_combine_r in Hin.
      rewrite Forall_forall in Hm. apply Hm. exact Hin. }
  assert (Hneg : forall l : list R, l <> [] -> Forall (fun x => x < 0) l -> total l < 0).
  { intros l Hl Hf. unfold total. induction Hf as [| x l Hx Hf IH]; [contradiction |].
    cbn [fold_right]. destruct l as [| y l]; [cbn; lra |].
    specialize (IH ltac:(discriminate)). lra. }
  exists (total (map (fun m => ln (1 - m)) model) / INR n),
         (total (map (fun m => - ln m) model) / INR n).
  split; [| split; [| split; [reflexivity | split; [reflexivity | split]]]].
  - apply Hsum. intros m Hm1. rewrite dlog_fin by lra. cbn [dsub dmul dneg dlift2].
    rewrite dlog_fin by lra. cbn [dmul dadd dlift2]. apply Fin_eq. lra.
  - apply Hsum. intros m Hm1. rewrite dlog_fin by lra. cbn [dsub dmul dneg dlift2].
    rewrite dlog_fin by lra. cbn [dmul dadd dlift2]. apply Fin_eq. lra.
  - assert (total (map (fun m => ln (1 - m)) model) < 0).
    { apply Hneg.
      - destruct model; [contradiction | discriminate].
      - apply Forall_map. eapply Forall_impl; [| exact Hm]. intros m Hm1.
        cbv beta. rewrite <- ln_1. apply ln_increasing; lra. }
    apply (Rmult_lt_reg_r (INR n)); [exact Hn |].
    unfold Rdiv. rewrite Rmult_assoc, Rinv_l by lra. lra.
  - assert (total (map (fun m => ln m) model) < 0).
    { apply Hneg.
      - destruct model; [contradiction | discriminate].
      - apply Forall_map. eapply Forall_impl; [| exact Hm]. intros m Hm1.
        cbv beta. rewrite <- ln_1. apply ln_increasing; lra. }
    assert (E : total (map (fun m => - ln m) model) = - total (map (fun m => ln m) model)).
    { unfold total. clear. induction model as [| m model IH]; cbn; [lra |].
      cbn in IH. rewrite IH. lra. }
    rewrite E. apply (Rmult_lt_reg_r (INR n)); [exact Hn |].
    unfold Rdiv. rewrite Rmult_assoc, Rinv_l by lra. lra.
Qed.

Lemma loss_binary_cross_entropy_sign_witness :
  let model := [1 / 2; 1 / 4] in
  let n := length model in
  exists b0 b1,
    LossFunctionVisitor.loss LossFunctionVisitor.binary_cross_entropy
      (map Fin (repeat 0 n)) (map Fin model) = Fin b0 /\
    LossFunctionVisitor.loss LossFunctionVisitor.binary_cross_entropy
      (map Fin (repeat 1 n)) (map Fin model) = Fin b1 /\
    b0 = total (map (fun m => ln (1 - m)) model) / INR n /\
    b1 = total (map (fun m => - ln m) model) / INR n /\
    b0 < 0 /\ 0 < b1.
Proof.
  apply (@loss_binary_cross_entropy_sign [1 / 2; 1 / 4]).
  - discriminate.
  - repeat constructor; lra.
Defined.
